(** * Fish Tank Donk: the 3D core (math3d, transform, renderer)

    A shallow embedding of [src/core/math3d.py], [src/core/transform.py] and
    [src/core/renderer.py], and the properties of the specification checked
    against it.

    Numbers.  Python [float] values are modelled by the real numbers [R]:
    every arithmetic operation is the exact one, so rounding and overflow are
    outside this model.  Python raises [ZeroDivisionError] on a float division
    by zero and [ValueError] on the square root of a negative number; where the
    source guards the operation the total operation of [R] is used, and where
    it does not the function returns [option] and [None] stands for the
    exception.  Python [int] values are modelled by [Z].

    Doubles.  The functions of which a property depends on rounding or
    overflow are modelled a second time over binary64 numbers, in the module
    [Double].

    Objects.  [Vector3], [Quaternion] and [Matrix4] are used by value.
    [Transform] objects refer to each other (parent, children), so they live
    in a store indexed by object identity. *)

From Stdlib Require Import Floats.
From Stdlib Require Import Reals Lra Lia ZArith List Bool String Ascii RNsatz.
From stdpp Require Import gmap list.

Open Scope R_scope.

(** ** math3d.py: constants and scalar helpers *)

Definition EPSILON : R := 1e-10.
Definition DEG_TO_RAD : R := PI / 180.

(** Python's [max(a, b)] keeps [a] unless [b > a]; [min(a, b)] keeps [a]
    unless [b < a]. *)
Definition py_max (a b : R) : R := if Rlt_dec a b then b else a.
Definition py_min (a b : R) : R := if Rlt_dec b a then b else a.

(** The comparison [a < b] on floats, as a boolean. *)
Definition Rltb (a b : R) : bool := if Rlt_dec a b then true else false.

Definition lerp (a b t : R) : R := a + (b - a) * t.

Definition clamp (value min_val max_val : R) : R :=
  py_max min_val (py_min max_val value).

(** Float division as Python performs it when nothing guards the divisor. *)
Definition py_div (a b : R) : option R :=
  if Req_dec_T b 0 then None else Some (a / b).

(** [math.sqrt], which raises on a negative argument. *)
Definition py_sqrt (a : R) : option R :=
  if Rlt_dec a 0 then None else Some (sqrt a).

(** [int(x)] on a float: truncation towards zero. *)
Definition py_int (x : R) : Z :=
  if Rle_dec 0 x then Int_part x else (- Int_part (- x))%Z.

(** ** math3d.py: Vector3 *)

Record Vector3 : Type := mkVector3 { vx : R; vy : R; vz : R }.

Definition Vector3_zero : Vector3 := mkVector3 0 0 0.
Definition Vector3_one : Vector3 := mkVector3 1 1 1.
Definition Vector3_up : Vector3 := mkVector3 0 1 0.

Definition Vector3_magnitude (v : Vector3) : R :=
  sqrt (vx v * vx v + vy v * vy v + vz v * vz v).

Definition Vector3_magnitude_squared (v : Vector3) : R :=
  vx v * vx v + vy v * vy v + vz v * vz v.

Definition Vector3_normalized (v : Vector3) : Vector3 :=
  let mag := Vector3_magnitude v in
  if Rlt_dec mag EPSILON then Vector3_zero
  else mkVector3 (vx v / mag) (vy v / mag) (vz v / mag).

Definition Vector3_dot (a b : Vector3) : R :=
  vx a * vx b + vy a * vy b + vz a * vz b.

Definition Vector3_cross (a b : Vector3) : Vector3 :=
  mkVector3 (vy a * vz b - vz a * vy b)
            (vz a * vx b - vx a * vz b)
            (vx a * vy b - vy a * vx b).

Definition Vector3_sub (a b : Vector3) : Vector3 :=
  mkVector3 (vx a - vx b) (vy a - vy b) (vz a - vz b).

(** ** math3d.py: Quaternion (data) *)

Record Quaternion : Type := mkQuaternion { qx : R; qy : R; qz : R; qw : R }.

Definition Quaternion_identity : Quaternion := mkQuaternion 0 0 0 1.

Definition Quaternion_magnitude_squared (q : Quaternion) : R :=
  qx q * qx q + qy q * qy q + qz q * qz q + qw q * qw q.

Definition Quaternion_dot (a b : Quaternion) : R :=
  qx a * qx b + qy a * qy b + qz a * qz b + qw a * qw b.

(** ** math3d.py: Matrix4 *)

(** Sixteen floats, row-major: [mIJ] is [self.m[I][J]]. *)
Record Matrix4 : Type := mkMatrix4 {
  m00 : R; m01 : R; m02 : R; m03 : R;
  m10 : R; m11 : R; m12 : R; m13 : R;
  m20 : R; m21 : R; m22 : R; m23 : R;
  m30 : R; m31 : R; m32 : R; m33 : R }.

Definition Matrix4_identity : Matrix4 :=
  mkMatrix4 1 0 0 0
            0 1 0 0
            0 0 1 0
            0 0 0 1.

Definition Matrix4_zero : Matrix4 :=
  mkMatrix4 0 0 0 0
            0 0 0 0
            0 0 0 0
            0 0 0 0.

(** [copy] rebuilds the rows; by value it is the same matrix. *)
Definition Matrix4_copy (M : Matrix4) : Matrix4 :=
  mkMatrix4 (m00 M) (m01 M) (m02 M) (m03 M)
            (m10 M) (m11 M) (m12 M) (m13 M)
            (m20 M) (m21 M) (m22 M) (m23 M)
            (m30 M) (m31 M) (m32 M) (m33 M).

Definition Matrix4_from_quaternion (q : Quaternion) : Matrix4 :=
  let x := qx q in let y := qy q in let z := qz q in let w := qw q in
  let x2 := x + x in let y2 := y + y in let z2 := z + z in
  let xx := x * x2 in let xy := x * y2 in let xz := x * z2 in
  let yy := y * y2 in let yz := y * z2 in let zz := z * z2 in
  let wx := w * x2 in let wy := w * y2 in let wz := w * z2 in
  mkMatrix4 (1 - (yy + zz)) (xy - wz) (xz + wy) 0
            (xy + wz) (1 - (xx + zz)) (yz - wx) 0
            (xz - wy) (yz + wx) (1 - (xx + yy)) 0
            0 0 0 1.

(** [trs] multiplies the three rows of the rotation block by [scale.x],
    [scale.y], [scale.z] and overwrites the last column. *)
Definition Matrix4_trs (translation : Vector3) (rotation : Quaternion)
    (scale : Vector3) : Matrix4 :=
  let r := Matrix4_copy (Matrix4_from_quaternion rotation) in
  mkMatrix4 (m00 r * vx scale) (m01 r * vx scale) (m02 r * vx scale) (vx translation)
            (m10 r * vy scale) (m11 r * vy scale) (m12 r * vy scale) (vy translation)
            (m20 r * vz scale) (m21 r * vz scale) (m22 r * vz scale) (vz translation)
            (m30 r) (m31 r) (m32 r) (m33 r).

Definition Matrix4_determinant (M : Matrix4) : R :=
  let s0 := m00 M * m11 M - m10 M * m01 M in
  let s1 := m00 M * m12 M - m10 M * m02 M in
  let s2 := m00 M * m13 M - m10 M * m03 M in
  let s3 := m01 M * m12 M - m11 M * m02 M in
  let s4 := m01 M * m13 M - m11 M * m03 M in
  let s5 := m02 M * m13 M - m12 M * m03 M in
  let c5 := m22 M * m33 M - m32 M * m23 M in
  let c4 := m21 M * m33 M - m31 M * m23 M in
  let c3 := m21 M * m32 M - m31 M * m22 M in
  let c2 := m20 M * m33 M - m30 M * m23 M in
  let c1 := m20 M * m32 M - m30 M * m22 M in
  let c0 := m20 M * m31 M - m30 M * m21 M in
  s0 * c5 - s1 * c4 + s2 * c3 + s3 * c2 - s4 * c1 + s5 * c0.

Definition Matrix4_inverse (M : Matrix4) : option Matrix4 :=
  let s0 := m00 M * m11 M - m10 M * m01 M in
  let s1 := m00 M * m12 M - m10 M * m02 M in
  let s2 := m00 M * m13 M - m10 M * m03 M in
  let s3 := m01 M * m12 M - m11 M * m02 M in
  let s4 := m01 M * m13 M - m11 M * m03 M in
  let s5 := m02 M * m13 M - m12 M * m03 M in
  let c5 := m22 M * m33 M - m32 M * m23 M in
  let c4 := m21 M * m33 M - m31 M * m23 M in
  let c3 := m21 M * m32 M - m31 M * m22 M in
  let c2 := m20 M * m33 M - m30 M * m23 M in
  let c1 := m20 M * m32 M - m30 M * m22 M in
  let c0 := m20 M * m31 M - m30 M * m21 M in
  let det := s0 * c5 - s1 * c4 + s2 * c3 + s3 * c2 - s4 * c1 + s5 * c0 in
  if Rlt_dec (Rabs det) EPSILON then None
  else
    let inv_det := 1 / det in
    Some (mkMatrix4
      ((m11 M * c5 - m12 M * c4 + m13 M * c3) * inv_det)
      ((- m01 M * c5 + m02 M * c4 - m03 M * c3) * inv_det)
      ((m31 M * s5 - m32 M * s4 + m33 M * s3) * inv_det)
      ((- m21 M * s5 + m22 M * s4 - m23 M * s3) * inv_det)
      ((- m10 M * c5 + m12 M * c2 - m13 M * c1) * inv_det)
      ((m00 M * c5 - m02 M * c2 + m03 M * c1) * inv_det)
      ((- m30 M * s5 + m32 M * s2 - m33 M * s1) * inv_det)
      ((m20 M * s5 - m22 M * s2 + m23 M * s1) * inv_det)
      ((m10 M * c4 - m11 M * c2 + m13 M * c0) * inv_det)
      ((- m00 M * c4 + m01 M * c2 - m03 M * c0) * inv_det)
      ((m30 M * s4 - m31 M * s2 + m33 M * s0) * inv_det)
      ((- m20 M * s4 + m21 M * s2 - m23 M * s0) * inv_det)
      ((- m10 M * c3 + m11 M * c1 - m12 M * c0) * inv_det)
      ((m00 M * c3 - m01 M * c1 + m02 M * c0) * inv_det)
      ((- m30 M * s3 + m31 M * s1 - m32 M * s0) * inv_det)
      ((m20 M * s3 - m21 M * s1 + m22 M * s0) * inv_det)).

(** [Matrix4.from_flat] on a list of Python integers: the first sixteen
    values, row by row (the constructor converts each by [float]); a shorter
    list raises [IndexError]. *)
Definition Matrix4_from_flat (values : list Z) : option Matrix4 :=
  match values with
  | a0 :: a1 :: a2 :: a3 :: a4 :: a5 :: a6 :: a7 :: a8 :: a9 :: a10 :: a11 ::
    a12 :: a13 :: a14 :: a15 :: _ =>
    Some (mkMatrix4 (IZR a0) (IZR a1) (IZR a2) (IZR a3)
                    (IZR a4) (IZR a5) (IZR a6) (IZR a7)
                    (IZR a8) (IZR a9) (IZR a10) (IZR a11)
                    (IZR a12) (IZR a13) (IZR a14) (IZR a15))
  | _ => None
  end.

(** One cell of [__mul__]: the accumulator starts at [0] and the four
    products are added for [k = 0..3]. *)
Definition mul_cell (a0 a1 a2 a3 b0 b1 b2 b3 : R) : R :=
  0 + a0 * b0 + a1 * b1 + a2 * b2 + a3 * b3.

Definition Matrix4_mul (A B : Matrix4) : Matrix4 :=
  mkMatrix4
    (mul_cell (m00 A) (m01 A) (m02 A) (m03 A) (m00 B) (m10 B) (m20 B) (m30 B))
    (mul_cell (m00 A) (m01 A) (m02 A) (m03 A) (m01 B) (m11 B) (m21 B) (m31 B))
    (mul_cell (m00 A) (m01 A) (m02 A) (m03 A) (m02 B) (m12 B) (m22 B) (m32 B))
    (mul_cell (m00 A) (m01 A) (m02 A) (m03 A) (m03 B) (m13 B) (m23 B) (m33 B))
    (mul_cell (m10 A) (m11 A) (m12 A) (m13 A) (m00 B) (m10 B) (m20 B) (m30 B))
    (mul_cell (m10 A) (m11 A) (m12 A) (m13 A) (m01 B) (m11 B) (m21 B) (m31 B))
    (mul_cell (m10 A) (m11 A) (m12 A) (m13 A) (m02 B) (m12 B) (m22 B) (m32 B))
    (mul_cell (m10 A) (m11 A) (m12 A) (m13 A) (m03 B) (m13 B) (m23 B) (m33 B))
    (mul_cell (m20 A) (m21 A) (m22 A) (m23 A) (m00 B) (m10 B) (m20 B) (m30 B))
    (mul_cell (m20 A) (m21 A) (m22 A) (m23 A) (m01 B) (m11 B) (m21 B) (m31 B))
    (mul_cell (m20 A) (m21 A) (m22 A) (m23 A) (m02 B) (m12 B) (m22 B) (m32 B))
    (mul_cell (m20 A) (m21 A) (m22 A) (m23 A) (m03 B) (m13 B) (m23 B) (m33 B))
    (mul_cell (m30 A) (m31 A) (m32 A) (m33 A) (m00 B) (m10 B) (m20 B) (m30 B))
    (mul_cell (m30 A) (m31 A) (m32 A) (m33 A) (m01 B) (m11 B) (m21 B) (m31 B))
    (mul_cell (m30 A) (m31 A) (m32 A) (m33 A) (m02 B) (m12 B) (m22 B) (m32 B))
    (mul_cell (m30 A) (m31 A) (m32 A) (m33 A) (m03 B) (m13 B) (m23 B) (m33 B)).

Definition Matrix4_transform_point (M : Matrix4) (v : Vector3) : Vector3 :=
  let w0 := m30 M * vx v + m31 M * vy v + m32 M * vz v + m33 M in
  let w := if Rlt_dec (Rabs w0) EPSILON then 1 else w0 in
  mkVector3 ((m00 M * vx v + m01 M * vy v + m02 M * vz v + m03 M) / w)
            ((m10 M * vx v + m11 M * vy v + m12 M * vz v + m13 M) / w)
            ((m20 M * vx v + m21 M * vy v + m22 M * vz v + m23 M) / w).

Definition Matrix4_get_translation (M : Matrix4) : Vector3 :=
  mkVector3 (m03 M) (m13 M) (m23 M).

(** ** math3d.py: Quaternion factories and Matrix4.decompose *)

(** [Quaternion.from_matrix]: the trace-based branch selection.  In every
    branch the argument of the square root is at least 1 (lemma
    [from_matrix_sqrt_arg] below), so neither [math.sqrt] nor the divisions
    by [s] can raise. *)
Definition Quaternion_from_matrix (m : Matrix4) : Quaternion :=
  let trace := m00 m + m11 m + m22 m in
  if Rlt_dec 0 trace then
    let s := 0.5 / sqrt (trace + 1) in
    mkQuaternion ((m21 m - m12 m) * s) ((m02 m - m20 m) * s)
                 ((m10 m - m01 m) * s) (0.25 / s)
  else if Rltb (m11 m) (m00 m) && Rltb (m22 m) (m00 m) then
    let s := 2 * sqrt (1 + m00 m - m11 m - m22 m) in
    mkQuaternion (0.25 * s) ((m01 m + m10 m) / s)
                 ((m02 m + m20 m) / s) ((m21 m - m12 m) / s)
  else if Rlt_dec (m22 m) (m11 m) then
    let s := 2 * sqrt (1 + m11 m - m00 m - m22 m) in
    mkQuaternion ((m01 m + m10 m) / s) (0.25 * s)
                 ((m12 m + m21 m) / s) ((m02 m - m20 m) / s)
  else
    let s := 2 * sqrt (1 + m22 m - m00 m - m11 m) in
    mkQuaternion ((m02 m + m20 m) / s) ((m12 m + m21 m) / s)
                 (0.25 * s) ((m10 m - m01 m) / s).

Definition Quaternion_look_rotation (forward up : Vector3) : Quaternion :=
  let forward := Vector3_normalized forward in
  let right := Vector3_normalized (Vector3_cross up forward) in
  let actual_up := Vector3_cross forward right in
  Quaternion_from_matrix
    (mkMatrix4 (vx right) (vx actual_up) (vx forward) 0
               (vy right) (vy actual_up) (vy forward) 0
               (vz right) (vz actual_up) (vz forward) 0
               0 0 0 1).

(** [Matrix4.decompose]: the nine divisions by [sx], [sy], [sz] are not
    guarded, so a zero column makes the call raise ([None]). *)
Definition Matrix4_decompose (M : Matrix4)
    : option (Vector3 * Quaternion * Vector3) :=
  let translation := mkVector3 (m03 M) (m13 M) (m23 M) in
  let sx0 := Vector3_magnitude (mkVector3 (m00 M) (m10 M) (m20 M)) in
  let sy := Vector3_magnitude (mkVector3 (m01 M) (m11 M) (m21 M)) in
  let sz := Vector3_magnitude (mkVector3 (m02 M) (m12 M) (m22 M)) in
  let sx := if Rlt_dec (Matrix4_determinant M) 0 then - sx0 else sx0 in
  let scale := mkVector3 sx sy sz in
  r00 ← py_div (m00 M) sx; r01 ← py_div (m01 M) sy; r02 ← py_div (m02 M) sz;
  r10 ← py_div (m10 M) sx; r11 ← py_div (m11 M) sy; r12 ← py_div (m12 M) sz;
  r20 ← py_div (m20 M) sx; r21 ← py_div (m21 M) sy; r22 ← py_div (m22 M) sz;
  let rot_matrix := mkMatrix4 r00 r01 r02 0
                              r10 r11 r12 0
                              r20 r21 r22 0
                              0 0 0 1 in
  Some (translation, Quaternion_from_matrix rot_matrix, scale).

(** [Matrix4.perspective]: no divisor is guarded. *)
Definition Matrix4_perspective (fov aspect near far : R) : option Matrix4 :=
  let tan_half_fov := tan (fov / 2) in
  p00 ← py_div 1 (aspect * tan_half_fov);
  p11 ← py_div 1 tan_half_fov;
  p22 ← py_div (- (far + near)) (far - near);
  p23 ← py_div (- (2 * far * near)) (far - near);
  Some (mkMatrix4 p00 0 0 0
                  0 p11 0 0
                  0 0 p22 p23
                  0 0 (-1) 0).

Definition Matrix4_orthographic (left right bottom top near far : R)
    : option Matrix4 :=
  o00 ← py_div 2 (right - left);
  o11 ← py_div 2 (top - bottom);
  o22 ← py_div (-2) (far - near);
  o03 ← py_div (- (right + left)) (right - left);
  o13 ← py_div (- (top + bottom)) (top - bottom);
  o23 ← py_div (- (far + near)) (far - near);
  Some (mkMatrix4 o00 0 0 o03
                  0 o11 0 o13
                  0 0 o22 o23
                  0 0 0 1).

(** ** transform.py: Camera *)

(** The projection state of a [Camera].  Its [transform] is a [Transform]
    object of its own; the functions below take [world_matrix], the value
    [self.transform.world_matrix] evaluates to, as an argument. *)
Record Camera : Type := mkCamera {
  c_fov : R;
  c_aspect : R;
  c_near : R;
  c_far : R;
  c_ortho_size : R;
  c_is_orthographic : bool;
  c_projection_matrix : option Matrix4;
  c_projection_dirty : bool }.

(** [Camera.__init__]. *)
Definition Camera_init : Camera :=
  mkCamera (60 * DEG_TO_RAD) (16 / 9) 0.1 1000 5 false None true.

(** The property setters [fov], [aspect], [near_clip], [far_clip]. *)
Definition Camera_set_fov (c : Camera) (value : R) : Camera :=
  mkCamera (clamp value 0.01 (PI - 0.01)) (c_aspect c) (c_near c) (c_far c)
           (c_ortho_size c) (c_is_orthographic c) (c_projection_matrix c) true.

Definition Camera_set_aspect (c : Camera) (value : R) : Camera :=
  mkCamera (c_fov c) (py_max 0.01 value) (c_near c) (c_far c)
           (c_ortho_size c) (c_is_orthographic c) (c_projection_matrix c) true.

Definition Camera_set_near_clip (c : Camera) (value : R) : Camera :=
  mkCamera (c_fov c) (c_aspect c) (py_max 0.001 value) (c_far c)
           (c_ortho_size c) (c_is_orthographic c) (c_projection_matrix c) true.

Definition Camera_set_far_clip (c : Camera) (value : R) : Camera :=
  mkCamera (c_fov c) (c_aspect c) (c_near c) (py_max (c_near c + 0.01) value)
           (c_ortho_size c) (c_is_orthographic c) (c_projection_matrix c) true.

Definition Camera_store_projection (c : Camera) (P : Matrix4) : Camera :=
  mkCamera (c_fov c) (c_aspect c) (c_near c) (c_far c)
           (c_ortho_size c) (c_is_orthographic c) (Some P) false.

(** The [projection_matrix] property: the cached matrix, rebuilt when the
    dirty flag is set or nothing is cached yet.  The result is the matrix and
    the camera with its cache updated; [None] when building it raises. *)
Definition Camera_projection_matrix (c : Camera) : option (Matrix4 * Camera) :=
  match c_projection_dirty c, c_projection_matrix c with
  | false, Some P => Some (P, c)
  | _, _ =>
    P ← (if c_is_orthographic c then
           let half_height := c_ortho_size c in
           let half_width := half_height * c_aspect c in
           Matrix4_orthographic (- half_width) half_width
                                (- half_height) half_height
                                (c_near c) (c_far c)
         else Matrix4_perspective (c_fov c) (c_aspect c) (c_near c) (c_far c));
    Some (P, Camera_store_projection c P)
  end.

(** The [view_matrix] property: [world_matrix.inverse or Matrix4.identity()]. *)
Definition Camera_view_matrix (world_matrix : Matrix4) : Matrix4 :=
  match Matrix4_inverse world_matrix with
  | Some inv => inv
  | None => Matrix4_identity
  end.

(** [Camera.world_to_screen].  The outer [option] is [None] when the call
    raises; the inner one is the value returned, Python's [None] or the
    triple [(screen_x, screen_y, depth)]. *)
Definition Camera_world_to_screen (c : Camera) (world_matrix : Matrix4)
    (world_pos : Vector3) (screen_width screen_height : Z)
    : option (option (R * R * R) * Camera) :=
  let view_pos :=
    Matrix4_transform_point (Camera_view_matrix world_matrix) world_pos in
  if Rge_dec (vz view_pos) 0 then Some (None, c)
  else
    '(P, c') ← Camera_projection_matrix c;
    let clip_pos := Matrix4_transform_point P view_pos in
    let ndc_x := vx clip_pos in
    let ndc_y := vy clip_pos in
    let screen_x := (ndc_x + 1) * 0.5 * IZR screen_width in
    let screen_y := (1 - ndc_y) * 0.5 * IZR screen_height in
    Some (Some (screen_x, screen_y, - vz view_pos), c').

(** ** math3d.py: Quaternion product and inverse *)

Definition Quaternion_mul (a b : Quaternion) : Quaternion :=
  mkQuaternion
    (qw a * qx b + qx a * qw b + qy a * qz b - qz a * qy b)
    (qw a * qy b - qx a * qz b + qy a * qw b + qz a * qx b)
    (qw a * qz b + qx a * qy b - qy a * qx b + qz a * qw b)
    (qw a * qw b - qx a * qx b - qy a * qy b - qz a * qz b).

Definition Quaternion_inverse (q : Quaternion) : Quaternion :=
  let mag_sq := Quaternion_magnitude_squared q in
  if Rlt_dec mag_sq EPSILON then Quaternion_identity
  else mkQuaternion (- qx q / mag_sq) (- qy q / mag_sq)
                    (- qz q / mag_sq) (qw q / mag_sq).

(** ** transform.py: Transform *)

(** One [Transform] object.  [t_parent] and [t_children] hold the identities
    of other [Transform] objects; the two caches are [None] until first
    computed. *)
Record Transform : Type := mkTransform {
  t_position : Vector3;
  t_rotation : Quaternion;
  t_scale : Vector3;
  t_parent : option nat;
  t_children : list nat;
  t_local_matrix : option Matrix4;
  t_world_matrix : option Matrix4;
  t_local_dirty : bool;
  t_world_dirty : bool }.

(** The heap of [Transform] objects, by identity. *)
Abbreviation Store := (gmap nat Transform).

(** [Transform.__init__]. *)
Definition Transform_init : Transform :=
  mkTransform Vector3_zero Quaternion_identity Vector3_one None [] None None
              true true.

Definition Transform_new (s : Store) : nat * Store :=
  let n := fresh (dom s) in (n, <[n := Transform_init]> s).

(** Field assignments. *)
Definition with_position (v : Vector3) (t : Transform) : Transform :=
  mkTransform v (t_rotation t) (t_scale t) (t_parent t) (t_children t)
              (t_local_matrix t) (t_world_matrix t) (t_local_dirty t) (t_world_dirty t).
Definition with_rotation (q : Quaternion) (t : Transform) : Transform :=
  mkTransform (t_position t) q (t_scale t) (t_parent t) (t_children t)
              (t_local_matrix t) (t_world_matrix t) (t_local_dirty t) (t_world_dirty t).
Definition with_scale (v : Vector3) (t : Transform) : Transform :=
  mkTransform (t_position t) (t_rotation t) v (t_parent t) (t_children t)
              (t_local_matrix t) (t_world_matrix t) (t_local_dirty t) (t_world_dirty t).
Definition with_parent (p : option nat) (t : Transform) : Transform :=
  mkTransform (t_position t) (t_rotation t) (t_scale t) p (t_children t)
              (t_local_matrix t) (t_world_matrix t) (t_local_dirty t) (t_world_dirty t).
Definition with_children (cs : list nat) (t : Transform) : Transform :=
  mkTransform (t_position t) (t_rotation t) (t_scale t) (t_parent t) cs
              (t_local_matrix t) (t_world_matrix t) (t_local_dirty t) (t_world_dirty t).
Definition with_local_dirty (b : bool) (t : Transform) : Transform :=
  mkTransform (t_position t) (t_rotation t) (t_scale t) (t_parent t) (t_children t)
              (t_local_matrix t) (t_world_matrix t) b (t_world_dirty t).
Definition with_world_dirty (b : bool) (t : Transform) : Transform :=
  mkTransform (t_position t) (t_rotation t) (t_scale t) (t_parent t) (t_children t)
              (t_local_matrix t) (t_world_matrix t) (t_local_dirty t) b.
(** [self._local_matrix = m; self._local_dirty = False]. *)
Definition with_local_cache (m : Matrix4) (t : Transform) : Transform :=
  mkTransform (t_position t) (t_rotation t) (t_scale t) (t_parent t) (t_children t)
              (Some m) (t_world_matrix t) false (t_world_dirty t).
(** [self._world_matrix = m; self._world_dirty = False]. *)
Definition with_world_cache (m : Matrix4) (t : Transform) : Transform :=
  mkTransform (t_position t) (t_rotation t) (t_scale t) (t_parent t) (t_children t)
              (t_local_matrix t) (Some m) (t_local_dirty t) false.

(** [for child in children: f(child)], threading the store. *)
Fixpoint for_each (f : nat -> Store -> option Store) (children : list nat)
    (s : Store) : option Store :=
  match children with
  | [] => Some s
  | child :: rest => s' ← f child s; for_each f rest s'
  end.

(** [_mark_world_dirty]: recursion over the children.  [fuel] bounds the
    recursion depth; [None] is a recursion that does not come back (or a
    reference to an object that does not exist). *)
Fixpoint Transform_mark_world_dirty (fuel : nat) (n : nat) (s : Store)
    : option Store :=
  match fuel with
  | O => None
  | S fuel' =>
    t ← s !! n;
    for_each (Transform_mark_world_dirty fuel') (t_children t)
             (<[n := with_world_dirty true t]> s)
  end.

Definition Transform_mark_dirty (fuel : nat) (n : nat) (s : Store)
    : option Store :=
  t ← s !! n;
  Transform_mark_world_dirty fuel n (<[n := with_local_dirty true t]> s).

(** The setters of [position], [rotation] and [scale]. *)
Definition Transform_set_position (fuel : nat) (n : nat) (value : Vector3)
    (s : Store) : option Store :=
  t ← s !! n;
  Transform_mark_dirty fuel n
    (<[n := with_position (mkVector3 (vx value) (vy value) (vz value)) t]> s).

Definition Transform_set_rotation (fuel : nat) (n : nat) (value : Quaternion)
    (s : Store) : option Store :=
  t ← s !! n;
  Transform_mark_dirty fuel n
    (<[n := with_rotation
              (mkQuaternion (qx value) (qy value) (qz value) (qw value)) t]> s).

Definition Transform_set_scale (fuel : nat) (n : nat) (value : Vector3)
    (s : Store) : option Store :=
  t ← s !! n;
  Transform_mark_dirty fuel n
    (<[n := with_scale (mkVector3 (vx value) (vy value) (vz value)) t]> s).

(** The [local_matrix] property. *)
Definition Transform_local_matrix (n : nat) (s : Store)
    : option (Matrix4 * Store) :=
  t ← s !! n;
  match t_local_dirty t, t_local_matrix t with
  | false, Some m => Some (m, s)
  | _, _ =>
    let m := Matrix4_trs (t_position t) (t_rotation t) (t_scale t) in
    Some (m, <[n := with_local_cache m t]> s)
  end.

(** The [world_matrix] property: recursion up the parent chain. *)
Fixpoint Transform_world_matrix (fuel : nat) (n : nat) (s : Store)
    : option (Matrix4 * Store) :=
  match fuel with
  | O => None
  | S fuel' =>
    t ← s !! n;
    match t_world_dirty t, t_world_matrix t with
    | false, Some m => Some (m, s)
    | _, _ =>
      '(m, s2) ← match t_parent t with
                 | None =>
                   '(lm, s1) ← Transform_local_matrix n s;
                   Some (Matrix4_copy lm, s1)
                 | Some p =>
                   '(pm, s1) ← Transform_world_matrix fuel' p s;
                   '(lm, s2) ← Transform_local_matrix n s1;
                   Some (Matrix4_mul pm lm, s2)
                 end;
      t2 ← s2 !! n;
      Some (m, <[n := with_world_cache m t2]> s2)
    end
  end.

(** [list.remove(x)]: drops the first occurrence, raises when there is none. *)
Fixpoint py_list_remove (x : nat) (l : list nat) : option (list nat) :=
  match l with
  | [] => None
  | y :: rest =>
    if decide (y = x) then Some rest
    else rest' ← py_list_remove x rest; Some (y :: rest')
  end.

(** The setter of [parent]. *)
Definition Transform_set_parent (fuel : nat) (n : nat) (value : option nat)
    (s : Store) : option Store :=
  t ← s !! n;
  if decide (t_parent t = value) then Some s
  else
    s1 ← match t_parent t with
         | None => Some s
         | Some old =>
           told ← s !! old;
           cs ← py_list_remove n (t_children told);
           Some (<[old := with_children cs told]> s)
         end;
    t1 ← s1 !! n;
    let s2 := <[n := with_parent value t1]> s1 in
    s3 ← match value with
         | None => Some s2
         | Some new =>
           tnew ← s2 !! new;
           Some (<[new := with_children (t_children tnew ++ [n]) tnew]> s2)
         end;
    Transform_mark_world_dirty fuel n s3.

(** The [world_position] property and its setter. *)
Definition Transform_world_position (fuel : nat) (n : nat) (s : Store)
    : option (Vector3 * Store) :=
  '(wm, s') ← Transform_world_matrix fuel n s;
  Some (Matrix4_get_translation wm, s').

Definition Transform_set_world_position (fuel : nat) (n : nat)
    (value : Vector3) (s : Store) : option Store :=
  t ← s !! n;
  match t_parent t with
  | Some p =>
    '(pm, s1) ← Transform_world_matrix fuel p s;
    match Matrix4_inverse pm with
    | Some parent_inv =>
      Transform_set_position fuel n (Matrix4_transform_point parent_inv value) s1
    | None => Some s1
    end
  | None => Transform_set_position fuel n value s
  end.

(** The [world_rotation] property and its setter. *)
Fixpoint Transform_world_rotation (fuel : nat) (n : nat) (s : Store)
    : option Quaternion :=
  match fuel with
  | O => None
  | S fuel' =>
    t ← s !! n;
    match t_parent t with
    | None => Some (t_rotation t)
    | Some p =>
      pr ← Transform_world_rotation fuel' p s;
      Some (Quaternion_mul pr (t_rotation t))
    end
  end.

Definition Transform_set_world_rotation (fuel : nat) (n : nat)
    (value : Quaternion) (s : Store) : option Store :=
  t ← s !! n;
  match t_parent t with
  | Some p =>
    pr ← Transform_world_rotation fuel p s;
    Transform_set_rotation fuel n (Quaternion_mul (Quaternion_inverse pr) value) s
  | None => Transform_set_rotation fuel n value s
  end.

(** [Transform.look_at(target, up)]; [up = None] is the default argument. *)
Definition Transform_look_at (fuel : nat) (n : nat) (target : Vector3)
    (up : option Vector3) (s : Store) : option Store :=
  let up := match up with None => Vector3_up | Some u => u end in
  '(wp, s1) ← Transform_world_position fuel n s;
  let direction := Vector3_sub target wp in
  if Rlt_dec (Vector3_magnitude_squared direction) EPSILON then Some s1
  else Transform_set_world_rotation fuel n
         (Quaternion_look_rotation direction up) s1.

(** The operations on a scene graph: creating a node, the three local
    setters, re-parenting, and the two matrix reads. *)
Inductive TransformOp : Type :=
| OpNew
| OpSetPosition (n : nat) (value : Vector3)
| OpSetRotation (n : nat) (value : Quaternion)
| OpSetScale (n : nat) (value : Vector3)
| OpSetParent (n : nat) (value : option nat)
| OpReadLocal (n : nat)
| OpReadWorld (n : nat).

Definition Transform_step (fuel : nat) (op : TransformOp) (s : Store)
    : option Store :=
  match op with
  | OpNew => Some (snd (Transform_new s))
  | OpSetPosition n v => Transform_set_position fuel n v s
  | OpSetRotation n q => Transform_set_rotation fuel n q s
  | OpSetScale n v => Transform_set_scale fuel n v s
  | OpSetParent n p => Transform_set_parent fuel n p s
  | OpReadLocal n => snd <$> Transform_local_matrix n s
  | OpReadWorld n => snd <$> Transform_world_matrix fuel n s
  end.

(** [Transform_run s ops s']: the operations [ops], each one returning,
    lead from [s] to [s']. *)
Inductive Transform_run : Store -> list TransformOp -> Store -> Prop :=
| run_done (s : Store) : Transform_run s [] s
| run_step (fuel : nat) (op : TransformOp) (ops : list TransformOp)
    (s s1 s2 : Store) :
    Transform_step fuel op s = Some s1 ->
    Transform_run s1 ops s2 ->
    Transform_run s (op :: ops) s2.

(** ** transform.py: Camera with its Transform *)

(** [Camera.look_at] and [Camera.set_look_at] act on the camera's own
    transform, the object [tid] of the store. *)
Definition Camera_look_at (fuel : nat) (tid : nat) (target : Vector3)
    (up : option Vector3) (s : Store) : option Store :=
  Transform_look_at fuel tid target up s.

Definition Camera_set_look_at (fuel : nat) (tid : nat) (eye target : Vector3)
    (up : option Vector3) (s : Store) : option Store :=
  s1 ← Transform_set_world_position fuel tid eye s;
  Camera_look_at fuel tid target up s1.

(** [world_to_screen] on a camera whose transform is the object [tid]. *)
Definition Camera_world_to_screen_at (fuel : nat) (c : Camera) (tid : nat)
    (s : Store) (world_pos : Vector3) (screen_width screen_height : Z)
    : option (option (R * R * R) * Camera * Store) :=
  '(wm, s') ← Transform_world_matrix fuel tid s;
  '(r, c') ← Camera_world_to_screen c wm world_pos screen_width screen_height;
  Some (r, c', s').

(** ** renderer.py: WireframeRenderer *)

(** An RGB triple. *)
Definition Color : Type := (Z * Z * Z)%type.

(** A cell of the depth buffer: a float, [float('inf')] after [clear]. *)
Inductive DepthCell : Type :=
| Finite (d : R)
| PosInf.

(** [depth < cell] and [depth <= cell] for a finite [depth]. *)
Definition depth_lt (depth : R) (cell : DepthCell) : bool :=
  match cell with
  | Finite stored => Rltb depth stored
  | PosInf => true
  end.

Definition depth_le (depth : R) (cell : DepthCell) : bool :=
  match cell with
  | Finite stored => if Rle_dec depth stored then true else false
  | PosInf => true
  end.

Record ProjectedVertex : Type := mkProjectedVertex {
  pv_screen_x : R;
  pv_screen_y : R;
  pv_depth : R;
  pv_original_idx : Z;
  pv_visible : bool }.

Record ProjectedEdge : Type := mkProjectedEdge {
  pe_v1 : ProjectedVertex;
  pe_v2 : ProjectedVertex;
  pe_color : Color;
  pe_depth : R;
  pe_thickness : R;
  pe_style : string }.

(** The renderer: the three grids are lists of rows.  A character cell holds
    a Python [str].  [r_camera] is the camera object the renderer refers to
    (the one handed to [set_camera]). *)
Record Renderer : Type := mkRenderer {
  r_width : Z;
  r_height : Z;
  r_char_buffer : list (list string);
  r_depth_buffer : list (list DepthCell);
  r_color_buffer : list (list (option Color));
  r_camera : option Camera;
  r_depth_testing : bool }.

(** [EDGE_CHARS], copied into every renderer and never changed. *)
Definition edge_char_horizontal : string := "─".
Definition edge_char_vertical : string := "│".
Definition edge_char_diagonal_up : string := "╱".
Definition edge_char_diagonal_down : string := "╲".

(** [grid[y][x]] and [grid[y][x] = v].  Every use below is under the guard
    [0 <= x < width and 0 <= y < height], so no index is negative. *)
Definition grid_get {A : Type} (grid : list (list A)) (y x : Z) : option A :=
  row ← grid !! Z.to_nat y; row !! Z.to_nat x.

Definition grid_set {A : Type} (grid : list (list A)) (y x : Z) (v : A)
    : list (list A) :=
  alter (fun row => <[Z.to_nat x := v]> row) (Z.to_nat y) grid.

Definition in_bounds (r : Renderer) (x y : Z) : bool :=
  (0 <=? x)%Z && (x <? r_width r)%Z && (0 <=? y)%Z && (y <? r_height r)%Z.

(** [clear]: the three grids are rebuilt, [height] rows of [width] cells. *)
Definition Renderer_clear (r : Renderer) (char : string) (color : option Color)
    : Renderer :=
  let w := Z.to_nat (r_width r) in
  let h := Z.to_nat (r_height r) in
  mkRenderer (r_width r) (r_height r)
             (replicate h (replicate w char))
             (replicate h (replicate w PosInf))
             (replicate h (replicate w color))
             (r_camera r) (r_depth_testing r).

(** [__init__]: no camera, depth testing on, then [clear()]. *)
Definition Renderer_init (width height : Z) : Renderer :=
  Renderer_clear (mkRenderer width height [] [] [] None true) " " None.

(** [resize]: sets the size and clears. *)
Definition Renderer_resize (r : Renderer) (width height : Z) : Renderer :=
  Renderer_clear
    (mkRenderer width height (r_char_buffer r) (r_depth_buffer r)
                (r_color_buffer r) (r_camera r) (r_depth_testing r))
    " " None.

(** [set_camera]: stores the camera and assigns its [aspect]; the division
    raises when [height] is 0. *)
Definition Renderer_set_camera (r : Renderer) (camera : Camera)
    : option Renderer :=
  a ← py_div (IZR (r_width r)) (IZR (r_height r) * 2);
  Some (mkRenderer (r_width r) (r_height r) (r_char_buffer r)
                   (r_depth_buffer r) (r_color_buffer r)
                   (Some (Camera_set_aspect camera a)) (r_depth_testing r)).

Definition Renderer_get_edge_char (x0 y0 x1 y1 dx dy : Z) : string :=
  if (dx =? 0)%Z then edge_char_vertical
  else if (dy =? 0)%Z then edge_char_horizontal
  else
    let slope := IZR dy / IZR dx in
    if Rlt_dec slope 0.5 then edge_char_horizontal
    else if Rlt_dec slope 2 then
      if ((x0 <? x1)%Z && (y1 <? y0)%Z) || ((x1 <? x0)%Z && (y0 <? y1)%Z)
      then edge_char_diagonal_up
      else edge_char_diagonal_down
    else edge_char_vertical.

(** One Bresenham step, the tail of both line loops:
    [e2 = 2 * err], then the two conditional moves. *)
Definition bresenham_step (dx dy sx sy x0 y0 err : Z) : Z * Z * Z :=
  let e2 := (2 * err)%Z in
  let '(err1, x0') :=
    if (- dy <? e2)%Z then ((err - dy)%Z, (x0 + sx)%Z) else (err, x0) in
  let '(err2, y0') :=
    if (e2 <? dx)%Z then ((err1 + dx)%Z, (y0 + sy)%Z) else (err1, y0) in
  (x0', y0', err2).

(** The body of the [_draw_edge] loop at the pixel [(x0, y0)], step [step]. *)
Definition edge_depth_at (edge : ProjectedEdge) (max_steps step : Z) : R :=
  let t := if (0 <? max_steps)%Z then IZR step / IZR max_steps else 0 in
  lerp (pv_depth (pe_v1 edge)) (pv_depth (pe_v2 edge)) t.

Definition draw_edge_pixel (edge : ProjectedEdge) (x1 y1 dx dy max_steps : Z)
    (r : Renderer) (x0 y0 step : Z) : Renderer :=
  if in_bounds r x0 y0 then
    let depth := edge_depth_at edge max_steps step in
    if negb (r_depth_testing r)
       || match grid_get (r_depth_buffer r) y0 x0 with
          | Some stored => depth_lt depth stored
          | None => false
          end
    then
      mkRenderer (r_width r) (r_height r)
        (grid_set (r_char_buffer r) y0 x0
                  (Renderer_get_edge_char x0 y0 x1 y1 dx dy))
        (grid_set (r_depth_buffer r) y0 x0 (Finite depth))
        (grid_set (r_color_buffer r) y0 x0 (Some (pe_color edge)))
        (r_camera r) (r_depth_testing r)
    else r
  else r.

(** The [while step < max_steps] loop of [_draw_edge]; [k] counts the
    iterations that remain, [max_steps - step]. *)
Fixpoint draw_edge_loop (k : nat) (edge : ProjectedEdge)
    (x1 y1 dx dy sx sy max_steps : Z) (r : Renderer) (x0 y0 err step : Z)
    : Renderer :=
  match k with
  | O => r
  | S k' =>
    let r1 := draw_edge_pixel edge x1 y1 dx dy max_steps r x0 y0 step in
    if (x0 =? x1)%Z && (y0 =? y1)%Z then r1
    else
      let '(x0', y0', err') := bresenham_step dx dy sx sy x0 y0 err in
      draw_edge_loop k' edge x1 y1 dx dy sx sy max_steps r1 x0' y0' err'
                     (step + 1)
  end.

Definition Renderer_draw_edge (r : Renderer) (edge : ProjectedEdge) : Renderer :=
  let x0 := py_int (pv_screen_x (pe_v1 edge)) in
  let y0 := py_int (pv_screen_y (pe_v1 edge)) in
  let x1 := py_int (pv_screen_x (pe_v2 edge)) in
  let y1 := py_int (pv_screen_y (pe_v2 edge)) in
  let dx := Z.abs (x1 - x0) in
  let dy := Z.abs (y1 - y0) in
  let sx := if (x0 <? x1)%Z then 1%Z else (-1)%Z in
  let sy := if (y0 <? y1)%Z then 1%Z else (-1)%Z in
  let err := (dx - dy)%Z in
  let max_steps := (Z.max dx dy + 1)%Z in
  draw_edge_loop (Z.to_nat max_steps) edge x1 y1 dx dy sx sy max_steps
                 r x0 y0 err 0.

(** [set_char]. *)
Definition Renderer_set_char (r : Renderer) (x y : Z) (char : string)
    (color : option Color) (depth : R) : Renderer :=
  if in_bounds r x y then
    if negb (r_depth_testing r)
       || match grid_get (r_depth_buffer r) y x with
          | Some stored => depth_le depth stored
          | None => false
          end
    then
      mkRenderer (r_width r) (r_height r)
        (grid_set (r_char_buffer r) y x char)
        (grid_set (r_depth_buffer r) y x (Finite depth))
        (grid_set (r_color_buffer r) y x color)
        (r_camera r) (r_depth_testing r)
    else r
  else r.

(** The glyph [draw_line] writes at [(x0, y0)]: [char] when it is given and
    not empty, else the edge glyph. *)
Definition line_char (char : option string) (x0 y0 x1 y1 dx dy : Z) : string :=
  match char with
  | Some c => if decide (c = EmptyString)
              then Renderer_get_edge_char x0 y0 x1 y1 dx dy else c
  | None => Renderer_get_edge_char x0 y0 x1 y1 dx dy
  end.

Definition draw_line_pixel (color : option Color) (char : option string)
    (x1 y1 dx dy : Z) (r : Renderer) (x0 y0 : Z) : Renderer :=
  if in_bounds r x0 y0 then
    mkRenderer (r_width r) (r_height r)
      (grid_set (r_char_buffer r) y0 x0 (line_char char x0 y0 x1 y1 dx dy))
      (r_depth_buffer r)
      (grid_set (r_color_buffer r) y0 x0 color)
      (r_camera r) (r_depth_testing r)
  else r.

(** The [while True] loop of [draw_line]; [None] when [fuel] iterations do
    not reach the [break]. *)
Fixpoint draw_line_loop (fuel : nat) (color : option Color)
    (char : option string) (x1 y1 dx dy sx sy : Z) (r : Renderer)
    (x0 y0 err : Z) : option Renderer :=
  match fuel with
  | O => None
  | S fuel' =>
    let r1 := draw_line_pixel color char x1 y1 dx dy r x0 y0 in
    if (x0 =? x1)%Z && (y0 =? y1)%Z then Some r1
    else
      let '(x0', y0', err') := bresenham_step dx dy sx sy x0 y0 err in
      draw_line_loop fuel' color char x1 y1 dx dy sx sy r1 x0' y0' err'
  end.

Definition Renderer_draw_line (fuel : nat) (r : Renderer) (x0 y0 x1 y1 : Z)
    (color : option Color) (char : option string) : option Renderer :=
  let dx := Z.abs (x1 - x0) in
  let dy := Z.abs (y1 - y0) in
  let sx := if (x0 <? x1)%Z then 1%Z else (-1)%Z in
  let sy := if (y0 <? y1)%Z then 1%Z else (-1)%Z in
  draw_line_loop fuel color char x1 y1 dx dy sx sy r x0 y0 (dx - dy).

(** [draw_text]; [text] is the [str] as the list of its characters, [i] the
    index [enumerate] has reached. *)
Fixpoint draw_text_loop (r : Renderer) (x y : Z) (color : option Color)
    (i : Z) (text : list string) : Renderer :=
  match text with
  | [] => r
  | char :: rest =>
    let r1 :=
      if in_bounds r (x + i) y then
        mkRenderer (r_width r) (r_height r)
          (grid_set (r_char_buffer r) y (x + i) char)
          (r_depth_buffer r)
          (grid_set (r_color_buffer r) y (x + i) color)
          (r_camera r) (r_depth_testing r)
      else r in
    draw_text_loop r1 x y color (i + 1) rest
  end.

Definition Renderer_draw_text (r : Renderer) (x y : Z) (text : list string)
    (color : option Color) : Renderer :=
  draw_text_loop r x y color 0 text.

(** * Specification vocabulary *)

(** ** Scene graphs *)

(** The local matrix a node should have: TRS of its current fields. *)
Definition trs_of (t : Transform) : Matrix4 :=
  Matrix4_trs (t_position t) (t_rotation t) (t_scale t).

(** [depth s n k]: following [parent] from [n] reaches a root after [k] steps. *)
Inductive depth (s : Store) : nat -> nat -> Prop :=
| depth_root (n : nat) (t : Transform) :
    s !! n = Some t -> t_parent t = None -> depth s n 0
| depth_child (n p k : nat) (t : Transform) :
    s !! n = Some t -> t_parent t = Some p -> depth s p k -> depth s n (S k).

(** The world matrix a node should have, from the current position, rotation
    and scale of the node and of its ancestors. *)
Inductive world_value (s : Store) : nat -> Matrix4 -> Prop :=
| world_value_root (n : nat) (t : Transform) :
    s !! n = Some t -> t_parent t = None ->
    world_value s n (trs_of t)
| world_value_child (n p : nat) (t : Transform) (pm : Matrix4) :
    s !! n = Some t -> t_parent t = Some p -> world_value s p pm ->
    world_value s n (Matrix4_mul pm (trs_of t)).

(** [is_ancestor s a n]: [a] is [n] or an ancestor of [n]. *)
Inductive is_ancestor (s : Store) (a : nat) : nat -> Prop :=
| ancestor_self : is_ancestor s a a
| ancestor_up (n p : nat) (t : Transform) :
    s !! n = Some t -> t_parent t = Some p -> is_ancestor s a p ->
    is_ancestor s a n.

(** A forest: parents and child lists agree, no child is listed twice, and
    every parent chain ends. *)
Record graph_ok (s : Store) : Prop := {
  parent_lists_child : forall n t p,
    s !! n = Some t -> t_parent t = Some p ->
    exists tp, s !! p = Some tp /\ n ∈ t_children tp;
  child_names_parent : forall p tp c,
    s !! p = Some tp -> c ∈ t_children tp ->
    exists tc, s !! c = Some tc /\ t_parent tc = Some p;
  children_nodup : forall p tp, s !! p = Some tp -> NoDup (t_children tp);
  bounded_depth : exists B, forall n t,
    s !! n = Some t -> exists k, (k <= B)%nat /\ depth s n k }.

(** A clean flag vouches for its cache. *)
Definition local_cache_ok (t : Transform) : Prop :=
  t_local_dirty t = false -> t_local_matrix t = Some (trs_of t).

Definition world_cache_ok (s : Store) (t : Transform) : Prop :=
  t_world_dirty t = false ->
  t_local_dirty t = false /\
  exists w, t_world_matrix t = Some w /\
    match t_parent t with
    | None => w = trs_of t
    | Some p => exists tp pm, s !! p = Some tp /\ t_world_dirty tp = false /\
                              t_world_matrix tp = Some pm /\
                              w = Matrix4_mul pm (trs_of t)
    end.

Definition caches_ok (s : Store) : Prop :=
  forall n t, s !! n = Some t -> local_cache_ok t /\ world_cache_ok s t.

Definition scene_ok (s : Store) : Prop := graph_ok s /\ caches_ok s.

(** Two stores hold the same objects, related one by one. *)
Definition store_rel (R : Transform -> Transform -> Prop) (s s' : Store) : Prop :=
  forall n, option_Forall2 R (s !! n) (s' !! n).

Definition graph_rel (t t' : Transform) : Prop :=
  t_parent t' = t_parent t /\ t_children t' = t_children t.

Definition data_rel (t t' : Transform) : Prop :=
  t_position t' = t_position t /\ t_rotation t' = t_rotation t /\
  t_scale t' = t_scale t /\ graph_rel t t'.

Definition raise_rel (t t' : Transform) : Prop :=
  t' = t \/ t' = with_world_dirty true t.

Definition wcache_rel (t t' : Transform) : Prop :=
  t_world_dirty t' = t_world_dirty t /\ t_world_matrix t' = t_world_matrix t.

Definition is_dirty (s : Store) (n : nat) : Prop :=
  exists t, s !! n = Some t /\ t_world_dirty t = true.

Definition is_clean_with (s : Store) (n : nat) (m : Matrix4) : Prop :=
  exists t, s !! n = Some t /\ t_world_dirty t = false /\ t_world_matrix t = Some m.

(** From [s] to [s'], a node that went from clean to dirty took its children
    with it. *)
Definition marks_children (s s' : Store) : Prop :=
  forall p tp c, s !! p = Some tp -> t_world_dirty tp = false ->
                 is_dirty s' p -> c ∈ t_children tp -> is_dirty s' c.

Definition names_parent (s : Store) : Prop :=
  forall p tp c, s !! p = Some tp -> c ∈ t_children tp ->
                 exists tc, s !! c = Some tc /\ t_parent tc = Some p.

Definition depth_below (B : nat) (s : Store) : Prop :=
  forall n t, s !! n = Some t -> exists k, (k <= B)%nat /\ depth s n k.

(** The pointer updates of the [parent] setter, before the marking. *)
Definition relink (n : nat) (t : Transform) (value : option nat) (s : Store)
    : option Store :=
  s1 ← match t_parent t with
       | None => Some s
       | Some old =>
         told ← s !! old;
         cs ← py_list_remove n (t_children told);
         Some (<[old := with_children cs told]> s)
       end;
  t1 ← s1 !! n;
  let s2 := <[n := with_parent value t1]> s1 in
  match value with
  | None => Some s2
  | Some new =>
    tnew ← s2 !! new;
    Some (<[new := with_children (t_children tnew ++ [n]) tnew]> s2)
  end.

(** What re-parenting [n] from [old] to [value] does to the object [x]. *)
Definition reparent_node (n : nat) (old value : option nat) (cs_old : list nat)
    (x : nat) (tx : Transform) : Transform :=
  let tx1 := if decide (old = Some x) then with_children cs_old tx else tx in
  let tx2 := if decide (n = x) then with_parent value tx1 else tx1 in
  if decide (value = Some x) then with_children (t_children tx2 ++ [n]) tx2 else tx2.

(** The children [x] keeps when [n] leaves its parent. *)
Definition kept_children (t : Transform) (cs : list nat) (x : nat)
    (tx : Transform) : list nat :=
  if decide (t_parent t = Some x) then cs else t_children tx.

(** An operation that refers to existing objects and closes no cycle. *)
Definition op_valid (s : Store) (op : TransformOp) : Prop :=
  match op with
  | OpNew => True
  | OpSetPosition n _ | OpSetRotation n _ | OpSetScale n _
  | OpReadLocal n | OpReadWorld n => is_Some (s !! n)
  | OpSetParent n value =>
    is_Some (s !! n) /\
    forall new, value = Some new -> is_Some (s !! new) /\ ~ is_ancestor s n new
  end.

(** Running a list of operations with the same fuel for each. *)
Fixpoint Transform_exec (fuel : nat) (ops : list TransformOp) (s : Store)
    : option Store :=
  match ops with
  | [] => Some s
  | op :: rest => s1 ← Transform_step fuel op s; Transform_exec fuel rest s1
  end.

(** A root and a child; the child's world matrix is read between two moves
    of the root. *)
Definition demo_ops : list TransformOp :=
  [OpNew; OpNew; OpSetParent 1 (Some 0%nat);
   OpSetPosition 0 (mkVector3 1 0 0); OpReadWorld 1;
   OpSetPosition 0 (mkVector3 2 0 0)].

Definition demo_scene : Store := default ∅ (Transform_exec 5 demo_ops ∅).

(** ** Cameras *)

Inductive CameraAssign : Type :=
| AssignFov (value : R)
| AssignAspect (value : R)
| AssignNearClip (value : R)
| AssignFarClip (value : R).

Definition Camera_assign (c : Camera) (a : CameraAssign) : Camera :=
  match a with
  | AssignFov v => Camera_set_fov c v
  | AssignAspect v => Camera_set_aspect c v
  | AssignNearClip v => Camera_set_near_clip c v
  | AssignFarClip v => Camera_set_far_clip c v
  end.

Definition Camera_params_in_range (c : Camera) : Prop :=
  0.01 <= c_fov c <= PI - 0.01 /\ 0.01 <= c_aspect c /\ 0.001 <= c_near c.

(** A camera whose world matrix is invertible, but with a determinant below
    [EPSILON]: a half turn about Y scaled by [0.0001]. *)
Definition tiny_camera_world : Matrix4 :=
  Matrix4_trs Vector3_zero (mkQuaternion 0 1 0 0) (mkVector3 0.0001 0.0001 0.0001).

Definition tiny_camera_world_inverse : Matrix4 :=
  mkMatrix4 (-10000) 0 0 0
            0 10000 0 0
            0 0 (-10000) 0
            0 0 0 1.

(** Scenario A of the specification: the camera at (0,0,5) made to look at
    the origin through [Camera.set_look_at]. *)
Definition scenario_eye : Vector3 := mkVector3 0 0 5.
Definition scenario_target : Vector3 := mkVector3 0 0 0.
Definition scenario_camera : Camera :=
  Camera_set_far_clip
    (Camera_set_near_clip
       (Camera_set_aspect (Camera_set_fov Camera_init (60 * DEG_TO_RAD)) 1) 0.1)
    100.

(** The camera's own transform is the first object allocated. *)
Definition camera_store : Store := snd (Transform_new ∅).
Definition camera_tid : nat := fst (Transform_new ∅).

Definition camera_transform (q : Quaternion) (lm wm : option Matrix4)
    (dirty : bool) : Transform :=
  mkTransform scenario_eye q Vector3_one None [] lm wm dirty dirty.

Definition eye_matrix (q : Quaternion) : Matrix4 :=
  Matrix4_trs scenario_eye q Vector3_one.

Definition half_turn_y : Quaternion := mkQuaternion 0 1 0 0.

Definition looking_away : Matrix4 :=
  mkMatrix4 (-1) 0 0 0
            0 1 0 0
            0 0 (-1) 5
            0 0 0 1.

(** ** Matrices *)

Definition scale2 : Matrix4 :=
  mkMatrix4 2 0 0 0
            0 2 0 0
            0 0 2 0
            0 0 0 1.

(** A third of a turn about (1,1,1): a unit quaternion. *)
Definition q_third_turn : Quaternion := mkQuaternion 0.5 0.5 0.5 0.5.

(** ** Renderer grids and line traces *)

Definition grid_shaped {A : Type} (w h : Z) (grid : list (list A)) : Prop :=
  length grid = Z.to_nat h /\
  Forall (fun row => length row = Z.to_nat w) grid.

(** The three buffers have [height] rows of [width] cells, as [clear] builds
    them. *)
Definition well_shaped (r : Renderer) : Prop :=
  grid_shaped (r_width r) (r_height r) (r_char_buffer r) /\
  grid_shaped (r_width r) (r_height r) (r_depth_buffer r) /\
  grid_shaped (r_width r) (r_height r) (r_color_buffer r).

(** The pixels the [_draw_edge] loop visits, with the step counter. *)
Fixpoint edge_steps_loop (k : nat) (x1 y1 dx dy sx sy x0 y0 err step : Z)
    : list (Z * Z * Z) :=
  match k with
  | O => []
  | S k' =>
    (x0, y0, step) ::
    if (x0 =? x1)%Z && (y0 =? y1)%Z then []
    else
      let '(x0', y0', err') := bresenham_step dx dy sx sy x0 y0 err in
      edge_steps_loop k' x1 y1 dx dy sx sy x0' y0' err' (step + 1)
  end.

Definition edge_max_steps (edge : ProjectedEdge) : Z :=
  let x0 := py_int (pv_screen_x (pe_v1 edge)) in
  let y0 := py_int (pv_screen_y (pe_v1 edge)) in
  let x1 := py_int (pv_screen_x (pe_v2 edge)) in
  let y1 := py_int (pv_screen_y (pe_v2 edge)) in
  (Z.max (Z.abs (x1 - x0)) (Z.abs (y1 - y0)) + 1)%Z.

Definition edge_steps (edge : ProjectedEdge) : list (Z * Z * Z) :=
  let x0 := py_int (pv_screen_x (pe_v1 edge)) in
  let y0 := py_int (pv_screen_y (pe_v1 edge)) in
  let x1 := py_int (pv_screen_x (pe_v2 edge)) in
  let y1 := py_int (pv_screen_y (pe_v2 edge)) in
  let dx := Z.abs (x1 - x0) in
  let dy := Z.abs (y1 - y0) in
  let sx := if (x0 <? x1)%Z then 1%Z else (-1)%Z in
  let sy := if (y0 <? y1)%Z then 1%Z else (-1)%Z in
  edge_steps_loop (Z.to_nat (Z.max dx dy + 1)) x1 y1 dx dy sx sy
                  x0 y0 (dx - dy) 0.

(** The edge passes through the pixel, and its interpolated depth there is [d]. *)
Definition edge_covers (edge : ProjectedEdge) (px py : Z) (d : R) : Prop :=
  (exists step, In (px, py, step) (edge_steps edge)) /\
  forall step, In (px, py, step) (edge_steps edge) ->
               edge_depth_at edge (edge_max_steps edge) step = d.

Definition edge_plot (edge : ProjectedEdge) (x1 y1 dx dy ms : Z)
    (acc : Renderer) (s : Z * Z * Z) : Renderer :=
  let '(x, y, st) := s in draw_edge_pixel edge x1 y1 dx dy ms acc x y st.

(** What one visit of [edge] at depth [d] does to a depth/colour cell. *)
Definition hit (edge : ProjectedEdge) (d : R) (cell : DepthCell * option Color)
    : DepthCell * option Color :=
  if depth_lt d (fst cell) then (Finite d, Some (pe_color edge)) else cell.

Definition cell_is (px py : Z) (r : Renderer) (cell : DepthCell * option Color)
    : Prop :=
  grid_get (r_depth_buffer r) py px = Some (fst cell) /\
  grid_get (r_color_buffer r) py px = Some (snd cell).

Definition ready (px py : Z) (r : Renderer) : Prop :=
  well_shaped r /\ r_depth_testing r = true /\ in_bounds r px py = true.

(** The pixels the [draw_line] loop visits. *)
Fixpoint line_points_loop (fuel : nat) (x1 y1 dx dy sx sy x0 y0 err : Z)
    : option (list (Z * Z)) :=
  match fuel with
  | O => None
  | S fuel' =>
    if (x0 =? x1)%Z && (y0 =? y1)%Z then Some [(x0, y0)]
    else
      let '(x0', y0', err') := bresenham_step dx dy sx sy x0 y0 err in
      rest ← line_points_loop fuel' x1 y1 dx dy sx sy x0' y0' err';
      Some ((x0, y0) :: rest)
  end.

Definition line_points (fuel : nat) (x0 y0 x1 y1 : Z) : option (list (Z * Z)) :=
  let dx := Z.abs (x1 - x0) in
  let dy := Z.abs (y1 - y0) in
  let sx := if (x0 <? x1)%Z then 1%Z else (-1)%Z in
  let sy := if (y0 <? y1)%Z then 1%Z else (-1)%Z in
  line_points_loop fuel x1 y1 dx dy sx sy x0 y0 (dx - dy).

Definition line_plot (color : option Color) (char : option string)
    (x1 y1 dx dy : Z) (acc : Renderer) (p : Z * Z) : Renderer :=
  draw_line_pixel color char x1 y1 dx dy acc (fst p) (snd p).

Definition line_cell_is (color : option Color) (char : option string)
    (x1 y1 dx dy : Z) (r : Renderer) (px py : Z) : Prop :=
  grid_get (r_char_buffer r) py px = Some (line_char char px py x1 y1 dx dy) /\
  grid_get (r_color_buffer r) py px = Some color.

(** Two edges through the pixel (1,1) of a 3x3 grid, at depths 3 and 7. *)
Definition demo_near : ProjectedEdge :=
  mkProjectedEdge (mkProjectedVertex 0 1 3 0 true) (mkProjectedVertex 2 1 3 1 true)
                  (255, 0, 0)%Z 3 1 "solid".
Definition demo_far : ProjectedEdge :=
  mkProjectedEdge (mkProjectedVertex 1 0 7 2 true) (mkProjectedVertex 1 2 7 3 true)
                  (0, 0, 255)%Z 7 1 "solid".

(** * The rest of the modules *)

(** ** math3d.py: interpolation and easing helpers *)

Definition inverse_lerp (a b value : R) : R :=
  if Rlt_dec (Rabs (b - a)) EPSILON then 0 else (value - a) / (b - a).

Definition remap (value from_min from_max to_min to_max : R) : R :=
  let t := inverse_lerp from_min from_max value in
  lerp to_min to_max t.

Definition clamp01 (value : R) : R := py_max 0 (py_min 1 value).

(** [smoothstep] and [smootherstep] divide by [edge1 - edge0] unguarded. *)
Definition smoothstep (edge0 edge1 x : R) : option R :=
  q ← py_div (x - edge0) (edge1 - edge0);
  let t := clamp01 q in
  Some (t * t * (3 - 2 * t)).

Definition smootherstep (edge0 edge1 x : R) : option R :=
  q ← py_div (x - edge0) (edge1 - edge0);
  let t := clamp01 q in
  Some (t * t * t * (t * (t * 6 - 15) + 10)).

Definition ease_in_quad (t : R) : R := t * t.
Definition ease_out_quad (t : R) : R := 1 - (1 - t) * (1 - t).
Definition ease_in_out_quad (t : R) : R :=
  if Rlt_dec t 0.5 then 2 * t * t
  else 1 - (- 2 * t + 2) ^ 2 / 2.

Definition ease_in_cubic (t : R) : R := t * t * t.
Definition ease_out_cubic (t : R) : R := 1 - (1 - t) ^ 3.
Definition ease_in_out_cubic (t : R) : R :=
  if Rlt_dec t 0.5 then 4 * t * t * t
  else 1 - (- 2 * t + 2) ^ 3 / 2.

Definition ease_out_bounce (t : R) : R :=
  let n1 := 7.5625 in
  let d1 := 2.75 in
  if Rlt_dec t (1 / d1) then n1 * t * t
  else if Rlt_dec t (2 / d1) then
    let t := t - 1.5 / d1 in n1 * t * t + 0.75
  else if Rlt_dec t (2.5 / d1) then
    let t := t - 2.25 / d1 in n1 * t * t + 0.9375
  else
    let t := t - 2.625 / d1 in n1 * t * t + 0.984375.

Definition ease_in_bounce (t : R) : R := 1 - ease_out_bounce (1 - t).

Definition ease_in_out_bounce (t : R) : R :=
  if Rlt_dec t 0.5 then (1 - ease_out_bounce (1 - 2 * t)) / 2
  else (1 + ease_out_bounce (2 * t - 1)) / 2.

(** The polynomial and bounce easings, as the animation code receives them:
    a function from progress to eased progress. *)
Definition easings : list (R -> R) :=
  [ease_in_quad; ease_out_quad; ease_in_out_quad;
   ease_in_cubic; ease_out_cubic; ease_in_out_cubic;
   ease_in_bounce; ease_out_bounce; ease_in_out_bounce].

(** ** math3d.py: Vector3 arithmetic and geometry *)

(** [__add__], [__sub__] (as [Vector3_sub]), [__mul__] and [__truediv__]
    with a vector or a float on the right, [__neg__]. *)
Definition Vector3_add (a b : Vector3) : Vector3 :=
  mkVector3 (vx a + vx b) (vy a + vy b) (vz a + vz b).

Definition Vector3_scale (a : Vector3) (k : R) : Vector3 :=
  mkVector3 (vx a * k) (vy a * k) (vz a * k).

Definition Vector3_mul (a b : Vector3) : Vector3 :=
  mkVector3 (vx a * vx b) (vy a * vy b) (vz a * vz b).

(** [self / other] for a float [other]: raises on zero. *)
Definition Vector3_truediv (a : Vector3) (k : R) : option Vector3 :=
  x ← py_div (vx a) k; y ← py_div (vy a) k; z ← py_div (vz a) k;
  Some (mkVector3 x y z).

Definition Vector3_neg (a : Vector3) : Vector3 :=
  mkVector3 (- vx a) (- vy a) (- vz a).

Definition Vector3_copy (a : Vector3) : Vector3 :=
  mkVector3 (vx a) (vy a) (vz a).

Definition Vector3_distance_to (a b : Vector3) : R :=
  Vector3_magnitude (Vector3_sub a b).

Definition Vector3_project_onto (a other : Vector3) : Vector3 :=
  let other_mag_sq := Vector3_magnitude_squared other in
  if Rlt_dec other_mag_sq EPSILON then Vector3_zero
  else
    let scalar := Vector3_dot a other / other_mag_sq in
    Vector3_scale other scalar.

Definition Vector3_project_onto_plane (a normal : Vector3) : Vector3 :=
  Vector3_sub a (Vector3_project_onto a normal).

Definition Vector3_reflect (a normal : Vector3) : Vector3 :=
  Vector3_sub a (Vector3_scale normal (2 * Vector3_dot a normal)).

Definition Vector3_lerp (a other : Vector3) (t : R) : Vector3 :=
  mkVector3 (vx a + (vx other - vx a) * t)
            (vy a + (vy other - vy a) * t)
            (vz a + (vz other - vz a) * t).

(** [move_towards]: the division by [dist] is reached only when
    [dist >= EPSILON]. *)
Definition Vector3_move_towards (a target : Vector3) (max_distance : R)
    : Vector3 :=
  let diff := Vector3_sub target a in
  let dist := Vector3_magnitude diff in
  if Rle_dec dist max_distance then Vector3_copy target
  else if Rlt_dec dist EPSILON then Vector3_copy target
  else
    Vector3_add a
      (Vector3_scale (mkVector3 (vx diff / dist) (vy diff / dist) (vz diff / dist))
                     max_distance).

Definition Vector3_clamp_magnitude (a : Vector3) (max_magnitude : R) : Vector3 :=
  if Rlt_dec (max_magnitude * max_magnitude) (Vector3_magnitude_squared a)
  then Vector3_scale (Vector3_normalized a) max_magnitude
  else Vector3_copy a.

(** [min(a, b, c)] and [max(a, b, c)]: the first extremal argument is kept. *)
Definition py_min3 (a b c : R) : R := py_min (py_min a b) c.
Definition py_max3 (a b c : R) : R := py_max (py_max a b) c.

Definition Vector3_min_component (a : Vector3) : R := py_min3 (vx a) (vy a) (vz a).
Definition Vector3_max_component (a : Vector3) : R := py_max3 (vx a) (vy a) (vz a).

Definition Rleb (a b : R) : bool := if Rle_dec a b then true else false.

Definition Vector3_min_component_index (a : Vector3) : Z :=
  if Rleb (vx a) (vy a) && Rleb (vx a) (vz a) then 0%Z
  else if Rleb (vy a) (vz a) then 1%Z
  else 2%Z.

Definition Vector3_max_component_index (a : Vector3) : Z :=
  if Rleb (vy a) (vx a) && Rleb (vz a) (vx a) then 0%Z
  else if Rleb (vz a) (vy a) then 1%Z
  else 2%Z.

Definition Vector3_component_min (a b : Vector3) : Vector3 :=
  mkVector3 (py_min (vx a) (vx b)) (py_min (vy a) (vy b)) (py_min (vz a) (vz b)).

Definition Vector3_component_max (a b : Vector3) : Vector3 :=
  mkVector3 (py_max (vx a) (vx b)) (py_max (vy a) (vy b)) (py_max (vz a) (vz b)).

(** [__eq__] between two vectors: every component within [EPSILON]. *)
Definition Vector3_eqb (a b : Vector3) : bool :=
  Rltb (Rabs (vx a - vx b)) EPSILON && Rltb (Rabs (vy a - vy b)) EPSILON
  && Rltb (Rabs (vz a - vz b)) EPSILON.

(** [__getitem__] and [__setitem__]: [None] is the [IndexError]. *)
Definition Vector3_getitem (a : Vector3) (index : Z) : option R :=
  if (index =? 0)%Z then Some (vx a)
  else if (index =? 1)%Z then Some (vy a)
  else if (index =? 2)%Z then Some (vz a)
  else None.

Definition Vector3_setitem (a : Vector3) (index : Z) (value : R)
    : option Vector3 :=
  if (index =? 0)%Z then Some (mkVector3 value (vy a) (vz a))
  else if (index =? 1)%Z then Some (mkVector3 (vx a) value (vz a))
  else if (index =? 2)%Z then Some (mkVector3 (vx a) (vy a) value)
  else None.

(** ** math3d.py: Matrix4 factories and operations *)

Definition Matrix4_translation (x y z : R) : Matrix4 :=
  mkMatrix4 1 0 0 x
            0 1 0 y
            0 0 1 z
            0 0 0 1.

Definition Matrix4_translation_vec (v : Vector3) : Matrix4 :=
  Matrix4_translation (vx v) (vy v) (vz v).

Definition Matrix4_scale (x y z : R) : Matrix4 :=
  mkMatrix4 x 0 0 0
            0 y 0 0
            0 0 z 0
            0 0 0 1.

Definition Matrix4_scale_uniform (s : R) : Matrix4 := Matrix4_scale s s s.

Definition Matrix4_scale_vec (v : Vector3) : Matrix4 :=
  Matrix4_scale (vx v) (vy v) (vz v).

Definition Matrix4_rotation_x (angle : R) : Matrix4 :=
  let c := cos angle in
  let s := sin angle in
  mkMatrix4 1 0 0 0
            0 c (- s) 0
            0 s c 0
            0 0 0 1.

Definition Matrix4_rotation_y (angle : R) : Matrix4 :=
  let c := cos angle in
  let s := sin angle in
  mkMatrix4 c 0 s 0
            0 1 0 0
            (- s) 0 c 0
            0 0 0 1.

Definition Matrix4_rotation_z (angle : R) : Matrix4 :=
  let c := cos angle in
  let s := sin angle in
  mkMatrix4 c (- s) 0 0
            s c 0 0
            0 0 1 0
            0 0 0 1.

Definition Matrix4_rotation_axis (axis : Vector3) (angle : R) : Matrix4 :=
  let axis := Vector3_normalized axis in
  let c := cos angle in
  let s := sin angle in
  let t := 1 - c in
  let x := vx axis in let y := vy axis in let z := vz axis in
  mkMatrix4 (t * x * x + c) (t * x * y - s * z) (t * x * z + s * y) 0
            (t * x * y + s * z) (t * y * y + c) (t * y * z - s * x) 0
            (t * x * z - s * y) (t * y * z + s * x) (t * z * z + c) 0
            0 0 0 1.

(** [rotation_euler]: the loop [for axis in order: result = result *
    matrices[axis]]; a character other than x, y, z is a [KeyError]. *)
Fixpoint rotation_euler_loop (rx ry rz : Matrix4) (order : string)
    (result : Matrix4) : option Matrix4 :=
  match order with
  | EmptyString => Some result
  | String axis rest =>
    m ← (if Ascii.eqb axis "x"%char then Some rx
         else if Ascii.eqb axis "y"%char then Some ry
         else if Ascii.eqb axis "z"%char then Some rz
         else None);
    rotation_euler_loop rx ry rz rest (Matrix4_mul result m)
  end.

Definition Matrix4_rotation_euler (x y z : R) (order : string) : option Matrix4 :=
  rotation_euler_loop (Matrix4_rotation_x x) (Matrix4_rotation_y y)
                      (Matrix4_rotation_z z) order Matrix4_identity.

Definition Matrix4_look_at (eye target up : Vector3) : Matrix4 :=
  let forward := Vector3_normalized (Vector3_sub target eye) in
  let right := Vector3_normalized (Vector3_cross forward up) in
  let actual_up := Vector3_cross right forward in
  mkMatrix4 (vx right) (vy right) (vz right) (- Vector3_dot right eye)
            (vx actual_up) (vy actual_up) (vz actual_up) (- Vector3_dot actual_up eye)
            (- vx forward) (- vy forward) (- vz forward) (Vector3_dot forward eye)
            0 0 0 1.

Definition Matrix4_transposed (M : Matrix4) : Matrix4 :=
  mkMatrix4 (m00 M) (m10 M) (m20 M) (m30 M)
            (m01 M) (m11 M) (m21 M) (m31 M)
            (m02 M) (m12 M) (m22 M) (m32 M)
            (m03 M) (m13 M) (m23 M) (m33 M).

Definition Matrix4_transform_direction (M : Matrix4) (v : Vector3) : Vector3 :=
  mkVector3 (m00 M * vx v + m01 M * vy v + m02 M * vz v)
            (m10 M * vx v + m11 M * vy v + m12 M * vz v)
            (m20 M * vx v + m21 M * vy v + m22 M * vz v).

Definition Matrix4_transform_normal (M : Matrix4) (v : Vector3) : Vector3 :=
  match Matrix4_inverse M with
  | None => Vector3_copy v
  | Some inv =>
    let m := Matrix4_transposed inv in
    Vector3_normalized
      (mkVector3 (m00 m * vx v + m01 m * vy v + m02 m * vz v)
                 (m10 m * vx v + m11 m * vy v + m12 m * vz v)
                 (m20 m * vx v + m21 m * vy v + m22 m * vz v))
  end.

Definition Matrix4_get_scale (M : Matrix4) : Vector3 :=
  mkVector3 (Vector3_magnitude (mkVector3 (m00 M) (m10 M) (m20 M)))
            (Vector3_magnitude (mkVector3 (m01 M) (m11 M) (m21 M)))
            (Vector3_magnitude (mkVector3 (m02 M) (m12 M) (m22 M))).

Definition Matrix4_set_translation (M : Matrix4) (v : Vector3) : Matrix4 :=
  mkMatrix4 (m00 M) (m01 M) (m02 M) (vx v)
            (m10 M) (m11 M) (m12 M) (vy v)
            (m20 M) (m21 M) (m22 M) (vz v)
            (m30 M) (m31 M) (m32 M) (m33 M).

(** The last row of an affine matrix. *)
Definition Matrix4_is_affine (M : Matrix4) : Prop :=
  m30 M = 0 /\ m31 M = 0 /\ m32 M = 0 /\ m33 M = 1.

(** ** math3d.py: Quaternion operations *)

Definition Quaternion_magnitude (q : Quaternion) : R :=
  sqrt (qx q * qx q + qy q * qy q + qz q * qz q + qw q * qw q).

Definition Quaternion_normalized (q : Quaternion) : Quaternion :=
  let mag := Quaternion_magnitude q in
  if Rlt_dec mag EPSILON then Quaternion_identity
  else mkQuaternion (qx q / mag) (qy q / mag) (qz q / mag) (qw q / mag).

Definition Quaternion_conjugate (q : Quaternion) : Quaternion :=
  mkQuaternion (- qx q) (- qy q) (- qz q) (qw q).

Definition Quaternion_neg (q : Quaternion) : Quaternion :=
  mkQuaternion (- qx q) (- qy q) (- qz q) (- qw q).

Definition Quaternion_rotate_vector (q : Quaternion) (v : Vector3) : Vector3 :=
  let qv := mkVector3 (qx q) (qy q) (qz q) in
  let uv := Vector3_cross qv v in
  let uuv := Vector3_cross qv uv in
  Vector3_add v (Vector3_scale (Vector3_add (Vector3_scale uv (qw q)) uuv) 2).

Definition Quaternion_forward (q : Quaternion) : Vector3 :=
  Quaternion_rotate_vector q (mkVector3 0 0 1).
Definition Quaternion_up (q : Quaternion) : Vector3 :=
  Quaternion_rotate_vector q (mkVector3 0 1 0).
Definition Quaternion_right (q : Quaternion) : Vector3 :=
  Quaternion_rotate_vector q (mkVector3 1 0 0).

Definition Quaternion_from_axis_angle (axis : Vector3) (angle : R) : Quaternion :=
  let axis := Vector3_normalized axis in
  let half_angle := angle / 2 in
  let s := sin half_angle in
  mkQuaternion (vx axis * s) (vy axis * s) (vz axis * s) (cos half_angle).

(** [from_euler]: an [order] other than the six listed is a [ValueError]. *)
Definition Quaternion_from_euler (x y z : R) (order : string) : option Quaternion :=
  let cx := cos (x / 2) in
  let sx := sin (x / 2) in
  let cy := cos (y / 2) in
  let sy := sin (y / 2) in
  let cz := cos (z / 2) in
  let sz := sin (z / 2) in
  if String.eqb order "xyz" then
    Some (mkQuaternion (sx * cy * cz + cx * sy * sz) (cx * sy * cz - sx * cy * sz)
                       (cx * cy * sz + sx * sy * cz) (cx * cy * cz - sx * sy * sz))
  else if String.eqb order "xzy" then
    Some (mkQuaternion (sx * cy * cz - cx * sy * sz) (cx * sy * cz - sx * cy * sz)
                       (cx * cy * sz + sx * sy * cz) (cx * cy * cz + sx * sy * sz))
  else if String.eqb order "yxz" then
    Some (mkQuaternion (sx * cy * cz + cx * sy * sz) (cx * sy * cz - sx * cy * sz)
                       (cx * cy * sz - sx * sy * cz) (cx * cy * cz + sx * sy * sz))
  else if String.eqb order "yzx" then
    Some (mkQuaternion (sx * cy * cz + cx * sy * sz) (cx * sy * cz + sx * cy * sz)
                       (cx * cy * sz - sx * sy * cz) (cx * cy * cz - sx * sy * sz))
  else if String.eqb order "zxy" then
    Some (mkQuaternion (sx * cy * cz - cx * sy * sz) (cx * sy * cz + sx * cy * sz)
                       (cx * cy * sz + sx * sy * cz) (cx * cy * cz - sx * sy * sz))
  else if String.eqb order "zyx" then
    Some (mkQuaternion (sx * cy * cz - cx * sy * sz) (cx * sy * cz + sx * cy * sz)
                       (cx * cy * sz - sx * sy * cz) (cx * cy * cz + sx * sy * sz))
  else None.

(** [lerp] between quaternions: the shorter way round, then normalized. *)
Definition Quaternion_lerp (a other : Quaternion) (t : R) : Quaternion :=
  let other := if Rlt_dec (Quaternion_dot a other) 0
               then mkQuaternion (- qx other) (- qy other) (- qz other) (- qw other)
               else other in
  Quaternion_normalized
    (mkQuaternion (qx a + (qx other - qx a) * t) (qy a + (qy other - qy a) * t)
                  (qz a + (qz other - qz a) * t) (qw a + (qw other - qw a) * t)).

(** The rotation about one coordinate axis, as a quaternion. *)
Definition axis_quaternion (axis : Ascii.ascii) (x y z : R) : Quaternion :=
  if Ascii.eqb axis "x"%char then Quaternion_from_axis_angle (mkVector3 1 0 0) x
  else if Ascii.eqb axis "y"%char then Quaternion_from_axis_angle (mkVector3 0 1 0) y
  else Quaternion_from_axis_angle (mkVector3 0 0 1) z.

(** The six orders [from_euler] accepts. *)
Definition euler_orders : list string :=
  ["xyz"%string; "xzy"%string; "yxz"%string; "yzx"%string; "zxy"%string; "zyx"%string].

(** ** transform.py: hierarchy queries *)

(** [root]: the loop up the parent chain; [fuel] bounds its iterations. *)
Fixpoint Transform_root (fuel : nat) (n : nat) (s : Store) : option nat :=
  match fuel with
  | O => None
  | S fuel' =>
    t ← s !! n;
    match t_parent t with
    | None => Some n
    | Some p => Transform_root fuel' p s
    end
  end.

(** [is_child_of]: [current] runs up the parent chain; [Transform] defines
    no [__eq__], so [current == parent] compares identities. *)
Fixpoint is_child_of_loop (fuel : nat) (current : option nat) (parent : nat)
    (s : Store) : option bool :=
  match fuel with
  | O => None
  | S fuel' =>
    match current with
    | None => Some false
    | Some c =>
      if decide (c = parent) then Some true
      else t ← s !! c; is_child_of_loop fuel' (t_parent t) parent s
    end
  end.

Definition Transform_is_child_of (fuel : nat) (n parent : nat) (s : Store)
    : option bool :=
  t ← s !! n; is_child_of_loop fuel (t_parent t) parent s.

Definition Transform_child_count (n : nat) (s : Store) : option Z :=
  t ← s !! n; Some (Z.of_nat (length (t_children t))).

(** [get_child]: Python's [None] outside [0 <= index < len]. *)
Definition Transform_get_child (n : nat) (index : Z) (s : Store)
    : option (option nat) :=
  t ← s !! n;
  if (0 <=? index)%Z && (index <? Z.of_nat (length (t_children t)))%Z
  then Some (t_children t !! Z.to_nat index)
  else Some None.

(** ** transform.py: what [world_rotation] reads *)

(** [world_rotation] reads parents and rotations only. *)
Definition rot_rel (t t' : Transform) : Prop :=
  t_parent t' = t_parent t /\ t_rotation t' = t_rotation t.

(** ** transform.py: Camera, the rest of the projection state *)

Definition RAD_TO_DEG : R := 180 / PI.

Definition Camera_fov_degrees (c : Camera) : R := c_fov c * RAD_TO_DEG.

Definition Camera_set_fov_degrees (c : Camera) (value : R) : Camera :=
  Camera_set_fov c (value * DEG_TO_RAD).

Definition Camera_set_orthographic_size (c : Camera) (value : R) : Camera :=
  mkCamera (c_fov c) (c_aspect c) (c_near c) (c_far c)
           (py_max 0.01 value) (c_is_orthographic c) (c_projection_matrix c) true.

Definition Camera_set_is_orthographic (c : Camera) (value : bool) : Camera :=
  mkCamera (c_fov c) (c_aspect c) (c_near c) (c_far c)
           (c_ortho_size c) value (c_projection_matrix c) true.

(** [view_projection_matrix]: the projection is read first. *)
Definition Camera_view_projection_matrix (c : Camera) (world_matrix : Matrix4)
    : option (Matrix4 * Camera) :=
  '(P, c') ← Camera_projection_matrix c;
  Some (Matrix4_mul P (Camera_view_matrix world_matrix), c').

(** [is_point_visible]: [world_to_screen] on a 100x100 screen, then the
    three chained comparisons. *)
Definition Camera_is_point_visible (c : Camera) (world_matrix : Matrix4)
    (point : Vector3) : option (bool * Camera) :=
  '(result, c') ← Camera_world_to_screen c world_matrix point 100 100;
  match result with
  | None => Some (false, c')
  | Some (x, y, depth) =>
    Some (Rleb 0 x && Rleb x 100 && (Rleb 0 y && Rleb y 100)
          && (Rleb (c_near c') depth && Rleb depth (c_far c')), c')
  end.

(** Assignments to the camera's properties and reads of its projection. *)
Inductive CameraOp : Type :=
| CamSetFov (value : R)
| CamSetFovDegrees (value : R)
| CamSetAspect (value : R)
| CamSetNearClip (value : R)
| CamSetFarClip (value : R)
| CamSetOrthographicSize (value : R)
| CamSetIsOrthographic (value : bool)
| CamReadProjection.

Definition Camera_step (c : Camera) (op : CameraOp) : option Camera :=
  match op with
  | CamSetFov v => Some (Camera_set_fov c v)
  | CamSetFovDegrees v => Some (Camera_set_fov_degrees c v)
  | CamSetAspect v => Some (Camera_set_aspect c v)
  | CamSetNearClip v => Some (Camera_set_near_clip c v)
  | CamSetFarClip v => Some (Camera_set_far_clip c v)
  | CamSetOrthographicSize v => Some (Camera_set_orthographic_size c v)
  | CamSetIsOrthographic b => Some (Camera_set_is_orthographic c b)
  | CamReadProjection => snd <$> Camera_projection_matrix c
  end.

Fixpoint Camera_exec (ops : list CameraOp) (c : Camera) : option Camera :=
  match ops with
  | [] => Some c
  | op :: rest => c1 ← Camera_step c op; Camera_exec rest c1
  end.

(** The projection matrix of the camera's current parameters. *)
Definition Camera_fresh_projection (c : Camera) : option Matrix4 :=
  if c_is_orthographic c then
    Matrix4_orthographic (- (c_ortho_size c * c_aspect c)) (c_ortho_size c * c_aspect c)
                         (- c_ortho_size c) (c_ortho_size c) (c_near c) (c_far c)
  else Matrix4_perspective (c_fov c) (c_aspect c) (c_near c) (c_far c).

(** What the camera's setters maintain. *)
Definition Camera_ok (c : Camera) : Prop :=
  Camera_params_in_range c /\ (0.01 <= c_ortho_size c /\ 0.001 <= c_far c) /\
  (c_projection_dirty c = false ->
   exists P, c_projection_matrix c = Some P /\ Camera_fresh_projection c = Some P).

(** ** renderer.py: points, and the buffer as text *)

(** [_point_char], set in [__init__] and never changed. *)
Definition point_char : string := "●".

(** [_draw_point]. *)
Definition Renderer_draw_point (r : Renderer) (pv : ProjectedVertex)
    (color : Color) : Renderer :=
  let x := py_int (pv_screen_x pv) in
  let y := py_int (pv_screen_y pv) in
  if in_bounds r x y then
    if negb (r_depth_testing r)
       || match grid_get (r_depth_buffer r) y x with
          | Some stored => depth_lt (pv_depth pv) stored
          | None => false
          end
    then
      mkRenderer (r_width r) (r_height r)
        (grid_set (r_char_buffer r) y x point_char)
        (grid_set (r_depth_buffer r) y x (Finite (pv_depth pv)))
        (grid_set (r_color_buffer r) y x (Some color))
        (r_camera r) (r_depth_testing r)
    else r
  else r.

(** [''.join(row)]. *)
Definition py_join (row : list string) : string :=
  fold_right String.append EmptyString row.

(** [get_buffer]: one string per row. *)
Definition Renderer_get_buffer (r : Renderer) : list string :=
  map py_join (r_char_buffer r).

(** What the three buffers hold at a pixel. *)
Definition pixel (r : Renderer) (x y : Z)
    : option (string * DepthCell * option Color) :=
  ch ← grid_get (r_char_buffer r) y x;
  d ← grid_get (r_depth_buffer r) y x;
  k ← grid_get (r_color_buffer r) y x;
  Some (ch, d, k).

(** [a < b] on depth cells. *)
Definition depth_cell_lt (a b : DepthCell) : Prop :=
  match a, b with
  | Finite x, Finite y => x < y
  | Finite _, PosInf => True
  | PosInf, _ => False
  end.

(** From [r] to [r'] the pixel is untouched, or it now holds the depth [d'],
    which is below the one it held. *)
Definition pixel_lowered_to (r r' : Renderer) (x y : Z) (d' : R) : Prop :=
  exists d, grid_get (r_depth_buffer r) y x = Some d /\
            grid_get (r_depth_buffer r') y x = Some (Finite d') /\
            depth_cell_lt (Finite d') d.

Definition same_frame (r r' : Renderer) : Prop :=
  well_shaped r' /\ r_width r' = r_width r /\ r_height r' = r_height r /\
  r_depth_testing r' = r_depth_testing r /\ r_camera r' = r_camera r.

(** ** renderer.py: Vertex, Edge, Face and Mesh *)

Record Vertex : Type := mkVertex {
  vt_position : Vector3;
  vt_normal : option Vector3;
  vt_uv : option (R * R);
  vt_color : option Color
}.

Record Edge : Type := mkEdge {
  ed_v1_idx : Z;
  ed_v2_idx : Z;
  ed_color : option Color;
  ed_thickness : R;
  ed_style : string
}.

Record Face : Type := mkFace {
  fc_vertex_indices : list Z;
  fc_normal : option Vector3;
  fc_color : option Color;
  fc_visible : bool
}.

(** [Vertex.copy]: a [Vector3] has [__len__] 3, so [if self.normal] only
    tests for [None]. *)
Definition Vertex_copy (v : Vertex) : Vertex :=
  mkVertex (Vector3_copy (vt_position v)) (Vector3_copy <$> vt_normal v)
           (vt_uv v) (vt_color v).

(** [l[i]] on a Python list: a negative index counts from the end; [None]
    is the [IndexError]. *)
Definition py_list_get {A : Type} (l : list A) (i : Z) : option A :=
  let n := Z.of_nat (length l) in
  if (0 <=? i)%Z then l !! Z.to_nat i
  else if (- n <=? i)%Z then l !! Z.to_nat (n + i)
  else None.

(** [Face.calculate_normal], from the face's index list. *)
Definition Face_calculate_normal (vertex_indices : list Z)
    (vertices : list Vertex) : option Vector3 :=
  match vertex_indices with
  | i0 :: i1 :: i2 :: _ =>
    v0 ← py_list_get vertices i0;
    v1 ← py_list_get vertices i1;
    v2 ← py_list_get vertices i2;
    let edge1 := Vector3_sub (vt_position v1) (vt_position v0) in
    let edge2 := Vector3_sub (vt_position v2) (vt_position v0) in
    Some (Vector3_normalized (Vector3_cross edge1 edge2))
  | _ => Some Vector3_up
  end.

Record Mesh : Type := mkMesh {
  mesh_vertices : list Vertex;
  mesh_edges : list Edge;
  mesh_faces : list Face;
  mesh_name : string;
  mesh_bounds_min : Vector3;
  mesh_bounds_max : Vector3;
  mesh_bounds_dirty : bool
}.

Definition Mesh_init (name : string) : Mesh :=
  mkMesh [] [] [] name Vector3_zero Vector3_zero true.

Definition Mesh_add_vertex (m : Mesh) (position : Vector3)
    (normal : option Vector3) (uv : option (R * R)) (color : option Color)
    : Z * Mesh :=
  let idx := Z.of_nat (length (mesh_vertices m)) in
  (idx, mkMesh (mesh_vertices m ++ [mkVertex position normal uv color])
               (mesh_edges m) (mesh_faces m) (mesh_name m)
               (mesh_bounds_min m) (mesh_bounds_max m) true).

Definition Mesh_add_edge (m : Mesh) (v1_idx v2_idx : Z) (color : option Color)
    (thickness : R) (style : string) : Z * Mesh :=
  let idx := Z.of_nat (length (mesh_edges m)) in
  (idx, mkMesh (mesh_vertices m)
               (mesh_edges m ++ [mkEdge v1_idx v2_idx color thickness style])
               (mesh_faces m) (mesh_name m)
               (mesh_bounds_min m) (mesh_bounds_max m) (mesh_bounds_dirty m)).

(** [add_face]: the normal is computed before the face is appended, so an
    [IndexError] leaves the mesh as it was. *)
Definition Mesh_add_face (m : Mesh) (vertex_indices : list Z)
    (color : option Color) : option (Z * Mesh) :=
  let idx := Z.of_nat (length (mesh_faces m)) in
  normal ← Face_calculate_normal vertex_indices (mesh_vertices m);
  Some (idx, mkMesh (mesh_vertices m) (mesh_edges m)
                    (mesh_faces m ++ [mkFace vertex_indices (Some normal) color true])
                    (mesh_name m)
                    (mesh_bounds_min m) (mesh_bounds_max m) (mesh_bounds_dirty m)).

Definition Mesh_add_triangle (m : Mesh) (v0 v1 v2 : Z) (color : option Color)
    (add_edges : bool) : option (Z * Mesh) :=
  '(face_idx, m) ← Mesh_add_face m [v0; v1; v2] color;
  if add_edges then
    let m := (Mesh_add_edge m v0 v1 color 1 "solid").2 in
    let m := (Mesh_add_edge m v1 v2 color 1 "solid").2 in
    let m := (Mesh_add_edge m v2 v0 color 1 "solid").2 in
    Some (face_idx, m)
  else Some (face_idx, m).

Definition Mesh_add_quad (m : Mesh) (v0 v1 v2 v3 : Z) (color : option Color)
    (add_edges : bool) : option (Z * Mesh) :=
  '(face_idx, m) ← Mesh_add_face m [v0; v1; v2; v3] color;
  if add_edges then
    let m := (Mesh_add_edge m v0 v1 color 1 "solid").2 in
    let m := (Mesh_add_edge m v1 v2 color 1 "solid").2 in
    let m := (Mesh_add_edge m v2 v3 color 1 "solid").2 in
    let m := (Mesh_add_edge m v3 v0 color 1 "solid").2 in
    Some (face_idx, m)
  else Some (face_idx, m).

(** The loop of [get_bounds] over [self.vertices[1:]]. *)
Definition bounds_loop (rest : list Vertex) (bounds : Vector3 * Vector3)
    : Vector3 * Vector3 :=
  fold_left (fun '(bmin, bmax) vertex =>
               let pos := vt_position vertex in
               (Vector3_component_min bmin pos, Vector3_component_max bmax pos))
            rest bounds.

(** The body of [if self._bounds_dirty:] in [get_bounds]. *)
Definition Mesh_recompute_bounds (m : Mesh) : Mesh :=
  let '(bmin, bmax) :=
    match mesh_vertices m with
    | [] => (Vector3_zero, Vector3_zero)
    | v0 :: rest =>
      bounds_loop rest (Vector3_copy (vt_position v0), Vector3_copy (vt_position v0))
    end in
  mkMesh (mesh_vertices m) (mesh_edges m) (mesh_faces m) (mesh_name m)
         bmin bmax false.

Definition Mesh_get_bounds (m : Mesh) : Vector3 * Vector3 * Mesh :=
  let m := if mesh_bounds_dirty m then Mesh_recompute_bounds m else m in
  (Vector3_copy (mesh_bounds_min m), Vector3_copy (mesh_bounds_max m), m).

Definition Mesh_get_center (m : Mesh) : Vector3 * Mesh :=
  let '(min_b, max_b, m) := Mesh_get_bounds m in
  (Vector3_scale (Vector3_add min_b max_b) 0.5, m).

Definition Mesh_get_size (m : Mesh) : Vector3 * Mesh :=
  let '(min_b, max_b, m) := Mesh_get_bounds m in
  (Vector3_sub max_b min_b, m).

(** [merge], for [other] an object different from [self] (merging a mesh
    into itself appends to the list it iterates and never ends). *)
Definition Mesh_merge (m other : Mesh) : Mesh :=
  let vertex_offset := Z.of_nat (length (mesh_vertices m)) in
  mkMesh (mesh_vertices m ++ (Vertex_copy <$> mesh_vertices other))
         (mesh_edges m ++
            ((fun edge => mkEdge (ed_v1_idx edge + vertex_offset)
                                 (ed_v2_idx edge + vertex_offset)
                                 (ed_color edge) (ed_thickness edge) (ed_style edge))
               <$> mesh_edges other))
         (mesh_faces m ++
            ((fun face => mkFace ((fun idx => idx + vertex_offset)%Z
                                    <$> fc_vertex_indices face)
                                 (Vector3_copy <$> fc_normal face)
                                 (fc_color face) (fc_visible face))
               <$> mesh_faces other))
         (mesh_name m) (mesh_bounds_min m) (mesh_bounds_max m) true.

Definition Mesh_clear (m : Mesh) : Mesh :=
  mkMesh [] [] [] (mesh_name m) (mesh_bounds_min m) (mesh_bounds_max m) true.

(** The calls a client makes on one mesh. *)
Inductive MeshOp : Type :=
| MAddVertex (position : Vector3) (normal : option Vector3)
             (uv : option (R * R)) (color : option Color)
| MAddEdge (v1_idx v2_idx : Z) (color : option Color) (thickness : R)
           (style : string)
| MAddFace (vertex_indices : list Z) (color : option Color)
| MAddTriangle (v0 v1 v2 : Z) (color : option Color) (add_edges : bool)
| MAddQuad (v0 v1 v2 v3 : Z) (color : option Color) (add_edges : bool)
| MMerge (other : Mesh)
| MClear
| MGetBounds.

Definition Mesh_step (op : MeshOp) (m : Mesh) : option Mesh :=
  match op with
  | MAddVertex position normal uv color =>
    Some (Mesh_add_vertex m position normal uv color).2
  | MAddEdge v1 v2 color thickness style =>
    Some (Mesh_add_edge m v1 v2 color thickness style).2
  | MAddFace idxs color => snd <$> Mesh_add_face m idxs color
  | MAddTriangle v0 v1 v2 color add_edges =>
    snd <$> Mesh_add_triangle m v0 v1 v2 color add_edges
  | MAddQuad v0 v1 v2 v3 color add_edges =>
    snd <$> Mesh_add_quad m v0 v1 v2 v3 color add_edges
  | MMerge other => Some (Mesh_merge m other)
  | MClear => Some (Mesh_clear m)
  | MGetBounds => Some (Mesh_get_bounds m).2
  end.

Fixpoint Mesh_exec (ops : list MeshOp) (m : Mesh) : option Mesh :=
  match ops with
  | [] => Some m
  | op :: rest => m' ← Mesh_step op m; Mesh_exec rest m'
  end.

(** Componentwise order of two vectors. *)
Definition Vector3_le (a b : Vector3) : Prop :=
  vx a <= vx b /\ vy a <= vy b /\ vz a <= vz b.

(** The cache of a mesh that is not dirty holds what [get_bounds] would
    compute. *)
Definition Mesh_ok (m : Mesh) : Prop :=
  mesh_bounds_dirty m = false ->
  mesh_bounds_min m = mesh_bounds_min (Mesh_recompute_bounds m) /\
  mesh_bounds_max m = mesh_bounds_max (Mesh_recompute_bounds m).

(** The index [i] names a vertex of a list of [n] vertices without
    counting from the end. *)
Definition index_in_range (n : nat) (i : Z) : Prop := (0 <= i < Z.of_nat n)%Z.

(** Every edge and face of the mesh names its vertices by such an index. *)
Definition Mesh_indices_ok (m : Mesh) : Prop :=
  let n := length (mesh_vertices m) in
  Forall (fun edge => index_in_range n (ed_v1_idx edge) /\
                      index_in_range n (ed_v2_idx edge)) (mesh_edges m) /\
  Forall (fun face => Forall (index_in_range n) (fc_vertex_indices face))
         (mesh_faces m).

(** * Double precision

    The functions whose properties depend on rounding or overflow, a second
    time, over IEEE 754 binary64 numbers, the values of a Python [float].
    Addition, subtraction, multiplication, division, [abs] and [math.sqrt]
    are the correctly rounded operations; an expression is evaluated in the
    order Python evaluates it; a comparison with a NaN is false.  A decimal
    literal denotes the nearest double, as it does in Python. *)

Set Warnings "-inexact-float".

Module Double.

Local Open Scope float_scope.

Definition EPSILON : float := 1e-10.
Definition PI : float := 0x1.921fb54442d18p+1.
Definition DEG_TO_RAD : float := PI / 180.

(** [max(a, b)] keeps [a] unless [b > a]. *)
Definition py_max (a b : float) : float := if a <? b then b else a.

(** Float division where nothing guards the divisor: [ZeroDivisionError]
    on a zero of either sign. *)
Definition py_div (a b : float) : option float :=
  if b =? 0 then None else Some (a / b).

(** [float(n)] for a Python integer below 2^53 in absolute value, where the
    conversion is exact. *)
Definition float_of_Z (n : Z) : float :=
  match n with
  | Z0 => 0
  | Zpos _ => PrimFloat.of_uint63 (Uint63.of_Z n)
  | Zneg p => - PrimFloat.of_uint63 (Uint63.of_Z (Zpos p))
  end.

Record Vector3 : Type := mkVector3 { vx : float; vy : float; vz : float }.

Definition Vector3_zero : Vector3 := mkVector3 0 0 0.

(** [math.sqrt] raises on a negative argument.  The sum of squares is never
    negative (lemma [Double_sum_of_squares] below), so the rounded square
    root stands for it. *)
Definition Vector3_magnitude (v : Vector3) : float :=
  PrimFloat.sqrt (vx v * vx v + vy v * vy v + vz v * vz v).

(** The divisions are reached only when [mag < EPSILON] is false, and then
    [mag] is not a zero (lemma [Double_guard] below), so they never raise. *)
Definition Vector3_normalized (v : Vector3) : Vector3 :=
  let mag := Vector3_magnitude v in
  if mag <? EPSILON then Vector3_zero
  else mkVector3 (vx v / mag) (vy v / mag) (vz v / mag).

Record Matrix4 : Type := mkMatrix4 {
  m00 : float; m01 : float; m02 : float; m03 : float;
  m10 : float; m11 : float; m12 : float; m13 : float;
  m20 : float; m21 : float; m22 : float; m23 : float;
  m30 : float; m31 : float; m32 : float; m33 : float }.

Definition Matrix4_identity : Matrix4 :=
  mkMatrix4 1 0 0 0
            0 1 0 0
            0 0 1 0
            0 0 0 1.

(** [Matrix4.from_flat] on a list of Python integers; the constructor
    converts every value by [float]. *)
Definition Matrix4_from_flat (values : list Z) : option Matrix4 :=
  match values with
  | a0 :: a1 :: a2 :: a3 :: a4 :: a5 :: a6 :: a7 :: a8 :: a9 :: a10 :: a11 ::
    a12 :: a13 :: a14 :: a15 :: _ =>
    Some (mkMatrix4 (float_of_Z a0) (float_of_Z a1) (float_of_Z a2) (float_of_Z a3)
                    (float_of_Z a4) (float_of_Z a5) (float_of_Z a6) (float_of_Z a7)
                    (float_of_Z a8) (float_of_Z a9) (float_of_Z a10) (float_of_Z a11)
                    (float_of_Z a12) (float_of_Z a13) (float_of_Z a14) (float_of_Z a15))
  | _ => None
  end.

Definition Matrix4_determinant (M : Matrix4) : float :=
  let s0 := m00 M * m11 M - m10 M * m01 M in
  let s1 := m00 M * m12 M - m10 M * m02 M in
  let s2 := m00 M * m13 M - m10 M * m03 M in
  let s3 := m01 M * m12 M - m11 M * m02 M in
  let s4 := m01 M * m13 M - m11 M * m03 M in
  let s5 := m02 M * m13 M - m12 M * m03 M in
  let c5 := m22 M * m33 M - m32 M * m23 M in
  let c4 := m21 M * m33 M - m31 M * m23 M in
  let c3 := m21 M * m32 M - m31 M * m22 M in
  let c2 := m20 M * m33 M - m30 M * m23 M in
  let c1 := m20 M * m32 M - m30 M * m22 M in
  let c0 := m20 M * m31 M - m30 M * m21 M in
  s0 * c5 - s1 * c4 + s2 * c3 + s3 * c2 - s4 * c1 + s5 * c0.

(** The division [1.0 / det] is reached only when [abs(det) < EPSILON] is
    false, and then [det] is not a zero (lemma [Double_abs_guard] below), so
    it never raises. *)
Definition Matrix4_inverse (M : Matrix4) : option Matrix4 :=
  let s0 := m00 M * m11 M - m10 M * m01 M in
  let s1 := m00 M * m12 M - m10 M * m02 M in
  let s2 := m00 M * m13 M - m10 M * m03 M in
  let s3 := m01 M * m12 M - m11 M * m02 M in
  let s4 := m01 M * m13 M - m11 M * m03 M in
  let s5 := m02 M * m13 M - m12 M * m03 M in
  let c5 := m22 M * m33 M - m32 M * m23 M in
  let c4 := m21 M * m33 M - m31 M * m23 M in
  let c3 := m21 M * m32 M - m31 M * m22 M in
  let c2 := m20 M * m33 M - m30 M * m23 M in
  let c1 := m20 M * m32 M - m30 M * m22 M in
  let c0 := m20 M * m31 M - m30 M * m21 M in
  let det := s0 * c5 - s1 * c4 + s2 * c3 + s3 * c2 - s4 * c1 + s5 * c0 in
  if PrimFloat.abs det <? EPSILON then None
  else
    let inv_det := 1 / det in
    Some (mkMatrix4
      ((m11 M * c5 - m12 M * c4 + m13 M * c3) * inv_det)
      (((- m01 M) * c5 + m02 M * c4 - m03 M * c3) * inv_det)
      ((m31 M * s5 - m32 M * s4 + m33 M * s3) * inv_det)
      (((- m21 M) * s5 + m22 M * s4 - m23 M * s3) * inv_det)
      (((- m10 M) * c5 + m12 M * c2 - m13 M * c1) * inv_det)
      ((m00 M * c5 - m02 M * c2 + m03 M * c1) * inv_det)
      (((- m30 M) * s5 + m32 M * s2 - m33 M * s1) * inv_det)
      ((m20 M * s5 - m22 M * s2 + m23 M * s1) * inv_det)
      ((m10 M * c4 - m11 M * c2 + m13 M * c0) * inv_det)
      (((- m00 M) * c4 + m01 M * c2 - m03 M * c0) * inv_det)
      ((m30 M * s4 - m31 M * s2 + m33 M * s0) * inv_det)
      (((- m20 M) * s4 + m21 M * s2 - m23 M * s0) * inv_det)
      (((- m10 M) * c3 + m11 M * c1 - m12 M * c0) * inv_det)
      ((m00 M * c3 - m01 M * c1 + m02 M * c0) * inv_det)
      (((- m30 M) * s3 + m31 M * s1 - m32 M * s0) * inv_det)
      ((m20 M * s3 - m21 M * s1 + m22 M * s0) * inv_det)).

(** One cell of [__mul__]: the accumulator starts at [0.0] and the four
    products are added for [k = 0..3]. *)
Definition mul_cell (a0 a1 a2 a3 b0 b1 b2 b3 : float) : float :=
  0 + a0 * b0 + a1 * b1 + a2 * b2 + a3 * b3.

Definition Matrix4_mul (A B : Matrix4) : Matrix4 :=
  mkMatrix4
    (mul_cell (m00 A) (m01 A) (m02 A) (m03 A) (m00 B) (m10 B) (m20 B) (m30 B))
    (mul_cell (m00 A) (m01 A) (m02 A) (m03 A) (m01 B) (m11 B) (m21 B) (m31 B))
    (mul_cell (m00 A) (m01 A) (m02 A) (m03 A) (m02 B) (m12 B) (m22 B) (m32 B))
    (mul_cell (m00 A) (m01 A) (m02 A) (m03 A) (m03 B) (m13 B) (m23 B) (m33 B))
    (mul_cell (m10 A) (m11 A) (m12 A) (m13 A) (m00 B) (m10 B) (m20 B) (m30 B))
    (mul_cell (m10 A) (m11 A) (m12 A) (m13 A) (m01 B) (m11 B) (m21 B) (m31 B))
    (mul_cell (m10 A) (m11 A) (m12 A) (m13 A) (m02 B) (m12 B) (m22 B) (m32 B))
    (mul_cell (m10 A) (m11 A) (m12 A) (m13 A) (m03 B) (m13 B) (m23 B) (m33 B))
    (mul_cell (m20 A) (m21 A) (m22 A) (m23 A) (m00 B) (m10 B) (m20 B) (m30 B))
    (mul_cell (m20 A) (m21 A) (m22 A) (m23 A) (m01 B) (m11 B) (m21 B) (m31 B))
    (mul_cell (m20 A) (m21 A) (m22 A) (m23 A) (m02 B) (m12 B) (m22 B) (m32 B))
    (mul_cell (m20 A) (m21 A) (m22 A) (m23 A) (m03 B) (m13 B) (m23 B) (m33 B))
    (mul_cell (m30 A) (m31 A) (m32 A) (m33 A) (m00 B) (m10 B) (m20 B) (m30 B))
    (mul_cell (m30 A) (m31 A) (m32 A) (m33 A) (m01 B) (m11 B) (m21 B) (m31 B))
    (mul_cell (m30 A) (m31 A) (m32 A) (m33 A) (m02 B) (m12 B) (m22 B) (m32 B))
    (mul_cell (m30 A) (m31 A) (m32 A) (m33 A) (m03 B) (m13 B) (m23 B) (m33 B)).

(** [abs(a - b) <= tol]: one cell of a comparison within a tolerance. *)
Definition close (tol a b : float) : bool := PrimFloat.abs (a - b) <=? tol.

(** The projection state of a [Camera], its constructor and the setters
    [near_clip] and [far_clip]. *)
Record Camera : Type := mkCamera {
  c_fov : float;
  c_aspect : float;
  c_near : float;
  c_far : float;
  c_ortho_size : float;
  c_is_orthographic : bool;
  c_projection_matrix : option Matrix4;
  c_projection_dirty : bool }.

Definition Camera_init : Camera :=
  mkCamera (60 * DEG_TO_RAD) (16 / 9) 0.1 1000 5 false None true.

Definition Camera_set_near_clip (c : Camera) (value : float) : Camera :=
  mkCamera (c_fov c) (c_aspect c) (py_max 0.001 value) (c_far c)
           (c_ortho_size c) (c_is_orthographic c) (c_projection_matrix c) true.

Definition Camera_set_far_clip (c : Camera) (value : float) : Camera :=
  mkCamera (c_fov c) (c_aspect c) (c_near c) (py_max (c_near c + 0.01) value)
           (c_ortho_size c) (c_is_orthographic c) (c_projection_matrix c) true.

Definition Camera_store_projection (c : Camera) (P : Matrix4) : Camera :=
  mkCamera (c_fov c) (c_aspect c) (c_near c) (c_far c)
           (c_ortho_size c) (c_is_orthographic c) (Some P) false.

Definition Matrix4_orthographic (left right bottom top near far : float)
    : option Matrix4 :=
  o00 ← py_div 2 (right - left);
  o11 ← py_div 2 (top - bottom);
  o22 ← py_div (-2) (far - near);
  o03 ← py_div (- (right + left)) (right - left);
  o13 ← py_div (- (top + bottom)) (top - bottom);
  o23 ← py_div (- (far + near)) (far - near);
  Some (mkMatrix4 o00 0 0 o03
                  0 o11 0 o13
                  0 0 o22 o23
                  0 0 0 1).

Section Tangent.

(** [math.tan], the tangent of the platform's C library on doubles. *)
Variable tan : float -> float.

(** [Matrix4.perspective]: no divisor is guarded. *)
Definition Matrix4_perspective (fov aspect near far : float) : option Matrix4 :=
  let tan_half_fov := tan (fov / 2) in
  p00 ← py_div 1 (aspect * tan_half_fov);
  p11 ← py_div 1 tan_half_fov;
  p22 ← py_div (- (far + near)) (far - near);
  p23 ← py_div (- (2 * far * near)) (far - near);
  Some (mkMatrix4 p00 0 0 0
                  0 p11 0 0
                  0 0 p22 p23
                  0 0 (-1) 0).

Definition Camera_projection_matrix (c : Camera) : option (Matrix4 * Camera) :=
  match c_projection_dirty c, c_projection_matrix c with
  | false, Some P => Some (P, c)
  | _, _ =>
    P ← (if c_is_orthographic c then
           let half_height := c_ortho_size c in
           let half_width := half_height * c_aspect c in
           Matrix4_orthographic (- half_width) half_width
                                (- half_height) half_height
                                (c_near c) (c_far c)
         else Matrix4_perspective (c_fov c) (c_aspect c) (c_near c) (c_far c));
    Some (P, Camera_store_projection c P)
  end.

End Tangent.

End Double.

(** A double that is a NaN or has its sign bit clear. *)
Definition sign_clear (x : spec_float) : Prop :=
  match x with
  | S754_nan => True
  | S754_zero s | S754_infinity s | S754_finite s _ _ => s = false
  end.

(** ** Integer matrices on which rounding shows

    Two consecutive Fibonacci pairs, of determinant -1. *)
Definition fib_values : list Z :=
  [267914296; 165580141; 0; 0;
   165580141; 102334155; 0; 0;
   0; 0; 1; 0;
   0; 0; 0; 1]%Z.

(** An integer matrix of determinant 1 and its inverse, an integer matrix
    too. *)
Definition unimodular_values : list Z :=
  [1; 124; 122; -87;
   -222; -27527; -27378; 19279;
   -275; -34325; 32601; 31665;
   94; 11632; 18325; 19528]%Z.

Definition unimodular_inverse_values : list Z :=
  [-49424711638124; -221417566291; -983550895; -4942283;
   397265123897; 1779706426; 7905569; 39725;
   1350051440; 6048090; 26866; 135;
   10000009; 44799; 199; 1]%Z.

(** * Properties *)





Lemma EPSILON_pos : 0 < EPSILON.
Proof. unfold EPSILON. lra. Qed.

Lemma Matrix4_eq (A B : Matrix4) :
  m00 A = m00 B -> m01 A = m01 B -> m02 A = m02 B -> m03 A = m03 B ->
  m10 A = m10 B -> m11 A = m11 B -> m12 A = m12 B -> m13 A = m13 B ->
  m20 A = m20 B -> m21 A = m21 B -> m22 A = m22 B -> m23 A = m23 B ->
  m30 A = m30 B -> m31 A = m31 B -> m32 A = m32 B -> m33 A = m33 B ->
  A = B.
Proof. destruct A, B; simpl; intros; subst; reflexivity. Qed.

Lemma Matrix4_inverse_Some (M : Matrix4) :
  ~ Rabs (Matrix4_determinant M) < EPSILON ->
  exists N, Matrix4_inverse M = Some N /\
            Matrix4_mul M N = Matrix4_identity /\
            Matrix4_mul N M = Matrix4_identity.
Proof.
  intros Hdet.
  assert (Hnz : Matrix4_determinant M <> 0).
  { intros H0. apply Hdet. rewrite H0, Rabs_R0. apply EPSILON_pos. }
  unfold Matrix4_inverse.
  destruct M as [a00 a01 a02 a03 a10 a11 a12 a13 a20 a21 a22 a23 a30 a31 a32 a33].
  unfold Matrix4_determinant in *; cbn [m00 m01 m02 m03 m10 m11 m12 m13 m20 m21 m22 m23 m30 m31 m32 m33] in *.
  cbv zeta in *.
  destruct (Rlt_dec _ _) as [Hlt | _]; [contradiction |].
  eexists; split; [reflexivity |].
  split; apply Matrix4_eq; cbn [m00 m01 m02 m03 m10 m11 m12 m13 m20 m21 m22 m23 m30 m31 m32 m33 Matrix4_mul Matrix4_identity]; unfold mul_cell; field; exact Hnz.
Qed.

(** ** Helpers on reals, vectors and quaternions *)

Lemma sqrt_of_square (a b : R) : 0 <= b -> a = b * b -> sqrt a = b.
Proof. intros Hb ->. apply sqrt_square, Hb. Qed.

Lemma py_div_nonzero (a b : R) : b <> 0 -> py_div a b = Some (a / b).
Proof.
  intros H. unfold py_div. destruct (Req_dec_T b 0); [contradiction | reflexivity].
Qed.

Lemma Rltb_true (a b : R) : a < b -> Rltb a b = true.
Proof. intros H. unfold Rltb. destruct (Rlt_dec a b); [reflexivity | contradiction]. Qed.

Lemma Rltb_false (a b : R) : ~ a < b -> Rltb a b = false.
Proof. intros H. unfold Rltb. destruct (Rlt_dec a b); [contradiction | reflexivity]. Qed.

Lemma Vector3_eq (a b : Vector3) :
  vx a = vx b -> vy a = vy b -> vz a = vz b -> a = b.
Proof. destruct a, b; simpl; intros; subst; reflexivity. Qed.

Lemma Quaternion_eq (a b : Quaternion) :
  qx a = qx b -> qy a = qy b -> qz a = qz b -> qw a = qw b -> a = b.
Proof. destruct a, b; simpl; intros; subst; reflexivity. Qed.

(** Decides the float comparisons of the goal by linear arithmetic. *)
Ltac Rcmp :=
  repeat match goal with
  | |- context [Rlt_dec ?a ?b] => destruct (Rlt_dec a b); try lra
  | |- context [Rltb ?a ?b] =>
      first [ rewrite (Rltb_true a b) by lra | rewrite (Rltb_false a b) by lra ]
  end.

Lemma py_int_IZR (z : Z) : py_int (IZR z) = z.
Proof.
  unfold py_int. destruct (Rle_dec 0 (IZR z)) as [Hle | Hgt].
  - symmetry. apply Int_part_spec. lra.
  - rewrite <- opp_IZR.
    assert (Int_part (IZR (- z)) = (- z)%Z) as ->; [| lia].
    symmetry. apply Int_part_spec. lra.
Qed.

(** ** Vector3.normalized *)
Lemma sum_sq_nonneg (a b c : R) : 0 <= a * a + b * b + c * c.
Proof. nra. Qed.

Lemma Vector3_magnitude_sq (v : Vector3) :
  Vector3_magnitude v * Vector3_magnitude v = vx v * vx v + vy v * vy v + vz v * vz v.
Proof. unfold Vector3_magnitude. apply sqrt_sqrt, sum_sq_nonneg. Qed.

Lemma Vector3_magnitude_scaled (v : Vector3) (k : R) :
  0 < k ->
  Vector3_magnitude (mkVector3 (vx v / k) (vy v / k) (vz v / k)) = Vector3_magnitude v / k.
Proof.
  intros Hk. unfold Vector3_magnitude; simpl.
  replace (vx v / k * (vx v / k) + vy v / k * (vy v / k) + vz v / k * (vz v / k))
    with ((vx v * vx v + vy v * vy v + vz v * vz v) / (k * k)) by (field; lra).
  rewrite sqrt_div_alt by nra.
  rewrite sqrt_square by lra. reflexivity.
Qed.

(** ** Double precision: what the guards exclude *)

Lemma binary_round_aux_sign (s : bool) (m e : Z) (l : SpecFloat.location) :
  match SpecFloat.binary_round_aux FloatOps.prec FloatOps.emax s m e l with
  | S754_nan => True
  | S754_zero s' | S754_infinity s' | S754_finite s' _ _ => s' = s
  end.
Proof.
  unfold SpecFloat.binary_round_aux.
  destruct (SpecFloat.shr_fexp FloatOps.prec FloatOps.emax m e l) as [mrs' e'].
  destruct (SpecFloat.shr_fexp FloatOps.prec FloatOps.emax _ e' SpecFloat.loc_Exact)
    as [mrs'' e''].
  destruct (SpecFloat.shr_m mrs''); [reflexivity | | exact I].
  destruct (Z.leb e'' (FloatOps.emax - FloatOps.prec)); reflexivity.
Qed.

Lemma square_sign_clear (x : float) : sign_clear (Prim2SF (x * x)).
Proof.
  rewrite FloatAxioms.mul_spec. unfold SF64mul, SpecFloat.SFmul.
  destruct (Prim2SF x) as [s | s | | s m e]; simpl;
    try (destruct s; reflexivity); try exact I.
  pose proof (binary_round_aux_sign (xorb s s) (Z.pos (m * m)) (e + e)
                SpecFloat.loc_Exact) as H.
  rewrite xorb_nilpotent in H. unfold sign_clear.
  rewrite xorb_nilpotent. exact H.
Qed.

Lemma add_sign_clear (x y : float) :
  sign_clear (Prim2SF x) -> sign_clear (Prim2SF y) -> sign_clear (Prim2SF (x + y)).
Proof.
  rewrite FloatAxioms.add_spec. unfold SF64add, SpecFloat.SFadd.
  destruct (Prim2SF x) as [sx | sx | | sx mx ex];
    destruct (Prim2SF y) as [sy | sy | | sy my ey]; simpl;
    intros Hx Hy; subst; try reflexivity; try exact I.
  destruct (SpecFloat.shl_align mx ex (Z.min ex ey)) as [mx' ex'].
  destruct (SpecFloat.shl_align my ey (Z.min ex ey)) as [my' ey']. simpl.
  unfold SpecFloat.binary_round.
  destruct (SpecFloat.shl_align _ _ _) as [mz ez].
  apply (binary_round_aux_sign false).
Qed.

Lemma sign_clear_not_negative (x : float) :
  sign_clear (Prim2SF x) -> (x <? 0)%float = false.
Proof.
  rewrite FloatAxioms.ltb_spec.
  replace (Prim2SF 0) with (S754_zero false) by (vm_compute; reflexivity).
  destruct (Prim2SF x) as [s | s | | s m e]; simpl; intros H; subst; reflexivity.
Qed.

(** The argument of [math.sqrt] in [Vector3.magnitude] is never negative:
    the square root never raises. *)
Lemma Double_sum_of_squares (x y z : float) :
  (x * x + y * y + z * z <? 0)%float = false.
Proof.
  apply sign_clear_not_negative.
  repeat apply add_sign_clear; apply square_sign_clear.
Qed.

Lemma Double_EPSILON_value :
  Prim2SF Double.EPSILON = S754_finite false 7737125245533627 (-86).
Proof. vm_compute. reflexivity. Qed.

(** A double that is not below [EPSILON] is not a zero: a division behind
    the guard [m < EPSILON] never raises. *)
Lemma Double_guard (m : float) :
  (m <? Double.EPSILON)%float = false -> (m =? 0)%float = false.
Proof.
  rewrite FloatAxioms.ltb_spec, FloatAxioms.eqb_spec, Double_EPSILON_value.
  replace (Prim2SF 0) with (S754_zero false) by (vm_compute; reflexivity).
  destruct (Prim2SF m) as [s | s | | s mm ee];
    unfold SpecFloat.SFltb, SpecFloat.SFeqb, SpecFloat.SFcompare.
  - destruct s; discriminate.
  - destruct s; intros; reflexivity.
  - intros; reflexivity.
  - intros _. destruct s; reflexivity.
Qed.

Lemma Double_abs_guard (d : float) :
  (PrimFloat.abs d <? Double.EPSILON)%float = false -> (d =? 0)%float = false.
Proof.
  rewrite FloatAxioms.ltb_spec, FloatAxioms.eqb_spec, FloatAxioms.abs_spec,
    Double_EPSILON_value.
  replace (Prim2SF 0) with (S754_zero false) by (vm_compute; reflexivity).
  destruct (Prim2SF d) as [s | s | | s mm ee];
    unfold SpecFloat.SFabs, SpecFloat.SFltb, SpecFloat.SFeqb, SpecFloat.SFcompare.
  - discriminate.
  - destruct s; intros; reflexivity.
  - intros; reflexivity.
  - intros _. destruct s; reflexivity.
Qed.

Lemma Double_normalized_cases (v : Double.Vector3) :
  ((Double.Vector3_magnitude v <? Double.EPSILON)%float = true ->
     Double.Vector3_normalized v = Double.Vector3_zero) /\
  ((Double.Vector3_magnitude v <? Double.EPSILON)%float = false ->
     (Double.Vector3_magnitude v =? 0)%float = false /\
     Double.Vector3_normalized v =
       Double.mkVector3 (Double.vx v / Double.Vector3_magnitude v)
                        (Double.vy v / Double.Vector3_magnitude v)
                        (Double.vz v / Double.Vector3_magnitude v)).
Proof.
  unfold Double.Vector3_normalized; cbv zeta. split; intros H; rewrite H.
  - reflexivity.
  - split; [apply Double_guard, H | reflexivity].
Qed.


Lemma sqrt_25 : sqrt 25 = 5.
Proof. replace 25 with (5 * 5) by lra. apply sqrt_square. lra. Qed.



(** On ordinary inputs the double computation is within the tolerance: for
    every vector with integer components between -8 and 8, not all zero, the
    magnitude of [normalized] differs from 1 by less than [EPSILON]. *)
Lemma Double_normalized_small_integers :
  let range := [-8; -7; -6; -5; -4; -3; -2; -1; 0; 1; 2; 3; 4; 5; 6; 7; 8]%Z in
  forallb (fun x => forallb (fun y => forallb (fun z =>
    if ((x =? 0) && (y =? 0) && (z =? 0))%Z then true
    else
      let v := Double.mkVector3 (Double.float_of_Z x) (Double.float_of_Z y)
                                (Double.float_of_Z z) in
      (PrimFloat.abs (Double.Vector3_magnitude (Double.Vector3_normalized v) - 1)
         <? Double.EPSILON)%float) range) range) range = true.
Proof. vm_compute. reflexivity. Qed.

(** ** Matrix4.inverse, and the camera setters *)
Lemma Matrix4_inverse_None (M : Matrix4) :
  Matrix4_inverse M = None <-> Rabs (Matrix4_determinant M) < EPSILON.
Proof.
  unfold Matrix4_inverse, Matrix4_determinant; cbv zeta.
  destruct (Rlt_dec _ _) as [Hlt | Hge]; split; intros H;
    try reflexivity; try assumption; try discriminate; contradiction.
Qed.

Lemma Double_inverse_None (D : Double.Matrix4) :
  Double.Matrix4_inverse D = None <->
  (PrimFloat.abs (Double.Matrix4_determinant D) <? Double.EPSILON)%float = true.
Proof.
  unfold Double.Matrix4_inverse, Double.Matrix4_determinant; cbv zeta.
  destruct (PrimFloat.abs _ <? Double.EPSILON)%float; split; intros H;
    try reflexivity; discriminate.
Qed.


Lemma scale2_det : Matrix4_determinant scale2 = 8.
Proof. unfold Matrix4_determinant, scale2; simpl. lra. Qed.



(** On a well-conditioned matrix the double computation is within the
    tolerance: the scaling by 2 is inverted exactly. *)
Lemma Double_inverse_of_scale :
  exists D E,
    Double.Matrix4_from_flat [2; 0; 0; 0; 0; 2; 0; 0; 0; 0; 2; 0; 0; 0; 0; 1]%Z = Some D /\
    Double.Matrix4_inverse D = Some E /\
    Double.Matrix4_mul D E = Double.Matrix4_identity.
Proof.
  eexists _, _. split; [reflexivity |]. split; vm_compute; reflexivity.
Qed.

Lemma py_max_lower (a b : R) : a <= py_max a b.
Proof. unfold py_max. destruct (Rlt_dec a b); lra. Qed.

Lemma clamp_range (v lo hi : R) : lo <= hi -> lo <= clamp v lo hi <= hi.
Proof.
  intros H. unfold clamp, py_max, py_min.
  destruct (Rlt_dec v hi); destruct (Rlt_dec lo _); lra.
Qed.

Lemma clamp_cases (v lo hi : R) :
  lo <= hi ->
  clamp v lo hi = (if Rlt_dec v lo then lo else if Rlt_dec hi v then hi else v).
Proof.
  intros H. unfold clamp, py_max, py_min.
  destruct (Rlt_dec v hi); destruct (Rlt_dec lo _); destruct (Rlt_dec v lo);
    try destruct (Rlt_dec hi v); lra.
Qed.

Lemma fov_bounds_ordered : 0.01 <= PI - 0.01.
Proof. pose proof PI2_3_2. lra. Qed.

Lemma Camera_init_in_range : Camera_params_in_range Camera_init.
Proof.
  unfold Camera_params_in_range, Camera_init, DEG_TO_RAD; simpl.
  pose proof PI2_3_2. pose proof PI_4. lra.
Qed.

Lemma Camera_assign_in_range (c : Camera) (a : CameraAssign) :
  Camera_params_in_range c -> Camera_params_in_range (Camera_assign c a).
Proof.
  intros (Hf & Ha & Hn). unfold Camera_params_in_range.
  destruct a; simpl; repeat split; try tauto;
    try apply py_max_lower; apply clamp_range, fov_bounds_ordered.
Qed.

Lemma Camera_assigns_in_range (l : list CameraAssign) : forall c,
  Camera_params_in_range c -> Camera_params_in_range (fold_left Camera_assign l c).
Proof.
  induction l as [| a l IH]; intros c Hc; simpl; [exact Hc |].
  apply IH, Camera_assign_in_range, Hc.
Qed.

(** Claim C10.  An assignment to [fov], [aspect] or [near_clip] never fails
    and stores the clamped value: [fov] in [[0.01, pi - 0.01]],
    [aspect >= 0.01], [near_clip >= 0.001]; and after any sequence of
    assignments to a new camera all three bounds hold together. *)
Theorem Camera_setters_clamp :
  (forall (c : Camera) (v : R),
     0.01 <= c_fov (Camera_set_fov c v) <= PI - 0.01 /\
     c_fov (Camera_set_fov c v) =
       (if Rlt_dec v 0.01 then 0.01
        else if Rlt_dec (PI - 0.01) v then PI - 0.01 else v)) /\
  (forall (c : Camera) (v : R),
     0.01 <= c_aspect (Camera_set_aspect c v) /\
     c_aspect (Camera_set_aspect c v) = (if Rlt_dec 0.01 v then v else 0.01)) /\
  (forall (c : Camera) (v : R),
     0.001 <= c_near (Camera_set_near_clip c v) /\
     c_near (Camera_set_near_clip c v) = (if Rlt_dec 0.001 v then v else 0.001)) /\
  (forall l : list CameraAssign,
     Camera_params_in_range (fold_left Camera_assign l Camera_init)).
Proof.
  split; [| split; [| split]].
  - intros c v. simpl. split.
    + apply clamp_range, fov_bounds_ordered.
    + apply clamp_cases, fov_bounds_ordered.
  - intros c v. simpl. split; [apply py_max_lower | reflexivity].
  - intros c v. simpl. split; [apply py_max_lower | reflexivity].
  - intros l. apply Camera_assigns_in_range, Camera_init_in_range.
Qed.

(** ** Matrix4.trs and Matrix4.decompose *)

Lemma trs_third_turn :
  Matrix4_trs Vector3_zero q_third_turn (mkVector3 1 2 3) =
  mkMatrix4 0 0 1 0
            2 0 0 0
            0 3 0 0
            0 0 0 1.
Proof. apply Matrix4_eq; simpl; lra. Qed.

(** Claim C5, at the input where the code departs from it.  For the zero
    translation, the unit quaternion (0.5, 0.5, 0.5, 0.5) and the scale
    (1, 2, 3), [Matrix4.trs(t, r, s).decompose()] returns the scale (2, 3, 1):
    [trs] scales the rows of the rotation, [decompose] measures the columns. *)
Theorem trs_decompose_swaps_scale :
  Quaternion_magnitude_squared q_third_turn = 1 /\
  Matrix4_decompose (Matrix4_trs Vector3_zero q_third_turn (mkVector3 1 2 3)) =
  Some (Vector3_zero, q_third_turn, mkVector3 2 3 1).
Proof.
  split; [unfold Quaternion_magnitude_squared; simpl; lra |].
  rewrite trs_third_turn.
  unfold Matrix4_decompose, Vector3_magnitude, Matrix4_determinant; simpl.
  rewrite (sqrt_of_square (0 * 0 + 2 * 2 + 0 * 0) 2) by lra.
  rewrite (sqrt_of_square (0 * 0 + 0 * 0 + 3 * 3) 3) by lra.
  rewrite (sqrt_of_square (1 * 1 + 0 * 0 + 0 * 0) 1) by lra.
  destruct (Rlt_dec _ 0) as [Hneg | _]; [lra |].
  rewrite !py_div_nonzero by lra. simpl.
  unfold Quaternion_from_matrix; simpl.
  Rcmp. simpl.
  rewrite (sqrt_of_square (1 + 0 / 1 - 0 / 2 - 0 / 3) 1) by lra.
  do 3 f_equal.
  apply Quaternion_eq; simpl; lra.
Qed.

(** ** Camera.world_to_screen *)

(** The view matrix is a true inverse whenever [Matrix4.inverse] yields one. *)
Lemma Camera_view_matrix_cases (W : Matrix4) :
  (~ Rabs (Matrix4_determinant W) < EPSILON ->
     Matrix4_mul W (Camera_view_matrix W) = Matrix4_identity /\
     Matrix4_mul (Camera_view_matrix W) W = Matrix4_identity) /\
  (Rabs (Matrix4_determinant W) < EPSILON ->
     Camera_view_matrix W = Matrix4_identity).
Proof.
  unfold Camera_view_matrix. split; intros H.
  - destruct (Matrix4_inverse_Some W H) as (N & -> & H1 & H2). auto.
  - assert (Matrix4_inverse W = None) as ->; [| reflexivity].
    unfold Matrix4_inverse, Matrix4_determinant in *; cbv zeta in *.
    destruct (Rlt_dec _ _); [reflexivity | contradiction].
Qed.

(** Claim C3, amended.  The view matrix is the inverse of the camera's world
    matrix when [Matrix4.inverse] yields one, and the identity otherwise.
    With [view_pos] the point transformed by that view matrix,
    [world_to_screen] returns [None] exactly when [view_pos.z >= 0]; and when
    [view_pos.z < 0] and the projection matrix can be built, it returns
    [((ndc_x + 1) * 0.5 * W, (1 - ndc_y) * 0.5 * H, - view_pos.z)], where
    [ndc_x], [ndc_y] are the x and y of [view_pos] transformed by the
    projection matrix. *)
Theorem Camera_world_to_screen_spec (c : Camera) (W : Matrix4) (p : Vector3)
    (sw sh : Z) :
  let view_pos := Matrix4_transform_point (Camera_view_matrix W) p in
  ((~ Rabs (Matrix4_determinant W) < EPSILON ->
      Matrix4_mul W (Camera_view_matrix W) = Matrix4_identity /\
      Matrix4_mul (Camera_view_matrix W) W = Matrix4_identity) /\
   (Rabs (Matrix4_determinant W) < EPSILON ->
      Camera_view_matrix W = Matrix4_identity)) /\
  (vz view_pos >= 0 <->
     exists c', Camera_world_to_screen c W p sw sh = Some (None, c')) /\
  (vz view_pos < 0 ->
     forall (P : Matrix4) (c' : Camera),
       Camera_projection_matrix c = Some (P, c') ->
       let clip_pos := Matrix4_transform_point P view_pos in
       Camera_world_to_screen c W p sw sh =
         Some (Some ((vx clip_pos + 1) * 0.5 * IZR sw,
                     (1 - vy clip_pos) * 0.5 * IZR sh,
                     - vz view_pos), c')).
Proof.
  intros view_pos. split; [apply Camera_view_matrix_cases |].
  unfold Camera_world_to_screen. fold view_pos.
  destruct (Rge_dec (vz view_pos) 0) as [Hge | Hlt].
  - split.
    + split; [eauto | auto].
    + intros Hneg. lra.
  - split.
    + split; [contradiction |].
      intros [c' H]. destruct (Camera_projection_matrix c) as [[P c1] |]; simpl in H; discriminate.
    + intros _ P c' ->. reflexivity.
Qed.

Lemma tan_half_pos (fov : R) : 0 < fov -> fov < PI -> 0 < tan (fov / 2).
Proof. intros H1 H2. apply tan_gt_0; lra. Qed.

Lemma Matrix4_perspective_ok (fov aspect near far : R) :
  0 < fov -> fov < PI -> 0 < aspect -> far <> near ->
  exists P, Matrix4_perspective fov aspect near far = Some P.
Proof.
  intros H1 H2 H3 H4. pose proof (tan_half_pos fov H1 H2) as Ht.
  assert (Hat : aspect * tan (fov / 2) <> 0) by (apply Rgt_not_eq, Rmult_lt_0_compat; lra).
  assert (Hd : far - near <> 0) by (intros H; apply H4; lra).
  unfold Matrix4_perspective.
  rewrite (py_div_nonzero _ _ Hat), (py_div_nonzero 1 (tan (fov / 2))) by lra.
  rewrite !(py_div_nonzero _ _ Hd). simpl. eauto.
Qed.

Lemma Camera_projection_matrix_ok (c : Camera) :
  Camera_params_in_range c -> c_is_orthographic c = false -> c_far c <> c_near c ->
  exists P c', Camera_projection_matrix c = Some (P, c').
Proof.
  intros (Hf & Ha & Hn) Ho Hfar. unfold Camera_projection_matrix.
  destruct (Matrix4_perspective_ok (c_fov c) (c_aspect c) (c_near c) (c_far c))
    as [P HP]; try lra.
  rewrite Ho, HP.
  destruct (c_projection_dirty c); [simpl; eauto |].
  destruct (c_projection_matrix c); simpl; eauto.
Qed.

Lemma tiny_camera_world_value :
  tiny_camera_world = mkMatrix4 (-0.0001) 0 0 0  0 0.0001 0 0  0 0 (-0.0001) 0  0 0 0 1.
Proof. apply Matrix4_eq; simpl; lra. Qed.

Lemma tiny_camera_view : Camera_view_matrix tiny_camera_world = Matrix4_identity.
Proof.
  apply Camera_view_matrix_cases. rewrite tiny_camera_world_value.
  unfold Matrix4_determinant, EPSILON; simpl.
  apply Rabs_def1; lra.
Qed.

(** Claim C3 as stated fails: this camera's world matrix has the two-sided
    inverse [tiny_camera_world_inverse], the point (0,0,-1) transformed by
    that inverse has z >= 0, and yet [world_to_screen] returns a projection
    (of depth 1), because the determinant 1e-12 is below [EPSILON] and the
    identity is used as the view matrix. *)
Lemma world_to_screen_not_true_inverse :
  Matrix4_mul tiny_camera_world tiny_camera_world_inverse = Matrix4_identity /\
  Matrix4_mul tiny_camera_world_inverse tiny_camera_world = Matrix4_identity /\
  vz (Matrix4_transform_point tiny_camera_world_inverse (mkVector3 0 0 (-1))) >= 0 /\
  exists x y c',
    Camera_world_to_screen Camera_init tiny_camera_world (mkVector3 0 0 (-1)) 100 100 =
    Some (Some (x, y, 1), c').
Proof.
  split; [| split; [| split]].
  - rewrite tiny_camera_world_value. apply Matrix4_eq; simpl; unfold mul_cell; lra.
  - rewrite tiny_camera_world_value. apply Matrix4_eq; simpl; unfold mul_cell; lra.
  - unfold Matrix4_transform_point; simpl.
    destruct (Rlt_dec _ _) as [H | H]; [| lra].
    exfalso. revert H. unfold EPSILON. intros H. apply Rabs_def2 in H. lra.
  - destruct (Camera_projection_matrix_ok Camera_init) as (P & c' & HP).
    + apply Camera_init_in_range.
    + reflexivity.
    + simpl. lra.
    + unfold Camera_world_to_screen. rewrite tiny_camera_view, HP.
      assert (Hv : Matrix4_transform_point Matrix4_identity (mkVector3 0 0 (-1)) = mkVector3 0 0 (-1)).
      { unfold Matrix4_transform_point; simpl.
        destruct (Rlt_dec _ _) as [H | H].
        - exfalso. revert H. unfold EPSILON. intros H. apply Rabs_def2 in H. lra.
        - apply Vector3_eq; simpl; lra. }
      rewrite Hv. simpl.
      destruct (Rge_dec (-1) 0); [lra |].
      simpl. replace (- -1) with 1 by lra. do 3 eexists. reflexivity.
Qed.

(** ** Transform: the matrix caches *)
(** *** Spec-level definitions *)

(** *** Generic lemmas *)

Lemma Matrix4_copy_id (M : Matrix4) : Matrix4_copy M = M.
Proof. destruct M; reflexivity. Qed.

Lemma store_rel_refl R s : (forall t, R t t) -> store_rel R s s.
Proof. intros HR n. destruct (s !! n); constructor; auto. Qed.

Lemma store_rel_trans R s1 s2 s3 :
  (forall a b c, R a b -> R b c -> R a c) ->
  store_rel R s1 s2 -> store_rel R s2 s3 -> store_rel R s1 s3.
Proof.
  intros HR H12 H23 n. specialize (H12 n). specialize (H23 n).
  destruct H12; inversion H23; subst; constructor; eauto.
Qed.

Lemma store_rel_sym R s1 s2 :
  (forall a b, R a b -> R b a) -> store_rel R s1 s2 -> store_rel R s2 s1.
Proof. intros HR H n. specialize (H n). destruct H; constructor; auto. Qed.

Lemma store_rel_mono (R R' : Transform -> Transform -> Prop) s1 s2 :
  (forall a b, R a b -> R' a b) -> store_rel R s1 s2 -> store_rel R' s1 s2.
Proof. intros HR H n. specialize (H n). destruct H; constructor; auto. Qed.

Lemma store_rel_insert R (s : Store) n t t' :
  (forall t, R t t) -> s !! n = Some t -> R t t' -> store_rel R s (<[n := t']> s).
Proof.
  intros HR Hn Ht x. destruct (decide (n = x)) as [<- | Hne].
  - rewrite lookup_insert_eq, Hn. constructor; auto.
  - rewrite lookup_insert_ne by done. destruct (s !! x); constructor; auto.
Qed.

Lemma store_rel_l R (s s' : Store) n t :
  store_rel R s s' -> s !! n = Some t -> exists t', s' !! n = Some t' /\ R t t'.
Proof. intros H Hn. specialize (H n). rewrite Hn in H. inversion H; subst. eauto. Qed.

Lemma store_rel_r R (s s' : Store) n t' :
  store_rel R s s' -> s' !! n = Some t' -> exists t, s !! n = Some t /\ R t t'.
Proof. intros H Hn. specialize (H n). rewrite Hn in H. inversion H; subst. eauto. Qed.

Lemma graph_rel_refl t : graph_rel t t.
Proof. split; reflexivity. Qed.
Lemma graph_rel_sym a b : graph_rel a b -> graph_rel b a.
Proof. intros [? ?]; split; congruence. Qed.
Lemma graph_rel_trans a b c : graph_rel a b -> graph_rel b c -> graph_rel a c.
Proof. intros [? ?] [? ?]; split; congruence. Qed.
Lemma data_rel_refl t : data_rel t t.
Proof. repeat split; reflexivity. Qed.
Lemma data_rel_trans a b c : data_rel a b -> data_rel b c -> data_rel a c.
Proof. intros (?&?&?&?&?) (?&?&?&?&?); repeat split; congruence. Qed.
Lemma data_rel_graph a b : data_rel a b -> graph_rel a b.
Proof. intros (?&?&?&?); assumption. Qed.
Lemma raise_rel_refl t : raise_rel t t.
Proof. left; reflexivity. Qed.
Lemma raise_rel_trans a b c : raise_rel a b -> raise_rel b c -> raise_rel a c.
Proof.
  intros [-> | ->] [-> | ->]; [left | right | right | right]; try reflexivity.
Qed.
Lemma raise_rel_data a b : raise_rel a b -> data_rel a b.
Proof. intros [-> | ->]; repeat split; reflexivity. Qed.

Create HintDb scene.
#[local] Hint Resolve graph_rel_refl graph_rel_sym graph_rel_trans data_rel_refl
  data_rel_trans raise_rel_refl raise_rel_trans data_rel_graph raise_rel_data : scene.

(* depth *)
Lemma depth_graph_rel s s' n k :
  store_rel graph_rel s s' -> depth s n k -> depth s' n k.
Proof.
  intros Hrel Hd. induction Hd as [n t Hn Hp | n p k t Hn Hp Hd IH].
  - destruct (store_rel_l _ _ _ _ _ Hrel Hn) as (t' & Hn' & Hp' & _).
    eapply depth_root; [exact Hn' | congruence].
  - destruct (store_rel_l _ _ _ _ _ Hrel Hn) as (t' & Hn' & Hp' & _).
    eapply depth_child; [exact Hn' | rewrite Hp'; exact Hp | exact IH].
Qed.

Lemma depth_functional s n k1 k2 : depth s n k1 -> depth s n k2 -> k1 = k2.
Proof.
  intros H1. revert k2. induction H1; intros k2 H2; inversion H2; subst; try congruence.
  f_equal. apply IHdepth. congruence.
Qed.

Lemma depth_lookup s n k : depth s n k -> exists t, s !! n = Some t.
Proof. intros []; eauto. Qed.

Lemma graph_ok_rel s s' : store_rel graph_rel s s' -> graph_ok s -> graph_ok s'.
Proof.
  intros Hrel [H1 H2 H3 [B H4]].
  pose proof (store_rel_sym _ _ _ graph_rel_sym Hrel) as Hrel'.
  split.
  - intros n t' p Hn Hp.
    destruct (store_rel_r _ _ _ _ _ Hrel Hn) as (t & Hn0 & Hp0 & Hc0).
    destruct (H1 n t p Hn0 ltac:(congruence)) as (tp & Htp & Hin).
    destruct (store_rel_l _ _ _ _ _ Hrel Htp) as (tp' & Htp' & _ & Hc').
    exists tp'. split; [done | congruence].
  - intros p tp' c Hp Hin.
    destruct (store_rel_r _ _ _ _ _ Hrel Hp) as (tp & Hp0 & _ & Hc0).
    destruct (H2 p tp c Hp0 ltac:(congruence)) as (tc & Htc & Hpc).
    destruct (store_rel_l _ _ _ _ _ Hrel Htc) as (tc' & Htc' & Hp' & _).
    exists tc'. split; [done | congruence].
  - intros p tp' Hp.
    destruct (store_rel_r _ _ _ _ _ Hrel Hp) as (tp & Hp0 & _ & Hc0).
    rewrite Hc0. eauto.
  - exists B. intros n t' Hn.
    destruct (store_rel_r _ _ _ _ _ Hrel Hn) as (t & Hn0 & _).
    destruct (H4 n t Hn0) as (k & Hk & Hd).
    exists k. split; [done |]. eapply depth_graph_rel; eauto.
Qed.

(** *** _mark_world_dirty *)

Lemma is_dirty_raise s s' n :
  store_rel raise_rel s s' -> is_dirty s n -> is_dirty s' n.
Proof.
  intros H (t & Hn & Hd).
  destruct (store_rel_l _ _ _ _ _ H Hn) as (t' & Hn' & [-> | ->]);
    eexists; split; eauto.
Qed.

Lemma raise_rel_insert (s : Store) n t :
  s !! n = Some t -> store_rel raise_rel s (<[n := with_world_dirty true t]> s).
Proof.
  intros Hn. eapply store_rel_insert; eauto using raise_rel_refl. right; reflexivity.
Qed.

Lemma for_each_mark_spec (f : nat -> Store -> option Store) :
  (forall n s s', f n s = Some s' ->
     store_rel raise_rel s s' /\ is_dirty s' n /\ marks_children s s') ->
  forall cs s s', for_each f cs s = Some s' ->
    store_rel raise_rel s s' /\ (forall c, c ∈ cs -> is_dirty s' c) /\
    marks_children s s'.
Proof.
  intros Hf. induction cs as [| c cs IH]; intros s s' Hrun; simpl in Hrun.
  - injection Hrun as <-. split; [apply store_rel_refl, raise_rel_refl |].
    split; [intros c Hc; inversion Hc |].
    intros p tp c Hp Hclean (t & Ht & Hd). congruence.
  - apply bind_Some in Hrun as (s2 & Hc & Hrest).
    destruct (Hf _ _ _ Hc) as (Hr1 & Hd1 & Hm1).
    destruct (IH _ _ Hrest) as (Hr2 & Hd2 & Hm2).
    split; [eapply store_rel_trans; eauto using raise_rel_trans |].
    split.
    + intros c' Hc'. apply elem_of_cons in Hc' as [-> | Hc'].
      * eapply is_dirty_raise; eauto.
      * auto.
    + intros p tp c0 Hp Hclean Hdirty Hin.
      destruct (store_rel_l _ _ _ _ _ Hr1 Hp) as (tp2 & Hp2 & [-> | ->]).
      * eapply Hm2; eauto.
      * eapply is_dirty_raise; [exact Hr2 |].
        eapply Hm1; eauto. exists (with_world_dirty true tp). split; [done | reflexivity].
Qed.

Lemma mark_world_dirty_spec (fuel : nat) :
  forall n s s', Transform_mark_world_dirty fuel n s = Some s' ->
    store_rel raise_rel s s' /\ is_dirty s' n /\ marks_children s s' /\
    (forall t c, s !! n = Some t -> c ∈ t_children t -> is_dirty s' c).
Proof.
  induction fuel as [| fuel IH]; intros n s s' Hrun; simpl in Hrun; [discriminate |].
  apply bind_Some in Hrun as (t & Hn & Hrun).
  apply for_each_mark_spec in Hrun as (Hr & Hcs & Hm).
  2:{ intros c s1 s2 Hc. destruct (IH _ _ _ Hc) as (? & ? & ? & _). auto. }
  pose proof (raise_rel_insert s n t Hn) as Hr0.
  assert (Hdn : is_dirty s' n).
  { eapply is_dirty_raise; [exact Hr |].
    exists (with_world_dirty true t). rewrite lookup_insert_eq. split; reflexivity. }
  split; [eapply store_rel_trans; eauto using raise_rel_trans |].
  split; [exact Hdn |].
  split.
  - intros p tp c Hp Hclean Hdirty Hin.
    destruct (decide (p = n)) as [-> | Hne].
    + assert (tp = t) as -> by congruence. auto.
    + eapply Hm; eauto. rewrite lookup_insert_ne by done. exact Hp.
  - intros t0 c Hn0 Hin. assert (t0 = t) as -> by congruence. auto.
Qed.

Lemma names_parent_rel s s' :
  store_rel graph_rel s s' -> names_parent s -> names_parent s'.
Proof.
  intros Hrel H p tp' c Hp Hin.
  destruct (store_rel_r _ _ _ _ _ Hrel Hp) as (tp & Hp0 & _ & Hc0).
  destruct (H p tp c Hp0 ltac:(congruence)) as (tc & Htc & Hpc).
  destruct (store_rel_l _ _ _ _ _ Hrel Htc) as (tc' & Htc' & Hp' & _).
  exists tc'. split; [done | congruence].
Qed.

Lemma depth_below_rel B s s' :
  store_rel graph_rel s s' -> depth_below B s -> depth_below B s'.
Proof.
  intros Hrel H n t' Hn.
  destruct (store_rel_r _ _ _ _ _ Hrel Hn) as (t & Hn0 & _).
  destruct (H n t Hn0) as (k & Hk & Hd).
  exists k. split; [done |]. eapply depth_graph_rel; eauto.
Qed.

Lemma raise_graph s s' : store_rel raise_rel s s' -> store_rel graph_rel s s'.
Proof. apply store_rel_mono. intros a b H. apply data_rel_graph, raise_rel_data, H. Qed.

Lemma for_each_mark_runs (B fuel k : nat) (f : nat -> Store -> option Store) :
  (forall n s, names_parent s -> depth_below B s -> depth s n (S k) ->
     exists s', f n s = Some s' /\ store_rel raise_rel s s') ->
  forall cs s, names_parent s -> depth_below B s ->
    (forall c, c ∈ cs -> depth s c (S k)) ->
    exists s', for_each f cs s = Some s' /\ store_rel raise_rel s s'.
Proof.
  intros Hf. induction cs as [| c cs IH]; intros s Hnp Hb Hcs; simpl.
  - exists s. split; [done | apply store_rel_refl, raise_rel_refl].
  - destruct (Hf c s Hnp Hb) as (s2 & Hc & Hr); [apply Hcs; left |].
    rewrite Hc; simpl.
    pose proof (raise_graph _ _ Hr) as Hg.
    destruct (IH s2) as (s' & Hrest & Hr2).
    + eapply names_parent_rel; eauto.
    + eapply depth_below_rel; eauto.
    + intros c' Hc'. eapply depth_graph_rel; [exact Hg |]. apply Hcs. right; done.
    + exists s'. split; [done |]. eapply store_rel_trans; eauto using raise_rel_trans.
Qed.

Lemma mark_world_dirty_runs (B : nat) (fuel : nat) :
  forall n s k, names_parent s -> depth_below B s -> depth s n k ->
    (B < fuel + k)%nat ->
    exists s', Transform_mark_world_dirty fuel n s = Some s' /\
               store_rel raise_rel s s'.
Proof.
  induction fuel as [| fuel IH]; intros n s k Hnp Hb Hd Hlt.
  - destruct (depth_lookup _ _ _ Hd) as (t & Hn).
    destruct (Hb n t Hn) as (k' & Hk' & Hd').
    pose proof (depth_functional _ _ _ _ Hd Hd'). lia.
  - destruct (depth_lookup _ _ _ Hd) as (t & Hn).
    simpl. rewrite Hn; simpl.
    pose proof (raise_rel_insert s n t Hn) as Hr0.
    pose proof (raise_graph _ _ Hr0) as Hg0.
    destruct (for_each_mark_runs B fuel k (Transform_mark_world_dirty fuel))
      with (cs := t_children t) (s := <[n := with_world_dirty true t]> s)
      as (s' & Hrun & Hr).
    + intros c s1 Hnp1 Hb1 Hd1. eapply IH; eauto. lia.
    + eapply names_parent_rel; eauto.
    + eapply depth_below_rel; eauto.
    + intros c Hc. eapply depth_graph_rel; [exact Hg0 |].
      destruct (Hnp n t c Hn Hc) as (tc & Htc & Hpc).
      eapply depth_child; eauto.
    + exists s'. split; [done |]. eapply store_rel_trans; eauto using raise_rel_trans.
Qed.

(** *** Reads *)

Lemma data_rel_sym a b : data_rel a b -> data_rel b a.
Proof. intros (?&?&?&?&?); repeat split; congruence. Qed.

Lemma data_rel_trs a b : data_rel a b -> trs_of b = trs_of a.
Proof. intros (Hp & Hr & Hs & _). unfold trs_of. rewrite Hp, Hr, Hs. reflexivity. Qed.

Lemma world_value_rel s s' n m :
  store_rel data_rel s s' -> world_value s n m -> world_value s' n m.
Proof.
  intros Hrel Hv. induction Hv as [n t Hn Hp | n p t pm Hn Hp Hv IH].
  - destruct (store_rel_l _ _ _ _ _ Hrel Hn) as (t' & Hn' & Hd).
    rewrite <- (data_rel_trs _ _ Hd).
    apply world_value_root; [exact Hn' |]. destruct Hd as (_ & _ & _ & Hpp & _). congruence.
  - destruct (store_rel_l _ _ _ _ _ Hrel Hn) as (t' & Hn' & Hd).
    rewrite <- (data_rel_trs _ _ Hd).
    eapply world_value_child; [exact Hn' | | exact IH].
    destruct Hd as (_ & _ & _ & Hpp & _). rewrite Hpp. exact Hp.
Qed.

Lemma world_value_functional s n m1 m2 :
  world_value s n m1 -> world_value s n m2 -> m1 = m2.
Proof.
  intros H1. revert m2. induction H1; intros m2 H2; inversion H2; subst; try congruence.
  assert (t0 = t) as -> by congruence.
  assert (p0 = p) as -> by congruence.
  f_equal. auto.
Qed.

Lemma with_local_cache_id t :
  t_local_dirty t = false -> t_local_matrix t = Some (trs_of t) ->
  with_local_cache (trs_of t) t = t.
Proof. destruct t; simpl; intros -> ->. reflexivity. Qed.

Lemma local_matrix_eq n (s : Store) t :
  s !! n = Some t -> local_cache_ok t ->
  Transform_local_matrix n s =
    Some (trs_of t, <[n := with_local_cache (trs_of t) t]> s).
Proof.
  intros Hn Hok. unfold Transform_local_matrix. rewrite Hn; simpl.
  destruct (t_local_dirty t) eqn:Hd; [reflexivity |].
  rewrite (Hok Hd).
  rewrite with_local_cache_id by auto. rewrite insert_id by done. reflexivity.
Qed.

Lemma parent_differs s n t p k :
  depth s n k -> s !! n = Some t -> t_parent t = Some p -> p <> n.
Proof.
  intros Hd Hn Hp ->. inversion Hd; subst; [congruence |].
  assert (t0 = t) as -> by congruence. assert (p = n) as -> by congruence.
  pose proof (depth_functional _ _ _ _ Hd H1). lia.
Qed.

Lemma install_world_cache (s : Store) n t m :
  scene_ok s -> s !! n = Some t -> t_world_dirty t = true ->
  match t_parent t with
  | None => m = trs_of t
  | Some p => exists tp pm, s !! p = Some tp /\ t_world_dirty tp = false /\
                            t_world_matrix tp = Some pm /\
                            m = Matrix4_mul pm (trs_of t)
  end ->
  scene_ok (<[n := with_world_cache m (with_local_cache (trs_of t) t)]> s).
Proof.
  intros [Hg Hc] Hn Hdirty Hm.
  set (t' := with_world_cache m (with_local_cache (trs_of t) t)).
  assert (Hrel : store_rel data_rel s (<[n := t']> s)).
  { eapply store_rel_insert; eauto using data_rel_refl. repeat split; reflexivity. }
  split.
  - eapply graph_ok_rel; [| exact Hg]. eapply store_rel_mono; [| exact Hrel].
    apply data_rel_graph.
  - intros x tx Hx. destruct (decide (x = n)) as [-> | Hne].
    + rewrite lookup_insert_eq in Hx. injection Hx as <-. split.
      * intros _. reflexivity.
      * intros _. split; [reflexivity |]. exists m. split; [reflexivity |].
        change (t_parent t') with (t_parent t). change (trs_of t') with (trs_of t).
        destruct (t_parent t) as [p |] eqn:Hp; [| exact Hm].
        destruct Hm as (tp & pm & Htp & Hcl & Hw & ->).
        exists tp, pm. repeat split; auto.
        destruct (bounded_depth _ Hg) as [B HB].
        destruct (HB n t Hn) as (k & _ & Hd).
        rewrite lookup_insert_ne; [exact Htp |].
        intros Heq. eapply parent_differs; eauto.
    + rewrite lookup_insert_ne in Hx by done.
      destruct (Hc x tx Hx) as [Hl Hw]. split; [exact Hl |].
      intros Hclean. destruct (Hw Hclean) as (Hlc & w & Hwc & Hpar).
      split; [exact Hlc |]. exists w. split; [exact Hwc |].
      destruct (t_parent tx) as [q |]; [| exact Hpar].
      destruct Hpar as (tq & qm & Htq & Hqc & Hqw & ->).
      exists tq, qm. repeat split; auto.
      rewrite lookup_insert_ne; [exact Htq |].
      intros <-. congruence.
Qed.

Lemma world_dirty_or_cached s t :
  world_cache_ok s t ->
  (t_world_dirty t = false /\ exists m, t_world_matrix t = Some m) \/
  t_world_dirty t = true.
Proof.
  intros Hok. destruct (t_world_dirty t) eqn:Hd; [right; reflexivity |].
  left. split; [reflexivity |]. destruct (Hok Hd) as (_ & w & Hw & _). eauto.
Qed.

Lemma world_matrix_unfold_dirty fuel n (s : Store) t :
  s !! n = Some t -> t_world_dirty t = true ->
  Transform_world_matrix (S fuel) n s =
    '(m, s2) ← match t_parent t with
               | None =>
                 '(lm, s1) ← Transform_local_matrix n s;
                 Some (Matrix4_copy lm, s1)
               | Some p =>
                 '(pm, s1) ← Transform_world_matrix fuel p s;
                 '(lm, s2) ← Transform_local_matrix n s1;
                 Some (Matrix4_mul pm lm, s2)
               end;
    t2 ← s2 !! n;
    Some (m, <[n := with_world_cache m t2]> s2).
Proof. intros Hn Hd. simpl. rewrite Hn; simpl. rewrite Hd. reflexivity. Qed.

Lemma world_matrix_unfold_clean fuel n (s : Store) t m :
  s !! n = Some t -> t_world_dirty t = false -> t_world_matrix t = Some m ->
  Transform_world_matrix (S fuel) n s = Some (m, s).
Proof. intros Hn Hd Hm. simpl. rewrite Hn; simpl. rewrite Hd, Hm. reflexivity. Qed.

Lemma world_matrix_spec (fuel : nat) :
  forall n s m s' k,
    scene_ok s -> depth s n k ->
    Transform_world_matrix fuel n s = Some (m, s') ->
    scene_ok s' /\ store_rel data_rel s s' /\
    (forall x i, depth s x i -> (k < i)%nat -> s' !! x = s !! x) /\
    is_clean_with s' n m.
Proof.
  induction fuel as [| fuel IH]; intros n s m s' k Hok Hd Hrun; [discriminate |].
  destruct (depth_lookup _ _ _ Hd) as (t & Hn).
  pose proof Hok as [Hg Hc]. destruct (Hc n t Hn) as [Hlok Hwok].
  destruct (world_dirty_or_cached _ _ Hwok) as [(Hclean & m0 & Hm0) | Hdirty].
  { rewrite (world_matrix_unfold_clean _ _ _ _ _ Hn Hclean Hm0) in Hrun.
    injection Hrun as <- <-.
    split; [exact Hok |]. split; [apply store_rel_refl, data_rel_refl |].
    split; [reflexivity |]. exists t. auto. }
  rewrite (world_matrix_unfold_dirty _ _ _ _ Hn Hdirty) in Hrun.
  destruct (t_parent t) as [p |] eqn:Hp.
  - (* a parent: read it first *)
    inversion Hd as [| ? ? k' ? Hn' Hp' Hdp]; subst; [congruence |].
    assert (t0 = t) as -> by congruence. assert (p0 = p) as -> by congruence.
    destruct (Transform_world_matrix fuel p s) as [[pm s1] |] eqn:Hpar;
      simpl in Hrun; [| discriminate].
    destruct (IH _ _ _ _ _ Hok Hdp Hpar) as (Hok1 & Hrel1 & Hframe1 & Hpc).
    assert (Hn1 : s1 !! n = Some t) by (rewrite (Hframe1 n (S k') Hd); [done | lia]).
    rewrite (local_matrix_eq _ _ _ Hn1 Hlok) in Hrun. simpl in Hrun.
    rewrite lookup_insert_eq in Hrun. simpl in Hrun.
    rewrite insert_insert_eq in Hrun. injection Hrun as <- <-.
    destruct Hpc as (tp & Htp & Htpc & Htpw).
    split.
    { apply install_world_cache; auto. rewrite Hp. exists tp, pm. auto. }
    split.
    { eapply store_rel_trans; [apply data_rel_trans | exact Hrel1 |].
      eapply store_rel_insert; eauto using data_rel_refl. repeat split; reflexivity. }
    split.
    { intros x i Hx Hi. rewrite lookup_insert_ne.
      - apply (Hframe1 x i Hx). lia.
      - intros <-. pose proof (depth_functional _ _ _ _ Hd Hx). lia. }
    eexists. rewrite lookup_insert_eq. split; [reflexivity |]. split; reflexivity.
  - (* a root *)
    rewrite (local_matrix_eq _ _ _ Hn Hlok) in Hrun. simpl in Hrun.
    rewrite lookup_insert_eq in Hrun. simpl in Hrun.
    rewrite insert_insert_eq, Matrix4_copy_id in Hrun. injection Hrun as <- <-.
    split.
    { apply install_world_cache; auto. rewrite Hp. reflexivity. }
    split.
    { eapply store_rel_insert; eauto using data_rel_refl. repeat split; reflexivity. }
    split.
    { intros x i Hx Hi. rewrite lookup_insert_ne; [done |].
      intros <-. pose proof (depth_functional _ _ _ _ Hd Hx). lia. }
    eexists. rewrite lookup_insert_eq. split; [reflexivity |]. split; reflexivity.
Qed.

Lemma world_matrix_runs (fuel : nat) :
  forall n s k, scene_ok s -> depth s n k -> (k < fuel)%nat ->
    exists m s', Transform_world_matrix fuel n s = Some (m, s').
Proof.
  induction fuel as [| fuel IH]; intros n s k Hok Hd Hlt; [lia |].
  destruct (depth_lookup _ _ _ Hd) as (t & Hn).
  pose proof Hok as [Hg Hc]. destruct (Hc n t Hn) as [Hlok Hwok].
  destruct (world_dirty_or_cached _ _ Hwok) as [(Hclean & m0 & Hm0) | Hdirty].
  { rewrite (world_matrix_unfold_clean _ _ _ _ _ Hn Hclean Hm0). eauto. }
  rewrite (world_matrix_unfold_dirty _ _ _ _ Hn Hdirty).
  destruct (t_parent t) as [p |] eqn:Hp.
  - inversion Hd as [| ? ? k' ? Hn' Hp' Hdp]; subst; [congruence |].
    assert (t0 = t) as -> by congruence. assert (p0 = p) as -> by congruence.
    destruct (IH p s k' Hok Hdp ltac:(lia)) as (pm & s1 & Hpar).
    destruct (world_matrix_spec _ _ _ _ _ _ Hok Hdp Hpar) as (_ & _ & Hframe1 & _).
    assert (Hn1 : s1 !! n = Some t) by (rewrite (Hframe1 n (S k') Hd); [done | lia]).
    rewrite Hpar; simpl. rewrite (local_matrix_eq _ _ _ Hn1 Hlok); simpl.
    rewrite lookup_insert_eq; simpl. eauto.
  - rewrite (local_matrix_eq _ _ _ Hn Hlok); simpl.
    rewrite lookup_insert_eq; simpl. eauto.
Qed.

Lemma clean_world_value s n k :
  scene_ok s -> depth s n k ->
  forall m, is_clean_with s n m -> world_value s n m.
Proof.
  intros [Hg Hc] Hd. induction Hd as [n t Hn Hp | n p k t Hn Hp Hd IH];
    intros m (t1 & Hn1 & Hcl & Hw); assert (t1 = t) as -> by congruence;
    destruct (Hc n t Hn) as [_ Hwok];
    destruct (Hwok Hcl) as (_ & w & Hw' & Hpar); rewrite Hp in Hpar;
    assert (w = m) as -> by congruence.
  - subst m. apply world_value_root; auto.
  - destruct Hpar as (tp & pm & Htp & Htpc & Htpw & ->).
    eapply world_value_child; eauto. apply IH. exists tp. auto.
Qed.

(** *** Mutations *)

Lemma wcache_rel_refl t : wcache_rel t t.
Proof. split; reflexivity. Qed.

Lemma world_cache_ok_transfer s s' t t' :
  store_rel wcache_rel s s' ->
  t_world_dirty t' = t_world_dirty t ->
  t_world_matrix t' = t_world_matrix t ->
  t_parent t' = t_parent t ->
  trs_of t' = trs_of t ->
  (t_local_dirty t = false -> t_local_dirty t' = false) ->
  world_cache_ok s t -> world_cache_ok s' t'.
Proof.
  intros Hrel Hd Hm Hp Htrs Hl Hok Hclean.
  rewrite Hd in Hclean. destruct (Hok Hclean) as (Hlc & w & Hw & Hpar).
  split; [auto |]. exists w. split; [congruence |].
  rewrite Hp, Htrs. destruct (t_parent t) as [q |]; [| exact Hpar].
  destruct Hpar as (tq & qm & Htq & Hqc & Hqw & ->).
  destruct (store_rel_l _ _ _ _ _ Hrel Htq) as (tq' & Htq' & Hqd' & Hqm').
  exists tq', qm. repeat split; congruence.
Qed.

Lemma mark_restores_scene (s0 : Store) n fuel s' :
  graph_ok s0 ->
  (forall x tx, s0 !! x = Some tx ->
     local_cache_ok tx /\ (x <> n -> world_cache_ok s0 tx)) ->
  Transform_mark_world_dirty fuel n s0 = Some s' ->
  scene_ok s'.
Proof.
  intros Hg Hc Hrun.
  destruct (mark_world_dirty_spec _ _ _ _ Hrun) as (Hr & Hdn & Hm & _).
  split; [eapply graph_ok_rel; [apply raise_graph, Hr | exact Hg] |].
  intros x tx' Hx'.
  destruct (store_rel_r _ _ _ _ _ Hr Hx') as (tx & Hx & Hraise).
  destruct (Hc x tx Hx) as [Hl Hw].
  destruct Hraise as [-> | ->]; [| split; [exact Hl | intros Hcl; discriminate Hcl]].
  split; [exact Hl |]. intros Hclean.
  assert (Hxn : x <> n).
  { intros ->. destruct Hdn as (tn & Htn & Hdirty). congruence. }
  destruct (Hw Hxn Hclean) as (Hlc & w & Hwc & Hpar).
  split; [exact Hlc |]. exists w. split; [exact Hwc |].
  destruct (t_parent tx) as [q |] eqn:Hq; [| exact Hpar].
  destruct Hpar as (tq & qm & Htq & Hqc & Hqw & ->).
  destruct (store_rel_l _ _ _ _ _ Hr Htq) as (tq' & Htq' & [-> | ->]).
  - exists tq, qm. auto.
  - exfalso.
    destruct (parent_lists_child _ Hg x tx q Hx Hq) as (tq0 & Htq0 & Hin).
    assert (tq0 = tq) as -> by congruence.
    destruct (Hm q tq x Htq Hqc) as (tx1 & Hx1 & Hd1); auto.
    + eexists. split; [exact Htq' | reflexivity].
    + congruence.
Qed.

Lemma edit_then_mark (s : Store) n t t0 fuel s' :
  scene_ok s -> s !! n = Some t ->
  graph_rel t t0 -> wcache_rel t t0 -> local_cache_ok t0 ->
  Transform_mark_world_dirty fuel n (<[n := t0]> s) = Some s' ->
  scene_ok s'.
Proof.
  intros [Hg Hc] Hn Hgr Hwr Hl0 Hrun.
  eapply mark_restores_scene; [| | exact Hrun].
  - eapply graph_ok_rel; [| exact Hg].
    eapply store_rel_insert; eauto using graph_rel_refl.
  - intros x tx Hx. destruct (decide (x = n)) as [-> | Hne].
    + rewrite lookup_insert_eq in Hx. injection Hx as <-. split; [exact Hl0 | tauto].
    + rewrite lookup_insert_ne in Hx by done.
      destruct (Hc x tx Hx) as [Hl Hw]. split; [exact Hl |]. intros _.
      eapply world_cache_ok_transfer; try exact Hw; try reflexivity; auto.
      eapply store_rel_insert; eauto using wcache_rel_refl.
Qed.

Lemma mark_dirty_scene (s : Store) n t t0 fuel s' :
  scene_ok s -> s !! n = Some t ->
  graph_rel t t0 -> wcache_rel t t0 ->
  Transform_mark_dirty fuel n (<[n := t0]> s) = Some s' ->
  scene_ok s'.
Proof.
  intros Hok Hn Hgr Hwr Hrun. unfold Transform_mark_dirty in Hrun.
  rewrite lookup_insert_eq in Hrun. simpl in Hrun.
  rewrite insert_insert_eq in Hrun.
  eapply (edit_then_mark s n t (with_local_dirty true t0));
    [exact Hok | exact Hn | | | | exact Hrun].
  - destruct Hgr; split; simpl; auto.
  - destruct Hwr; split; simpl; auto.
  - intros H; discriminate H.
Qed.

Lemma set_position_scene fuel n v s s' :
  scene_ok s -> Transform_set_position fuel n v s = Some s' -> scene_ok s'.
Proof.
  intros Hok Hrun. unfold Transform_set_position in Hrun.
  apply bind_Some in Hrun as (t & Hn & Hrun).
  eapply mark_dirty_scene; eauto; split; reflexivity.
Qed.

Lemma set_rotation_scene fuel n q s s' :
  scene_ok s -> Transform_set_rotation fuel n q s = Some s' -> scene_ok s'.
Proof.
  intros Hok Hrun. unfold Transform_set_rotation in Hrun.
  apply bind_Some in Hrun as (t & Hn & Hrun).
  eapply mark_dirty_scene; eauto; split; reflexivity.
Qed.

Lemma set_scale_scene fuel n v s s' :
  scene_ok s -> Transform_set_scale fuel n v s = Some s' -> scene_ok s'.
Proof.
  intros Hok Hrun. unfold Transform_set_scale in Hrun.
  apply bind_Some in Hrun as (t & Hn & Hrun).
  eapply mark_dirty_scene; eauto; split; reflexivity.
Qed.

Lemma local_matrix_scene n s m s' :
  scene_ok s -> Transform_local_matrix n s = Some (m, s') -> scene_ok s'.
Proof.
  intros [Hg Hc] Hrun.
  destruct (s !! n) as [t |] eqn:Hn;
    [| unfold Transform_local_matrix in Hrun; rewrite Hn in Hrun; discriminate].
  destruct (Hc n t Hn) as [Hl Hw].
  rewrite (local_matrix_eq _ _ _ Hn Hl) in Hrun. injection Hrun as <- <-.
  assert (Hrel : store_rel wcache_rel s (<[n := with_local_cache (trs_of t) t]> s)).
  { eapply store_rel_insert; eauto using wcache_rel_refl. split; reflexivity. }
  split.
  - eapply graph_ok_rel; [| exact Hg].
    eapply store_rel_insert; eauto using graph_rel_refl. split; reflexivity.
  - intros x tx Hx. destruct (decide (x = n)) as [-> | Hne].
    + rewrite lookup_insert_eq in Hx. injection Hx as <-. split.
      * intros _. reflexivity.
      * eapply world_cache_ok_transfer; try exact Hw; try reflexivity; auto.
    + rewrite lookup_insert_ne in Hx by done.
      destruct (Hc x tx Hx) as [Hlx Hwx]. split; [exact Hlx |].
      eapply world_cache_ok_transfer; try exact Hwx; try reflexivity; auto.
Qed.

Lemma scene_ok_empty : scene_ok ∅.
Proof.
  split; [split |].
  - intros n t p Hn. rewrite lookup_empty in Hn. discriminate.
  - intros n t p Hn. rewrite lookup_empty in Hn. discriminate.
  - intros n t Hn. rewrite lookup_empty in Hn. discriminate.
  - exists 0%nat. intros n t Hn. rewrite lookup_empty in Hn. discriminate.
  - intros n t Hn. rewrite lookup_empty in Hn. discriminate.
Qed.

Lemma depth_insert_fresh (s : Store) n t0 x k :
  s !! n = None -> depth s x k -> depth (<[n := t0]> s) x k.
Proof.
  intros Hfresh Hd. induction Hd as [x t Hx Hp | x p k t Hx Hp Hd IH].
  - eapply depth_root; [| exact Hp]. rewrite lookup_insert_ne; [done | congruence].
  - eapply depth_child; [| exact Hp | exact IH].
    rewrite lookup_insert_ne; [done | congruence].
Qed.

Lemma new_scene s : scene_ok s -> scene_ok (snd (Transform_new s)).
Proof.
  intros [[H1 H2 H3 [B H4]] Hc]. unfold Transform_new; simpl.
  set (n := fresh (dom s)).
  assert (Hfresh : s !! n = None).
  { apply not_elem_of_dom. apply is_fresh. }
  split; [split |].
  - intros x t p Hx Hp. destruct (decide (x = n)) as [-> | Hne].
    + rewrite lookup_insert_eq in Hx. injection Hx as <-. discriminate.
    + rewrite lookup_insert_ne in Hx by done.
      destruct (H1 x t p Hx Hp) as (tp & Htp & Hin).
      exists tp. split; [| done]. rewrite lookup_insert_ne; [done | congruence].
  - intros p tp c Hp Hin. destruct (decide (p = n)) as [-> | Hne].
    + rewrite lookup_insert_eq in Hp. injection Hp as <-. inversion Hin.
    + rewrite lookup_insert_ne in Hp by done.
      destruct (H2 p tp c Hp Hin) as (tc & Htc & Hpc).
      exists tc. split; [| done]. rewrite lookup_insert_ne; [done | congruence].
  - intros p tp Hp. destruct (decide (p = n)) as [-> | Hne].
    + rewrite lookup_insert_eq in Hp. injection Hp as <-. constructor.
    + rewrite lookup_insert_ne in Hp by done. eauto.
  - exists B. intros x t Hx. destruct (decide (x = n)) as [-> | Hne].
    + rewrite lookup_insert_eq in Hx. injection Hx as <-.
      exists 0%nat. split; [lia |]. eapply depth_root; [apply lookup_insert_eq | done].
    + rewrite lookup_insert_ne in Hx by done.
      destruct (H4 x t Hx) as (k & Hk & Hd). exists k. split; [done |].
      apply depth_insert_fresh; auto.
  - intros x t Hx. destruct (decide (x = n)) as [-> | Hne].
    + rewrite lookup_insert_eq in Hx. injection Hx as <-.
      split; intros H; discriminate H.
    + rewrite lookup_insert_ne in Hx by done.
      destruct (Hc x t Hx) as [Hl Hw]. split; [exact Hl |].
      intros Hclean. destruct (Hw Hclean) as (Hlc & w & Hwc & Hpar).
      split; [exact Hlc |]. exists w. split; [exact Hwc |].
      destruct (t_parent t) as [q |]; [| exact Hpar].
      destruct Hpar as (tq & qm & Htq & Hqc & Hqw & ->).
      exists tq, qm. repeat split; auto.
      rewrite lookup_insert_ne; [done | congruence].
Qed.

(** *** Re-parenting *)

Lemma py_list_remove_spec x l cs :
  NoDup l -> py_list_remove x l = Some cs ->
  x ∈ l /\ NoDup cs /\ forall c, c ∈ cs <-> c ∈ l /\ c <> x.
Proof.
  revert cs. induction l as [| y l IH]; intros cs Hnd Hrm; simpl in Hrm; [discriminate |].
  apply NoDup_cons in Hnd as [Hy Hnd].
  destruct (decide (y = x)) as [-> | Hne].
  - injection Hrm as <-. split; [left |]. split; [exact Hnd |].
    intros c. rewrite elem_of_cons. split.
    + intros Hc. split; [right; exact Hc |]. intros ->. contradiction.
    + intros [[-> | Hc] Hcx]; [contradiction | exact Hc].
  - apply bind_Some in Hrm as (cs' & Hrm & Hcs). injection Hcs as <-.
    destruct (IH cs' Hnd Hrm) as (Hin & Hnd' & Hiff).
    split; [right; exact Hin |]. split.
    + apply NoDup_cons. split; [| exact Hnd']. rewrite Hiff. tauto.
    + intros c. rewrite !elem_of_cons, Hiff. split.
      * intros [-> | [Hc Hcx]]; auto.
      * intros [[-> | Hc] Hcx]; auto.
Qed.

Lemma py_list_remove_runs x l : x ∈ l -> exists cs, py_list_remove x l = Some cs.
Proof.
  induction l as [| y l IH]; intros Hin; [inversion Hin |]. simpl.
  destruct (decide (y = x)) as [-> | Hne]; [eauto |].
  apply elem_of_cons in Hin as [-> | Hin]; [congruence |].
  destruct (IH Hin) as (cs & ->). simpl. eauto.
Qed.

Lemma reparent_node_parent n old value cs x tx :
  t_parent (reparent_node n old value cs x tx) =
  if decide (n = x) then value else t_parent tx.
Proof. unfold reparent_node. repeat case_decide; reflexivity. Qed.

Lemma reparent_node_children n old value cs x tx :
  t_children (reparent_node n old value cs x tx) =
  (if decide (old = Some x) then cs else t_children tx) ++
  (if decide (value = Some x) then [n] else []).
Proof.
  unfold reparent_node. repeat case_decide; simpl; rewrite ?app_nil_r; reflexivity.
Qed.

Lemma reparent_node_caches n old value cs x tx :
  let tx' := reparent_node n old value cs x tx in
  t_position tx' = t_position tx /\ t_rotation tx' = t_rotation tx /\
  t_scale tx' = t_scale tx /\ t_local_matrix tx' = t_local_matrix tx /\
  t_world_matrix tx' = t_world_matrix tx /\ t_local_dirty tx' = t_local_dirty tx /\
  t_world_dirty tx' = t_world_dirty tx.
Proof. unfold reparent_node. repeat case_decide; simpl; repeat split; reflexivity. Qed.

Lemma set_parent_relink fuel n value (s : Store) t :
  s !! n = Some t -> t_parent t <> value ->
  Transform_set_parent fuel n value s =
  relink n t value s ≫= Transform_mark_world_dirty fuel n.
Proof.
  intros Hn Hne. unfold Transform_set_parent, relink. rewrite Hn; simpl.
  destruct (decide (t_parent t = value)) as [| _]; [contradiction |].
  destruct (match t_parent t with Some old => _ | None => _ end) as [s1 |];
    simpl; [| reflexivity].
  destruct (s1 !! n) as [t1 |]; simpl; [| reflexivity].
  destruct value as [new |]; [| reflexivity].
  destruct (_ !! new); reflexivity.
Qed.

Lemma relink_spec n value (s : Store) t s3 :
  s !! n = Some t -> t_parent t <> value -> t_parent t <> Some n ->
  relink n t value s = Some s3 ->
  exists cs,
    (forall o, t_parent t = Some o ->
       exists told, s !! o = Some told /\
                    py_list_remove n (t_children told) = Some cs) /\
    (forall new, value = Some new -> is_Some (s !! new)) /\
    (forall x, s3 !! x = reparent_node n (t_parent t) value cs x <$> s !! x).
Proof.
  intros Hn Hne Hself Hrun. unfold relink in Hrun.
  apply bind_Some in Hrun as (s1 & Hs1 & Hrun).
  apply bind_Some in Hrun as (t1 & Ht1 & Hs3).
  assert (Hold : exists cs,
    (forall o, t_parent t = Some o ->
       exists told, s !! o = Some told /\
                    py_list_remove n (t_children told) = Some cs) /\
    (forall x, s1 !! x =
       (fun tx => if decide (t_parent t = Some x) then with_children cs tx else tx)
         <$> s !! x)).
  { destruct (t_parent t) as [o |] eqn:Ho.
    - apply bind_Some in Hs1 as (told & Hto & Hs1).
      apply bind_Some in Hs1 as (cs & Hcs & Hs1). injection Hs1 as <-.
      exists cs. split.
      + intros o' Ho'. injection Ho' as <-. eauto.
      + intros x. rewrite lookup_insert. repeat case_decide; simplify_eq.
        * rewrite Hto. reflexivity.
        * destruct (s !! x); reflexivity.
    - injection Hs1 as <-. exists []. split; [intros o Ho'; discriminate |].
      intros x. case_decide; [discriminate |]. destruct (s !! x); reflexivity. }
  destruct Hold as (cs & Hcs & Hs1x).
  assert (Ht1' : t1 = t).
  { rewrite Hs1x, Hn in Ht1. simpl in Ht1. case_decide; congruence. }
  subst t1.
  exists cs. split; [exact Hcs |].
  assert (Hs2x : forall x, (<[n := with_parent value t]> s1) !! x =
    (fun tx => let tx1 := if decide (t_parent t = Some x) then with_children cs tx else tx in
               if decide (n = x) then with_parent value tx1 else tx1) <$> s !! x).
  { intros x. rewrite lookup_insert. case_decide; simplify_eq.
    - rewrite Hn. simpl. case_decide; [congruence | reflexivity].
    - rewrite Hs1x. destruct (s !! x); reflexivity. }
  destruct value as [new |].
  - apply bind_Some in Hs3 as (tnew & Htn & Hs3). injection Hs3 as <-.
    split.
    + intros new' Hnew. injection Hnew as <-.
      rewrite Hs2x in Htn. destruct (s !! new); [eauto | discriminate].
    + intros x. rewrite lookup_insert. unfold reparent_node.
      case_decide; simplify_eq.
      * rewrite Hs2x in Htn. destruct (s !! x) as [tx |]; [| discriminate].
        simpl in *. injection Htn as <-.
        destruct (decide (Some x = Some x)); [| congruence]. reflexivity.
      * rewrite Hs2x. destruct (s !! x) as [tx |]; [| reflexivity]. simpl.
        destruct (decide (Some new = Some x)); [congruence | reflexivity].
  - injection Hs3 as <-.
    split; [intros new Hnew; discriminate |].
    intros x. rewrite Hs2x. unfold reparent_node.
    destruct (s !! x) as [tx |]; [| reflexivity]. simpl.
    destruct (decide (None = Some x)); [discriminate | reflexivity].
Qed.

Lemma relink_runs n value (s : Store) t :
  graph_ok s -> s !! n = Some t -> t_parent t <> Some n ->
  (forall new, value = Some new -> is_Some (s !! new)) ->
  exists s3, relink n t value s = Some s3.
Proof.
  intros Hg Hn Hself Hnew. unfold relink.
  assert (Hs1 : exists s1,
    match t_parent t with
    | None => Some s
    | Some old =>
      told ← s !! old;
      cs ← py_list_remove n (t_children told);
      Some (<[old := with_children cs told]> s)
    end = Some s1 /\ s1 !! n = Some t /\
    forall x, is_Some (s !! x) -> is_Some (s1 !! x)).
  { destruct (t_parent t) as [o |] eqn:Ho.
    - destruct (parent_lists_child _ Hg n t o Hn Ho) as (told & Hto & Hin).
      destruct (py_list_remove_runs _ _ Hin) as (cs & Hcs).
      rewrite Hto; simpl. rewrite Hcs; simpl. eexists. split; [reflexivity |].
      split.
      + rewrite lookup_insert_ne; [done | congruence].
      + intros x Hx. rewrite lookup_insert. case_decide; eauto.
    - exists s. auto. }
  destruct Hs1 as (s1 & -> & Hn1 & Hdom); simpl. rewrite Hn1; simpl.
  destruct value as [new |]; [| eauto].
  assert (Hsn : is_Some ((<[n := with_parent (Some new) t]> s1) !! new)).
  { rewrite lookup_insert. case_decide; eauto. }
  destruct Hsn as [tnew ->]. simpl. eauto.
Qed.

Section Reparent.
Variables (s s3 : Store) (n : nat) (t : Transform) (value : option nat)
          (cs : list nat).
Hypothesis Hg : graph_ok s.
Hypothesis Hn : s !! n = Some t.
Hypothesis Hne : t_parent t <> value.
Hypothesis Hold : forall o, t_parent t = Some o ->
  exists told, s !! o = Some told /\
               py_list_remove n (t_children told) = Some cs.
Hypothesis Hnew : forall new, value = Some new ->
  is_Some (s !! new) /\ ~ is_ancestor s n new.
Hypothesis Hs3 : forall x,
  s3 !! x = reparent_node n (t_parent t) value cs x <$> s !! x.

Lemma reparent_lookup x t3 :
  s3 !! x = Some t3 <->
  exists tx, s !! x = Some tx /\ t3 = reparent_node n (t_parent t) value cs x tx.
Proof. rewrite Hs3. apply fmap_Some. Qed.

Lemma kept_spec x tx c :
  s !! x = Some tx ->
  (c ∈ kept_children t cs x tx <-> c ∈ t_children tx /\ c <> n).
Proof.
  intros Hx. unfold kept_children. destruct (decide (t_parent t = Some x)) as [Hp | Hp].
  - destruct (Hold x Hp) as (told & Hto & Hrm).
    assert (told = tx) as -> by congruence.
    apply (py_list_remove_spec n _ cs (children_nodup _ Hg x tx Hx) Hrm).
  - split; [| tauto]. intros Hc. split; [exact Hc |]. intros ->.
    destruct (child_names_parent _ Hg x tx n Hx Hc) as (tn & Htn & Hpn).
    apply Hp. congruence.
Qed.

Lemma kept_nodup x tx : s !! x = Some tx -> NoDup (kept_children t cs x tx).
Proof.
  intros Hx. unfold kept_children. destruct (decide (t_parent t = Some x)) as [Hp | Hp].
  - destruct (Hold x Hp) as (told & Hto & Hrm).
    assert (told = tx) as -> by congruence.
    apply (py_list_remove_spec n _ cs (children_nodup _ Hg x tx Hx) Hrm).
  - apply (children_nodup _ Hg x tx Hx).
Qed.

Lemma reparent_depth_outside y j :
  ~ is_ancestor s n y -> depth s y j -> depth s3 y j.
Proof.
  intros Hna Hd. induction Hd as [y ty Hy Hp | y p k ty Hy Hp Hd IH].
  - assert (Hyn : n <> y) by (intros ->; apply Hna; constructor).
    eapply depth_root.
    + apply reparent_lookup. eauto.
    + rewrite reparent_node_parent. destruct (decide (n = y)); [contradiction | exact Hp].
  - assert (Hyn : n <> y) by (intros ->; apply Hna; constructor).
    eapply depth_child.
    + apply reparent_lookup. eauto.
    + rewrite reparent_node_parent. destruct (decide (n = y)); [contradiction | exact Hp].
    + apply IH. intros Hanc. apply Hna. eapply ancestor_up; eauto.
Qed.

Lemma reparent_depth_moved B :
  depth_below B s -> exists k', (k' <= B + 1)%nat /\ depth s3 n k'.
Proof.
  intros HB.
  assert (Hcase : (exists new, value = Some new) \/ value = None)
    by (destruct value; eauto).
  destruct Hcase as [[new Hv] | Hv].
  - destruct (Hnew new Hv) as [[tn Htn] Hna].
    destruct (HB new tn Htn) as (j & Hj & Hd).
    exists (S j). split; [lia |].
    eapply depth_child.
    + apply reparent_lookup. eauto.
    + rewrite reparent_node_parent. destruct (decide (n = n)); [exact Hv | congruence].
    + apply reparent_depth_outside; auto.
  - exists 0%nat. split; [lia |]. eapply depth_root.
    + apply reparent_lookup. eauto.
    + rewrite reparent_node_parent. destruct (decide (n = n)); [exact Hv | congruence].
Qed.

Lemma reparent_depth B x k :
  depth_below B s -> depth s x k ->
  exists k', (k' <= k + B + 1)%nat /\ depth s3 x k'.
Proof.
  intros HB Hd. induction Hd as [x tx Hx Hp | x p k tx Hx Hp Hd IH].
  - destruct (decide (n = x)) as [<- | Hxn].
    + destruct (reparent_depth_moved B HB) as (k' & Hk' & Hd'). exists k'. split; [lia | done].
    + exists 0%nat. split; [lia |]. eapply depth_root.
      * apply reparent_lookup. eauto.
      * rewrite reparent_node_parent. destruct (decide (n = x)); [contradiction | exact Hp].
  - destruct (decide (n = x)) as [<- | Hxn].
    + destruct (reparent_depth_moved B HB) as (k' & Hk' & Hd'). exists k'. split; [lia | done].
    + destruct IH as (k' & Hk' & Hd'). exists (S k'). split; [lia |].
      eapply depth_child; [| | exact Hd'].
      * apply reparent_lookup. eauto.
      * rewrite reparent_node_parent. destruct (decide (n = x)); [contradiction | exact Hp].
Qed.

Lemma reparent_graph_ok : graph_ok s3.
Proof.
  split.
  - intros x t3 p Hx Hp.
    apply reparent_lookup in Hx as (tx & Hx & ->).
    rewrite reparent_node_parent in Hp.
    destruct (decide (n = x)) as [<- | Hxn].
    + destruct (Hnew p Hp) as [[tp Htp] _].
      eexists. split; [apply reparent_lookup; eauto |].
      rewrite reparent_node_children. apply elem_of_app. right.
      destruct (decide (value = Some p)); [left | contradiction].
    + destruct (parent_lists_child _ Hg x tx p Hx Hp) as (tp & Htp & Hin).
      eexists. split; [apply reparent_lookup; eauto |].
      rewrite reparent_node_children. apply elem_of_app. left.
      apply (kept_spec p tp x Htp). auto.
  - intros p t3 c Hp Hin.
    apply reparent_lookup in Hp as (tp & Hp & ->).
    rewrite reparent_node_children in Hin.
    apply elem_of_app in Hin as [Hin | Hin].
    + apply (kept_spec p tp c Hp) in Hin as [Hin Hcn].
      destruct (child_names_parent _ Hg p tp c Hp Hin) as (tc & Htc & Hpc).
      eexists. split; [apply reparent_lookup; eauto |].
      rewrite reparent_node_parent. destruct (decide (n = c)); [congruence | exact Hpc].
    + destruct (decide (value = Some p)) as [Hv | Hv]; [| inversion Hin].
      apply list_elem_of_singleton in Hin as ->.
      eexists. split; [apply reparent_lookup; eauto |].
      rewrite reparent_node_parent. destruct (decide (n = n)); [exact Hv | congruence].
  - intros p t3 Hp.
    apply reparent_lookup in Hp as (tp & Hp & ->).
    rewrite reparent_node_children. apply NoDup_app.
    split; [apply kept_nodup; exact Hp |]. split.
    + intros c Hc Hc2. destruct (decide (value = Some p)) as [Hv | Hv]; [| inversion Hc2].
      apply list_elem_of_singleton in Hc2 as ->.
      apply (kept_spec p tp n Hp) in Hc as [_ Hc]. congruence.
    + destruct (decide (value = Some p)); [apply NoDup_singleton | apply NoDup_nil_2].
  - destruct (bounded_depth _ Hg) as [B HB]. exists (B + B + 1)%nat.
    intros x t3 Hx. apply reparent_lookup in Hx as (tx & Hx & ->).
    destruct (HB x tx Hx) as (k & Hk & Hd).
    destruct (reparent_depth B x k HB Hd) as (k' & Hk' & Hd').
    exists k'. split; [lia | exact Hd'].
Qed.
End Reparent.

Lemma set_parent_scene fuel n value s s' :
  scene_ok s ->
  (forall new, value = Some new -> ~ is_ancestor s n new) ->
  Transform_set_parent fuel n value s = Some s' -> scene_ok s'.
Proof.
  intros Hok Hvalid Hrun. pose proof Hok as [Hg Hc].
  destruct (s !! n) as [t |] eqn:Hn;
    [| unfold Transform_set_parent in Hrun; rewrite Hn in Hrun; discriminate].
  destruct (decide (t_parent t = value)) as [Heq | Hne].
  { unfold Transform_set_parent in Hrun. rewrite Hn in Hrun; simpl in Hrun.
    destruct (decide (t_parent t = value)); [| contradiction].
    injection Hrun as <-. exact Hok. }
  assert (Hself : t_parent t <> Some n).
  { intros Hp. destruct (bounded_depth _ Hg) as [B HB].
    destruct (HB n t Hn) as (k & _ & Hd). eapply parent_differs; eauto. }
  rewrite (set_parent_relink _ _ _ _ _ Hn Hne) in Hrun.
  apply bind_Some in Hrun as (s3 & Hlink & Hmark).
  destruct (relink_spec _ _ _ _ _ Hn Hne Hself Hlink) as (cs & Hold & Hnew & Hs3).
  assert (Hg3 : graph_ok s3).
  { apply (reparent_graph_ok s s3 n t value cs Hg Hn Hne Hold); [| exact Hs3].
    intros new Hv. split; [apply (Hnew new Hv) | apply (Hvalid new Hv)]. }
  eapply mark_restores_scene; [exact Hg3 | | exact Hmark].
  intros x t3 Hx. rewrite Hs3 in Hx. apply fmap_Some in Hx as (tx & Hx & ->).
  destruct (Hc x tx Hx) as [Hl Hw].
  pose proof (reparent_node_caches n (t_parent t) value cs x tx)
    as (Hpos & Hrot & Hsc & Hlm & Hwm & Hld & Hwd).
  assert (Htrs : trs_of (reparent_node n (t_parent t) value cs x tx) = trs_of tx).
  { unfold trs_of. rewrite Hpos, Hrot, Hsc. reflexivity. }
  split.
  - intros Hd. rewrite Hlm, Htrs. apply Hl. congruence.
  - intros Hxn. eapply world_cache_ok_transfer; try exact Hw; auto; try congruence.
    + intros q. rewrite Hs3. destruct (s !! q) as [tq |]; simpl; constructor.
      pose proof (reparent_node_caches n (t_parent t) value cs q tq)
        as (_ & _ & _ & _ & Hwm' & _ & Hwd').
      split; auto.
    + rewrite reparent_node_parent. destruct (decide (n = x)); [congruence | reflexivity].
Qed.

(** *** A re-parenting that closes a cycle does not return *)

Lemma for_each_diverges (f : nat -> Store -> option Store) (G : Store -> Prop) c :
  (forall s, G s -> f c s = None) ->
  (forall c' s s', G s -> f c' s = Some s' -> G s') ->
  forall cs s, c ∈ cs -> G s -> for_each f cs s = None.
Proof.
  intros Hc Hstep. induction cs as [| c' cs IH]; intros s Hin HG; [inversion Hin |].
  simpl. destruct (decide (c' = c)) as [-> | Hne].
  - rewrite (Hc s HG). reflexivity.
  - apply elem_of_cons in Hin as [-> | Hin]; [congruence |].
    destruct (f c' s) as [s' |] eqn:Hf; simpl; [| reflexivity].
    apply IH; eauto.
Qed.

Lemma mark_cycle_diverges (C : nat -> Prop) (s0 : Store) :
  (forall x, C x -> exists tx c, s0 !! x = Some tx /\ c ∈ t_children tx /\ C c) ->
  forall fuel x s1, store_rel graph_rel s0 s1 -> C x ->
    Transform_mark_world_dirty fuel x s1 = None.
Proof.
  intros Hcyc. induction fuel as [| fuel IH]; intros x s1 Hrel Hx; [reflexivity |].
  simpl. destruct (Hcyc x Hx) as (tx & c & Htx & Hin & Hc).
  destruct (store_rel_l _ _ _ _ _ Hrel Htx) as (tx1 & Htx1 & _ & Hch).
  rewrite Htx1; simpl.
  apply (for_each_diverges _ (store_rel graph_rel s0) c).
  - intros s2 Hs2. apply IH; auto.
  - intros c' s2 s2' Hs2 Hrun.
    destruct (mark_world_dirty_spec _ _ _ _ Hrun) as (Hr & _).
    eapply store_rel_trans; [apply graph_rel_trans | exact Hs2 | apply raise_graph, Hr].
  - rewrite Hch. exact Hin.
  - eapply store_rel_trans; [apply graph_rel_trans | exact Hrel |].
    eapply store_rel_insert; eauto using graph_rel_refl. split; reflexivity.
Qed.

Lemma ancestor_depth s a y i j :
  is_ancestor s a y -> depth s a i -> depth s y j -> (i <= j)%nat.
Proof.
  intros Ha. revert j. induction Ha as [| y p ty Hy Hp Ha IH]; intros j Hi Hj.
  - pose proof (depth_functional _ _ _ _ Hi Hj). lia.
  - inversion Hj as [? ? Hy' Hp' | ? ? k ? Hy' Hp' Hd]; subst; [congruence |].
    assert (p0 = p) as -> by congruence.
    specialize (IH k Hi Hd). lia.
Qed.

Lemma ancestor_child s x y :
  is_ancestor s x y -> x <> y ->
  exists c tc, s !! c = Some tc /\ t_parent tc = Some x /\ is_ancestor s c y.
Proof.
  intros Ha. induction Ha as [| y p ty Hy Hp Ha IH]; intros Hne; [contradiction |].
  destruct (decide (x = p)) as [-> | Hxp].
  - exists y, ty. split; [done |]. split; [done | constructor].
  - destruct (IH Hxp) as (c & tc & Hc & Hpc & Hcy).
    exists c, tc. split; [done |]. split; [done |]. eapply ancestor_up; eauto.
Qed.

Lemma ancestor_exists s a y t :
  is_ancestor s a y -> s !! a = Some t -> is_Some (s !! y).
Proof. intros [] ?; eauto. Qed.

Lemma set_parent_returns_acyclic fuel n value s s' new :
  scene_ok s -> Transform_set_parent fuel n value s = Some s' ->
  (forall t, s !! n = Some t -> t_parent t <> value) ->
  value = Some new -> ~ is_ancestor s n new.
Proof.
  intros [Hg Hc] Hrun Hne0 Hv Hanc.
  destruct (s !! n) as [t |] eqn:Hn;
    [| unfold Transform_set_parent in Hrun; rewrite Hn in Hrun; discriminate].
  pose proof (Hne0 t eq_refl) as Hne.
  destruct (bounded_depth _ Hg) as [B HB].
  destruct (HB n t Hn) as (kn & _ & Hdn).
  assert (Hself : t_parent t <> Some n).
  { intros Hp. eapply parent_differs; eauto. }
  rewrite (set_parent_relink _ _ _ _ _ Hn Hne) in Hrun.
  apply bind_Some in Hrun as (s3 & Hlink & Hmark).
  destruct (relink_spec _ _ _ _ _ Hn Hne Hself Hlink) as (cs & Hold & Hnew & Hs3).
  pose (C := fun x => is_ancestor s n x /\ is_ancestor s x new).
  rewrite (mark_cycle_diverges C s3) in Hmark; [discriminate | | | ].
  - intros x [Hnx Hxn].
    destruct (decide (x = new)) as [-> | Hxnew].
    + destruct (Hnew new Hv) as [tn Htn].
      exists (reparent_node n (t_parent t) value cs new tn), n.
      split; [rewrite Hs3, Htn; reflexivity |]. split.
      * rewrite reparent_node_children. apply elem_of_app. right.
        destruct (decide (value = Some new)); [left | contradiction].
      * split; [constructor | exact Hanc].
    + destruct (ancestor_child _ _ _ Hxn Hxnew) as (c & tc & Hc0 & Hpc & Hcy).
      destruct (parent_lists_child _ Hg c tc x Hc0 Hpc) as (tx & Htx & Hin).
      assert (Hcn : c <> n).
      { intros ->. assert (tc = t) as -> by congruence.
        destruct (HB x tx Htx) as (kx & _ & Hdx).
        pose proof (ancestor_depth _ _ _ _ _ Hnx Hdn Hdx).
        assert (Hd' : depth s n (S kx)) by (eapply depth_child; eauto).
        pose proof (depth_functional _ _ _ _ Hdn Hd'). lia. }
      exists (reparent_node n (t_parent t) value cs x tx), c.
      split; [rewrite Hs3, Htx; reflexivity |]. split.
      * rewrite reparent_node_children. apply elem_of_app. left.
        apply (kept_spec s n t cs Hg Hn Hold x tx c Htx). auto.
      * split; [eapply ancestor_up; eauto | exact Hcy].
  - apply store_rel_refl, graph_rel_refl.
  - split; [constructor | exact Hanc].
Qed.

Lemma step_scene fuel op s s' :
  scene_ok s -> Transform_step fuel op s = Some s' -> scene_ok s'.
Proof.
  intros Hok Hrun. destruct op as [| n v | n q | n v | n value | n | n]; simpl in Hrun.
  - injection Hrun as <-. apply new_scene, Hok.
  - eapply set_position_scene; eauto.
  - eapply set_rotation_scene; eauto.
  - eapply set_scale_scene; eauto.
  - destruct (s !! n) as [t |] eqn:Hn;
      [| unfold Transform_set_parent in Hrun; rewrite Hn in Hrun; discriminate].
    destruct (decide (t_parent t = value)) as [Heq | Hne].
    + unfold Transform_set_parent in Hrun. rewrite Hn in Hrun; simpl in Hrun.
      destruct (decide (t_parent t = value)); [| contradiction].
      injection Hrun as <-. exact Hok.
    + eapply set_parent_scene; eauto.
      intros new Hv. eapply set_parent_returns_acyclic; eauto.
      intros t0 Ht0. congruence.
  - apply fmap_Some in Hrun as ([m s1] & Hrun & ->).
    eapply local_matrix_scene; eauto.
  - apply fmap_Some in Hrun as ([m s1] & Hrun & ->).
    destruct (s !! n) as [t |] eqn:Hn.
    + destruct Hok as [Hg Hc]. destruct (bounded_depth _ Hg) as [B HB].
      destruct (HB n t Hn) as (k & _ & Hd).
      eapply world_matrix_spec; eauto. split; auto.
    + destruct fuel; simpl in Hrun; [discriminate |]. rewrite Hn in Hrun. discriminate.
Qed.

Lemma run_scene s ops s' : scene_ok s -> Transform_run s ops s' -> scene_ok s'.
Proof.
  intros Hok Hrun. induction Hrun as [| fuel op ops s s1 s2 Hstep Hrun IH]; [exact Hok |].
  apply IH. eapply step_scene; eauto.
Qed.

(** *** Operations on a well-formed scene return *)

Lemma mark_runs_on_graph (s0 : Store) n :
  graph_ok s0 -> is_Some (s0 !! n) ->
  exists fuel s', Transform_mark_world_dirty fuel n s0 = Some s'.
Proof.
  intros Hg [t Hn]. destruct (bounded_depth _ Hg) as [B HB].
  destruct (HB n t Hn) as (k & Hk & Hd).
  destruct (mark_world_dirty_runs B (S B) n s0 k) as (s' & Hrun & _); auto.
  - exact (child_names_parent _ Hg).
  - lia.
  - eauto.
Qed.

Lemma mark_dirty_runs (s : Store) n t t0 :
  graph_ok s -> s !! n = Some t -> graph_rel t t0 ->
  exists fuel s', Transform_mark_dirty fuel n (<[n := t0]> s) = Some s'.
Proof.
  intros Hg Hn Hgr. unfold Transform_mark_dirty.
  destruct (mark_runs_on_graph (<[n := with_local_dirty true t0]> s) n)
    as (fuel & s' & Hrun).
  - eapply graph_ok_rel; [| exact Hg].
    eapply store_rel_insert; [apply graph_rel_refl | exact Hn |].
    destruct Hgr; split; simpl; auto.
  - rewrite lookup_insert_eq. eauto.
  - exists fuel, s'. rewrite lookup_insert_eq; simpl. rewrite insert_insert_eq. exact Hrun.
Qed.

Lemma step_runs s op :
  scene_ok s -> op_valid s op ->
  exists fuel s', Transform_step fuel op s = Some s'.
Proof.
  intros Hok Hv. pose proof Hok as [Hg Hc].
  destruct op as [| n v | n q | n v | n value | n | n]; simpl in *.
  - exists 0%nat. eauto.
  - destruct Hv as [t Hn]. unfold Transform_set_position. rewrite Hn; simpl.
    apply (mark_dirty_runs s n t _ Hg Hn). split; reflexivity.
  - destruct Hv as [t Hn]. unfold Transform_set_rotation. rewrite Hn; simpl.
    apply (mark_dirty_runs s n t _ Hg Hn). split; reflexivity.
  - destruct Hv as [t Hn]. unfold Transform_set_scale. rewrite Hn; simpl.
    apply (mark_dirty_runs s n t _ Hg Hn). split; reflexivity.
  - destruct Hv as [[t Hn] Hnew].
    destruct (decide (t_parent t = value)) as [Heq | Hne].
    { exists 0%nat, s. unfold Transform_set_parent. rewrite Hn; simpl.
      destruct (decide (t_parent t = value)); [reflexivity | contradiction]. }
    assert (Hself : t_parent t <> Some n).
    { intros Hp. destruct (bounded_depth _ Hg) as [B HB].
      destruct (HB n t Hn) as (k & _ & Hd). eapply parent_differs; eauto. }
    destruct (relink_runs n value s t Hg Hn Hself) as (s3 & Hlink).
    { intros new Hv. apply (Hnew new Hv). }
    destruct (relink_spec _ _ _ _ _ Hn Hne Hself Hlink) as (cs & Hold & _ & Hs3).
    destruct (mark_runs_on_graph s3 n) as (fuel & s' & Hrun).
    + apply (reparent_graph_ok s s3 n t value cs Hg Hn Hne Hold Hnew Hs3).
    + rewrite Hs3, Hn. simpl. eauto.
    + exists fuel, s'. rewrite (set_parent_relink _ _ _ _ _ Hn Hne), Hlink. exact Hrun.
  - destruct Hv as [t Hn]. destruct (Hc n t Hn) as [Hl _].
    exists 0%nat. rewrite (local_matrix_eq _ _ _ Hn Hl). simpl. eauto.
  - destruct Hv as [t Hn]. destruct (bounded_depth _ Hg) as [B HB].
    destruct (HB n t Hn) as (k & _ & Hd).
    destruct (world_matrix_runs (S k) n s k Hok Hd) as (m & s' & Hrun); [lia |].
    exists (S k). rewrite Hrun. simpl. eauto.
Qed.

(** *** The cache is never stale *)

(** Claim C1.  In every scene reached from the empty one by operations that
    return (creating nodes, setting position, rotation or scale, re-parenting,
    and reads of the two matrices in between), a read of [world_matrix] on any
    node returns, and what it returns is computed from the current fields:
    for a root the TRS matrix of its position, rotation and scale; for any
    other node [parent.world_matrix * local_matrix], both as read at that
    time, the local matrix being the TRS matrix of the node's current
    fields. *)
Theorem world_matrix_never_stale
    (ops : list TransformOp) (s : Store) (n : nat) (t : Transform) :
  Transform_run ∅ ops s -> s !! n = Some t ->
  (exists fuel m s', Transform_world_matrix fuel n s = Some (m, s')) /\
  (forall fuel m s', Transform_world_matrix fuel n s = Some (m, s') ->
     world_value s n m /\
     match t_parent t with
     | None => m = Matrix4_trs (t_position t) (t_rotation t) (t_scale t)
     | Some p =>
       exists pm lm,
         Transform_world_matrix 1 p s' = Some (pm, s') /\
         Transform_local_matrix n s' = Some (lm, s') /\
         lm = Matrix4_trs (t_position t) (t_rotation t) (t_scale t) /\
         m = Matrix4_mul pm lm
     end).
Proof.
  intros Hrun Hn.
  pose proof (run_scene _ _ _ scene_ok_empty Hrun) as Hok.
  pose proof Hok as [Hg Hc]. destruct (bounded_depth _ Hg) as [B HB].
  destruct (HB n t Hn) as (k & _ & Hd).
  split.
  { destruct (world_matrix_runs (S k) n s k Hok Hd) as (m & s' & Hr); [lia | eauto]. }
  intros fuel m s' Hread.
  destruct (world_matrix_spec _ _ _ _ _ _ Hok Hd Hread) as (Hok' & Hrel & _ & Hclean).
  assert (Hd' : depth s' n k).
  { eapply depth_graph_rel; [| exact Hd]. eapply store_rel_mono; [| exact Hrel].
    apply data_rel_graph. }
  pose proof (clean_world_value _ _ _ Hok' Hd' m Hclean) as Hval'.
  assert (Hval : world_value s n m).
  { eapply world_value_rel; [| exact Hval'].
    apply store_rel_sym; [apply data_rel_sym | exact Hrel]. }
  split; [exact Hval |].
  destruct Hclean as (t' & Hn' & Hcl & Hw).
  destruct (store_rel_l _ _ _ _ _ Hrel Hn) as (t'' & Hn'' & Hdata).
  assert (t'' = t') as -> by congruence.
  pose proof (data_rel_trs _ _ Hdata) as Htrs.
  destruct Hok' as [Hg' Hc']. destruct (Hc' n t' Hn') as [Hl' Hw'].
  destruct (Hw' Hcl) as (Hlc & w & Hwc & Hpar).
  assert (w = m) as -> by congruence.
  assert (Hp : t_parent t' = t_parent t) by (destruct Hdata as (_ & _ & _ & ? & _); done).
  rewrite Hp in Hpar. fold (trs_of t).
  destruct (t_parent t) as [p |]; [| congruence].
  destruct Hpar as (tp & pm & Htp & Htpc & Htpw & ->).
  exists pm, (trs_of t). split; [| split; [| split; [reflexivity | congruence]]].
  - apply (world_matrix_unfold_clean 0 p s' tp pm); auto.
  - unfold Transform_local_matrix. rewrite Hn'; simpl.
    rewrite Hlc, (Hl' Hlc), Htrs. reflexivity.
Qed.

Lemma exec_run fuel ops : forall s s',
  Transform_exec fuel ops s = Some s' -> Transform_run s ops s'.
Proof.
  induction ops as [| op ops IH]; intros s s' Hex; simpl in Hex.
  - injection Hex as <-. constructor.
  - apply bind_Some in Hex as (s1 & Hstep & Hrest).
    eapply run_step; eauto.
Qed.

Lemma demo_exec : Transform_exec 5 demo_ops ∅ = Some demo_scene.
Proof. vm_compute. reflexivity. Qed.

Lemma demo_child :
  exists t, demo_scene !! 1%nat = Some t /\ t_parent t = Some 0%nat.
Proof. vm_compute. eexists. split; reflexivity. Qed.

Lemma world_matrix_never_stale_witness :
  exists t, demo_scene !! 1%nat = Some t /\
  (exists fuel m s', Transform_world_matrix fuel 1 demo_scene = Some (m, s')) /\
  (forall fuel m s', Transform_world_matrix fuel 1 demo_scene = Some (m, s') ->
     world_value demo_scene 1 m /\
     match t_parent t with
     | None => m = Matrix4_trs (t_position t) (t_rotation t) (t_scale t)
     | Some p =>
       exists pm lm,
         Transform_world_matrix 1 p s' = Some (pm, s') /\
         Transform_local_matrix 1 s' = Some (lm, s') /\
         lm = Matrix4_trs (t_position t) (t_rotation t) (t_scale t) /\
         m = Matrix4_mul pm lm
     end).
Proof.
  destruct demo_child as (t & Ht & Hp).
  exists t. split; [exact Ht |].
  exact (world_matrix_never_stale demo_ops demo_scene 1 t
           (exec_run 5 demo_ops ∅ demo_scene demo_exec) Ht).
Defined.

(** ** Scenario A through Camera.set_look_at *)

Lemma Vector3_normalized_of_magnitude (v : Vector3) (m : R) :
  EPSILON <= m -> vx v * vx v + vy v * vy v + vz v * vz v = m * m ->
  Vector3_normalized v = mkVector3 (vx v / m) (vy v / m) (vz v / m).
Proof.
  intros Hm Hsq. pose proof EPSILON_pos.
  assert (Hmag : Vector3_magnitude v = m).
  { unfold Vector3_magnitude. apply sqrt_of_square; [lra | exact Hsq]. }
  unfold Vector3_normalized; cbv zeta. rewrite Hmag.
  destruct (Rlt_dec m EPSILON); [lra | reflexivity].
Qed.

Lemma look_rotation_towards_minus_z :
  Quaternion_look_rotation (Vector3_sub scenario_target scenario_eye) Vector3_up =
  mkQuaternion 0 1 0 0.
Proof.
  unfold Quaternion_look_rotation; cbv zeta.
  assert (Hf : Vector3_normalized (Vector3_sub scenario_target scenario_eye) =
               mkVector3 0 0 (-1)).
  { rewrite (Vector3_normalized_of_magnitude _ 5); simpl; unfold EPSILON; try lra.
    apply Vector3_eq; simpl; lra. }
  rewrite Hf.
  assert (Hr : Vector3_normalized (Vector3_cross Vector3_up (mkVector3 0 0 (-1))) =
               mkVector3 (-1) 0 0).
  { rewrite (Vector3_normalized_of_magnitude _ 1); simpl; unfold EPSILON; try lra.
    apply Vector3_eq; simpl; lra. }
  rewrite Hr.
  unfold Quaternion_from_matrix; simpl.
  Rcmp. simpl.
  rewrite (sqrt_of_square _ 2) by lra.
  apply Quaternion_eq; simpl; lra.
Qed.

Lemma camera_positioned :
  Transform_set_world_position 2 camera_tid scenario_eye camera_store =
  Some {[ camera_tid := camera_transform Quaternion_identity None None true ]}.
Proof. vm_compute. reflexivity. Qed.

Lemma camera_world_position :
  Transform_world_position 2 camera_tid
    {[ camera_tid := camera_transform Quaternion_identity None None true ]} =
  Some (scenario_eye,
        {[ camera_tid :=
             camera_transform Quaternion_identity
               (Some (eye_matrix Quaternion_identity))
               (Some (Matrix4_copy (eye_matrix Quaternion_identity))) false ]}).
Proof. vm_compute. reflexivity. Qed.

Lemma camera_rotated :
  Transform_set_world_rotation 2 camera_tid half_turn_y
    {[ camera_tid :=
         camera_transform Quaternion_identity
           (Some (eye_matrix Quaternion_identity))
           (Some (Matrix4_copy (eye_matrix Quaternion_identity))) false ]} =
  Some {[ camera_tid :=
            camera_transform half_turn_y
              (Some (eye_matrix Quaternion_identity))
              (Some (Matrix4_copy (eye_matrix Quaternion_identity))) true ]}.
Proof. vm_compute. reflexivity. Qed.

Lemma camera_world_matrix :
  Transform_world_matrix 2 camera_tid
    {[ camera_tid :=
         camera_transform half_turn_y
           (Some (eye_matrix Quaternion_identity))
           (Some (Matrix4_copy (eye_matrix Quaternion_identity))) true ]} =
  Some (Matrix4_copy (eye_matrix half_turn_y),
        {[ camera_tid :=
             camera_transform half_turn_y
               (Some (eye_matrix half_turn_y))
               (Some (Matrix4_copy (eye_matrix half_turn_y))) false ]}).
Proof. vm_compute. reflexivity. Qed.

Lemma camera_set_look_at_result :
  Camera_set_look_at 2 camera_tid scenario_eye scenario_target (Some Vector3_up)
    camera_store =
  Some {[ camera_tid :=
            camera_transform half_turn_y
              (Some (eye_matrix Quaternion_identity))
              (Some (Matrix4_copy (eye_matrix Quaternion_identity))) true ]}.
Proof.
  unfold Camera_set_look_at, Camera_look_at.
  rewrite camera_positioned; simpl.
  unfold Transform_look_at. rewrite camera_world_position; simpl.
  destruct (Rlt_dec _ _) as [Hlt | _].
  { exfalso. revert Hlt. unfold Vector3_magnitude_squared, EPSILON; simpl. lra. }
  rewrite look_rotation_towards_minus_z. apply camera_rotated.
Qed.

Lemma eye_matrix_half_turn : Matrix4_copy (eye_matrix half_turn_y) = looking_away.
Proof. apply Matrix4_eq; simpl; lra. Qed.

Lemma looking_away_view : Camera_view_matrix looking_away = looking_away.
Proof.
  unfold Camera_view_matrix, Matrix4_inverse, looking_away; simpl.
  destruct (Rlt_dec _ _) as [Hlt | _].
  { exfalso. revert Hlt. unfold EPSILON. intros H. apply Rabs_def2 in H. lra. }
  apply Matrix4_eq; simpl; lra.
Qed.

(** Claim C6, at the input where the code departs from it.  A new camera
    is put at (0,0,5) and made to look at the origin with up (0,1,0) by
    [Camera.set_look_at]; [world_to_screen] of the origin on a 100x100 screen
    then returns [None]: [look_at] turns the transform's +Z axis to the
    target, while [world_to_screen] keeps only points of negative view z. *)
Theorem scenario_A_look_at_rejects_origin :
  exists s1 s2,
    Camera_set_look_at 2 camera_tid scenario_eye scenario_target (Some Vector3_up)
      camera_store = Some s1 /\
    Camera_world_to_screen_at 2 scenario_camera camera_tid s1
      scenario_target 100 100 = Some (None, scenario_camera, s2).
Proof.
  eexists. eexists. split; [apply camera_set_look_at_result |].
  unfold Camera_world_to_screen_at.
  rewrite camera_world_matrix; simpl.
  rewrite eye_matrix_half_turn.
  unfold Camera_world_to_screen. rewrite looking_away_view.
  assert (Hv : Matrix4_transform_point looking_away scenario_target = mkVector3 0 0 5).
  { unfold Matrix4_transform_point; simpl.
    destruct (Rlt_dec _ _) as [Hlt | _].
    - exfalso. revert Hlt. unfold EPSILON. intros H. apply Rabs_def2 in H. lra.
    - apply Vector3_eq; simpl; lra. }
  rewrite Hv. simpl.
  destruct (Rge_dec 5 0); [reflexivity | lra].
Qed.

(** ** WireframeRenderer *)
(** *** Grid lemmas *)
Section Grid.
Context {A : Type}.
Implicit Types (g : list (list A)) (v : A).

Lemma grid_set_shaped w h g y x v :
  grid_shaped w h g -> grid_shaped w h (grid_set g y x v).
Proof.
  intros [Hlen Hrows]. unfold grid_set. split.
  - rewrite length_alter. exact Hlen.
  - apply Forall_alter; [exact Hrows |].
    intros row _ Hrow. rewrite length_insert. exact Hrow.
Qed.

Lemma grid_get_set_eq w h g y x v :
  grid_shaped w h g -> (0 <= x < w)%Z -> (0 <= y < h)%Z ->
  grid_get (grid_set g y x v) y x = Some v.
Proof.
  intros [Hlen Hrows] Hx Hy. unfold grid_get, grid_set.
  rewrite list_lookup_alter_eq.
  destruct (lookup_lt_is_Some_2 g (Z.to_nat y)) as [row Hrow]; [lia |].
  rewrite Hrow. simpl.
  apply list_lookup_insert_eq.
  rewrite (Forall_lookup_1 _ _ _ _ Hrows Hrow). lia.
Qed.

Lemma grid_get_set_ne g y x v y' x' :
  (0 <= x)%Z -> (0 <= y)%Z -> (0 <= x')%Z -> (0 <= y')%Z ->
  (x, y) <> (x', y') ->
  grid_get (grid_set g y x v) y' x' = grid_get g y' x'.
Proof.
  intros Hx Hy Hx' Hy' Hne. unfold grid_get, grid_set.
  destruct (decide (Z.to_nat y = Z.to_nat y')) as [Heq | Hny].
  - rewrite <- Heq, list_lookup_alter_eq.
    destruct (g !! Z.to_nat y) as [row |]; simpl; [| reflexivity].
    apply list_lookup_insert_ne. intros Hxx. apply Hne. f_equal; lia.
  - rewrite list_lookup_alter_ne by done. reflexivity.
Qed.

Lemma grid_get_is_Some w h g y x :
  grid_shaped w h g -> (0 <= x < w)%Z -> (0 <= y < h)%Z ->
  is_Some (grid_get g y x).
Proof.
  intros [Hlen Hrows] Hx Hy. unfold grid_get.
  destruct (lookup_lt_is_Some_2 g (Z.to_nat y)) as [row Hrow]; [lia |].
  rewrite Hrow. simpl. apply lookup_lt_is_Some_2.
  rewrite (Forall_lookup_1 _ _ _ _ Hrows Hrow). lia.
Qed.

Lemma grid_replicate_shaped w h v :
  grid_shaped w h (replicate (Z.to_nat h) (replicate (Z.to_nat w) v)).
Proof.
  split; [apply length_replicate |].
  apply Forall_replicate, length_replicate.
Qed.

Lemma grid_get_replicate w h v y x :
  (0 <= x < w)%Z -> (0 <= y < h)%Z ->
  grid_get (replicate (Z.to_nat h) (replicate (Z.to_nat w) v)) y x = Some v.
Proof.
  intros Hx Hy. unfold grid_get.
  rewrite lookup_replicate_2 by lia. simpl. apply lookup_replicate_2. lia.
Qed.
End Grid.

Lemma in_bounds_spec r x y :
  in_bounds r x y = true <-> (0 <= x < r_width r)%Z /\ (0 <= y < r_height r)%Z.
Proof. unfold in_bounds. rewrite !andb_true_iff. lia. Qed.

Lemma Renderer_clear_shaped r char color : well_shaped (Renderer_clear r char color).
Proof. repeat split; simpl; try apply length_replicate; apply Forall_replicate, length_replicate. Qed.

(** *** _draw_edge *)

Lemma draw_edge_loop_fold k edge x1 y1 dx dy sx sy ms :
  forall r x0 y0 err step,
    draw_edge_loop k edge x1 y1 dx dy sx sy ms r x0 y0 err step =
    fold_left (edge_plot edge x1 y1 dx dy ms)
              (edge_steps_loop k x1 y1 dx dy sx sy x0 y0 err step) r.
Proof.
  induction k as [| k IH]; intros r x0 y0 err step; simpl; [reflexivity |].
  destruct ((x0 =? x1)%Z && (y0 =? y1)%Z); [reflexivity |].
  destruct (bresenham_step dx dy sx sy x0 y0 err) as [[x0' y0'] err'].
  apply IH.
Qed.

Section EdgePixel.
Variables (edge : ProjectedEdge) (x1 y1 dx dy ms : Z) (px py : Z).

Lemma hit_idempotent d cell : hit edge d (hit edge d cell) = hit edge d cell.
Proof.
  unfold hit. destruct (depth_lt d (fst cell)) eqn:Hlt; [| rewrite Hlt; reflexivity].
  simpl. unfold Rltb. destruct (Rlt_dec d d); [lra | reflexivity].
Qed.

Lemma draw_edge_pixel_ready r x y st :
  ready px py r -> ready px py (draw_edge_pixel edge x1 y1 dx dy ms r x y st).
Proof.
  intros (Hs & Hdt & Hin). unfold draw_edge_pixel.
  destruct (in_bounds r x y); [| exact (conj Hs (conj Hdt Hin))].
  destruct (negb _ || _); [| exact (conj Hs (conj Hdt Hin))].
  destruct Hs as (Hc & Hd & Hk).
  split; [| split; [exact Hdt | exact Hin]].
  split; [| split]; simpl; apply grid_set_shaped; assumption.
Qed.

Lemma draw_edge_pixel_elsewhere r x y st cell :
  ready px py r -> (x, y) <> (px, py) -> cell_is px py r cell ->
  cell_is px py (draw_edge_pixel edge x1 y1 dx dy ms r x y st) cell.
Proof.
  intros (Hs & Hdt & Hin) Hne [Hd Hk]. unfold draw_edge_pixel.
  destruct (in_bounds r x y) eqn:Hxy; [| exact (conj Hd Hk)].
  destruct (negb _ || _); [| exact (conj Hd Hk)].
  apply in_bounds_spec in Hxy. apply in_bounds_spec in Hin.
  split; simpl; rewrite grid_get_set_ne by (try lia; exact Hne); assumption.
Qed.

Lemma draw_edge_pixel_here r st cell :
  ready px py r -> cell_is px py r cell ->
  cell_is px py (draw_edge_pixel edge x1 y1 dx dy ms r px py st)
          (hit edge (edge_depth_at edge ms st) cell).
Proof.
  intros (Hs & Hdt & Hin) [Hd Hk]. unfold draw_edge_pixel, hit.
  rewrite Hin, Hdt, Hd. simpl.
  destruct (depth_lt _ (fst cell)); [| exact (conj Hd Hk)].
  apply in_bounds_spec in Hin. destruct Hs as (_ & Hsd & Hsk).
  split; simpl; eapply grid_get_set_eq; eauto; lia.
Qed.

Lemma fold_plot_cell (d : R) (L : list (Z * Z * Z)) :
  forall r cell,
    ready px py r -> cell_is px py r cell ->
    (forall st, In (px, py, st) L -> edge_depth_at edge ms st = d) ->
    ready px py (fold_left (edge_plot edge x1 y1 dx dy ms) L r) /\
    (cell_is px py (fold_left (edge_plot edge x1 y1 dx dy ms) L r) cell \/
     cell_is px py (fold_left (edge_plot edge x1 y1 dx dy ms) L r) (hit edge d cell)) /\
    ((exists st, In (px, py, st) L) ->
     cell_is px py (fold_left (edge_plot edge x1 y1 dx dy ms) L r) (hit edge d cell)).
Proof.
  induction L as [| [[x y] st] L IH]; intros r cell Hr Hc Hd; simpl.
  - split; [exact Hr |]. split; [left; exact Hc |]. intros [st []].
  - pose proof (draw_edge_pixel_ready r x y st Hr) as Hr1.
    destruct (decide ((x, y) = (px, py))) as [Heq | Hne].
    + injection Heq as -> ->.
      pose proof (draw_edge_pixel_here r st cell Hr Hc) as Hc1.
      rewrite (Hd st) in Hc1 by (left; reflexivity).
      destruct (IH _ _ Hr1 Hc1) as (Hr' & Hor & _).
      { intros st' Hin. apply Hd. right; exact Hin. }
      rewrite hit_idempotent in Hor.
      split; [exact Hr' |]. split; [right |]; destruct Hor; auto.
    + pose proof (draw_edge_pixel_elsewhere r x y st cell Hr Hne Hc) as Hc1.
      destruct (IH _ _ Hr1 Hc1) as (Hr' & Hor & Hex).
      { intros st' Hin. apply Hd. right; exact Hin. }
      split; [exact Hr' |]. split; [exact Hor |].
      intros [st' [Hin | Hin]]; [congruence |]. apply Hex. eauto.
Qed.
End EdgePixel.

Lemma draw_edge_cell edge px py d r cell :
  ready px py r -> cell_is px py r cell -> edge_covers edge px py d ->
  ready px py (Renderer_draw_edge r edge) /\
  cell_is px py (Renderer_draw_edge r edge) (hit edge d cell).
Proof.
  intros Hr Hc [Hex Hd]. unfold Renderer_draw_edge. cbv zeta.
  rewrite draw_edge_loop_fold.
  edestruct (fold_plot_cell edge) as (Hr' & _ & Hhit); [exact Hr | exact Hc | |].
  - intros st Hin. apply Hd. exact Hin.
  - split; [exact Hr' |]. apply Hhit. exact Hex.
Qed.

(** Claim C2.  With depth testing on, on a pixel of the grid that holds
    nothing nearer than depth 3 (as after [clear]): if one edge covers the
    pixel with interpolated depth 3 and another with interpolated depth 7,
    then after drawing both, in either order, the pixel has the colour of
    the depth-3 edge (and the stored depth 3). *)
Theorem depth_test_order_independent
    (r : Renderer) (near far : ProjectedEdge) (px py : Z) (stored : DepthCell) :
  well_shaped r -> r_depth_testing r = true -> in_bounds r px py = true ->
  grid_get (r_depth_buffer r) py px = Some stored -> depth_lt 3 stored = true ->
  edge_covers near px py 3 -> edge_covers far px py 7 ->
  let near_then_far := Renderer_draw_edge (Renderer_draw_edge r near) far in
  let far_then_near := Renderer_draw_edge (Renderer_draw_edge r far) near in
  grid_get (r_color_buffer near_then_far) py px = Some (Some (pe_color near)) /\
  grid_get (r_color_buffer far_then_near) py px = Some (Some (pe_color near)) /\
  grid_get (r_depth_buffer near_then_far) py px = Some (Finite 3) /\
  grid_get (r_depth_buffer far_then_near) py px = Some (Finite 3).
Proof.
  intros Hs Hdt Hin Hstored Hlt Hnear Hfar near_then_far far_then_near.
  assert (Hr : ready px py r) by exact (conj Hs (conj Hdt Hin)).
  pose proof (proj1 (in_bounds_spec r px py) Hin) as [Hpx Hpy].
  destruct (grid_get_is_Some (r_width r) (r_height r) (r_color_buffer r) py px)
    as [k Hk]; [apply Hs | exact Hpx | exact Hpy |].
  assert (Hc : cell_is px py r (stored, k)) by (split; assumption).
  (* near first *)
  destruct (draw_edge_cell near px py 3 r _ Hr Hc Hnear) as (Hr1 & Hc1).
  destruct (draw_edge_cell far px py 7 _ _ Hr1 Hc1 Hfar) as (_ & Hc2).
  (* far first *)
  destruct (draw_edge_cell far px py 7 r _ Hr Hc Hfar) as (Hr3 & Hc3).
  destruct (draw_edge_cell near px py 3 _ _ Hr3 Hc3 Hnear) as (_ & Hc4).
  assert (H1 : hit far 7 (hit near 3 (stored, k)) = (Finite 3, Some (pe_color near))).
  { unfold hit at 2. simpl. rewrite Hlt. unfold hit. simpl.
    rewrite Rltb_false by lra. reflexivity. }
  assert (H2 : hit near 3 (hit far 7 (stored, k)) = (Finite 3, Some (pe_color near))).
  { unfold hit at 2. simpl. destruct (depth_lt 7 stored).
    - unfold hit. simpl. rewrite Rltb_true by lra. reflexivity.
    - unfold hit. simpl. rewrite Hlt. reflexivity. }
  rewrite H1 in Hc2. rewrite H2 in Hc4.
  destruct Hc2 as [Hd2 Hk2]. destruct Hc4 as [Hd4 Hk4].
  repeat split; assumption.
Qed.

Lemma demo_near_steps : edge_steps demo_near = [(0, 1, 0); (1, 1, 1); (2, 1, 2)]%Z.
Proof.
  unfold edge_steps, demo_near. cbn [pe_v1 pe_v2 pv_screen_x pv_screen_y].
  rewrite !py_int_IZR. reflexivity.
Qed.

Lemma demo_far_steps : edge_steps demo_far = [(1, 0, 0); (1, 1, 1); (1, 2, 2)]%Z.
Proof.
  unfold edge_steps, demo_far. cbn [pe_v1 pe_v2 pv_screen_x pv_screen_y].
  rewrite !py_int_IZR. reflexivity.
Qed.

Lemma demo_near_covers : edge_covers demo_near 1 1 3.
Proof.
  unfold edge_covers. rewrite demo_near_steps. split.
  - exists 1%Z. simpl. auto.
  - intros st Hin. unfold edge_depth_at, lerp, demo_near; simpl. lra.
Qed.

Lemma demo_far_covers : edge_covers demo_far 1 1 7.
Proof.
  unfold edge_covers. rewrite demo_far_steps. split.
  - exists 1%Z. simpl. auto.
  - intros st Hin. unfold edge_depth_at, lerp, demo_far; simpl. lra.
Qed.

Lemma depth_test_order_independent_witness :
  let r := Renderer_init 3 3 in
  let near_then_far := Renderer_draw_edge (Renderer_draw_edge r demo_near) demo_far in
  let far_then_near := Renderer_draw_edge (Renderer_draw_edge r demo_far) demo_near in
  grid_get (r_color_buffer near_then_far) 1 1 = Some (Some (pe_color demo_near)) /\
  grid_get (r_color_buffer far_then_near) 1 1 = Some (Some (pe_color demo_near)) /\
  grid_get (r_depth_buffer near_then_far) 1 1 = Some (Finite 3) /\
  grid_get (r_depth_buffer far_then_near) 1 1 = Some (Finite 3).
Proof.
  apply (depth_test_order_independent (Renderer_init 3 3) demo_near demo_far 1 1 PosInf).
  - apply Renderer_clear_shaped.
  - reflexivity.
  - reflexivity.
  - reflexivity.
  - reflexivity.
  - exact demo_near_covers.
  - exact demo_far_covers.
Defined.

(** *** Draw_line *)

Section Line.
Variables (color : option Color) (char : option string) (x1 y1 dx dy : Z).

Lemma draw_line_pixel_frame r x y :
  let r' := draw_line_pixel color char x1 y1 dx dy r x y in
  r_depth_buffer r' = r_depth_buffer r /\ r_width r' = r_width r /\
  r_height r' = r_height r /\ (well_shaped r -> well_shaped r').
Proof.
  unfold draw_line_pixel. destruct (in_bounds r x y); simpl; [| tauto].
  split; [reflexivity |]. split; [reflexivity |]. split; [reflexivity |].
  intros (Hc & Hd & Hk).
  split; [| split]; simpl; try apply grid_set_shaped; assumption.
Qed.

Lemma draw_line_loop_fold fuel sx sy :
  forall r x0 y0 err,
    draw_line_loop fuel color char x1 y1 dx dy sx sy r x0 y0 err =
    (fun L => fold_left (line_plot color char x1 y1 dx dy) L r)
      <$> line_points_loop fuel x1 y1 dx dy sx sy x0 y0 err.
Proof.
  induction fuel as [| fuel IH]; intros r x0 y0 err; simpl; [reflexivity |].
  destruct ((x0 =? x1)%Z && (y0 =? y1)%Z); [reflexivity |].
  destruct (bresenham_step dx dy sx sy x0 y0 err) as [[x0' y0'] err'].
  rewrite IH. destruct (line_points_loop _ _ _ _ _ _ _ _ _ _); reflexivity.
Qed.

Lemma fold_line_frame L : forall r,
  let r' := fold_left (line_plot color char x1 y1 dx dy) L r in
  r_depth_buffer r' = r_depth_buffer r /\ r_width r' = r_width r /\
  r_height r' = r_height r /\ (well_shaped r -> well_shaped r').
Proof.
  induction L as [| [x y] L IH]; intros r; simpl; [tauto |].
  destruct (draw_line_pixel_frame r x y) as (Hd & Hw & Hh & Hs).
  destruct (IH (line_plot color char x1 y1 dx dy r (x, y))) as (Hd' & Hw' & Hh' & Hs').
  split; [rewrite Hd'; exact Hd |]. split; [rewrite Hw'; exact Hw |].
  split; [rewrite Hh'; exact Hh |]. intros H. apply Hs', Hs, H.
Qed.

Lemma draw_line_pixel_keeps r x y px py :
  well_shaped r -> in_bounds r px py = true -> line_cell_is color char x1 y1 dx dy r px py ->
  line_cell_is color char x1 y1 dx dy (draw_line_pixel color char x1 y1 dx dy r x y) px py.
Proof.
  intros Hs Hin [Hc Hk]. unfold draw_line_pixel.
  destruct (in_bounds r x y) eqn:Hxy; [| split; assumption].
  apply in_bounds_spec in Hin. apply in_bounds_spec in Hxy.
  destruct Hs as (Hsc & _ & Hsk).
  destruct (decide ((x, y) = (px, py))) as [Heq | Hne].
  - injection Heq as -> ->.
    split; simpl; eapply grid_get_set_eq; eauto; lia.
  - split; simpl; rewrite grid_get_set_ne by (try lia; exact Hne); assumption.
Qed.

Lemma draw_line_pixel_writes r px py :
  well_shaped r -> in_bounds r px py = true ->
  line_cell_is color char x1 y1 dx dy (draw_line_pixel color char x1 y1 dx dy r px py) px py.
Proof.
  intros Hs Hin. unfold draw_line_pixel. rewrite Hin.
  apply in_bounds_spec in Hin. destruct Hs as (Hsc & _ & Hsk).
  split; simpl; eapply grid_get_set_eq; eauto; lia.
Qed.

Lemma in_bounds_dims r r' x y :
  r_width r' = r_width r -> r_height r' = r_height r ->
  in_bounds r' x y = in_bounds r x y.
Proof. intros Hw Hh. unfold in_bounds. rewrite Hw, Hh. reflexivity. Qed.

Lemma fold_line_keeps L px py : forall r,
  well_shaped r -> in_bounds r px py = true -> line_cell_is color char x1 y1 dx dy r px py ->
  line_cell_is color char x1 y1 dx dy (fold_left (line_plot color char x1 y1 dx dy) L r) px py.
Proof.
  induction L as [| [x y] L IH]; intros r Hs Hin Hc; simpl; [exact Hc |].
  destruct (draw_line_pixel_frame r x y) as (_ & Hw & Hh & Hs').
  apply IH; [auto | | ].
  - unfold line_plot; simpl. rewrite (in_bounds_dims r _ px py Hw Hh). exact Hin.
  - apply draw_line_pixel_keeps; assumption.
Qed.

Lemma fold_line_writes L px py : forall r,
  well_shaped r -> in_bounds r px py = true -> In (px, py) L ->
  line_cell_is color char x1 y1 dx dy (fold_left (line_plot color char x1 y1 dx dy) L r) px py.
Proof.
  induction L as [| [x y] L IH]; intros r Hs Hin HL; simpl; [destruct HL |].
  destruct (draw_line_pixel_frame r x y) as (_ & Hw & Hh & Hs').
  destruct (decide ((x, y) = (px, py))) as [Heq | Hne].
  - injection Heq as -> ->. apply fold_line_keeps; [auto | | ].
    + unfold line_plot; simpl. rewrite (in_bounds_dims r _ px py Hw Hh). exact Hin.
    + apply draw_line_pixel_writes; assumption.
  - destruct HL as [Heq | HL]; [congruence |].
    apply IH; [auto | | exact HL].
    unfold line_plot; simpl. rewrite (in_bounds_dims r _ px py Hw Hh). exact Hin.
Qed.
End Line.

(** Bresenham reaches the end point: [a] and [b] are the moves that remain
    along x and y. *)
Lemma line_points_loop_terminates (x1 y1 dx dy sx sy : Z) (fuel : nat) :
  forall (x0 y0 err a b : Z),
    (0 <= a <= dx)%Z -> (0 <= b <= dy)%Z ->
    (x1 - x0 = sx * a)%Z -> (y1 - y0 = sy * b)%Z ->
    (sx = 1 \/ sx = -1)%Z -> (sy = 1 \/ sy = -1)%Z ->
    (err = dx - dy + a * dy - b * dx)%Z ->
    (Z.to_nat (a + b) < fuel)%nat ->
    exists L, line_points_loop fuel x1 y1 dx dy sx sy x0 y0 err = Some L.
Proof.
  induction fuel as [| fuel IH]; intros x0 y0 err a b Ha Hb Hx Hy Hsx Hsy Herr Hfuel;
    [lia |].
  simpl.
  destruct ((x0 =? x1)%Z && (y0 =? y1)%Z) eqn:Hend; [eauto |].
  assert (Hab : (0 < a + b)%Z).
  { apply andb_false_iff in Hend as [H | H]; apply Z.eqb_neq in H; nia. }
  unfold bresenham_step.
  destruct (- dy <? 2 * err)%Z eqn:Hmx; destruct (2 * err <? dx)%Z eqn:Hmy;
    try apply Z.ltb_lt in Hmx; try apply Z.ltb_ge in Hmx;
    try apply Z.ltb_lt in Hmy; try apply Z.ltb_ge in Hmy.
  - assert (0 < a)%Z by nia. assert (0 < b)%Z by nia.
    destruct (IH (x0 + sx)%Z (y0 + sy)%Z (err - dy + dx)%Z (a - 1)%Z (b - 1)%Z)
      as [L HL]; try lia; try nia.
    rewrite HL. simpl. eauto.
  - assert (0 < a)%Z by nia.
    destruct (IH (x0 + sx)%Z y0 (err - dy)%Z (a - 1)%Z b)
      as [L HL]; try lia; try nia.
    rewrite HL. simpl. eauto.
  - assert (0 < b)%Z by nia.
    destruct (IH x0 (y0 + sy)%Z (err + dx)%Z a (b - 1)%Z)
      as [L HL]; try lia; try nia.
    rewrite HL. simpl. eauto.
  - exfalso. nia.
Qed.

Lemma line_points_terminates x0 y0 x1 y1 :
  exists L, line_points (S (Z.to_nat (Z.abs (x1 - x0) + Z.abs (y1 - y0)))) x0 y0 x1 y1
            = Some L.
Proof.
  unfold line_points.
  apply (line_points_loop_terminates _ _ _ _ _ _ _ x0 y0 _
           (Z.abs (x1 - x0)) (Z.abs (y1 - y0))); try lia.
  - destruct (x0 <? x1)%Z eqn:H; [apply Z.ltb_lt in H | apply Z.ltb_ge in H]; lia.
  - destruct (y0 <? y1)%Z eqn:H; [apply Z.ltb_lt in H | apply Z.ltb_ge in H]; lia.
  - destruct (x0 <? x1)%Z; auto.
  - destruct (y0 <? y1)%Z; auto.
Qed.

(** *** Draw_text *)

Section Text.
Variables (x y : Z) (color : option Color).

Lemma draw_text_loop_frame text : forall r i,
  let r' := draw_text_loop r x y color i text in
  r_depth_buffer r' = r_depth_buffer r /\ r_width r' = r_width r /\
  r_height r' = r_height r /\ (well_shaped r -> well_shaped r').
Proof.
  induction text as [| ch text IH]; intros r i; simpl; [tauto |].
  destruct (in_bounds r (x + i) y).
  - match goal with
    | |- context [draw_text_loop ?r1 x y color (i + 1)%Z text] =>
      destruct (IH r1 (i + 1)%Z) as (Hd & Hw & Hh & Hs)
    end.
    rewrite Hd, Hw, Hh. simpl.
    split; [reflexivity |]. split; [reflexivity |]. split; [reflexivity |].
    intros (Hc & Hdd & Hk). apply Hs.
    split; [| split]; simpl; try apply grid_set_shaped; assumption.
  - apply IH.
Qed.

Lemma draw_text_loop_before text : forall r i q,
  (0 <= q < x + i)%Z ->
  let r' := draw_text_loop r x y color i text in
  grid_get (r_char_buffer r') y q = grid_get (r_char_buffer r) y q /\
  grid_get (r_color_buffer r') y q = grid_get (r_color_buffer r) y q.
Proof.
  induction text as [| ch text IH]; intros r i q Hq; simpl; [tauto |].
  destruct (in_bounds r (x + i) y) eqn:Hin.
  - match goal with
    | |- context [draw_text_loop ?r1 x y color (i + 1)%Z text] =>
      destruct (IH r1 (i + 1)%Z q) as (Hc & Hk); [lia |]
    end.
    rewrite Hc, Hk. simpl.
    apply in_bounds_spec in Hin.
    split; apply grid_get_set_ne; try lia; intros Heq; injection Heq; lia.
  - apply IH. lia.
Qed.

Lemma draw_text_loop_writes text : forall r i j ch,
  well_shaped r -> text !! j = Some ch ->
  in_bounds r (x + i + Z.of_nat j) y = true ->
  let r' := draw_text_loop r x y color i text in
  grid_get (r_char_buffer r') y (x + i + Z.of_nat j) = Some ch /\
  grid_get (r_color_buffer r') y (x + i + Z.of_nat j) = Some color.
Proof.
  induction text as [| c text IH]; intros r i j ch Hs Hj Hin; [discriminate |].
  destruct j as [| j]; simpl in Hj.
  - injection Hj as ->. simpl.
    replace (x + i + Z.of_nat 0)%Z with (x + i)%Z in * by lia.
    rewrite Hin.
    pose proof (proj1 (in_bounds_spec _ _ _) Hin) as [Hx Hy].
    match goal with
    | |- context [draw_text_loop ?r1 x y color (i + 1)%Z text] =>
      destruct (draw_text_loop_before text r1 (i + 1)%Z (x + i)%Z) as (Hc & Hk);
        [lia |]
    end.
    rewrite Hc, Hk.
    destruct Hs as (Hsc & _ & Hsk).
    split; simpl; eapply grid_get_set_eq; eauto.
  - simpl.
    replace (x + i + Z.of_nat (S j))%Z with (x + (i + 1) + Z.of_nat j)%Z in * by lia.
    destruct (in_bounds r (x + i) y) eqn:Hxi.
    + apply IH; [| exact Hj | exact Hin].
      destruct Hs as (Hsc & Hsd & Hsk).
      split; [| split]; simpl; try apply grid_set_shaped; assumption.
    + apply IH; assumption.
Qed.
End Text.

(** *** Set_char *)

Lemma set_char_spec r x y ch color depth stored :
  well_shaped r -> r_depth_testing r = true -> in_bounds r x y = true ->
  grid_get (r_depth_buffer r) y x = Some stored ->
  let r' := Renderer_set_char r x y ch color depth in
  (depth_le depth stored = true ->
     grid_get (r_char_buffer r') y x = Some ch /\
     grid_get (r_color_buffer r') y x = Some color /\
     grid_get (r_depth_buffer r') y x = Some (Finite depth)) /\
  (depth_le depth stored = false -> r' = r).
Proof.
  intros (Hc & Hd & Hk) Hdt Hin Hst. unfold Renderer_set_char.
  rewrite Hin, Hdt, Hst. simpl.
  apply in_bounds_spec in Hin.
  destruct (depth_le depth stored); split; intros H; try discriminate; try reflexivity.
  repeat split; simpl; eapply grid_get_set_eq; eauto; lia.
Qed.

(** *** The claim *)

(** Claim C9.  On a renderer whose buffers have the shape [clear] builds:
    [draw_line] returns, leaves the depth buffer as it was, and every pixel
    of the grid on its path ends with the line's glyph and colour, whatever
    the depth stored there; [draw_text] leaves the depth buffer as it was and
    writes each character and the colour at every position inside the grid;
    whereas [set_char], with depth testing on (the only setting the class
    ever has), writes when its depth is at most the stored one and changes
    nothing when it is greater. *)
Theorem overlay_drawing_ignores_depth (r : Renderer) :
  well_shaped r ->
  (forall x0 y0 x1 y1 color char,
     (exists fuel r', Renderer_draw_line fuel r x0 y0 x1 y1 color char = Some r') /\
     (forall fuel r',
        Renderer_draw_line fuel r x0 y0 x1 y1 color char = Some r' ->
        r_depth_buffer r' = r_depth_buffer r /\
        exists points,
          line_points fuel x0 y0 x1 y1 = Some points /\
          forall px py, In (px, py) points -> in_bounds r px py = true ->
            grid_get (r_char_buffer r') py px =
              Some (line_char char px py x1 y1
                              (Z.abs (x1 - x0)) (Z.abs (y1 - y0))) /\
            grid_get (r_color_buffer r') py px = Some color)) /\
  (forall x y text color,
     let r' := Renderer_draw_text r x y text color in
     r_depth_buffer r' = r_depth_buffer r /\
     forall i ch, text !! i = Some ch ->
       in_bounds r (x + Z.of_nat i) y = true ->
       grid_get (r_char_buffer r') y (x + Z.of_nat i) = Some ch /\
       grid_get (r_color_buffer r') y (x + Z.of_nat i) = Some color) /\
  (r_depth_testing r = true ->
   forall x y ch color depth stored,
     in_bounds r x y = true ->
     grid_get (r_depth_buffer r) y x = Some stored ->
     let r' := Renderer_set_char r x y ch color depth in
     (depth_le depth stored = true ->
        grid_get (r_char_buffer r') y x = Some ch /\
        grid_get (r_color_buffer r') y x = Some color /\
        grid_get (r_depth_buffer r') y x = Some (Finite depth)) /\
     (depth_le depth stored = false -> r' = r)).
Proof.
  intros Hs. split; [| split].
  - intros x0 y0 x1 y1 color char. split.
    + destruct (line_points_terminates x0 y0 x1 y1) as [L HL].
      eexists. eexists. unfold Renderer_draw_line. rewrite draw_line_loop_fold.
      unfold line_points in HL. rewrite HL. reflexivity.
    + intros fuel r' Hrun. unfold Renderer_draw_line in Hrun.
      rewrite draw_line_loop_fold in Hrun.
      apply fmap_Some in Hrun as (L & HL & ->).
      destruct (fold_line_frame color char x1 y1 (Z.abs (x1 - x0)) (Z.abs (y1 - y0)) L r)
        as (Hd & _).
      split; [exact Hd |].
      exists L. split; [exact HL |].
      intros px py Hin Hb. apply fold_line_writes; assumption.
  - intros x y text color r'. subst r'. unfold Renderer_draw_text.
    destruct (draw_text_loop_frame x y color text r 0) as (Hd & _).
    split; [exact Hd |].
    intros i ch Hi Hb.
    pose proof (draw_text_loop_writes x y color text r 0 i ch Hs Hi) as Hw.
    replace (x + 0 + Z.of_nat i)%Z with (x + Z.of_nat i)%Z in Hw by lia.
    apply Hw. exact Hb.
  - intros Hdt x y ch color depth stored Hb Hst.
    apply set_char_spec; assumption.
Qed.

Lemma overlay_drawing_ignores_depth_witness :
  let r := Renderer_init 4 3 in
  (exists fuel r',
     Renderer_draw_line fuel r 0 0 3 2 None None = Some r' /\
     r_depth_buffer r' = r_depth_buffer r) /\
  (r_depth_buffer (Renderer_draw_text r 1 1 ["H"%string; "i"%string] None) =
     r_depth_buffer r /\
   grid_get (r_char_buffer (Renderer_draw_text r 1 1 ["H"%string; "i"%string] None))
            1 2 = Some "i"%string) /\
  grid_get (r_char_buffer (Renderer_set_char r 0 0 "a" None 1)) 0 0 =
    Some "a"%string.
Proof.
  intros r.
  destruct (overlay_drawing_ignores_depth r (Renderer_clear_shaped _ _ _))
    as (Hline & Htext & Hset).
  split; [| split].
  - destruct (Hline 0%Z 0%Z 3%Z 2%Z None None) as [(fuel & r' & Hrun) Hall].
    exists fuel, r'. split; [exact Hrun |]. apply (Hall fuel r' Hrun).
  - destruct (Htext 1%Z 1%Z ["H"%string; "i"%string] None) as (Hd & Hw).
    split; [exact Hd |]. apply (Hw 1%nat "i"%string eq_refl eq_refl).
  - apply (Hset eq_refl 0%Z 0%Z "a"%string None 1 PosInf eq_refl eq_refl).
    reflexivity.
Defined.

(** *** Resize *)

Lemma resize_keeps_camera (r : Renderer) (w h : Z) :
  r_camera (Renderer_resize r w h) = r_camera r.
Proof. reflexivity. Qed.

(** Claim C8, at the input where the code departs from it.  A camera is
    attached to an 80x24 renderer and the renderer is resized to 100x10: the
    camera's aspect is still 80/(24*2), not 100/(10*2).  [resize] does not
    touch the camera; only [set_camera] assigns the aspect. *)
Theorem resize_leaves_aspect_stale :
  exists r1 c,
    Renderer_set_camera (Renderer_init 80 24) Camera_init = Some r1 /\
    r_camera (Renderer_resize r1 100 10) = Some c /\
    c_aspect c = 80 / (24 * 2) /\
    c_aspect c <> 100 / (10 * 2).
Proof.
  unfold Renderer_set_camera.
  change (r_width (Renderer_init 80 24)) with 80%Z.
  change (r_height (Renderer_init 80 24)) with 24%Z.
  rewrite py_div_nonzero by lra.
  eexists. eexists. split; [reflexivity |].
  rewrite resize_keeps_camera. split; [reflexivity |].
  cbn [c_aspect Camera_set_aspect]. unfold py_max.
  destruct (Rlt_dec _ _); lra.
Qed.

(** ** Further facts on the camera *)

Lemma from_matrix_sqrt_arg (m : Matrix4) :
  let trace := m00 m + m11 m + m22 m in
  (0 < trace -> 1 < trace + 1) /\
  (~ 0 < trace -> m11 m < m00 m -> m22 m < m00 m ->
     1 <= 1 + m00 m - m11 m - m22 m) /\
  (~ 0 < trace -> ~ (m11 m < m00 m /\ m22 m < m00 m) -> m22 m < m11 m ->
     1 <= 1 + m11 m - m00 m - m22 m) /\
  (~ 0 < trace -> ~ (m11 m < m00 m /\ m22 m < m00 m) -> ~ m22 m < m11 m ->
     1 <= 1 + m22 m - m00 m - m11 m).
Proof.
  intros trace. subst trace. repeat split; intros; lra.
Qed.

Lemma identity_view : Camera_view_matrix Matrix4_identity = Matrix4_identity.
Proof.
  unfold Camera_view_matrix, Matrix4_inverse, Matrix4_identity; simpl.
  destruct (Rlt_dec _ _) as [Hlt | _].
  { exfalso. revert Hlt. unfold EPSILON. intros H. apply Rabs_def2 in H. lra. }
  apply Matrix4_eq; simpl; lra.
Qed.

Lemma identity_transform_point (p : Vector3) :
  Matrix4_transform_point Matrix4_identity p = p.
Proof.
  unfold Matrix4_transform_point; simpl.
  replace (0 * vx p + 0 * vy p + 0 * vz p + 1) with 1 by lra.
  destruct (Rlt_dec _ _) as [Hlt | _].
  { exfalso. revert Hlt. unfold EPSILON. intros H. apply Rabs_def2 in H. lra. }
  apply Vector3_eq; simpl; lra.
Qed.

Lemma Camera_world_to_screen_spec_witness :
  exists P c',
    Camera_projection_matrix Camera_init = Some (P, c') /\
    Camera_world_to_screen Camera_init Matrix4_identity (mkVector3 0 0 (-5)) 100 100 =
      Some (Some ((vx (Matrix4_transform_point P (mkVector3 0 0 (-5))) + 1) * 0.5 * 100,
                  (1 - vy (Matrix4_transform_point P (mkVector3 0 0 (-5)))) * 0.5 * 100,
                  - (-5)), c').
Proof.
  destruct (Camera_projection_matrix_ok Camera_init Camera_init_in_range eq_refl)
    as (P & c' & HP); [simpl; lra |].
  exists P, c'. split; [exact HP |].
  pose proof (Camera_world_to_screen_spec Camera_init Matrix4_identity
                (mkVector3 0 0 (-5)) 100 100) as H.
  cbv zeta in H. rewrite identity_view, identity_transform_point in H.
  destruct H as (_ & _ & H).
  apply (H ltac:(simpl; lra) P c' HP).
Defined.

(** *** Scenario a, camera left facing -z *)

Lemma scenario_camera_in_range : Camera_params_in_range scenario_camera.
Proof.
  change scenario_camera with
    (fold_left Camera_assign
       [AssignFov (60 * DEG_TO_RAD); AssignAspect 1; AssignNearClip 0.1;
        AssignFarClip 100] Camera_init).
  apply Camera_assigns_in_range, Camera_init_in_range.
Qed.

Lemma scenario_camera_clip : c_near scenario_camera = 0.1 /\ c_far scenario_camera = 100.
Proof.
  unfold scenario_camera; simpl. unfold py_max.
  destruct (Rlt_dec 0.001 0.1); [| lra].
  destruct (Rlt_dec (0.1 + 0.01) 100); [| lra]. auto.
Qed.

Lemma perspective_shape (fov aspect near far : R) (P : Matrix4) :
  Matrix4_perspective fov aspect near far = Some P ->
  m01 P = 0 /\ m02 P = 0 /\ m03 P = 0 /\ m10 P = 0 /\ m12 P = 0 /\ m13 P = 0 /\
  m30 P = 0 /\ m31 P = 0 /\ m32 P = -1 /\ m33 P = 0.
Proof.
  unfold Matrix4_perspective. intros H.
  repeat (apply bind_Some in H as (? & _ & H)).
  injection H as <-. simpl. repeat split; reflexivity.
Qed.

Lemma facing_minus_z_view :
  Camera_view_matrix (Matrix4_copy (eye_matrix Quaternion_identity)) =
  mkMatrix4 1 0 0 0
            0 1 0 0
            0 0 1 (-5)
            0 0 0 1.
Proof.
  assert (HW : Matrix4_copy (eye_matrix Quaternion_identity) =
               mkMatrix4 1 0 0 0  0 1 0 0  0 0 1 5  0 0 0 1)
    by (apply Matrix4_eq; simpl; lra).
  rewrite HW. unfold Camera_view_matrix, Matrix4_inverse; simpl.
  destruct (Rlt_dec _ _) as [Hlt | _].
  { exfalso. revert Hlt. unfold EPSILON. intros H. apply Rabs_def2 in H. lra. }
  apply Matrix4_eq; simpl; lra.
Qed.

Lemma scenario_A_facing_minus_z :
  exists x y d c',
    Camera_world_to_screen scenario_camera
      (Matrix4_copy (eye_matrix Quaternion_identity)) scenario_target 100 100 =
    Some (Some (x, y, d), c') /\ x = 50 /\ y = 50 /\ d = 5.
Proof.
  destruct scenario_camera_clip as [Hnear Hfar].
  destruct (Camera_projection_matrix_ok scenario_camera scenario_camera_in_range eq_refl)
    as (P & c' & HP); [rewrite Hnear, Hfar; lra |].
  assert (Hshape : Matrix4_perspective (c_fov scenario_camera) (c_aspect scenario_camera)
                     (c_near scenario_camera) (c_far scenario_camera) = Some P).
  { unfold Camera_projection_matrix in HP.
    change (c_projection_dirty scenario_camera) with true in HP.
    change (c_is_orthographic scenario_camera) with false in HP.
    cbv iota beta in HP.
    apply bind_Some in HP as (P' & HP' & Heq). injection Heq as <- _. exact HP'. }
  apply perspective_shape in Hshape
    as (H01 & H02 & H03 & H10 & H12 & H13 & H30 & H31 & H32 & H33).
  unfold Camera_world_to_screen. rewrite facing_minus_z_view, HP.
  assert (Hv : Matrix4_transform_point (mkMatrix4 1 0 0 0  0 1 0 0  0 0 1 (-5)  0 0 0 1)
                 scenario_target = mkVector3 0 0 (-5)).
  { unfold Matrix4_transform_point; simpl.
    destruct (Rlt_dec _ _) as [Hlt | _].
    - exfalso. revert Hlt. unfold EPSILON. intros H. apply Rabs_def2 in H. lra.
    - apply Vector3_eq; simpl; lra. }
  rewrite Hv. cbn [vz].
  destruct (Rge_dec (-5) 0) as [Hge | _]; [lra |].
  cbn [mbind option_bind]. do 4 eexists. split; [reflexivity |].
  unfold Matrix4_transform_point. cbn [vx vy vz].
  rewrite H01, H02, H03, H10, H12, H13, H30, H31, H32, H33.
  replace (0 * 0 + 0 * 0 + -1 * -5 + 0) with 5 by lra.
  destruct (Rlt_dec (Rabs 5) EPSILON) as [Hlt | _].
  { exfalso. revert Hlt. unfold EPSILON. intros H. apply Rabs_def2 in H. lra. }
  repeat split; lra.
Qed.

(** * Properties of the rest of the modules *)

Lemma py_min_cases (a b : R) :
  (b < a /\ py_min a b = b) \/ (a <= b /\ py_min a b = a).
Proof. unfold py_min. destruct (Rlt_dec b a); [left | right]; split; lra. Qed.

Lemma py_max_cases (a b : R) :
  (a < b /\ py_max a b = b) \/ (b <= a /\ py_max a b = a).
Proof. unfold py_max. destruct (Rlt_dec a b); [left | right]; split; lra. Qed.

Lemma clamp01_cases (v : R) :
  (v <= 0 /\ clamp01 v = 0) \/ (0 <= v <= 1 /\ clamp01 v = v) \/
  (1 <= v /\ clamp01 v = 1).
Proof.
  unfold clamp01.
  destruct (py_min_cases 1 v) as [[H1 ->] | [H1 ->]];
    [destruct (py_max_cases 0 v) as [[H2 ->] | [H2 ->]] |
     destruct (py_max_cases 0 1) as [[H2 ->] | [H2 ->]]]; lra.
Qed.

(** [clamp] with [min_val <= max_val] returns a value of the interval: the
    value itself when it lies inside, the nearer bound otherwise. With the
    bounds the wrong way round it returns [min_val], whatever the value. *)
Theorem clamp_total_order (v lo hi : R) :
  (lo <= hi -> lo <= clamp v lo hi <= hi) /\
  (lo <= v <= hi -> clamp v lo hi = v) /\
  (v <= lo -> lo <= hi -> clamp v lo hi = lo) /\
  (hi <= v -> lo <= hi -> clamp v lo hi = hi) /\
  (hi < lo -> clamp v lo hi = lo).
Proof.
  unfold clamp.
  destruct (py_min_cases hi v) as [[H1 ->] | [H1 ->]];
    [destruct (py_max_cases lo v) as [[H2 ->] | [H2 ->]] |
     destruct (py_max_cases lo hi) as [[H2 ->] | [H2 ->]]];
    repeat split; intros; lra.
Qed.

Lemma clamp_total_order_witness :
  clamp 5 2 1 = 2.
Proof.
  apply (proj2 (proj2 (proj2 (proj2 (clamp_total_order 5 2 1))))). lra.
Defined.

(** [lerp] and [inverse_lerp] undo each other when the two ends are at least
    [EPSILON] apart. When they are closer, [inverse_lerp] is 0 and the round
    trip gives [a]. *)
Theorem lerp_inverse_lerp_round_trip (a b v t : R) :
  (EPSILON <= Rabs (b - a) ->
     lerp a b (inverse_lerp a b v) = v /\ inverse_lerp a b (lerp a b t) = t) /\
  (Rabs (b - a) < EPSILON -> inverse_lerp a b v = 0 /\ lerp a b (inverse_lerp a b v) = a).
Proof.
  pose proof EPSILON_pos as He.
  unfold inverse_lerp, lerp. split; intros H.
  - destruct (Rlt_dec _ _) as [Hlt | _]; [lra |].
    assert (Hne : b - a <> 0).
    { intros H0. rewrite H0, Rabs_R0 in H. lra. }
    split; field; exact Hne.
  - destruct (Rlt_dec _ _) as [_ | Hn]; [| contradiction]. split; lra.
Qed.

Lemma lerp_inverse_lerp_round_trip_witness :
  lerp 0 10 (inverse_lerp 0 10 7) = 7 /\ inverse_lerp 0 10 (lerp 0 10 0.25) = 0.25.
Proof.
  apply (proj1 (lerp_inverse_lerp_round_trip 0 10 7 0.25)).
  replace (10 - 0) with 10 by lra. rewrite Rabs_pos_eq by lra. unfold EPSILON. lra.
Defined.

(** [remap] sends the ends of the source range to the ends of the target
    range. A source range narrower than [EPSILON] sends every value to
    [to_min]. *)
Theorem remap_endpoints (from_min from_max to_min to_max : R) :
  (EPSILON <= Rabs (from_max - from_min) ->
     remap from_min from_min from_max to_min to_max = to_min /\
     remap from_max from_min from_max to_min to_max = to_max) /\
  (Rabs (from_max - from_min) < EPSILON ->
     forall v, remap v from_min from_max to_min to_max = to_min).
Proof.
  pose proof EPSILON_pos as He.
  unfold remap, inverse_lerp, lerp. split; intros H.
  - destruct (Rlt_dec _ _) as [Hlt | _]; [lra |].
    assert (Hne : from_max - from_min <> 0).
    { intros H0. rewrite H0, Rabs_R0 in H. lra. }
    split; field; exact Hne.
  - intros v. destruct (Rlt_dec _ _) as [_ | Hn]; [| contradiction]. lra.
Qed.

Lemma remap_endpoints_witness :
  remap 0 0 10 100 200 = 100 /\ remap 10 0 10 100 200 = 200.
Proof.
  apply (proj1 (remap_endpoints 0 10 100 200)).
  replace (10 - 0) with 10 by lra. rewrite Rabs_pos_eq by lra. unfold EPSILON. lra.
Defined.

(** [smoothstep] raises (a division by zero) when the two edges are equal.
    With [edge0 < edge1] it returns a value between 0 and 1, which is 0 at
    and below [edge0] and 1 at and above [edge1]. *)
Theorem smoothstep_spec (edge0 edge1 x : R) :
  (edge1 = edge0 -> smoothstep edge0 edge1 x = None) /\
  (edge0 < edge1 ->
     exists y, smoothstep edge0 edge1 x = Some y /\ 0 <= y <= 1 /\
               (x <= edge0 -> y = 0) /\ (edge1 <= x -> y = 1)).
Proof.
  unfold smoothstep. split.
  - intros ->. unfold py_div. replace (edge0 - edge0) with 0 by lra.
    destruct (Req_dec_T 0 0); [reflexivity | congruence].
  - intros Hlt. rewrite py_div_nonzero by lra. simpl.
    eexists; split; [reflexivity |].
    set (q := (x - edge0) / (edge1 - edge0)).
    assert (Hq0 : x <= edge0 -> q <= 0).
    { intros Hx. unfold q. apply Rmult_le_reg_r with (edge1 - edge0); [lra |].
      unfold Rdiv. rewrite Rmult_assoc, Rinv_l by lra. lra. }
    assert (Hq1 : edge1 <= x -> 1 <= q).
    { intros Hx. unfold q. apply Rmult_le_reg_r with (edge1 - edge0); [lra |].
      unfold Rdiv. rewrite Rmult_assoc, Rinv_l by lra. lra. }
    destruct (clamp01_cases q) as [[Hq ->] | [[Hq ->] | [Hq ->]]].
    + split; [lra |]. split; [lra |]. intros Hx. specialize (Hq1 Hx). lra.
    + split.
      { assert (H1 : 0 <= q * q * (3 - 2 * q)).
        { apply Rmult_le_pos; [apply Rle_0_sqr | lra]. }
        assert (H2 : 0 <= (1 - q) * (1 - q) * (1 + 2 * q)).
        { apply Rmult_le_pos; [apply Rle_0_sqr | lra]. }
        split; [exact H1 |].
        replace (q * q * (3 - 2 * q)) with (1 - (1 - q) * (1 - q) * (1 + 2 * q)) by ring.
        lra. }
      split; intros Hx.
      * specialize (Hq0 Hx). assert (Hz : q = 0) by lra. rewrite Hz. lra.
      * specialize (Hq1 Hx). assert (Hz : q = 1) by lra. rewrite Hz. lra.
    + split; [lra |]. split; [| lra]. intros Hx. specialize (Hq0 Hx). lra.
Qed.

Lemma smoothstep_spec_witness :
  exists y, smoothstep 0 1 2 = Some y /\ 0 <= y <= 1 /\
            (2 <= 0 -> y = 0) /\ (1 <= 2 -> y = 1).
Proof. apply (proj2 (smoothstep_spec 0 1 2)). lra. Defined.

Lemma sq_bound (u c : R) : - c <= u <= c -> u * u <= c * c.
Proof. intros H. nra. Qed.

Lemma ease_out_bounce_range (t : R) :
  0 <= t <= 1 -> 0 <= ease_out_bounce t <= 1.
Proof.
  intros Ht. unfold ease_out_bounce.
  destruct (Rlt_dec t (1 / 2.75)) as [H1 | H1].
  { pose proof (sq_bound t (4 / 11) ltac:(lra)) as Hb.
    pose proof (Rle_0_sqr t) as Hs. unfold Rsqr in Hs. lra. }
  destruct (Rlt_dec t (2 / 2.75)) as [H2 | H2].
  { pose proof (sq_bound (t - 1.5 / 2.75) (2 / 11) ltac:(lra)) as Hb.
    pose proof (Rle_0_sqr (t - 1.5 / 2.75)) as Hs. unfold Rsqr in Hs. lra. }
  destruct (Rlt_dec t (2.5 / 2.75)) as [H3 | H3].
  { pose proof (sq_bound (t - 2.25 / 2.75) (1 / 11) ltac:(lra)) as Hb.
    pose proof (Rle_0_sqr (t - 2.25 / 2.75)) as Hs. unfold Rsqr in Hs. lra. }
  pose proof (sq_bound (t - 2.625 / 2.75) (1 / 22) ltac:(lra)) as Hb.
  pose proof (Rle_0_sqr (t - 2.625 / 2.75)) as Hs. unfold Rsqr in Hs. lra.
Qed.

Lemma ease_out_bounce_0 : ease_out_bounce 0 = 0.
Proof. unfold ease_out_bounce. destruct (Rlt_dec 0 (1 / 2.75)); lra. Qed.

Lemma ease_out_bounce_1 : ease_out_bounce 1 = 1.
Proof.
  unfold ease_out_bounce.
  destruct (Rlt_dec 1 (1 / 2.75)); [lra |].
  destruct (Rlt_dec 1 (2 / 2.75)); [lra |].
  destruct (Rlt_dec 1 (2.5 / 2.75)); [lra |]. lra.
Qed.

(** Each quadratic, cubic and bounce easing fixes 0 and 1 and maps the unit
    interval into itself. *)
Theorem easings_keep_unit_interval :
  Forall (fun f : R -> R =>
            f 0 = 0 /\ f 1 = 1 /\ forall t, 0 <= t <= 1 -> 0 <= f t <= 1)
         easings.
Proof.
  unfold easings. repeat apply Forall_cons_2; try apply Forall_nil_2; cbv beta.
  - unfold ease_in_quad. split; [lra |]. split; [lra |]. intros t Ht. nra.
  - unfold ease_out_quad. split; [lra |]. split; [lra |]. intros t Ht. nra.
  - unfold ease_in_out_quad. split; [| split].
    + destruct (Rlt_dec 0 0.5); lra.
    + destruct (Rlt_dec 1 0.5); lra.
    + intros t Ht. destruct (Rlt_dec t 0.5); simpl; nra.
  - unfold ease_in_cubic. split; [lra |]. split; [lra |]. intros t Ht.
    assert (0 <= t * t <= 1) by nra. nra.
  - unfold ease_out_cubic. split; [lra |]. split; [lra |]. intros t Ht.
    assert (0 <= (1 - t) * (1 - t) <= 1) by nra. simpl. nra.
  - unfold ease_in_out_cubic. split; [| split].
    + destruct (Rlt_dec 0 0.5); lra.
    + destruct (Rlt_dec 1 0.5); lra.
    + intros t Ht. destruct (Rlt_dec t 0.5).
      * assert (0 <= t * t <= 0.25) by nra. nra.
      * assert (0 <= (- 2 * t + 2) * (- 2 * t + 2) <= 1) by nra. simpl. nra.
  - unfold ease_in_bounce. split; [| split].
    + replace (1 - 0) with 1 by lra. rewrite ease_out_bounce_1. lra.
    + replace (1 - 1) with 0 by lra. rewrite ease_out_bounce_0. lra.
    + intros t Ht. pose proof (ease_out_bounce_range (1 - t) ltac:(lra)). lra.
  - split; [| split].
    + apply ease_out_bounce_0.
    + apply ease_out_bounce_1.
    + apply ease_out_bounce_range.
  - unfold ease_in_out_bounce. split; [| split].
    + destruct (Rlt_dec 0 0.5); [| lra].
      replace (1 - 2 * 0) with 1 by lra. rewrite ease_out_bounce_1. lra.
    + destruct (Rlt_dec 1 0.5); [lra |].
      replace (2 * 1 - 1) with 1 by lra. rewrite ease_out_bounce_1. lra.
    + intros t Ht. destruct (Rlt_dec t 0.5).
      * pose proof (ease_out_bounce_range (1 - 2 * t) ltac:(lra)). lra.
      * pose proof (ease_out_bounce_range (2 * t - 1) ltac:(lra)). lra.
Qed.

Lemma easings_keep_unit_interval_witness :
  0 <= ease_out_bounce 0.5 <= 1.
Proof.
  assert (Hin : ease_out_bounce ∈ easings).
  { unfold easings.
    repeat first [apply list_elem_of_here | apply list_elem_of_further]. }
  apply (proj2 (proj2 (proj1 (Forall_forall _ _) easings_keep_unit_interval
                         ease_out_bounce Hin)) 0.5).
  lra.
Defined.

(** ** Vector3 *)

Lemma Vector3_copy_id (a : Vector3) : Vector3_copy a = a.
Proof. destruct a; reflexivity. Qed.

Lemma Vector3_magnitude_nonneg (a : Vector3) : 0 <= Vector3_magnitude a.
Proof. apply sqrt_pos. Qed.

Lemma Vector3_magnitude_square (a : Vector3) :
  Vector3_magnitude a * Vector3_magnitude a = Vector3_magnitude_squared a.
Proof. unfold Vector3_magnitude. apply sqrt_sqrt, sum_sq_nonneg. Qed.

(** The cross product is orthogonal to both arguments, changes sign when
    they are swapped, and satisfies Lagrange's identity
    |a x b|^2 + (a . b)^2 = |a|^2 |b|^2. *)
Theorem Vector3_cross_orthogonal (a b : Vector3) :
  Vector3_dot (Vector3_cross a b) a = 0 /\
  Vector3_dot (Vector3_cross a b) b = 0 /\
  Vector3_cross b a = Vector3_neg (Vector3_cross a b) /\
  Vector3_magnitude_squared (Vector3_cross a b) + Vector3_dot a b * Vector3_dot a b =
    Vector3_magnitude_squared a * Vector3_magnitude_squared b.
Proof.
  unfold Vector3_dot, Vector3_cross, Vector3_neg, Vector3_magnitude_squared; simpl.
  repeat split; try ring. apply Vector3_eq; simpl; ring.
Qed.

(** [project_onto] and [project_onto_plane] split a vector into two parts
    that add up to it. When the squared length of [n] is at least [EPSILON]
    the plane part is orthogonal to [n] and the other part is parallel to
    it; below [EPSILON] the projection is zero and the plane part is the
    vector itself. *)
Theorem Vector3_project_onto_decomposes (a n : Vector3) :
  Vector3_add (Vector3_project_onto a n) (Vector3_project_onto_plane a n) = a /\
  (EPSILON <= Vector3_magnitude_squared n ->
     Vector3_dot (Vector3_project_onto_plane a n) n = 0 /\
     Vector3_cross (Vector3_project_onto a n) n = Vector3_zero) /\
  (Vector3_magnitude_squared n < EPSILON ->
     Vector3_project_onto a n = Vector3_zero /\
     Vector3_project_onto_plane a n = a).
Proof.
  pose proof EPSILON_pos as He.
  unfold Vector3_project_onto_plane, Vector3_project_onto.
  destruct (Rlt_dec _ _) as [Hlt | Hge].
  - split; [apply Vector3_eq; simpl; lra |].
    split; [intros H; lra |]. intros _. split; [reflexivity |].
    apply Vector3_eq; simpl; lra.
  - split; [apply Vector3_eq; simpl; lra |].
    split; [| intros H; lra]. intros Hn.
    assert (Hne : Vector3_magnitude_squared n <> 0) by lra.
    split.
    + unfold Vector3_dot, Vector3_sub, Vector3_scale; simpl.
      unfold Vector3_magnitude_squared in *. field. exact Hne.
    + apply Vector3_eq; unfold Vector3_cross, Vector3_scale; simpl; ring.
Qed.

Lemma Vector3_project_onto_decomposes_witness :
  Vector3_dot (Vector3_project_onto_plane (mkVector3 1 2 3) (mkVector3 0 0 2))
              (mkVector3 0 0 2) = 0 /\
  Vector3_cross (Vector3_project_onto (mkVector3 1 2 3) (mkVector3 0 0 2))
                (mkVector3 0 0 2) = Vector3_zero.
Proof.
  apply (proj1 (proj2 (Vector3_project_onto_decomposes (mkVector3 1 2 3) (mkVector3 0 0 2)))).
  unfold Vector3_magnitude_squared, EPSILON; simpl. lra.
Defined.

(** About a normal of length one, [reflect] keeps the length, negates the
    component along the normal, and is its own inverse. *)
Theorem Vector3_reflect_unit_normal (a n : Vector3) :
  Vector3_magnitude_squared n = 1 ->
  Vector3_magnitude_squared (Vector3_reflect a n) = Vector3_magnitude_squared a /\
  Vector3_dot (Vector3_reflect a n) n = - Vector3_dot a n /\
  Vector3_reflect (Vector3_reflect a n) n = a.
Proof.
  unfold Vector3_magnitude_squared, Vector3_reflect, Vector3_dot, Vector3_sub,
    Vector3_scale; simpl.
  destruct a as [ax ay az], n as [nx ny nz]; simpl. intros Hn.
  set (d := ax * nx + ay * ny + az * nz).
  assert (Hd : (ax - nx * (2 * d)) * nx + (ay - ny * (2 * d)) * ny
               + (az - nz * (2 * d)) * nz = - d).
  { replace ((ax - nx * (2 * d)) * nx + (ay - ny * (2 * d)) * ny
             + (az - nz * (2 * d)) * nz)
      with (d - 2 * d * (nx * nx + ny * ny + nz * nz)) by (unfold d; ring).
    rewrite Hn. ring. }
  split; [| split].
  - replace ((ax - nx * (2 * d)) * (ax - nx * (2 * d))
             + (ay - ny * (2 * d)) * (ay - ny * (2 * d))
             + (az - nz * (2 * d)) * (az - nz * (2 * d)))
      with (ax * ax + ay * ay + az * az
            + 4 * d * d * (nx * nx + ny * ny + nz * nz) - 4 * d * d)
      by (unfold d; ring).
    rewrite Hn. ring.
  - exact Hd.
  - rewrite Hd. apply Vector3_eq; simpl; ring.
Qed.

Lemma Vector3_reflect_unit_normal_witness :
  Vector3_magnitude_squared (Vector3_reflect (mkVector3 1 2 3) Vector3_up) =
    Vector3_magnitude_squared (mkVector3 1 2 3) /\
  Vector3_dot (Vector3_reflect (mkVector3 1 2 3) Vector3_up) Vector3_up =
    - Vector3_dot (mkVector3 1 2 3) Vector3_up /\
  Vector3_reflect (Vector3_reflect (mkVector3 1 2 3) Vector3_up) Vector3_up =
    mkVector3 1 2 3.
Proof.
  apply (Vector3_reflect_unit_normal (mkVector3 1 2 3) Vector3_up).
  unfold Vector3_magnitude_squared; simpl. lra.
Defined.

Lemma Vector3_magnitude_scale (v : Vector3) (k : R) :
  Vector3_magnitude (Vector3_scale v k) = Rabs k * Vector3_magnitude v.
Proof.
  unfold Vector3_magnitude, Vector3_scale; simpl.
  replace (vx v * k * (vx v * k) + vy v * k * (vy v * k) + vz v * k * (vz v * k))
    with (Rsqr k * (vx v * vx v + vy v * vy v + vz v * vz v))
    by (unfold Rsqr; ring).
  rewrite sqrt_mult_alt by apply Rle_0_sqr.
  rewrite sqrt_Rsqr_abs. reflexivity.
Qed.

Lemma Vector3_magnitude_zero : Vector3_magnitude Vector3_zero = 0.
Proof.
  unfold Vector3_magnitude; simpl.
  replace (0 * 0 + 0 * 0 + 0 * 0) with 0 by lra. apply sqrt_0.
Qed.

Lemma Vector3_normalized_magnitude (v : Vector3) :
  (EPSILON <= Vector3_magnitude v /\ Vector3_magnitude (Vector3_normalized v) = 1) \/
  (Vector3_magnitude v < EPSILON /\ Vector3_normalized v = Vector3_zero).
Proof.
  pose proof EPSILON_pos as He.
  unfold Vector3_normalized; cbv zeta.
  destruct (Rlt_dec (Vector3_magnitude v) EPSILON) as [Hlt | Hge].
  - right. split; [lra | reflexivity].
  - left. split; [lra |].
    rewrite Vector3_magnitude_scaled by lra. field. lra.
Qed.

(** [move_towards] returns the target when it is within [max_distance] or
    closer than [EPSILON]. Otherwise, for a non-negative [max_distance], the
    result lies exactly [max_distance] from the start and that much nearer
    to the target. *)
Theorem Vector3_move_towards_spec (a target : Vector3) (d : R) :
  let dist := Vector3_distance_to target a in
  (dist <= d \/ dist < EPSILON -> Vector3_move_towards a target d = target) /\
  (0 <= d -> d < dist -> EPSILON <= dist ->
     Vector3_distance_to (Vector3_move_towards a target d) a = d /\
     Vector3_distance_to target (Vector3_move_towards a target d) = dist - d).
Proof.
  pose proof EPSILON_pos as He.
  unfold Vector3_distance_to, Vector3_move_towards; cbv zeta.
  set (diff := Vector3_sub target a).
  set (dist := Vector3_magnitude diff).
  split.
  - intros H. rewrite Vector3_copy_id.
    destruct (Rle_dec dist d); [reflexivity |].
    destruct (Rlt_dec dist EPSILON); [reflexivity | lra].
  - intros Hd Hlt Hge.
    destruct (Rle_dec dist d); [lra |].
    destruct (Rlt_dec dist EPSILON); [lra |].
    split.
    + replace (Vector3_sub
                 (Vector3_add a
                    (Vector3_scale
                       (mkVector3 (vx diff / dist) (vy diff / dist) (vz diff / dist)) d)) a)
        with (Vector3_scale diff (d / dist))
        by (apply Vector3_eq; simpl; field; lra).
      rewrite Vector3_magnitude_scale. fold dist.
      rewrite Rabs_pos_eq.
      * field. lra.
      * apply Rmult_le_pos; [lra |]. left. apply Rinv_0_lt_compat. lra.
    + replace (Vector3_sub target
                 (Vector3_add a
                    (Vector3_scale
                       (mkVector3 (vx diff / dist) (vy diff / dist) (vz diff / dist)) d)))
        with (Vector3_scale diff (1 - d / dist))
        by (apply Vector3_eq; unfold diff; simpl; field; lra).
      rewrite Vector3_magnitude_scale. fold dist.
      assert (Hq : 0 <= 1 - d / dist).
      { apply Rmult_le_reg_r with dist; [lra |].
        replace ((1 - d / dist) * dist) with (dist - d) by (field; lra). lra. }
      rewrite Rabs_pos_eq by exact Hq. field. lra.
Qed.

Lemma Vector3_move_towards_spec_witness :
  Vector3_distance_to (Vector3_move_towards Vector3_zero (mkVector3 3 4 0) 2) Vector3_zero = 2 /\
  Vector3_distance_to (mkVector3 3 4 0) (Vector3_move_towards Vector3_zero (mkVector3 3 4 0) 2) =
    Vector3_distance_to (mkVector3 3 4 0) Vector3_zero - 2.
Proof.
  assert (Hd : Vector3_distance_to (mkVector3 3 4 0) Vector3_zero = 5).
  { unfold Vector3_distance_to, Vector3_magnitude; simpl.
    replace ((3 - 0) * (3 - 0) + (4 - 0) * (4 - 0) + (0 - 0) * (0 - 0)) with 25 by lra.
    apply sqrt_25. }
  apply (proj2 (Vector3_move_towards_spec Vector3_zero (mkVector3 3 4 0) 2)).
  - lra.
  - rewrite Hd. lra.
  - rewrite Hd. unfold EPSILON. lra.
Defined.

(** The result of [clamp_magnitude] is never longer than [|max_magnitude|].
    A vector that is short enough is returned unchanged; a longer one, of
    length at least [EPSILON], comes back with length [|max_magnitude|]. *)
Theorem Vector3_clamp_magnitude_bound (a : Vector3) (m : R) :
  Vector3_magnitude (Vector3_clamp_magnitude a m) <= Rabs m /\
  (Vector3_magnitude a <= Rabs m -> Vector3_clamp_magnitude a m = a) /\
  (Rabs m < Vector3_magnitude a -> EPSILON <= Vector3_magnitude a ->
     Vector3_magnitude (Vector3_clamp_magnitude a m) = Rabs m).
Proof.
  pose proof EPSILON_pos as He.
  pose proof (Vector3_magnitude_nonneg a) as Hn.
  pose proof (Vector3_magnitude_square a) as Hs.
  pose proof (Rabs_pos m) as Hm.
  assert (Hmm : Rabs m * Rabs m = m * m).
  { unfold Rabs. destruct (Rcase_abs m); ring. }
  unfold Vector3_clamp_magnitude.
  destruct (Rlt_dec (m * m) (Vector3_magnitude_squared a)) as [Hgt | Hle].
  - assert (Hlt : Rabs m < Vector3_magnitude a) by nra.
    rewrite Vector3_magnitude_scale.
    destruct (Vector3_normalized_magnitude a) as [[Hge H1] | [Hlt' H0]].
    + rewrite H1. split; [lra |]. split; [intros; lra | intros; lra].
    + rewrite H0, Vector3_magnitude_zero. split; [lra |].
      split; [intros; lra | intros; lra].
  - rewrite Vector3_copy_id.
    assert (Hle' : Vector3_magnitude a <= Rabs m) by nra.
    split; [exact Hle' |]. split; [reflexivity | intros; lra].
Qed.

Lemma Vector3_clamp_magnitude_bound_witness :
  Vector3_magnitude (Vector3_clamp_magnitude (mkVector3 3 4 0) 2) = Rabs 2.
Proof.
  assert (Hd : Vector3_magnitude (mkVector3 3 4 0) = 5).
  { unfold Vector3_magnitude; simpl.
    replace (3 * 3 + 4 * 4 + 0 * 0) with 25 by lra. apply sqrt_25. }
  apply (proj2 (proj2 (Vector3_clamp_magnitude_bound (mkVector3 3 4 0) 2))).
  - rewrite Hd, Rabs_pos_eq; lra.
  - rewrite Hd. unfold EPSILON. lra.
Defined.

(** Reading and writing a component by index succeed exactly for the
    indices 0, 1 and 2 (a negative index raises too). After [v[i] = x],
    [v[i]] is [x] and the other components are as before. *)
Theorem Vector3_index_round_trip (a : Vector3) (i : Z) (x : R) :
  ((0 <= i <= 2)%Z <-> exists y, Vector3_getitem a i = Some y) /\
  ((0 <= i <= 2)%Z <-> exists b, Vector3_setitem a i x = Some b) /\
  (forall b, Vector3_setitem a i x = Some b ->
     Vector3_getitem b i = Some x /\
     forall j, j <> i -> Vector3_getitem b j = Vector3_getitem a j).
Proof.
  unfold Vector3_getitem, Vector3_setitem.
  destruct (Z.eqb_spec i 0) as [-> | H0].
  { split; [split; [eauto | lia] |]. split; [split; [eauto | lia] |].
    intros b [= <-]. split; [reflexivity |]. intros j Hj.
    destruct (Z.eqb_spec j 0); [contradiction | reflexivity]. }
  destruct (Z.eqb_spec i 1) as [-> | H1].
  { split; [split; [eauto | lia] |]. split; [split; [eauto | lia] |].
    intros b [= <-]. split; [reflexivity |]. intros j Hj.
    destruct (Z.eqb_spec j 0); [reflexivity |].
    destruct (Z.eqb_spec j 1); [contradiction | reflexivity]. }
  destruct (Z.eqb_spec i 2) as [-> | H2].
  { split; [split; [eauto | lia] |]. split; [split; [eauto | lia] |].
    intros b [= <-]. split; [reflexivity |]. intros j Hj.
    destruct (Z.eqb_spec j 0); [reflexivity |].
    destruct (Z.eqb_spec j 1); [reflexivity |].
    destruct (Z.eqb_spec j 2); [contradiction | reflexivity]. }
  split; [split; [lia | intros [y Hy]; discriminate] |].
  split; [split; [lia | intros [y Hy]; discriminate] |].
  intros b Hb; discriminate.
Qed.

Lemma Vector3_index_round_trip_witness :
  Vector3_getitem (mkVector3 1 2 9) 2 = Some 9 /\
  forall j, j <> 2%Z ->
    Vector3_getitem (mkVector3 1 2 9) j = Vector3_getitem (mkVector3 1 2 3) j.
Proof.
  apply (proj2 (proj2 (Vector3_index_round_trip (mkVector3 1 2 3) 2 9))
           (mkVector3 1 2 9)).
  reflexivity.
Defined.

Lemma Rleb_true (a b : R) : a <= b -> Rleb a b = true.
Proof. intros H. unfold Rleb. destruct (Rle_dec a b); [reflexivity | contradiction]. Qed.

Lemma Rleb_false (a b : R) : ~ a <= b -> Rleb a b = false.
Proof. intros H. unfold Rleb. destruct (Rle_dec a b); [contradiction | reflexivity]. Qed.

(** [min_component_index] and [max_component_index] name a component that
    holds [min_component], respectively [max_component]; these bound all
    three components; among equal candidates the first index is returned. *)
Theorem Vector3_component_index_spec (a : Vector3) :
  Vector3_getitem a (Vector3_min_component_index a) = Some (Vector3_min_component a) /\
  Vector3_getitem a (Vector3_max_component_index a) = Some (Vector3_max_component a) /\
  Vector3_min_component a <= vx a /\ Vector3_min_component a <= vy a /\
  Vector3_min_component a <= vz a /\
  vx a <= Vector3_max_component a /\ vy a <= Vector3_max_component a /\
  vz a <= Vector3_max_component a /\
  (forall j y, (0 <= j < Vector3_min_component_index a)%Z ->
     Vector3_getitem a j = Some y -> Vector3_min_component a < y) /\
  (forall j y, (0 <= j < Vector3_max_component_index a)%Z ->
     Vector3_getitem a j = Some y -> y < Vector3_max_component a).
Proof.
  destruct a as [x y z].
  unfold Vector3_min_component_index, Vector3_max_component_index,
    Vector3_min_component, Vector3_max_component, py_min3, py_max3; simpl.
  assert (Hmin : (py_min (py_min x y) z = x /\ x <= y /\ x <= z) \/
                 (py_min (py_min x y) z = y /\ y < x /\ y <= z) \/
                 (py_min (py_min x y) z = z /\ z < x /\ z < y)).
  { unfold py_min. destruct (Rlt_dec y x); destruct (Rlt_dec z _); lra. }
  assert (Hmax : (py_max (py_max x y) z = x /\ y <= x /\ z <= x) \/
                 (py_max (py_max x y) z = y /\ x < y /\ z <= y) \/
                 (py_max (py_max x y) z = z /\ x < z /\ y < z)).
  { unfold py_max. destruct (Rlt_dec x y); destruct (Rlt_dec _ z); lra. }
  assert (Hget : forall (j : Z) (v : R), (0 <= j)%Z ->
            Vector3_getitem (mkVector3 x y z) j = Some v ->
            (j = 0%Z /\ v = x) \/ (j = 1%Z /\ v = y) \/ (j = 2%Z /\ v = z)).
  { intros j v Hj. unfold Vector3_getitem; simpl.
    destruct (Z.eqb_spec j 0); [intros [= <-]; auto |].
    destruct (Z.eqb_spec j 1); [intros [= <-]; auto |].
    destruct (Z.eqb_spec j 2); [intros [= <-]; auto | discriminate]. }
  split; [| split; [| split; [| split; [| split; [| split; [| split; [| split; [| split]]]]]]]].
  - destruct Hmin as [(-> & H1 & H2) | [(-> & H1 & H2) | (-> & H1 & H2)]].
    + rewrite !Rleb_true by lra. reflexivity.
    + rewrite (Rleb_false x y) by lra. simpl. rewrite Rleb_true by lra. reflexivity.
    + rewrite (Rleb_false y z) by lra.
      replace (Rleb x y && Rleb x z) with false; [reflexivity |].
      rewrite (Rleb_false x z) by lra. symmetry. apply andb_false_r.
  - destruct Hmax as [(-> & H1 & H2) | [(-> & H1 & H2) | (-> & H1 & H2)]].
    + rewrite !Rleb_true by lra. reflexivity.
    + rewrite (Rleb_false y x) by lra. simpl. rewrite Rleb_true by lra. reflexivity.
    + rewrite (Rleb_false z y) by lra.
      replace (Rleb y x && Rleb z x) with false; [reflexivity |].
      rewrite (Rleb_false z x) by lra. symmetry. apply andb_false_r.
  - destruct Hmin as [(-> & ?) | [(-> & ?) | (-> & ?)]]; lra.
  - destruct Hmin as [(-> & ?) | [(-> & ?) | (-> & ?)]]; lra.
  - destruct Hmin as [(-> & ?) | [(-> & ?) | (-> & ?)]]; lra.
  - destruct Hmax as [(-> & ?) | [(-> & ?) | (-> & ?)]]; lra.
  - destruct Hmax as [(-> & ?) | [(-> & ?) | (-> & ?)]]; lra.
  - destruct Hmax as [(-> & ?) | [(-> & ?) | (-> & ?)]]; lra.
  - intros j v Hj Hv.
    destruct (Hget j v ltac:(lia) Hv) as [[-> ->] | [[-> ->] | [-> ->]]];
      destruct Hmin as [(-> & H1 & H2) | [(-> & H1 & H2) | (-> & H1 & H2)]];
      revert Hj;
      repeat first [ rewrite (Rleb_true x y) by lra | rewrite (Rleb_false x y) by lra
                   | rewrite (Rleb_true x z) by lra | rewrite (Rleb_false x z) by lra
                   | rewrite (Rleb_true y z) by lra | rewrite (Rleb_false y z) by lra ];
      simpl; try rewrite andb_false_r; intros Hj; try lia; try lra.
  - intros j v Hj Hv.
    destruct (Hget j v ltac:(lia) Hv) as [[-> ->] | [[-> ->] | [-> ->]]];
      destruct Hmax as [(-> & H1 & H2) | [(-> & H1 & H2) | (-> & H1 & H2)]];
      revert Hj;
      repeat first [ rewrite (Rleb_true y x) by lra | rewrite (Rleb_false y x) by lra
                   | rewrite (Rleb_true z x) by lra | rewrite (Rleb_false z x) by lra
                   | rewrite (Rleb_true z y) by lra | rewrite (Rleb_false z y) by lra ];
      simpl; try rewrite andb_false_r; intros Hj; try lia; try lra.
Qed.

Lemma Vector3_component_index_spec_witness :
  Vector3_min_component (mkVector3 3 1 2) < 3.
Proof.
  assert (Hi : Vector3_min_component_index (mkVector3 3 1 2) = 1%Z).
  { unfold Vector3_min_component_index; simpl.
    rewrite (Rleb_false 3 1) by lra. simpl.
    rewrite (Rleb_true 1 2) by lra. reflexivity. }
  destruct (Vector3_component_index_spec (mkVector3 3 1 2))
    as (_ & _ & _ & _ & _ & _ & _ & _ & H & _).
  apply (H 0%Z 3); [rewrite Hi; lia | reflexivity].
Defined.

(** [==] on vectors (every component within [EPSILON]) is reflexive and
    symmetric, but not transitive. *)
Theorem Vector3_eq_not_transitive :
  (forall a, Vector3_eqb a a = true) /\
  (forall a b, Vector3_eqb a b = Vector3_eqb b a) /\
  (exists a b c, Vector3_eqb a b = true /\ Vector3_eqb b c = true /\
                 Vector3_eqb a c = false).
Proof.
  pose proof EPSILON_pos as He.
  split; [| split].
  - intros a. unfold Vector3_eqb.
    replace (vx a - vx a) with 0 by lra. replace (vy a - vy a) with 0 by lra.
    replace (vz a - vz a) with 0 by lra. rewrite Rabs_R0.
    rewrite Rltb_true by lra. reflexivity.
  - intros a b. unfold Vector3_eqb.
    rewrite (Rabs_minus_sym (vx a)), (Rabs_minus_sym (vy a)), (Rabs_minus_sym (vz a)).
    reflexivity.
  - exists (mkVector3 0 0 0), (mkVector3 (0.6 * EPSILON) 0 0),
      (mkVector3 (1.2 * EPSILON) 0 0).
    unfold Vector3_eqb; simpl.
    replace (0 - 0) with 0 by lra. rewrite Rabs_R0.
    rewrite (Rltb_true 0 EPSILON) by lra.
    replace (0 - 0.6 * EPSILON) with (- (0.6 * EPSILON)) by lra.
    replace (0.6 * EPSILON - 1.2 * EPSILON) with (- (0.6 * EPSILON)) by lra.
    replace (0 - 1.2 * EPSILON) with (- (1.2 * EPSILON)) by lra.
    rewrite !Rabs_Ropp, !Rabs_pos_eq by lra.
    rewrite Rltb_true by lra. rewrite Rltb_false by lra. auto.
Qed.

(** ** Matrix4 *)

Ltac matrix_cells :=
  apply Matrix4_eq;
  cbn [m00 m01 m02 m03 m10 m11 m12 m13 m20 m21 m22 m23 m30 m31 m32 m33
       Matrix4_mul Matrix4_identity Matrix4_transposed];
  unfold mul_cell.

(** Matrix multiplication is associative and the identity matrix is its
    unit. *)
Theorem Matrix4_mul_monoid (A B C : Matrix4) :
  Matrix4_mul Matrix4_identity A = A /\
  Matrix4_mul A Matrix4_identity = A /\
  Matrix4_mul (Matrix4_mul A B) C = Matrix4_mul A (Matrix4_mul B C).
Proof.
  split; [| split]; matrix_cells; ring.
Qed.

(** The determinant of a product is the product of the determinants; it is
    1 on the identity and unchanged by transposition. *)
Theorem Matrix4_determinant_mul (A B : Matrix4) :
  Matrix4_determinant (Matrix4_mul A B) =
    Matrix4_determinant A * Matrix4_determinant B /\
  Matrix4_determinant Matrix4_identity = 1 /\
  Matrix4_determinant (Matrix4_transposed A) = Matrix4_determinant A.
Proof.
  destruct A, B.
  unfold Matrix4_determinant, Matrix4_mul, Matrix4_transposed, mul_cell; simpl.
  split; [| split]; ring.
Qed.

(** Transposing twice gives the matrix back, and the transpose of a product
    is the product of the transposes in reverse order. *)
Theorem Matrix4_transposed_involutive (A B : Matrix4) :
  Matrix4_transposed (Matrix4_transposed A) = A /\
  Matrix4_transposed (Matrix4_mul A B) =
    Matrix4_mul (Matrix4_transposed B) (Matrix4_transposed A) /\
  Matrix4_transposed Matrix4_identity = Matrix4_identity.
Proof.
  split; [| split]; matrix_cells; ring.
Qed.

Lemma Matrix4_transform_point_affine (M : Matrix4) (v : Vector3) :
  Matrix4_is_affine M ->
  Matrix4_transform_point M v =
    Vector3_add (Matrix4_transform_direction M v) (Matrix4_get_translation M).
Proof.
  intros (H0 & H1 & H2 & H3).
  unfold Matrix4_transform_point. rewrite H0, H1, H2, H3.
  replace (0 * vx v + 0 * vy v + 0 * vz v + 1) with 1 by ring.
  destruct (Rlt_dec (Rabs 1) EPSILON) as [Hlt | _].
  - exfalso. rewrite Rabs_R1 in Hlt. unfold EPSILON in Hlt. lra.
  - apply Vector3_eq; simpl; field.
Qed.

Lemma Matrix4_mul_affine (A B : Matrix4) :
  Matrix4_is_affine A -> Matrix4_is_affine B -> Matrix4_is_affine (Matrix4_mul A B).
Proof.
  intros (A0 & A1 & A2 & A3) (B0 & B1 & B2 & B3).
  unfold Matrix4_is_affine, Matrix4_mul, mul_cell; simpl.
  rewrite A0, A1, A2, A3, B0, B1, B2, B3. repeat split; ring.
Qed.

Lemma Matrix4_trs_affine (t : Vector3) (r : Quaternion) (s : Vector3) :
  Matrix4_is_affine (Matrix4_trs t r s).
Proof. unfold Matrix4_is_affine, Matrix4_trs; simpl. auto. Qed.

(** The product of two affine matrices (last row 0 0 0 1) is affine, and
    [transform_point] by the product is [transform_point] by the right
    factor followed by the left one. *)
Theorem Matrix4_transform_point_compose (A B : Matrix4) (v : Vector3) :
  Matrix4_is_affine A -> Matrix4_is_affine B ->
  Matrix4_is_affine (Matrix4_mul A B) /\
  Matrix4_transform_point (Matrix4_mul A B) v =
    Matrix4_transform_point A (Matrix4_transform_point B v).
Proof.
  intros HA HB. split; [apply Matrix4_mul_affine; assumption |].
  rewrite !Matrix4_transform_point_affine
    by (try apply Matrix4_mul_affine; assumption).
  destruct HA as (A0 & A1 & A2 & A3), HB as (B0 & B1 & B2 & B3).
  apply Vector3_eq; unfold Matrix4_mul, mul_cell; simpl;
    rewrite ?A0, ?A1, ?A2, ?A3, ?B0, ?B1, ?B2, ?B3; ring.
Qed.

Lemma Matrix4_transform_point_compose_witness :
  Matrix4_is_affine (Matrix4_mul (Matrix4_translation 1 2 3) (Matrix4_scale 2 2 2)) /\
  Matrix4_transform_point
    (Matrix4_mul (Matrix4_translation 1 2 3) (Matrix4_scale 2 2 2)) (mkVector3 1 1 1) =
  Matrix4_transform_point (Matrix4_translation 1 2 3)
    (Matrix4_transform_point (Matrix4_scale 2 2 2) (mkVector3 1 1 1)).
Proof.
  apply (Matrix4_transform_point_compose (Matrix4_translation 1 2 3)
           (Matrix4_scale 2 2 2) (mkVector3 1 1 1)).
  - unfold Matrix4_is_affine; simpl; auto.
  - unfold Matrix4_is_affine; simpl; auto.
Defined.

(** [translation] adds its offset to a point and leaves directions alone;
    [scale] multiplies componentwise. Translations compose by adding their
    offsets, scales by multiplying their factors. *)
Theorem Matrix4_translation_scale_action (x y z : R) (v : Vector3) :
  Matrix4_transform_point (Matrix4_translation x y z) v =
    Vector3_add v (mkVector3 x y z) /\
  Matrix4_transform_point (Matrix4_scale x y z) v =
    Vector3_mul (mkVector3 x y z) v /\
  Matrix4_transform_direction (Matrix4_translation x y z) v = v /\
  (forall x' y' z',
     Matrix4_mul (Matrix4_translation x y z) (Matrix4_translation x' y' z') =
       Matrix4_translation (x + x') (y + y') (z + z')) /\
  (forall x' y' z',
     Matrix4_mul (Matrix4_scale x y z) (Matrix4_scale x' y' z') =
       Matrix4_scale (x * x') (y * y') (z * z')).
Proof.
  split; [| split; [| split; [| split]]].
  - rewrite Matrix4_transform_point_affine by (unfold Matrix4_is_affine; simpl; auto).
    apply Vector3_eq; simpl; ring.
  - rewrite Matrix4_transform_point_affine by (unfold Matrix4_is_affine; simpl; auto).
    apply Vector3_eq; simpl; ring.
  - apply Vector3_eq; simpl; ring.
  - intros. apply Matrix4_eq; unfold Matrix4_mul, mul_cell; simpl; ring.
  - intros. apply Matrix4_eq; unfold Matrix4_mul, mul_cell; simpl; ring.
Qed.

Lemma Vector3_normalized_cases (v : Vector3) :
  Vector3_normalized v = Vector3_zero \/
  (0 < Vector3_magnitude v /\
   Vector3_normalized v = Vector3_scale v (/ Vector3_magnitude v)).
Proof.
  pose proof EPSILON_pos as He.
  unfold Vector3_normalized; cbv zeta.
  destruct (Rlt_dec (Vector3_magnitude v) EPSILON); [left; reflexivity |].
  right. split; [lra | reflexivity].
Qed.

(** [look_at] returns an affine matrix that maps the eye to the origin and,
    when the target is at least [EPSILON] away, the target to the point at
    that distance down the negative z axis, whatever [up] is. *)
Theorem Matrix4_look_at_spec (eye target up : Vector3) :
  Matrix4_is_affine (Matrix4_look_at eye target up) /\
  Matrix4_transform_point (Matrix4_look_at eye target up) eye = Vector3_zero /\
  (EPSILON <= Vector3_distance_to target eye ->
     Matrix4_transform_point (Matrix4_look_at eye target up) target =
       mkVector3 0 0 (- Vector3_distance_to target eye)).
Proof.
  pose proof EPSILON_pos as He.
  assert (Haff : Matrix4_is_affine (Matrix4_look_at eye target up)).
  { unfold Matrix4_is_affine, Matrix4_look_at; simpl; auto. }
  split; [exact Haff |]. split.
  - rewrite Matrix4_transform_point_affine by exact Haff.
    apply Vector3_eq; unfold Matrix4_look_at, Vector3_dot; simpl; ring.
  - intros Hd. rewrite Matrix4_transform_point_affine by exact Haff.
    unfold Vector3_distance_to in *.
    set (d := Vector3_sub target eye) in *.
    set (m := Vector3_magnitude d) in *.
    assert (Hm : m * m = vx d * vx d + vy d * vy d + vz d * vz d)
      by apply Vector3_magnitude_sq.
    assert (Hf : Vector3_normalized d = Vector3_scale d (/ m)).
    { unfold Vector3_normalized; cbv zeta. fold m.
      destruct (Rlt_dec m EPSILON); [lra | reflexivity]. }
    assert (Hdx : vx target = vx d + vx eye) by (unfold d; simpl; ring).
    assert (Hdy : vy target = vy d + vy eye) by (unfold d; simpl; ring).
    assert (Hdz : vz target = vz d + vz eye) by (unfold d; simpl; ring).
    unfold Matrix4_look_at. fold d. rewrite Hf.
    clearbody m. clearbody d.
    set (f := Vector3_scale d (/ m)).
    assert (Hfd : vx f * vx d + vy f * vy d + vz f * vz d = m).
    { unfold f; cbn [vx vy vz Vector3_scale].
      replace (vx d * / m * vx d + vy d * / m * vy d + vz d * / m * vz d)
        with ((vx d * vx d + vy d * vy d + vz d * vz d) * / m) by ring.
      rewrite <- Hm. field. lra. }
    assert (Hcd : forall u, Vector3_dot (Vector3_cross f u) d = 0).
    { intros u. unfold Vector3_dot, Vector3_cross, f; cbn [vx vy vz Vector3_scale].
      field. lra. }
    assert (Hrd : Vector3_dot (Vector3_normalized (Vector3_cross f up)) d = 0).
    { destruct (Vector3_normalized_cases (Vector3_cross f up)) as [-> | [_ ->]].
      - unfold Vector3_dot; simpl; ring.
      - specialize (Hcd up). unfold Vector3_dot in *.
        cbn [vx vy vz Vector3_scale].
        replace (_ + _ + _)
          with ((vx (Vector3_cross f up) * vx d + vy (Vector3_cross f up) * vy d
                 + vz (Vector3_cross f up) * vz d)
                * / Vector3_magnitude (Vector3_cross f up)) by ring.
        rewrite Hcd. ring. }
    set (r := Vector3_normalized (Vector3_cross f up)) in *.
    clearbody r.
    assert (Hud : Vector3_dot (Vector3_cross r f) d = 0).
    { unfold Vector3_dot, Vector3_cross, f; cbn [vx vy vz Vector3_scale].
      field. lra. }
    unfold Vector3_dot in Hrd, Hud.
    apply Vector3_eq; unfold Vector3_dot;
      cbn [vx vy vz Vector3_add Matrix4_transform_direction Matrix4_get_translation
           m00 m01 m02 m03 m10 m11 m12 m13 m20 m21 m22 m23];
      rewrite Hdx, Hdy, Hdz.
    + replace (_ + _) with (vx r * vx d + vy r * vy d + vz r * vz d) by ring.
      exact Hrd.
    + replace (_ + _)
        with (vx (Vector3_cross r f) * vx d + vy (Vector3_cross r f) * vy d
              + vz (Vector3_cross r f) * vz d) by ring.
      exact Hud.
    + replace (_ + _) with (- (vx f * vx d + vy f * vy d + vz f * vz d)) by ring.
      rewrite Hfd. reflexivity.
Qed.

Lemma Matrix4_look_at_spec_witness :
  Matrix4_transform_point
    (Matrix4_look_at (mkVector3 0 0 5) Vector3_zero Vector3_up) Vector3_zero =
  mkVector3 0 0 (- Vector3_distance_to Vector3_zero (mkVector3 0 0 5)).
Proof.
  apply (proj2 (proj2 (Matrix4_look_at_spec (mkVector3 0 0 5) Vector3_zero Vector3_up))).
  unfold Vector3_distance_to, Vector3_magnitude; simpl.
  replace ((0 - 0) * (0 - 0) + (0 - 0) * (0 - 0) + (0 - 5) * (0 - 5)) with 25 by lra.
  rewrite sqrt_25. unfold EPSILON. lra.
Defined.

(** ** Quaternion *)

(** Quaternion multiplication is associative and the identity quaternion is
    its unit; squared magnitudes multiply, and conjugation reverses a
    product. *)
Theorem Quaternion_mul_monoid (a b c : Quaternion) :
  Quaternion_mul Quaternion_identity a = a /\
  Quaternion_mul a Quaternion_identity = a /\
  Quaternion_mul (Quaternion_mul a b) c = Quaternion_mul a (Quaternion_mul b c) /\
  Quaternion_magnitude_squared (Quaternion_mul a b) =
    Quaternion_magnitude_squared a * Quaternion_magnitude_squared b /\
  Quaternion_conjugate (Quaternion_mul a b) =
    Quaternion_mul (Quaternion_conjugate b) (Quaternion_conjugate a).
Proof.
  unfold Quaternion_magnitude_squared.
  repeat split; try (apply Quaternion_eq; simpl; ring). simpl. ring.
Qed.

Lemma Quaternion_inverse_of_unit (q : Quaternion) :
  Quaternion_magnitude_squared q = 1 -> Quaternion_inverse q = Quaternion_conjugate q.
Proof.
  intros H1. unfold Quaternion_inverse; cbv zeta. rewrite H1.
  destruct (Rlt_dec 1 EPSILON) as [Hlt | _].
  - unfold EPSILON in Hlt. lra.
  - apply Quaternion_eq; simpl; field.
Qed.

(** [inverse] is a two-sided inverse for multiplication when the squared
    magnitude is at least [EPSILON]; below that it is the identity
    quaternion. For a quaternion of magnitude one it is the conjugate. *)
Theorem Quaternion_inverse_spec (q : Quaternion) :
  (EPSILON <= Quaternion_magnitude_squared q ->
     Quaternion_mul q (Quaternion_inverse q) = Quaternion_identity /\
     Quaternion_mul (Quaternion_inverse q) q = Quaternion_identity) /\
  (Quaternion_magnitude_squared q < EPSILON ->
     Quaternion_inverse q = Quaternion_identity) /\
  (Quaternion_magnitude_squared q = 1 ->
     Quaternion_inverse q = Quaternion_conjugate q).
Proof.
  pose proof EPSILON_pos as He.
  unfold Quaternion_inverse; cbv zeta.
  destruct (Rlt_dec (Quaternion_magnitude_squared q) EPSILON) as [Hlt | Hge].
  - split; [intros; lra |]. split; [reflexivity |].
    intros H1. unfold EPSILON in Hlt. lra.
  - assert (Hne : Quaternion_magnitude_squared q <> 0) by lra.
    split; [| split; [intros; lra |]].
    + intros _. unfold Quaternion_magnitude_squared in *.
      split; apply Quaternion_eq; simpl; field; exact Hne.
    + intros H1. rewrite H1. apply Quaternion_eq; simpl; field.
Qed.

Lemma Quaternion_inverse_spec_witness :
  Quaternion_mul (mkQuaternion 0 2 0 0) (Quaternion_inverse (mkQuaternion 0 2 0 0)) =
    Quaternion_identity /\
  Quaternion_mul (Quaternion_inverse (mkQuaternion 0 2 0 0)) (mkQuaternion 0 2 0 0) =
    Quaternion_identity.
Proof.
  apply (proj1 (Quaternion_inverse_spec (mkQuaternion 0 2 0 0))).
  unfold Quaternion_magnitude_squared, EPSILON; simpl. lra.
Defined.

(** [rotate_vector] agrees with [transform_direction] and with
    [transform_point] by [Matrix4.from_quaternion], for every quaternion, of
    magnitude one or not; the identity quaternion moves nothing. *)
Theorem Quaternion_rotate_vector_is_matrix (q : Quaternion) (v : Vector3) :
  Quaternion_rotate_vector q v =
    Matrix4_transform_direction (Matrix4_from_quaternion q) v /\
  Quaternion_rotate_vector q v =
    Matrix4_transform_point (Matrix4_from_quaternion q) v /\
  Quaternion_rotate_vector Quaternion_identity v = v.
Proof.
  assert (H : Quaternion_rotate_vector q v =
              Matrix4_transform_direction (Matrix4_from_quaternion q) v).
  { apply Vector3_eq; simpl; ring. }
  split; [exact H |]. split.
  - rewrite Matrix4_transform_point_affine
      by (unfold Matrix4_is_affine; simpl; auto).
    rewrite H. apply Vector3_eq; simpl; ring.
  - apply Vector3_eq; simpl; ring.
Qed.

Lemma Matrix4_from_quaternion_mul (a b : Quaternion) :
  Quaternion_magnitude_squared a = 1 ->
  Quaternion_magnitude_squared b = 1 ->
  Matrix4_from_quaternion (Quaternion_mul a b) =
    Matrix4_mul (Matrix4_from_quaternion a) (Matrix4_from_quaternion b).
Proof.
  destruct a as [x y z w], b as [x' y' z' w'].
  unfold Quaternion_magnitude_squared; simpl. intros H H'.
  apply Matrix4_eq;
    unfold Matrix4_from_quaternion, Matrix4_mul, Quaternion_mul, mul_cell;
    simpl; nsatz.
Qed.

Lemma Quaternion_mul_unit (a b : Quaternion) :
  Quaternion_magnitude_squared a = 1 ->
  Quaternion_magnitude_squared b = 1 ->
  Quaternion_magnitude_squared (Quaternion_mul a b) = 1.
Proof.
  intros Ha Hb.
  replace (Quaternion_magnitude_squared (Quaternion_mul a b))
    with (Quaternion_magnitude_squared a * Quaternion_magnitude_squared b)
    by (unfold Quaternion_magnitude_squared; simpl; ring).
  rewrite Ha, Hb. ring.
Qed.

(** For quaternions of magnitude one, [from_quaternion] returns a rotation
    matrix (its transpose is its inverse and its determinant is 1) and turns
    quaternion products into matrix products. *)
Theorem Matrix4_from_quaternion_rotation (a b : Quaternion) :
  Quaternion_magnitude_squared a = 1 ->
  Quaternion_magnitude_squared b = 1 ->
  Matrix4_mul (Matrix4_from_quaternion a)
              (Matrix4_transposed (Matrix4_from_quaternion a)) = Matrix4_identity /\
  Matrix4_determinant (Matrix4_from_quaternion a) = 1 /\
  Matrix4_from_quaternion (Quaternion_mul a b) =
    Matrix4_mul (Matrix4_from_quaternion a) (Matrix4_from_quaternion b).
Proof.
  destruct a as [x y z w], b as [x' y' z' w'].
  unfold Quaternion_magnitude_squared; simpl. intros H H'.
  split; [| split].
  - apply Matrix4_eq;
      unfold Matrix4_from_quaternion, Matrix4_mul, Matrix4_transposed, mul_cell;
      simpl; nsatz.
  - unfold Matrix4_determinant, Matrix4_from_quaternion; simpl. nsatz.
  - apply Matrix4_from_quaternion_mul; unfold Quaternion_magnitude_squared; simpl;
      assumption.
Qed.

Lemma Matrix4_from_quaternion_rotation_witness :
  Matrix4_mul (Matrix4_from_quaternion q_third_turn)
              (Matrix4_transposed (Matrix4_from_quaternion q_third_turn)) =
    Matrix4_identity /\
  Matrix4_determinant (Matrix4_from_quaternion q_third_turn) = 1 /\
  Matrix4_from_quaternion (Quaternion_mul q_third_turn (mkQuaternion 0 1 0 0)) =
    Matrix4_mul (Matrix4_from_quaternion q_third_turn)
                (Matrix4_from_quaternion (mkQuaternion 0 1 0 0)).
Proof.
  apply (Matrix4_from_quaternion_rotation q_third_turn (mkQuaternion 0 1 0 0)).
  - unfold Quaternion_magnitude_squared, q_third_turn; simpl. lra.
  - unfold Quaternion_magnitude_squared; simpl. lra.
Defined.

(** Rotation by a quaternion of magnitude one keeps dot products and
    lengths; rotating by a product is rotating by the right factor first;
    rotating by the inverse undoes the rotation. *)
Theorem Quaternion_rotate_vector_isometry (a b : Quaternion) (v u : Vector3) :
  Quaternion_magnitude_squared a = 1 ->
  Quaternion_magnitude_squared b = 1 ->
  Vector3_dot (Quaternion_rotate_vector a v) (Quaternion_rotate_vector a u) =
    Vector3_dot v u /\
  Vector3_magnitude (Quaternion_rotate_vector a v) = Vector3_magnitude v /\
  Quaternion_rotate_vector (Quaternion_mul a b) v =
    Quaternion_rotate_vector a (Quaternion_rotate_vector b v) /\
  Quaternion_rotate_vector (Quaternion_inverse a) (Quaternion_rotate_vector a v) = v.
Proof.
  intros Ha Hb.
  assert (Hdot : forall p r,
            Vector3_dot (Quaternion_rotate_vector a p) (Quaternion_rotate_vector a r) =
            Vector3_dot p r).
  { intros p r. destruct a as [x y z w], p as [p1 p2 p3], r as [r1 r2 r3].
    unfold Quaternion_magnitude_squared in Ha; simpl in Ha.
    unfold Vector3_dot; simpl. nsatz. }
  assert (Hmul : forall c p, Quaternion_magnitude_squared c = 1 ->
            Quaternion_rotate_vector (Quaternion_mul a c) p =
            Quaternion_rotate_vector a (Quaternion_rotate_vector c p)).
  { intros c p Hc. destruct a as [x y z w], c as [x' y' z' w'], p as [p1 p2 p3].
    unfold Quaternion_magnitude_squared in Ha, Hc; simpl in Ha, Hc.
    apply Vector3_eq; simpl; nsatz. }
  split; [apply Hdot |]. split; [| split].
  - unfold Vector3_magnitude. f_equal. apply (Hdot v v).
  - apply Hmul, Hb.
  - rewrite (Quaternion_inverse_of_unit a Ha).
    destruct a as [x y z w], v as [p1 p2 p3].
    unfold Quaternion_magnitude_squared in Ha; simpl in Ha.
    apply Vector3_eq; simpl; nsatz.
Qed.

Lemma Quaternion_rotate_vector_isometry_witness :
  Vector3_dot (Quaternion_rotate_vector q_third_turn (mkVector3 1 2 3))
              (Quaternion_rotate_vector q_third_turn (mkVector3 4 5 6)) =
    Vector3_dot (mkVector3 1 2 3) (mkVector3 4 5 6) /\
  Vector3_magnitude (Quaternion_rotate_vector q_third_turn (mkVector3 1 2 3)) =
    Vector3_magnitude (mkVector3 1 2 3) /\
  Quaternion_rotate_vector (Quaternion_mul q_third_turn (mkQuaternion 0 1 0 0))
                           (mkVector3 1 2 3) =
    Quaternion_rotate_vector q_third_turn
      (Quaternion_rotate_vector (mkQuaternion 0 1 0 0) (mkVector3 1 2 3)) /\
  Quaternion_rotate_vector (Quaternion_inverse q_third_turn)
    (Quaternion_rotate_vector q_third_turn (mkVector3 1 2 3)) = mkVector3 1 2 3.
Proof.
  apply (Quaternion_rotate_vector_isometry q_third_turn (mkQuaternion 0 1 0 0)
           (mkVector3 1 2 3) (mkVector3 4 5 6)).
  - unfold Quaternion_magnitude_squared, q_third_turn; simpl. lra.
  - unfold Quaternion_magnitude_squared; simpl. lra.
Defined.

(** [trs] returns an affine matrix that rotates a point, then scales the
    result componentwise, then translates it; its translation part is the
    one given. It is T * (S * R): the scale is applied after the rotation,
    and with unit scale it is T * R. *)
Theorem Matrix4_trs_action (t : Vector3) (r : Quaternion) (s v : Vector3) :
  Matrix4_is_affine (Matrix4_trs t r s) /\
  Matrix4_transform_point (Matrix4_trs t r s) v =
    Vector3_add t (Vector3_mul s (Quaternion_rotate_vector r v)) /\
  Matrix4_get_translation (Matrix4_trs t r s) = t /\
  Matrix4_trs t r Vector3_one =
    Matrix4_mul (Matrix4_translation_vec t) (Matrix4_from_quaternion r) /\
  Matrix4_trs t r s =
    Matrix4_mul (Matrix4_translation_vec t)
                (Matrix4_mul (Matrix4_scale_vec s) (Matrix4_from_quaternion r)).
Proof.
  split; [apply Matrix4_trs_affine |]. split; [| split; [| split]].
  - rewrite Matrix4_transform_point_affine by apply Matrix4_trs_affine.
    apply Vector3_eq; simpl; ring.
  - apply Vector3_eq; reflexivity.
  - apply Matrix4_eq; unfold Matrix4_mul, mul_cell; simpl; ring.
  - apply Matrix4_eq; unfold Matrix4_mul, mul_cell; simpl; ring.
Qed.

Lemma half_angle (a : R) :
  sin (a / 2) * sin (a / 2) + cos (a / 2) * cos (a / 2) = 1 /\
  cos a = 1 - 2 * sin (a / 2) * sin (a / 2) /\
  sin a = 2 * sin (a / 2) * cos (a / 2).
Proof.
  split; [| split].
  - pose proof (sin2_cos2 (a / 2)) as H. unfold Rsqr in H. exact H.
  - replace a with (2 * (a / 2)) at 1 by field. rewrite cos_2a_sin. ring.
  - replace a with (2 * (a / 2)) at 1 by field. rewrite sin_2a. ring.
Qed.

(** For an axis of length at least [EPSILON], [from_axis_angle] returns a
    quaternion of magnitude one whose matrix is [Matrix4.rotation_axis] of
    the same axis and angle. For a shorter axis it returns
    (0, 0, 0, cos (angle / 2)), whose matrix is the identity. *)
Theorem Quaternion_from_axis_angle_spec (axis : Vector3) (angle : R) :
  (EPSILON <= Vector3_magnitude axis ->
     Quaternion_magnitude_squared (Quaternion_from_axis_angle axis angle) = 1 /\
     Matrix4_from_quaternion (Quaternion_from_axis_angle axis angle) =
       Matrix4_rotation_axis axis angle) /\
  (Vector3_magnitude axis < EPSILON ->
     Quaternion_from_axis_angle axis angle = mkQuaternion 0 0 0 (cos (angle / 2)) /\
     Matrix4_from_quaternion (Quaternion_from_axis_angle axis angle) = Matrix4_identity).
Proof.
  pose proof EPSILON_pos as He.
  destruct (half_angle angle) as (Hsc & Hc & Hs).
  unfold Quaternion_from_axis_angle, Matrix4_rotation_axis; cbv zeta.
  destruct (Vector3_normalized_magnitude axis) as [[Hge H1] | [Hlt H0]].
  - split; [| intros; lra]. intros _.
    pose proof (Vector3_magnitude_sq (Vector3_normalized axis)) as Hn.
    rewrite H1 in Hn.
    set (n := Vector3_normalized axis) in *. clearbody n.
    destruct n as [x y z]; simpl in Hn.
    rewrite Hc, Hs.
    set (s := sin (angle / 2)) in *. set (c := cos (angle / 2)) in *.
    clearbody s c.
    split.
    + unfold Quaternion_magnitude_squared; simpl. nsatz.
    + apply Matrix4_eq; unfold Matrix4_from_quaternion; simpl; nsatz.
  - split; [intros; lra |]. intros _. rewrite H0.
    split.
    + apply Quaternion_eq; simpl; ring.
    + apply Matrix4_eq; unfold Matrix4_from_quaternion; simpl; ring.
Qed.

Lemma Quaternion_from_axis_angle_spec_witness :
  Quaternion_magnitude_squared (Quaternion_from_axis_angle (mkVector3 3 4 0) 1) = 1 /\
  Matrix4_from_quaternion (Quaternion_from_axis_angle (mkVector3 3 4 0) 1) =
    Matrix4_rotation_axis (mkVector3 3 4 0) 1.
Proof.
  apply (proj1 (Quaternion_from_axis_angle_spec (mkVector3 3 4 0) 1)).
  unfold Vector3_magnitude; simpl.
  replace (3 * 3 + 4 * 4 + 0 * 0) with 25 by lra.
  rewrite sqrt_25. unfold EPSILON. lra.
Defined.

(** ** Euler angles *)

Lemma sqrt_1_0_0 : sqrt (1 * 1 + 0 * 0 + 0 * 0) = 1.
Proof. replace (1 * 1 + 0 * 0 + 0 * 0) with 1 by lra. apply sqrt_1. Qed.

Lemma Vector3_normalized_unit (v : Vector3) :
  vx v * vx v + vy v * vy v + vz v * vz v = 1 -> Vector3_normalized v = v.
Proof.
  intros H. unfold Vector3_normalized, Vector3_magnitude. rewrite H, sqrt_1.
  destruct (Rlt_dec 1 EPSILON) as [Hlt | _].
  - unfold EPSILON in Hlt. lra.
  - apply Vector3_eq; simpl; field.
Qed.

Lemma axis_quaternion_x (x y z : R) :
  axis_quaternion "x" x y z = mkQuaternion (sin (x / 2)) 0 0 (cos (x / 2)).
Proof.
  unfold axis_quaternion; cbn [Ascii.eqb Bool.eqb].
  unfold Quaternion_from_axis_angle.
  rewrite Vector3_normalized_unit by (simpl; lra).
  apply Quaternion_eq; simpl; ring.
Qed.

Lemma axis_quaternion_y (x y z : R) :
  axis_quaternion "y" x y z = mkQuaternion 0 (sin (y / 2)) 0 (cos (y / 2)).
Proof.
  unfold axis_quaternion; cbn [Ascii.eqb Bool.eqb].
  unfold Quaternion_from_axis_angle.
  rewrite Vector3_normalized_unit by (simpl; lra).
  apply Quaternion_eq; simpl; ring.
Qed.

Lemma axis_quaternion_z (x y z : R) :
  axis_quaternion "z" x y z = mkQuaternion 0 0 (sin (z / 2)) (cos (z / 2)).
Proof.
  unfold axis_quaternion; cbn [Ascii.eqb Bool.eqb].
  unfold Quaternion_from_axis_angle.
  rewrite Vector3_normalized_unit by (simpl; lra).
  apply Quaternion_eq; simpl; ring.
Qed.

Lemma axis_quaternion_unit (a : ascii) (x y z : R) :
  Quaternion_magnitude_squared (axis_quaternion a x y z) = 1.
Proof.
  unfold axis_quaternion.
  destruct (Ascii.eqb a "x"); [| destruct (Ascii.eqb a "y")];
    unfold Quaternion_from_axis_angle;
    rewrite Vector3_normalized_unit by (simpl; lra);
    unfold Quaternion_magnitude_squared; simpl.
  - destruct (half_angle x) as (H & _). lra.
  - destruct (half_angle y) as (H & _). lra.
  - destruct (half_angle z) as (H & _). lra.
Qed.

Lemma from_euler_orders (x y z : R) (order : string) :
  (In order euler_orders <-> exists q, Quaternion_from_euler x y z order = Some q).
Proof.
  unfold Quaternion_from_euler, euler_orders; cbv zeta. split.
  - intros [<- | [<- | [<- | [<- | [<- | [<- | []]]]]]]; cbn [String.eqb Ascii.eqb Bool.eqb];
      eauto.
  - intros [q Hq]. simpl.
    destruct (String.eqb_spec order "xyz"); [auto |].
    destruct (String.eqb_spec order "xzy"); [auto |].
    destruct (String.eqb_spec order "yxz"); [auto |].
    destruct (String.eqb_spec order "yzx"); [auto 6 |].
    destruct (String.eqb_spec order "zxy"); [auto 7 |].
    destruct (String.eqb_spec order "zyx"); [auto 8 |].
    discriminate.
Qed.

(** [from_euler] succeeds exactly for the six orders xyz, xzy, yxz, yzx, zxy
    and zyx (any other raises). Its result has magnitude one and is the
    product of the three rotations about single axes, in the order
    written. *)
Theorem Quaternion_from_euler_spec (x y z : R) (order : string) :
  (In order euler_orders <-> exists q, Quaternion_from_euler x y z order = Some q) /\
  (forall q, Quaternion_from_euler x y z order = Some q ->
     Quaternion_magnitude_squared q = 1 /\
     exists a b c,
       order = String a (String b (String c EmptyString)) /\
       q = Quaternion_mul
             (Quaternion_mul (axis_quaternion a x y z) (axis_quaternion b x y z))
             (axis_quaternion c x y z)).
Proof.
  split; [apply from_euler_orders |].
  intros q Hq.
  assert (Hin : In order euler_orders) by (apply (from_euler_orders x y z); eauto).
  assert (Hprod : exists a b c,
       order = String a (String b (String c EmptyString)) /\
       q = Quaternion_mul
             (Quaternion_mul (axis_quaternion a x y z) (axis_quaternion b x y z))
             (axis_quaternion c x y z)).
  { unfold euler_orders in Hin.
    destruct Hin as [<- | [<- | [<- | [<- | [<- | [<- | []]]]]]];
      unfold Quaternion_from_euler in Hq; cbn [String.eqb Ascii.eqb Bool.eqb] in Hq;
      injection Hq as <-;
      do 3 eexists; (split; [reflexivity |]);
      rewrite ?axis_quaternion_x, ?axis_quaternion_y, ?axis_quaternion_z;
      apply Quaternion_eq; simpl; ring. }
  split; [| exact Hprod].
  destruct Hprod as (a & b & c & _ & ->).
  apply Quaternion_mul_unit; [apply Quaternion_mul_unit |]; apply axis_quaternion_unit.
Qed.

Lemma Quaternion_from_euler_spec_witness :
  Quaternion_magnitude_squared
    (mkQuaternion (sin (1 / 2) * cos (2 / 2) * cos (3 / 2) + cos (1 / 2) * sin (2 / 2) * sin (3 / 2))
                  (cos (1 / 2) * sin (2 / 2) * cos (3 / 2) - sin (1 / 2) * cos (2 / 2) * sin (3 / 2))
                  (cos (1 / 2) * cos (2 / 2) * sin (3 / 2) + sin (1 / 2) * sin (2 / 2) * cos (3 / 2))
                  (cos (1 / 2) * cos (2 / 2) * cos (3 / 2) - sin (1 / 2) * sin (2 / 2) * sin (3 / 2))) = 1.
Proof.
  apply (proj2 (Quaternion_from_euler_spec 1 2 3 "xyz")). reflexivity.
Defined.

Lemma from_quaternion_axis (x y z : R) :
  Matrix4_from_quaternion (axis_quaternion "x" x y z) = Matrix4_rotation_x x /\
  Matrix4_from_quaternion (axis_quaternion "y" x y z) = Matrix4_rotation_y y /\
  Matrix4_from_quaternion (axis_quaternion "z" x y z) = Matrix4_rotation_z z.
Proof.
  rewrite axis_quaternion_x, axis_quaternion_y, axis_quaternion_z.
  destruct (half_angle x) as (Hx & Hcx & Hsx).
  destruct (half_angle y) as (Hy & Hcy & Hsy).
  destruct (half_angle z) as (Hz & Hcz & Hsz).
  unfold Matrix4_rotation_x, Matrix4_rotation_y, Matrix4_rotation_z.
  rewrite Hcx, Hsx, Hcy, Hsy, Hcz, Hsz.
  repeat split; apply Matrix4_eq; unfold Matrix4_from_quaternion; simpl; ring.
Qed.

(** For each order that [Quaternion.from_euler] accepts,
    [Matrix4.rotation_euler] returns the matrix of that quaternion. The
    empty order gives the identity matrix, and an order that starts with a
    character other than x, y and z raises. *)
Theorem Matrix4_rotation_euler_spec (x y z : R) (order : string) :
  (forall q, Quaternion_from_euler x y z order = Some q ->
     Matrix4_rotation_euler x y z order = Some (Matrix4_from_quaternion q)) /\
  Matrix4_rotation_euler x y z "" = Some Matrix4_identity /\
  (forall c rest, order = String c rest ->
     c <> "x"%char -> c <> "y"%char -> c <> "z"%char ->
     Matrix4_rotation_euler x y z order = None).
Proof.
  split; [| split].
  - intros q Hq.
    assert (Hin : In order euler_orders) by (apply (from_euler_orders x y z); eauto).
    destruct (from_quaternion_axis x y z) as (Hx & Hy & Hz).
    pose proof (axis_quaternion_unit "x" x y z) as Ux.
    pose proof (axis_quaternion_unit "y" x y z) as Uy.
    pose proof (axis_quaternion_unit "z" x y z) as Uz.
    assert (Hid : forall M, Matrix4_mul Matrix4_identity M = M).
    { intros M. apply Matrix4_eq; unfold Matrix4_mul, mul_cell; simpl; ring. }
    unfold euler_orders in Hin.
    destruct Hin as [<- | [<- | [<- | [<- | [<- | [<- | []]]]]]];
      unfold Quaternion_from_euler in Hq; cbn [String.eqb Ascii.eqb Bool.eqb] in Hq;
      injection Hq as <-;
      unfold Matrix4_rotation_euler; cbn [rotation_euler_loop Ascii.eqb Bool.eqb mbind option_bind];
      rewrite Hid, <- ?Hx, <- ?Hy, <- ?Hz;
      rewrite <- !Matrix4_from_quaternion_mul
        by (try apply Quaternion_mul_unit; assumption);
      do 2 f_equal;
      rewrite ?axis_quaternion_x, ?axis_quaternion_y, ?axis_quaternion_z;
      apply Quaternion_eq; simpl; ring.
  - reflexivity.
  - intros c rest -> Hx Hy Hz. unfold Matrix4_rotation_euler; simpl.
    destruct (Ascii.eqb_spec c "x"); [contradiction |].
    destruct (Ascii.eqb_spec c "y"); [contradiction |].
    destruct (Ascii.eqb_spec c "z"); [contradiction |]. reflexivity.
Qed.

Lemma Matrix4_rotation_euler_spec_witness :
  Matrix4_rotation_euler 1 2 3 "w" = None.
Proof.
  apply (proj2 (proj2 (Matrix4_rotation_euler_spec 1 2 3 "w")) "w"%char ""%string);
    [reflexivity | discriminate | discriminate | discriminate].
Defined.

(** ** Transform: hierarchy queries *)

Lemma root_spec (s : Store) :
  forall fuel n r, Transform_root fuel n s = Some r ->
    is_ancestor s r n /\ exists tr, s !! r = Some tr /\ t_parent tr = None.
Proof.
  induction fuel as [| fuel IH]; intros n r H; [discriminate |].
  simpl in H. destruct (s !! n) as [t |] eqn:Hn; [| discriminate]. simpl in H.
  destruct (t_parent t) as [p |] eqn:Hp.
  - destruct (IH _ _ H) as [Ha Hr]. split; [| exact Hr].
    eapply ancestor_up; eauto.
  - injection H as <-. split; [constructor | eauto].
Qed.

Lemma root_runs (s : Store) :
  forall k n, depth s n k -> exists r, Transform_root (S k) n s = Some r.
Proof.
  induction k as [| k IH]; intros n Hd;
    inversion Hd as [n' t Hn Hp | n' p k' t Hn Hp Hd']; subst.
  - exists n. simpl. rewrite Hn. simpl. rewrite Hp. reflexivity.
  - destruct (IH _ Hd') as [r Hr]. exists r.
    change (Transform_root (S (S k)) n s)
      with (t ← s !! n; match t_parent t with
                        | None => Some n
                        | Some p => Transform_root (S k) p s
                        end).
    rewrite Hn. simpl. rewrite Hp. exact Hr.
Qed.

Lemma scene_depth s n t :
  scene_ok s -> s !! n = Some t -> exists k, depth s n k.
Proof.
  intros [Hg _] Hn. destruct (bounded_depth s Hg) as [B HB].
  destruct (HB n t Hn) as (k & _ & Hk). eauto.
Qed.

(** In a scene built by the transform operations, [root] terminates, and
    what it returns is the transform itself or one of its ancestors, and has
    no parent. *)
Theorem Transform_root_spec (ops : list TransformOp) (s : Store) (n : nat)
    (t : Transform) :
  Transform_run ∅ ops s -> s !! n = Some t ->
  (exists fuel r, Transform_root fuel n s = Some r) /\
  (forall fuel r, Transform_root fuel n s = Some r ->
     is_ancestor s r n /\ exists tr, s !! r = Some tr /\ t_parent tr = None).
Proof.
  intros Hrun Hn.
  assert (Hs : scene_ok s) by (eapply run_scene; [apply scene_ok_empty | exact Hrun]).
  split.
  - destruct (scene_depth s n t Hs Hn) as [k Hk].
    destruct (root_runs s k n Hk) as [r Hr]. eauto.
  - intros fuel r. apply root_spec.
Qed.

Lemma Transform_root_spec_witness :
  exists t, demo_scene !! 1%nat = Some t /\
  (exists fuel r, Transform_root fuel 1 demo_scene = Some r) /\
  (forall fuel r, Transform_root fuel 1 demo_scene = Some r ->
     is_ancestor demo_scene r 1 /\
     exists tr, demo_scene !! r = Some tr /\ t_parent tr = None).
Proof.
  destruct demo_child as (t & Ht & Hp). exists t. split; [exact Ht |].
  exact (Transform_root_spec demo_ops demo_scene 1 t
           (exec_run 5 demo_ops ∅ demo_scene demo_exec) Ht).
Defined.

Lemma is_child_of_loop_spec (s : Store) (p : nat) :
  forall fuel c b, is_child_of_loop fuel (Some c) p s = Some b ->
    (b = true <-> is_ancestor s p c).
Proof.
  induction fuel as [| fuel IH]; intros c b H; [discriminate |].
  simpl in H. destruct (decide (c = p)) as [-> | Hne].
  - injection H as <-. split; [intros _; constructor | reflexivity].
  - destruct (s !! c) as [t |] eqn:Hc; [| discriminate]. simpl in H.
    destruct (t_parent t) as [c' |] eqn:Hp.
    + rewrite (IH _ _ H). split.
      * intros Ha. eapply ancestor_up; eauto.
      * intros Ha. inversion Ha; subst; [contradiction |]. congruence.
    + destruct fuel; [discriminate |]. simpl in H. injection H as <-.
      split; [discriminate |].
      intros Ha. inversion Ha; subst; [contradiction | congruence].
Qed.

Lemma is_child_of_loop_runs (s : Store) (p : nat) :
  forall k c, depth s c k -> exists b, is_child_of_loop (k + 2) (Some c) p s = Some b.
Proof.
  induction k as [| k IH]; intros c Hd;
    inversion Hd as [n' t Hn Hp | n' p' k' t Hn Hp Hd']; subst.
  - simpl. destruct (decide (c = p)); [eauto |]. rewrite Hn. simpl. rewrite Hp. eauto.
  - destruct (IH _ Hd') as [b Hb].
    change (S k + 2)%nat with (S (k + 2)).
    cbn [is_child_of_loop]. destruct (decide (c = p)); [eauto |].
    rewrite Hn. simpl. rewrite Hp. eauto.
Qed.

(** In a scene built by the transform operations, [is_child_of] terminates.
    It answers true exactly for the proper ancestors of the transform, at
    any distance and not only for its parent, and never for the transform
    itself. *)
Theorem Transform_is_child_of_spec (ops : list TransformOp) (s : Store)
    (n p : nat) (t : Transform) :
  Transform_run ∅ ops s -> s !! n = Some t ->
  (exists fuel b, Transform_is_child_of fuel n p s = Some b) /\
  (forall fuel b, Transform_is_child_of fuel n p s = Some b ->
     (b = true <-> p <> n /\ is_ancestor s p n)) /\
  (forall fuel b, Transform_is_child_of fuel n n s = Some b -> b = false).
Proof.
  intros Hrun Hn.
  assert (Hs : scene_ok s) by (eapply run_scene; [apply scene_ok_empty | exact Hrun]).
  destruct (scene_depth s n t Hs Hn) as [k Hk].
  assert (Hspec : forall q fuel b, Transform_is_child_of fuel n q s = Some b ->
            (b = true <-> q <> n /\ is_ancestor s q n)).
  { intros q fuel b H. unfold Transform_is_child_of in H. rewrite Hn in H. simpl in H.
    destruct (t_parent t) as [c |] eqn:Hp.
    - rewrite (is_child_of_loop_spec s q fuel c b H). split.
      + intros Ha. split; [| eapply ancestor_up; eauto].
        intros ->.
        inversion Hk as [n' t' Hn' Hp' | n' p' k' t' Hn' Hp' Hd']; subst; [congruence |].
        assert (c = p') by congruence. subst p'.
        pose proof (ancestor_depth s n c _ _ Ha Hk Hd'). lia.
      + intros [Hne Ha]. inversion Ha; subst; [contradiction | congruence].
    - destruct fuel; [discriminate |]. simpl in H. injection H as <-.
      split; [discriminate |].
      intros [Hne Ha]. inversion Ha; subst; [contradiction | congruence]. }
  split; [| split].
  - unfold Transform_is_child_of. rewrite Hn. simpl.
    destruct (t_parent t) as [c |] eqn:Hp.
    + inversion Hk as [n' t' Hn' Hp' | n' p' k' t' Hn' Hp' Hd']; subst; [congruence |].
      assert (c = p') by congruence. subst p'.
      destruct (is_child_of_loop_runs s p _ _ Hd') as [b Hb]. eauto.
    + exists 1%nat, false. reflexivity.
  - apply Hspec.
  - intros fuel b H. destruct b; [| reflexivity].
    destruct (proj1 (Hspec n fuel true H) eq_refl) as [Hne _]. contradiction.
Qed.

Lemma Transform_is_child_of_spec_witness :
  exists t, demo_scene !! 1%nat = Some t /\
  (exists fuel b, Transform_is_child_of fuel 1 0 demo_scene = Some b) /\
  (forall fuel b, Transform_is_child_of fuel 1 0 demo_scene = Some b ->
     (b = true <-> 0%nat <> 1%nat /\ is_ancestor demo_scene 0 1)) /\
  (forall fuel b, Transform_is_child_of fuel 1 1 demo_scene = Some b -> b = false).
Proof.
  destruct demo_child as (t & Ht & Hp). exists t. split; [exact Ht |].
  exact (Transform_is_child_of_spec demo_ops demo_scene 1 0 t
           (exec_run 5 demo_ops ∅ demo_scene demo_exec) Ht).
Defined.

(** [get_child] returns the child at an index from 0 up to the number of
    children, and [None] at any other index, negative ones included. *)
Theorem Transform_get_child_bounds (n : nat) (index : Z) (s : Store) (t : Transform) :
  s !! n = Some t ->
  exists r, Transform_get_child n index s = Some r /\
    ((0 <= index < Z.of_nat (length (t_children t)))%Z ->
       exists c, r = Some c /\ t_children t !! Z.to_nat index = Some c) /\
    ((index < 0 \/ Z.of_nat (length (t_children t)) <= index)%Z -> r = None).
Proof.
  intros Hn. unfold Transform_get_child. rewrite Hn. simpl.
  destruct (Z.leb_spec 0 index); destruct (Z.ltb_spec index (Z.of_nat (length (t_children t))));
    simpl; eexists; (split; [reflexivity |]); split; intros Hr; try lia; try reflexivity.
  destruct (lookup_lt_is_Some_2 (t_children t) (Z.to_nat index)) as [c Hc]; [lia |].
  eauto.
Qed.

Lemma Transform_get_child_bounds_witness :
  exists t, demo_scene !! 1%nat = Some t /\
  exists r, Transform_get_child 1 (-1) demo_scene = Some r /\
    ((0 <= -1 < Z.of_nat (length (t_children t)))%Z ->
       exists c, r = Some c /\ t_children t !! Z.to_nat (-1) = Some c) /\
    ((-1 < 0 \/ Z.of_nat (length (t_children t)) <= -1)%Z -> r = None).
Proof.
  destruct demo_child as (t & Ht & Hp). exists t. split; [exact Ht |].
  exact (Transform_get_child_bounds 1 (-1) demo_scene t Ht).
Defined.

(** ** Transform: world rotation and world position *)

Lemma run_scene_ok ops s : Transform_run ∅ ops s -> scene_ok s.
Proof. intros H. eapply run_scene; [apply scene_ok_empty | exact H]. Qed.

Lemma Quaternion_eta (q : Quaternion) :
  mkQuaternion (qx q) (qy q) (qz q) (qw q) = q.
Proof. destruct q; reflexivity. Qed.

Lemma Vector3_eta (v : Vector3) : mkVector3 (vx v) (vy v) (vz v) = v.
Proof. destruct v; reflexivity. Qed.

(** What [_mark_dirty] after an edit of [n] leaves behind. *)
Lemma mark_dirty_result (s : Store) n t0 fuel s' :
  Transform_mark_dirty fuel n (<[n := t0]> s) = Some s' ->
  store_rel raise_rel (<[n := with_local_dirty true t0]> s) s'.
Proof.
  unfold Transform_mark_dirty. rewrite lookup_insert_eq; simpl.
  rewrite insert_insert_eq. intros H.
  destruct fuel; [discriminate |].
  apply (mark_world_dirty_spec (S fuel) n _ _ H).
Qed.

Lemma mark_dirty_runs_fuel (s : Store) n t t0 B :
  graph_ok s -> depth_below B s -> s !! n = Some t -> graph_rel t t0 ->
  forall fuel, (B < fuel)%nat ->
    exists s', Transform_mark_dirty fuel n (<[n := t0]> s) = Some s'.
Proof.
  intros Hg HB Hn Hgr fuel Hf. unfold Transform_mark_dirty.
  rewrite lookup_insert_eq; simpl. rewrite insert_insert_eq.
  assert (Hrel : store_rel graph_rel s (<[n := with_local_dirty true t0]> s)).
  { eapply store_rel_insert; [apply graph_rel_refl | exact Hn |].
    destruct Hgr; split; simpl; auto. }
  destruct (HB n t Hn) as (k & Hk & Hd).
  destruct (mark_world_dirty_runs B fuel n (<[n := with_local_dirty true t0]> s) k)
    as (s' & Hrun & _).
  - eapply names_parent_rel; [exact Hrel |]. exact (child_names_parent _ Hg).
  - eapply depth_below_rel; eauto.
  - eapply depth_graph_rel; eauto.
  - lia.
  - eauto.
Qed.

Lemma scene_depth_below s : scene_ok s -> exists B, depth_below B s.
Proof. intros [Hg _]. destruct (bounded_depth _ Hg) as [B HB]. exists B. exact HB. Qed.

Lemma world_rotation_rel s s' :
  store_rel rot_rel s s' ->
  forall fuel n, Transform_world_rotation fuel n s' = Transform_world_rotation fuel n s.
Proof.
  intros Hrel. induction fuel as [| fuel IH]; intros n; [reflexivity |].
  simpl. specialize (Hrel n).
  destruct Hrel as [t t' [Hp Hr] |]; simpl; [| reflexivity].
  rewrite Hp, Hr. destruct (t_parent t); [rewrite IH |]; reflexivity.
Qed.

Lemma world_rotation_outside (s : Store) n t' :
  forall fuel p, ~ is_ancestor s n p ->
    Transform_world_rotation fuel p (<[n := t']> s) = Transform_world_rotation fuel p s.
Proof.
  induction fuel as [| fuel IH]; intros p Hna; [reflexivity |].
  assert (Hne : n <> p) by (intros ->; apply Hna; constructor).
  simpl. rewrite lookup_insert_ne by exact Hne.
  destruct (s !! p) as [tp |] eqn:Hp; simpl; [| reflexivity].
  destruct (t_parent tp) as [p' |] eqn:Hpp; [| reflexivity].
  rewrite IH; [reflexivity |].
  intros Ha. apply Hna. eapply ancestor_up; eauto.
Qed.

Lemma world_rotation_runs s :
  forall k n, depth s n k -> forall fuel, (k < fuel)%nat ->
    exists r, Transform_world_rotation fuel n s = Some r.
Proof.
  induction k as [| k IH]; intros n Hd fuel Hf;
    inversion Hd as [n' t Hn Hp | n' p k' t Hn Hp Hd']; subst;
    (destruct fuel as [| fuel]; [lia |]); simpl; rewrite Hn; simpl; rewrite Hp.
  - eauto.
  - destruct (IH _ Hd' fuel ltac:(lia)) as [r ->]. simpl. eauto.
Qed.

Lemma world_rotation_fuel s :
  forall f1 f2 n r1 r2,
    Transform_world_rotation f1 n s = Some r1 ->
    Transform_world_rotation f2 n s = Some r2 -> r1 = r2.
Proof.
  induction f1 as [| f1 IH]; intros f2 n r1 r2 H1 H2; [discriminate |].
  destruct f2 as [| f2]; [discriminate |]. simpl in H1, H2.
  destruct (s !! n) as [t |]; [| discriminate]. simpl in H1, H2.
  destruct (t_parent t) as [p |]; [| congruence].
  apply bind_Some in H1 as (p1 & Hp1 & [= <-]).
  apply bind_Some in H2 as (p2 & Hp2 & [= <-]).
  rewrite (IH _ _ _ _ Hp1 Hp2). reflexivity.
Qed.

Lemma parent_not_descendant s n t p k :
  depth s n k -> s !! n = Some t -> t_parent t = Some p -> ~ is_ancestor s n p.
Proof.
  intros Hd Hn Hp Ha.
  inversion Hd as [n' t' Hn' Hp' | n' p' k' t' Hn' Hp' Hd']; subst; [congruence |].
  assert (p' = p) as -> by congruence.
  pose proof (ancestor_depth s n p _ _ Ha Hd Hd'). lia.
Qed.

(** The store after [rotation = q] on [n]. *)
Lemma set_rotation_result fuel n q (s : Store) t s' :
  s !! n = Some t -> Transform_set_rotation fuel n q s = Some s' ->
  store_rel raise_rel (<[n := with_local_dirty true (with_rotation q t)]> s) s'.
Proof.
  intros Hn H. unfold Transform_set_rotation in H. rewrite Hn in H; simpl in H.
  rewrite Quaternion_eta in H. apply (mark_dirty_result _ _ _ _ _ H).
Qed.

Lemma set_position_result fuel n v (s : Store) t s' :
  s !! n = Some t -> Transform_set_position fuel n v s = Some s' ->
  store_rel raise_rel (<[n := with_local_dirty true (with_position v t)]> s) s'.
Proof.
  intros Hn H. unfold Transform_set_position in H. rewrite Hn in H; simpl in H.
  rewrite Vector3_eta in H. apply (mark_dirty_result _ _ _ _ _ H).
Qed.

Lemma raise_rot a b : raise_rel a b -> rot_rel a b.
Proof. intros [-> | ->]; split; reflexivity. Qed.

Lemma world_rotation_after_set fuel n q (s : Store) t s' k :
  depth s n k -> s !! n = Some t ->
  Transform_set_rotation fuel n q s = Some s' ->
  forall f, Transform_world_rotation (S f) n s' =
    match t_parent t with
    | None => Some q
    | Some p => pr ← Transform_world_rotation f p s; Some (Quaternion_mul pr q)
    end.
Proof.
  intros Hd Hn Hset f.
  pose proof (set_rotation_result _ _ _ _ _ _ Hn Hset) as Hrel.
  rewrite (world_rotation_rel _ _ (store_rel_mono _ _ _ _ raise_rot Hrel)).
  simpl. rewrite lookup_insert_eq. simpl.
  destruct (t_parent t) as [p |] eqn:Hp; [| reflexivity].
  rewrite world_rotation_outside; [reflexivity |].
  eapply parent_not_descendant; eauto.
Qed.

(** In a scene built by the transform operations, assigning
    [world_rotation] succeeds, and reading it back gives the assigned
    quaternion when the transform has no parent, or when its parent's world
    rotation has squared magnitude at least [EPSILON]. Under a parent with a
    smaller one the value read back is the parent's world rotation times
    the assigned one. *)
Theorem world_rotation_round_trip (ops : list TransformOp) (s : Store)
    (n : nat) (t : Transform) (q : Quaternion) :
  Transform_run ∅ ops s -> s !! n = Some t ->
  (exists fuel s', Transform_set_world_rotation fuel n q s = Some s') /\
  (forall fuel s', Transform_set_world_rotation fuel n q s = Some s' ->
     (exists fuel' r, Transform_world_rotation fuel' n s' = Some r) /\
     (forall fuel' r, Transform_world_rotation fuel' n s' = Some r ->
        match t_parent t with
        | None => r = q
        | Some p =>
          exists pr, Transform_world_rotation fuel p s = Some pr /\
            (EPSILON <= Quaternion_magnitude_squared pr -> r = q) /\
            (Quaternion_magnitude_squared pr < EPSILON -> r = Quaternion_mul pr q)
        end)).
Proof.
  intros Hrun Hn. pose proof (run_scene_ok _ _ Hrun) as Hok.
  pose proof Hok as [Hg _].
  destruct (scene_depth_below s Hok) as [B HB].
  destruct (HB n t Hn) as (k & Hk & Hd).
  split.
  - exists (S B). assert (HfB : (B < S B)%nat) by lia.
    remember (S B) as fuel0 eqn:Hfuel0. clear Hfuel0.
    unfold Transform_set_world_rotation. rewrite Hn; simpl.
    destruct (t_parent t) as [p |] eqn:Hp.
    + inversion Hd as [n' t' Hn' Hp' | n' p' k' t' Hn' Hp' Hd']; subst; [congruence |].
      assert (p' = p) as -> by congruence.
      destruct (world_rotation_runs s _ _ Hd' fuel0 ltac:(lia)) as [pr Hpr].
      rewrite Hpr; simpl. unfold Transform_set_rotation. rewrite Hn; simpl.
      apply (mark_dirty_runs_fuel s n t _ B Hg HB Hn); [split; reflexivity | lia].
    + unfold Transform_set_rotation. rewrite Hn; simpl.
      apply (mark_dirty_runs_fuel s n t _ B Hg HB Hn); [split; reflexivity | lia].
  - intros fuel s' Hset. unfold Transform_set_world_rotation in Hset.
    rewrite Hn in Hset; simpl in Hset.
    destruct (t_parent t) as [p |] eqn:Hp.
    + apply bind_Some in Hset as (pr & Hpr & Hset).
      pose proof (world_rotation_after_set _ _ _ _ _ _ _ Hd Hn Hset) as Hread.
      rewrite Hp in Hread.
      assert (Hval : Transform_world_rotation (S fuel) n s' =
                     Some (Quaternion_mul pr (Quaternion_mul (Quaternion_inverse pr) q))).
      { rewrite Hread, Hpr. reflexivity. }
      split; [eauto |]. intros fuel' r Hr.
      rewrite (world_rotation_fuel _ _ _ _ _ _ Hr Hval).
      exists pr. split; [exact Hpr |]. split; intros Hm.
      * assert (Hne : Quaternion_magnitude_squared pr <> 0).
        { pose proof EPSILON_pos. lra. }
        unfold Quaternion_inverse; cbv zeta.
        destruct (Rlt_dec (Quaternion_magnitude_squared pr) EPSILON); [lra |].
        unfold Quaternion_magnitude_squared in *.
        apply Quaternion_eq; simpl; field; exact Hne.
      * unfold Quaternion_inverse; cbv zeta.
        destruct (Rlt_dec (Quaternion_magnitude_squared pr) EPSILON); [| lra].
        f_equal. apply Quaternion_eq; simpl; ring.
    + pose proof (world_rotation_after_set _ _ _ _ _ _ _ Hd Hn Hset) as Hread.
      rewrite Hp in Hread.
      split; [exists 1%nat, q; apply Hread |]. intros fuel' r Hr.
      apply (world_rotation_fuel _ _ _ _ _ _ Hr (Hread 0%nat)).
Qed.

Lemma world_rotation_round_trip_witness :
  exists t, demo_scene !! 1%nat = Some t /\
  (exists fuel s', Transform_set_world_rotation fuel 1 q_third_turn demo_scene = Some s') /\
  (forall fuel s', Transform_set_world_rotation fuel 1 q_third_turn demo_scene = Some s' ->
     (exists fuel' r, Transform_world_rotation fuel' 1 s' = Some r) /\
     (forall fuel' r, Transform_world_rotation fuel' 1 s' = Some r ->
        match t_parent t with
        | None => r = q_third_turn
        | Some p =>
          exists pr, Transform_world_rotation fuel p demo_scene = Some pr /\
            (EPSILON <= Quaternion_magnitude_squared pr -> r = q_third_turn) /\
            (Quaternion_magnitude_squared pr < EPSILON ->
               r = Quaternion_mul pr q_third_turn)
        end)).
Proof.
  destruct demo_child as (t & Ht & Hp).
  exists t. split; [exact Ht |].
  exact (world_rotation_round_trip demo_ops demo_scene 1 t q_third_turn
           (exec_run 5 demo_ops ∅ demo_scene demo_exec) Ht).
Defined.

Lemma world_value_affine s n m : world_value s n m -> Matrix4_is_affine m.
Proof.
  induction 1 as [n t Hn Hp | n p t pm Hn Hp Hw IH].
  - apply Matrix4_trs_affine.
  - apply Matrix4_mul_affine; [exact IH | apply Matrix4_trs_affine].
Qed.

Lemma world_value_outside (s : Store) n t' :
  forall p m, world_value s p m -> ~ is_ancestor s n p ->
    world_value (<[n := t']> s) p m.
Proof.
  induction 1 as [p t Hn Hp | p p' t pm Hn Hp Hw IH]; intros Hna;
    assert (Hne : n <> p) by (intros ->; apply Hna; constructor).
  - apply world_value_root; [rewrite lookup_insert_ne by exact Hne |]; assumption.
  - eapply world_value_child; [rewrite lookup_insert_ne by exact Hne; exact Hn | exact Hp |].
    apply IH. intros Ha. apply Hna. eapply ancestor_up; eauto.
Qed.

Lemma transform_point_mul_affine (A B : Matrix4) (v : Vector3) :
  Matrix4_is_affine A -> Matrix4_is_affine B ->
  Matrix4_transform_point (Matrix4_mul A B) v =
    Matrix4_transform_point A (Matrix4_transform_point B v).
Proof.
  intros HA HB.
  rewrite !Matrix4_transform_point_affine
    by (try apply Matrix4_mul_affine; assumption).
  destruct HA as (A0 & A1 & A2 & A3), HB as (B0 & B1 & B2 & B3).
  apply Vector3_eq; unfold Matrix4_mul, mul_cell; simpl;
    rewrite ?A0, ?A1, ?A2, ?A3, ?B0, ?B1, ?B2, ?B3; ring.
Qed.

Lemma Matrix4_inverse_affine (M N : Matrix4) :
  Matrix4_is_affine M -> Matrix4_inverse M = Some N ->
  Matrix4_is_affine N /\
  forall v, Matrix4_transform_point M (Matrix4_transform_point N v) = v.
Proof.
  intros HM HN.
  assert (Hdet : ~ Rabs (Matrix4_determinant M) < EPSILON).
  { intros Hlt. unfold Matrix4_inverse in HN. cbv zeta in HN.
    unfold Matrix4_determinant in Hlt. cbv zeta in Hlt.
    destruct (Rlt_dec _ _); [discriminate | contradiction]. }
  destruct (Matrix4_inverse_Some M Hdet) as (N' & HN' & Hmul & _).
  assert (N' = N) as -> by congruence.
  assert (HaN : Matrix4_is_affine N).
  { destruct HM as (M0 & M1 & M2 & M3).
    pose proof (f_equal m30 Hmul) as E0. pose proof (f_equal m31 Hmul) as E1.
    pose proof (f_equal m32 Hmul) as E2. pose proof (f_equal m33 Hmul) as E3.
    unfold Matrix4_mul, mul_cell in E0, E1, E2, E3; simpl in E0, E1, E2, E3.
    rewrite M0, M1, M2, M3 in E0, E1, E2, E3.
    unfold Matrix4_is_affine. repeat split; lra. }
  split; [exact HaN |]. intros v.
  rewrite <- transform_point_mul_affine by assumption.
  rewrite Hmul.
  rewrite Matrix4_transform_point_affine by (unfold Matrix4_is_affine; simpl; auto).
  apply Vector3_eq; simpl; ring.
Qed.

Lemma trs_translation_column (pm : Matrix4) (t : Transform) :
  Matrix4_is_affine pm ->
  Matrix4_get_translation (Matrix4_mul pm (trs_of t)) =
    Matrix4_transform_point pm (t_position t).
Proof.
  intros Ha. rewrite Matrix4_transform_point_affine by exact Ha.
  destruct Ha as (A0 & A1 & A2 & A3).
  apply Vector3_eq; unfold Matrix4_mul, mul_cell, trs_of, Matrix4_trs; simpl; ring.
Qed.

(** What a read of [world_position] returns, on a scene whose caches are
    right. *)
Lemma world_position_value fuel n s wp s' k :
  scene_ok s -> depth s n k ->
  Transform_world_position fuel n s = Some (wp, s') ->
  exists wm, world_value s n wm /\ wp = Matrix4_get_translation wm.
Proof.
  intros Hok Hd H. unfold Transform_world_position in H.
  apply bind_Some in H as ([wm s1] & Hw & [= <- <-]).
  destruct (world_matrix_spec _ _ _ _ _ _ Hok Hd Hw) as (Hok1 & Hrel & _ & Hclean).
  exists wm. split; [| reflexivity].
  eapply world_value_rel; [eapply store_rel_sym; [apply data_rel_sym | exact Hrel] |].
  eapply clean_world_value; [exact Hok1 | | exact Hclean].
  eapply depth_graph_rel; [| exact Hd].
  eapply store_rel_mono; [apply data_rel_graph | exact Hrel].
Qed.

Lemma world_position_runs n s t :
  scene_ok s -> s !! n = Some t ->
  exists fuel wp s', Transform_world_position fuel n s = Some (wp, s').
Proof.
  intros Hok Hn. destruct (scene_depth s n t Hok Hn) as [k Hd].
  destruct (world_matrix_runs (S k) n s k Hok Hd ltac:(lia)) as (m & s' & Hrun).
  exists (S k). unfold Transform_world_position. rewrite Hrun. simpl. eauto.
Qed.

(** The world matrix of [n] once its position is [v], everything else as in
    [s]. *)
Lemma world_value_moved (s : Store) n t v k wm :
  depth s n k -> s !! n = Some t ->
  world_value (<[n := with_local_dirty true (with_position v t)]> s) n wm ->
  match t_parent t with
  | None => Matrix4_get_translation wm = v
  | Some p => forall pm, world_value s p pm ->
                Matrix4_get_translation wm = Matrix4_transform_point pm v
  end.
Proof.
  intros Hd Hn Hw.
  inversion Hw as [n' tA HnA HpA | n' p tA pmA HnA HpA HwA]; subst;
    rewrite lookup_insert_eq in HnA; injection HnA as <-; simpl in HpA; rewrite HpA.
  - apply Vector3_eq; reflexivity.
  - intros pm Hpm.
    assert (Hout : world_value (<[n := with_local_dirty true (with_position v t)]> s) p pm).
    { apply world_value_outside; [exact Hpm |].
      eapply parent_not_descendant; eauto. }
    rewrite (world_value_functional _ _ _ _ HwA Hout).
    rewrite trs_translation_column by (eapply world_value_affine; eauto).
    reflexivity.
Qed.

(** In a scene built by the transform operations, assigning
    [world_position] succeeds, and reading it back gives the assigned point
    when the transform has no parent, or when the determinant of its
    parent's world matrix is at least [EPSILON] in absolute value. Under a
    parent with a smaller one the assignment is dropped: the position read
    back is the one the transform had. *)
Theorem world_position_round_trip (ops : list TransformOp) (s : Store)
    (n : nat) (t : Transform) (v : Vector3) :
  Transform_run ∅ ops s -> s !! n = Some t ->
  (exists fuel s', Transform_set_world_position fuel n v s = Some s') /\
  (forall fuel s', Transform_set_world_position fuel n v s = Some s' ->
     (exists fuel' wp s'', Transform_world_position fuel' n s' = Some (wp, s'')) /\
     (forall fuel' wp s'', Transform_world_position fuel' n s' = Some (wp, s'') ->
        match t_parent t with
        | None => wp = v
        | Some p =>
          forall pm, world_value s p pm ->
            (EPSILON <= Rabs (Matrix4_determinant pm) -> wp = v) /\
            (Rabs (Matrix4_determinant pm) < EPSILON ->
               forall wm, world_value s n wm -> wp = Matrix4_get_translation wm)
        end)).
Proof.
  intros Hrun Hn. pose proof (run_scene_ok _ _ Hrun) as Hok.
  pose proof Hok as [Hg _].
  destruct (scene_depth_below s Hok) as [B HB].
  destruct (HB n t Hn) as (k & Hk & Hd).
  split.
  - exists (S B). assert (HfB : (B < S B)%nat) by lia.
    remember (S B) as fuel0 eqn:Hfuel0. clear Hfuel0.
    unfold Transform_set_world_position. rewrite Hn; simpl.
    destruct (t_parent t) as [p |] eqn:Hp.
    + inversion Hd as [n' t' Hn' Hp' | n' p' k' t' Hn' Hp' Hd']; subst; [congruence |].
      assert (p' = p) as -> by congruence.
      destruct (world_matrix_runs fuel0 p s k' Hok Hd' ltac:(lia)) as (pm & s1 & Hpm).
      rewrite Hpm; simpl.
      destruct (Matrix4_inverse pm) as [inv |]; [| eauto].
      destruct (world_matrix_spec _ _ _ _ _ _ Hok Hd' Hpm) as ([Hg1 _] & Hrel & _ & _).
      destruct (store_rel_l _ _ _ _ _ Hrel Hn) as (t1 & Hn1 & _).
      unfold Transform_set_position. rewrite Hn1; simpl.
      apply (mark_dirty_runs_fuel s1 n t1 _ B Hg1); [| exact Hn1 | split; reflexivity | lia].
      eapply depth_below_rel; [| exact HB].
      eapply store_rel_mono; [apply data_rel_graph | exact Hrel].
    + unfold Transform_set_position. rewrite Hn; simpl.
      apply (mark_dirty_runs_fuel s n t _ B Hg HB Hn); [split; reflexivity | lia].
  - intros fuel s' Hset. unfold Transform_set_world_position in Hset.
    rewrite Hn in Hset; simpl in Hset.
    destruct (t_parent t) as [p |] eqn:Hp.
    + apply bind_Some in Hset as ([pm0 s1] & Hpm & Hset).
      inversion Hd as [n0 t0 Hn0 Hp0 | n0 p' k' t0 Hn0 Hp0 Hd']; subst; [congruence |].
      assert (p' = p) as -> by congruence. clear Hn0 Hp0.
      destruct (world_matrix_spec _ _ _ _ _ _ Hok Hd' Hpm) as (Hok1 & Hrel & _ & Hclean).
      assert (Hgrel : store_rel graph_rel s s1).
      { eapply store_rel_mono; [apply data_rel_graph | exact Hrel]. }
      assert (Hd1 : depth s1 n (S k')) by (eapply depth_graph_rel; eauto).
      assert (Hdp1 : depth s1 p k') by (eapply depth_graph_rel; eauto).
      destruct (store_rel_l _ _ _ _ _ Hrel Hn) as (t1 & Hn1 & Hdata).
      assert (Hp1 : t_parent t1 = Some p) by (destruct Hdata as (_ & _ & _ & [-> _]); exact Hp).
      assert (Hpm0 : world_value s1 p pm0) by (eapply clean_world_value; eauto).
      assert (Hback : forall x m, world_value s1 x m -> world_value s x m).
      { intros x m. apply world_value_rel.
        eapply store_rel_sym; [apply data_rel_sym | exact Hrel]. }
      destruct (Matrix4_inverse pm0) as [inv |] eqn:Hinv.
      * pose proof (set_position_scene _ _ _ _ _ Hok1 Hset) as Hok'.
        pose proof (set_position_result _ _ _ _ _ _ Hn1 Hset) as Hres.
        assert (Hdrel : store_rel data_rel
                  (<[n := with_local_dirty true
                            (with_position (Matrix4_transform_point inv v) t1)]> s1) s').
        { eapply store_rel_mono; [apply raise_rel_data | exact Hres]. }
        assert (Hn' : is_Some (s' !! n)).
        { destruct (store_rel_l _ _ _ _ _ Hdrel (lookup_insert_eq _ _ _)) as (x & Hx & _).
          eauto. }
        destruct Hn' as [t' Hn'].
        split; [apply (world_position_runs n s' t' Hok' Hn') |].
        intros fuel' wp s'' Hread.
        destruct (scene_depth s' n t' Hok' Hn') as [k2 Hd2].
        destruct (world_position_value _ _ _ _ _ _ Hok' Hd2 Hread) as (wm' & Hwm' & ->).
        assert (HwA : world_value
                  (<[n := with_local_dirty true
                            (with_position (Matrix4_transform_point inv v) t1)]> s1) n wm').
        { eapply world_value_rel; [| exact Hwm'].
          eapply store_rel_sym; [apply data_rel_sym | exact Hdrel]. }
        pose proof (world_value_moved _ _ _ _ _ _ Hd1 Hn1 HwA) as Hmoved.
        rewrite Hp1 in Hmoved. rewrite (Hmoved pm0 Hpm0).
        intros pm Hpm'.
        assert (pm = pm0) as -> by (eapply world_value_functional; eauto).
        destruct (Matrix4_inverse_affine pm0 inv) as [_ Hround];
          [eapply world_value_affine; eauto | exact Hinv |].
        split; [intros _; apply Hround |].
        intros Hlt. exfalso.
        unfold Matrix4_inverse in Hinv. cbv zeta in Hinv.
        unfold Matrix4_determinant in Hlt. cbv zeta in Hlt.
        destruct (Rlt_dec _ _); [discriminate | contradiction].
      * injection Hset as <-.
        split; [apply (world_position_runs n s1 t1 Hok1 Hn1) |].
        intros fuel' wp s'' Hread.
        destruct (world_position_value _ _ _ _ _ _ Hok1 Hd1 Hread) as (wm' & Hwm' & ->).
        intros pm Hpm'.
        assert (pm = pm0) as -> by (eapply world_value_functional; eauto).
        split.
        -- intros Hge. exfalso.
           unfold Matrix4_inverse in Hinv. cbv zeta in Hinv.
           unfold Matrix4_determinant in Hge. cbv zeta in Hge.
           destruct (Rlt_dec _ _) as [Hlt | _]; [lra | discriminate].
        -- intros _ wm Hwm. f_equal.
           eapply (world_value_functional s n); [apply Hback; exact Hwm' | exact Hwm].
    + pose proof (set_position_scene _ _ _ _ _ Hok Hset) as Hok'.
      pose proof (set_position_result _ _ _ _ _ _ Hn Hset) as Hres.
      assert (Hdrel : store_rel data_rel
                (<[n := with_local_dirty true (with_position v t)]> s) s').
      { eapply store_rel_mono; [apply raise_rel_data | exact Hres]. }
      assert (Hn' : is_Some (s' !! n)).
      { destruct (store_rel_l _ _ _ _ _ Hdrel (lookup_insert_eq _ _ _)) as (x & Hx & _).
        eauto. }
      destruct Hn' as [t' Hn'].
      split; [apply (world_position_runs n s' t' Hok' Hn') |].
      intros fuel' wp s'' Hread.
      destruct (scene_depth s' n t' Hok' Hn') as [k2 Hd2].
      destruct (world_position_value _ _ _ _ _ _ Hok' Hd2 Hread) as (wm' & Hwm' & ->).
      assert (HwA : world_value (<[n := with_local_dirty true (with_position v t)]> s) n wm').
      { eapply world_value_rel; [| exact Hwm'].
        eapply store_rel_sym; [apply data_rel_sym | exact Hdrel]. }
      pose proof (world_value_moved _ _ _ _ _ _ Hd Hn HwA) as Hmoved.
      rewrite Hp in Hmoved. exact Hmoved.
Qed.

Lemma world_position_round_trip_witness :
  exists t, demo_scene !! 1%nat = Some t /\
  (exists fuel s', Transform_set_world_position fuel 1 (mkVector3 1 2 3) demo_scene = Some s') /\
  (forall fuel s', Transform_set_world_position fuel 1 (mkVector3 1 2 3) demo_scene = Some s' ->
     (exists fuel' wp s'', Transform_world_position fuel' 1 s' = Some (wp, s'')) /\
     (forall fuel' wp s'', Transform_world_position fuel' 1 s' = Some (wp, s'') ->
        match t_parent t with
        | None => wp = mkVector3 1 2 3
        | Some p =>
          forall pm, world_value demo_scene p pm ->
            (EPSILON <= Rabs (Matrix4_determinant pm) -> wp = mkVector3 1 2 3) /\
            (Rabs (Matrix4_determinant pm) < EPSILON ->
               forall wm, world_value demo_scene 1 wm -> wp = Matrix4_get_translation wm)
        end)).
Proof.
  destruct demo_child as (t & Ht & Hp).
  exists t. split; [exact Ht |].
  exact (world_position_round_trip demo_ops demo_scene 1 t (mkVector3 1 2 3)
           (exec_run 5 demo_ops ∅ demo_scene demo_exec) Ht).
Defined.

(** ** Camera: the projection cache *)

Lemma Camera_projection_matrix_fresh (c : Camera) :
  Camera_ok c ->
  Camera_projection_matrix c =
    P ← Camera_fresh_projection c; Some (P, Camera_store_projection c P).
Proof.
  intros (_ & _ & Hcache). unfold Camera_projection_matrix, Camera_fresh_projection.
  destruct (c_projection_dirty c) eqn:Hd; [reflexivity |].
  destruct (Hcache eq_refl) as (P & HP & Hfresh). rewrite HP.
  unfold Camera_fresh_projection in Hfresh. rewrite Hfresh. simpl.
  f_equal. f_equal. destruct c; simpl in *. subst. reflexivity.
Qed.

Lemma Camera_fresh_projection_runs (c : Camera) :
  Camera_params_in_range c -> 0.01 <= c_ortho_size c ->
  (Camera_fresh_projection c = None <-> c_far c = c_near c).
Proof.
  intros (Hf & Ha & Hn) Ho. unfold Camera_fresh_projection.
  assert (H1 : c_ortho_size c * c_aspect c - - (c_ortho_size c * c_aspect c) <> 0) by nra.
  assert (H2 : c_ortho_size c - - c_ortho_size c <> 0) by lra.
  assert (Hfov : 0 < c_fov c < PI) by lra.
  pose proof (tan_half_pos (c_fov c) (proj1 Hfov) (proj2 Hfov)) as Ht.
  assert (H3 : c_aspect c * tan (c_fov c / 2) <> 0)
    by (apply Rgt_not_eq, Rmult_lt_0_compat; lra).
  assert (H4 : tan (c_fov c / 2) <> 0) by lra.
  destruct (Req_dec_T (c_far c) (c_near c)) as [Heq | Hne].
  - split; [intros _; exact Heq | intros _].
    assert (Hz : forall a, py_div a (c_far c - c_near c) = None).
    { intros a. replace (c_far c - c_near c) with 0 by lra. unfold py_div.
      destruct (Req_dec_T 0 0); [auto | congruence]. }
    destruct (c_is_orthographic c).
    + unfold Matrix4_orthographic.
      rewrite !(py_div_nonzero _ _ H1), !(py_div_nonzero _ _ H2), !Hz. reflexivity.
    + unfold Matrix4_perspective.
      rewrite (py_div_nonzero _ _ H3), (py_div_nonzero _ _ H4), !Hz. reflexivity.
  - split; [| intros; contradiction]. intros Hnone. exfalso.
    assert (H5 : c_far c - c_near c <> 0) by lra.
    destruct (c_is_orthographic c).
    + unfold Matrix4_orthographic in Hnone.
      rewrite !(py_div_nonzero _ _ H1), !(py_div_nonzero _ _ H2),
        !(py_div_nonzero _ _ H5) in Hnone. discriminate.
    + unfold Matrix4_perspective in Hnone.
      rewrite (py_div_nonzero _ _ H3), (py_div_nonzero _ _ H4),
        !(py_div_nonzero _ _ H5) in Hnone. discriminate.
Qed.

Lemma Camera_ok_init : Camera_ok Camera_init.
Proof.
  split; [apply Camera_init_in_range |]. split; [simpl; lra | discriminate].
Qed.

Lemma Camera_ok_dirty (c' : Camera) :
  Camera_params_in_range c' -> 0.01 <= c_ortho_size c' -> 0.001 <= c_far c' ->
  c_projection_dirty c' = true -> Camera_ok c'.
Proof. intros H1 H2 H3 H4. split; [exact H1 |]. split; [split; assumption | congruence]. Qed.

Lemma Camera_ok_step (c c' : Camera) (op : CameraOp) :
  Camera_ok c -> Camera_step c op = Some c' -> Camera_ok c'.
Proof.
  intros Hok Hstep. pose proof Hok as (Hr & [Ho Hfar] & Hcache).
  destruct op; simpl in Hstep; try (injection Hstep as <-).
  - apply Camera_ok_dirty;
      [apply (Camera_assign_in_range c (AssignFov value) Hr) | exact Ho | exact Hfar | reflexivity].
  - apply Camera_ok_dirty;
      [apply (Camera_assign_in_range c (AssignFov (value * DEG_TO_RAD)) Hr)
      | exact Ho | exact Hfar | reflexivity].
  - apply Camera_ok_dirty;
      [apply (Camera_assign_in_range c (AssignAspect value) Hr) | exact Ho | exact Hfar | reflexivity].
  - apply Camera_ok_dirty;
      [apply (Camera_assign_in_range c (AssignNearClip value) Hr) | exact Ho | exact Hfar | reflexivity].
  - apply Camera_ok_dirty;
      [apply (Camera_assign_in_range c (AssignFarClip value) Hr) | exact Ho | | reflexivity].
    simpl. pose proof (py_max_lower (c_near c + 0.01) value).
    destruct Hr as (_ & _ & Hn). lra.
  - apply Camera_ok_dirty; [exact Hr | simpl; apply py_max_lower | exact Hfar | reflexivity].
  - apply Camera_ok_dirty; [exact Hr | exact Ho | exact Hfar | reflexivity].
  - rewrite (Camera_projection_matrix_fresh c Hok) in Hstep.
    destruct (Camera_fresh_projection c) as [P |] eqn:HP; [| discriminate].
    simpl in Hstep. injection Hstep as <-.
    split; [exact Hr |]. split; [split; assumption |]. intros _. exists P.
    split; [reflexivity |]. exact HP.
Qed.

Lemma Camera_ok_exec (ops : list CameraOp) :
  forall c c', Camera_ok c -> Camera_exec ops c = Some c' -> Camera_ok c'.
Proof.
  induction ops as [| op ops IH]; intros c c' Hok Hex; simpl in Hex.
  - injection Hex as <-. exact Hok.
  - apply bind_Some in Hex as (c1 & Hstep & Hrest).
    eapply IH; [| exact Hrest]. eapply Camera_ok_step; eauto.
Qed.

(** After any sequence of assignments to a camera's properties and reads of
    its projection, [projection_matrix] raises exactly when the near and far
    clip distances are equal. Otherwise it returns the projection of the
    current parameters, and reading it again returns the same matrix from
    the cache. *)
Theorem Camera_projection_never_stale (ops : list CameraOp) (c : Camera) :
  Camera_exec ops Camera_init = Some c ->
  (Camera_projection_matrix c = None <-> c_far c = c_near c) /\
  (forall P c', Camera_projection_matrix c = Some (P, c') ->
     Camera_fresh_projection c = Some P /\
     Camera_projection_matrix c' = Some (P, c') /\
     Camera_fresh_projection c' = Camera_fresh_projection c).
Proof.
  intros Hex. pose proof (Camera_ok_exec ops _ _ Camera_ok_init Hex) as Hok.
  pose proof Hok as (Hr & [Ho _] & _).
  rewrite (Camera_projection_matrix_fresh c Hok). split.
  - rewrite <- (Camera_fresh_projection_runs c Hr Ho).
    destruct (Camera_fresh_projection c); simpl; split; congruence.
  - intros P c' H. apply bind_Some in H as (P' & HP' & [= <- <-]).
    split; [exact HP' |]. split; reflexivity.
Qed.

Lemma Camera_projection_never_stale_witness :
  Camera_projection_matrix (Camera_set_near_clip Camera_init 1000) = None.
Proof.
  apply (proj1 (Camera_projection_never_stale [CamSetNearClip 1000]
                  (Camera_set_near_clip Camera_init 1000) eq_refl)).
  simpl. unfold py_max. destruct (Rlt_dec 0.001 1000); lra.
Defined.

(** On doubles, [Matrix4.perspective] raises when [far - near] is a zero. *)
Lemma Double_perspective_raises (tan : float -> float) (fov aspect near far : float) :
  (far - near =? 0)%float = true ->
  Double.Matrix4_perspective tan fov aspect near far = None.
Proof.
  intros H. unfold Double.Matrix4_perspective. cbv zeta.
  destruct (Double.py_div 1 (aspect * _)) as [p00 |]; [| reflexivity].
  cbn [mbind option_bind].
  destruct (Double.py_div 1 (tan _)) as [p11 |]; [| reflexivity].
  cbn [mbind option_bind].
  assert (Hd : Double.py_div (- (far + near)) (far - near) = None)
    by (unfold Double.py_div; rewrite H; reflexivity).
  rewrite Hd. reflexivity.
Qed.

(** Assigning [near_clip] is not checked against far: a value at or beyond
    [far_clip] leaves near at or beyond far, and near set to the current far
    makes [projection_matrix] raise.  Assigning [far_clip] stores the larger
    of near + 0.01 and the value, but on doubles the sum can round back to
    near: after [near_clip = 1e17] and [far_clip = 5] on a new camera, near
    and far are both 1e17 and [projection_matrix] raises, whatever
    [math.tan] returns. *)
Theorem Camera_clip_planes (ops : list CameraOp) (c : Camera) (v : R)
    (tan : float -> float) :
  Camera_exec ops Camera_init = Some c ->
  (c_far c <= v ->
     c_far (Camera_set_near_clip c v) <= c_near (Camera_set_near_clip c v)) /\
  Camera_projection_matrix (Camera_set_near_clip c (c_far c)) = None /\
  (let d := Double.Camera_set_far_clip
              (Double.Camera_set_near_clip Double.Camera_init 1e17) 5 in
   Double.c_near d = 1e17%float /\ Double.c_far d = 1e17%float /\
   Double.Camera_projection_matrix tan d = None).
Proof.
  intros Hex. pose proof (Camera_ok_exec ops _ _ Camera_ok_init Hex) as Hok.
  pose proof Hok as ((_ & _ & Hnear) & [_ Hfar0] & _).
  split; [| split].
  - intros Hle. simpl. pose proof (py_max_lower 0.001 v).
    unfold py_max in *. destruct (Rlt_dec 0.001 v); lra.
  - pose proof (Camera_ok_step c _ (CamSetNearClip (c_far c)) Hok eq_refl) as Hok'.
    rewrite (Camera_projection_matrix_fresh _ Hok').
    pose proof Hok' as (Hr' & [Ho' _] & _).
    assert (Hfresh : Camera_fresh_projection (Camera_set_near_clip c (c_far c)) = None).
    { apply (Camera_fresh_projection_runs _ Hr' Ho'). simpl. unfold py_max.
      destruct (Rlt_dec 0.001 (c_far c)); lra. }
    rewrite Hfresh. reflexivity.
  - cbv zeta. split; [vm_compute; reflexivity |]. split; [vm_compute; reflexivity |].
    unfold Double.Camera_projection_matrix.
    cbn [Double.Camera_set_far_clip Double.Camera_set_near_clip Double.Camera_init
         Double.c_projection_dirty Double.c_projection_matrix Double.c_is_orthographic
         Double.c_fov Double.c_aspect Double.c_near Double.c_far].
    rewrite Double_perspective_raises; [reflexivity | vm_compute; reflexivity].
Qed.

Lemma Camera_clip_planes_witness :
  Camera_projection_matrix (Camera_set_near_clip Camera_init (c_far Camera_init)) = None /\
  Double.Camera_projection_matrix (fun x => x)
    (Double.Camera_set_far_clip
       (Double.Camera_set_near_clip Double.Camera_init 1e17) 5) = None.
Proof.
  pose proof (Camera_clip_planes [] Camera_init 0 (fun x => x) eq_refl)
    as (_ & Hnear & _ & _ & Hd).
  split; [exact Hnear | exact Hd].
Defined.

(** [fov_degrees] reads back the assigned value when that lies, in radians,
    between 0.01 and pi - 0.01; a value outside is clamped to the nearer of
    the two. *)
Theorem Camera_fov_degrees_round_trip (c : Camera) (deg : R) :
  (0.01 <= deg * DEG_TO_RAD <= PI - 0.01 ->
     Camera_fov_degrees (Camera_set_fov_degrees c deg) = deg) /\
  (deg * DEG_TO_RAD < 0.01 ->
     Camera_fov_degrees (Camera_set_fov_degrees c deg) = 0.01 * RAD_TO_DEG) /\
  (PI - 0.01 < deg * DEG_TO_RAD ->
     Camera_fov_degrees (Camera_set_fov_degrees c deg) = (PI - 0.01) * RAD_TO_DEG).
Proof.
  pose proof PI_RGT_0 as Hpi. pose proof fov_bounds_ordered as Hb.
  unfold Camera_fov_degrees, Camera_set_fov_degrees, RAD_TO_DEG, DEG_TO_RAD; simpl.
  rewrite (clamp_cases _ _ _ Hb).
  split; [| split]; intros H;
    destruct (Rlt_dec (deg * (PI / 180)) 0.01);
    try destruct (Rlt_dec (PI - 0.01) (deg * (PI / 180))); try lra.
  field. lra.
Qed.

Lemma Camera_fov_degrees_round_trip_witness :
  Camera_fov_degrees (Camera_set_fov_degrees Camera_init 90) = 90.
Proof.
  apply (proj1 (Camera_fov_degrees_round_trip Camera_init 90)).
  unfold DEG_TO_RAD. pose proof PI2_3_2. pose proof PI_4. lra.
Defined.

(** ** Camera: points straight ahead *)

Lemma Matrix4_inverse_affine_left (M N : Matrix4) :
  Matrix4_is_affine M -> Matrix4_inverse M = Some N ->
  forall v, Matrix4_transform_point N (Matrix4_transform_point M v) = v.
Proof.
  intros HM HN.
  destruct (Matrix4_inverse_affine M N HM HN) as [HaN _].
  assert (Hdet : ~ Rabs (Matrix4_determinant M) < EPSILON).
  { intros Hlt. unfold Matrix4_inverse in HN. cbv zeta in HN.
    unfold Matrix4_determinant in Hlt. cbv zeta in Hlt.
    destruct (Rlt_dec _ _); [discriminate | contradiction]. }
  destruct (Matrix4_inverse_Some M Hdet) as (N' & HN' & _ & Hmul).
  assert (N' = N) as -> by congruence.
  intros v. rewrite <- transform_point_mul_affine by assumption.
  rewrite Hmul. apply identity_transform_point.
Qed.

Lemma view_of_camera_point (W : Matrix4) (q : Vector3) :
  Matrix4_is_affine W -> EPSILON <= Rabs (Matrix4_determinant W) ->
  Matrix4_transform_point (Camera_view_matrix W) (Matrix4_transform_point W q) = q.
Proof.
  intros Ha Hdet. unfold Camera_view_matrix.
  destruct (Matrix4_inverse W) as [N |] eqn:HN.
  - apply (Matrix4_inverse_affine_left W N Ha HN).
  - exfalso. unfold Matrix4_inverse in HN. cbv zeta in HN.
    unfold Matrix4_determinant in Hdet. cbv zeta in Hdet.
    destruct (Rlt_dec _ _) as [Hlt | _]; [lra | discriminate].
Qed.

Lemma fresh_projection_centre (c : Camera) (P : Matrix4) (d : R) :
  Camera_params_in_range c -> 0.01 <= c_ortho_size c ->
  Camera_fresh_projection c = Some P -> 0 < d ->
  vx (Matrix4_transform_point P (mkVector3 0 0 (- d))) = 0 /\
  vy (Matrix4_transform_point P (mkVector3 0 0 (- d))) = 0.
Proof.
  intros (Hf & Ha & Hn) Ho HP Hd. unfold Camera_fresh_projection in HP.
  destruct (c_is_orthographic c).
  - unfold Matrix4_orthographic in HP.
    assert (H1 : c_ortho_size c * c_aspect c - - (c_ortho_size c * c_aspect c) <> 0) by nra.
    assert (H2 : c_ortho_size c - - c_ortho_size c <> 0) by lra.
    rewrite !(py_div_nonzero _ _ H1), !(py_div_nonzero _ _ H2) in HP.
    simpl in HP.
    apply bind_Some in HP as (o22 & _ & HP).
    apply bind_Some in HP as (o23 & _ & HP). injection HP as <-.
    unfold Matrix4_transform_point; simpl.
    destruct (Rlt_dec _ _); split; field; assumption.
  - apply perspective_shape in HP
      as (H01 & H02 & H03 & H10 & H12 & H13 & H30 & H31 & H32 & H33).
    unfold Matrix4_transform_point; cbn [vx vy vz].
    rewrite H01, H02, H03, H10, H12, H13, H30, H31, H32, H33.
    replace (0 * 0 + 0 * 0 + -1 * - d + 0) with d by lra.
    destruct (Rlt_dec (Rabs d) EPSILON); split; field; lra.
Qed.

(** For a camera whose clip distances differ, placed by an invertible affine
    world matrix, the point at distance [d > 0] straight ahead (down the
    camera's negative z axis) projects to the centre of the screen with
    depth [d], and [is_point_visible] holds for it exactly when [d] lies
    between near and far. The mirrored point behind the camera is never
    visible. *)
Theorem Camera_sees_straight_ahead (ops : list CameraOp) (c : Camera)
    (W : Matrix4) (d : R) (sw sh : Z) :
  Camera_exec ops Camera_init = Some c -> c_far c <> c_near c ->
  Matrix4_is_affine W -> EPSILON <= Rabs (Matrix4_determinant W) -> 0 < d ->
  (exists x y c',
     Camera_world_to_screen c W (Matrix4_transform_point W (mkVector3 0 0 (- d))) sw sh =
       Some (Some (x, y, d), c') /\
     x = IZR sw / 2 /\ y = IZR sh / 2) /\
  (exists b c',
     Camera_is_point_visible c W (Matrix4_transform_point W (mkVector3 0 0 (- d))) =
       Some (b, c') /\
     (b = true <-> c_near c <= d <= c_far c)) /\
  Camera_is_point_visible c W (Matrix4_transform_point W (mkVector3 0 0 d)) =
    Some (false, c).
Proof.
  intros Hex Hfar Ha Hdet Hd.
  pose proof (Camera_ok_exec ops _ _ Camera_ok_init Hex) as Hok.
  pose proof Hok as (Hr & [Ho _] & _).
  destruct (Camera_fresh_projection c) as [P |] eqn:HP;
    [| apply (Camera_fresh_projection_runs c Hr Ho) in HP; contradiction].
  destruct (fresh_projection_centre c P d Hr Ho HP Hd) as [Hx Hy].
  assert (Hscreen : forall w h,
    Camera_world_to_screen c W (Matrix4_transform_point W (mkVector3 0 0 (- d))) w h =
    Some (Some ((0 + 1) * 0.5 * IZR w, (1 - 0) * 0.5 * IZR h, d),
          Camera_store_projection c P)).
  { intros w h. unfold Camera_world_to_screen.
    rewrite (view_of_camera_point W _ Ha Hdet). cbn [vz].
    destruct (Rge_dec (- d) 0) as [Hge | _]; [lra |].
    rewrite (Camera_projection_matrix_fresh c Hok), HP. cbn [mbind option_bind].
    rewrite Hx, Hy. rewrite Ropp_involutive. reflexivity. }
  split; [| split].
  - do 3 eexists. split; [apply Hscreen |]. split; lra.
  - unfold Camera_is_point_visible. rewrite Hscreen. cbn [mbind option_bind].
    eexists. eexists. split; [reflexivity |].
    replace ((0 + 1) * 0.5 * 100) with 50 by lra.
    replace ((1 - 0) * 0.5 * 100) with 50 by lra.
    rewrite !(Rleb_true 0 50), !(Rleb_true 50 100) by lra. simpl.
    unfold Rleb.
    destruct (Rle_dec (c_near c) d); destruct (Rle_dec d (c_far c)); simpl;
      split; intros H; try discriminate; try reflexivity; lra.
  - unfold Camera_is_point_visible, Camera_world_to_screen.
    rewrite (view_of_camera_point W _ Ha Hdet). cbn [vz].
    destruct (Rge_dec d 0) as [_ | Hlt]; [reflexivity | lra].
Qed.

Lemma Camera_sees_straight_ahead_witness :
  exists b c',
    Camera_is_point_visible Camera_init Matrix4_identity
      (Matrix4_transform_point Matrix4_identity (mkVector3 0 0 (- 5))) = Some (b, c') /\
    (b = true <-> c_near Camera_init <= 5 <= c_far Camera_init).
Proof.
  apply (proj1 (proj2 (Camera_sees_straight_ahead [] Camera_init Matrix4_identity 5
                         0 0 eq_refl ltac:(simpl; lra)
                         ltac:(unfold Matrix4_is_affine; simpl; auto)
                         ltac:(unfold Matrix4_determinant, EPSILON; simpl;
                               rewrite Rabs_pos_eq; lra)
                         ltac:(lra)))).
Defined.

(** ** Matrix4.perspective and Matrix4.orthographic *)

(** When [perspective] returns a matrix and near, far and [d] are at least
    [EPSILON], [transform_point] sends the points of the near plane to depth
    -1 and those of the far plane to depth 1, and divides the x and y of a
    point at distance [d] by [d] times the half extent of the view. It
    returns a matrix only when far differs from near and
    [aspect * tan (fov / 2)] is not zero. *)
Theorem Matrix4_perspective_planes (fov aspect near far : R) (P : Matrix4)
    (x y d : R) :
  Matrix4_perspective fov aspect near far = Some P ->
  EPSILON <= near -> EPSILON <= far -> EPSILON <= d ->
  vz (Matrix4_transform_point P (mkVector3 x y (- near))) = -1 /\
  vz (Matrix4_transform_point P (mkVector3 x y (- far))) = 1 /\
  vx (Matrix4_transform_point P (mkVector3 x y (- d))) =
    x / (aspect * tan (fov / 2) * d) /\
  vy (Matrix4_transform_point P (mkVector3 x y (- d))) = y / (tan (fov / 2) * d) /\
  far <> near /\ aspect * tan (fov / 2) <> 0.
Proof.
  pose proof EPSILON_pos as He.
  intros HP Hn Hf Hd. unfold Matrix4_perspective in HP.
  apply bind_Some in HP as (p00 & H00 & HP).
  apply bind_Some in HP as (p11 & H11 & HP).
  apply bind_Some in HP as (p22 & H22 & HP).
  apply bind_Some in HP as (p23 & H23 & HP). injection HP as <-.
  unfold py_div in *.
  destruct (Req_dec_T (aspect * tan (fov / 2)) 0) as [| Hat]; [discriminate |].
  destruct (Req_dec_T (tan (fov / 2)) 0) as [| Ht]; [discriminate |].
  destruct (Req_dec_T (far - near) 0) as [| Hfn]; [discriminate |].
  injection H00 as <-. injection H11 as <-. injection H22 as <-. injection H23 as <-.
  assert (Ha : aspect <> 0) by (intros ->; apply Hat; ring).
  assert (Hw : forall z, EPSILON <= z ->
            (if Rlt_dec (Rabs (0 * x + 0 * y + -1 * - z + 0)) EPSILON then 1
             else 0 * x + 0 * y + -1 * - z + 0) = z).
  { intros z Hz. replace (0 * x + 0 * y + -1 * - z + 0) with z by lra.
    rewrite Rabs_pos_eq by lra. destruct (Rlt_dec z EPSILON); lra. }
  unfold Matrix4_transform_point; cbn [vx vy vz m00 m01 m02 m03 m10 m11 m12 m13
                                         m20 m21 m22 m23 m30 m31 m32 m33].
  rewrite !Hw by assumption.
  repeat split; try (field; repeat split; lra); try assumption.
  intros Heq. apply Hfn. lra.
Qed.

Lemma Matrix4_perspective_planes_witness :
  exists P, Matrix4_perspective (PI / 2) 1 1 3 = Some P /\
    vz (Matrix4_transform_point P (mkVector3 0 0 (- 1))) = -1 /\
    vz (Matrix4_transform_point P (mkVector3 0 0 (- 3))) = 1.
Proof.
  destruct (Matrix4_perspective_ok (PI / 2) 1 1 3) as [P HP];
    try (pose proof PI_RGT_0; lra).
  exists P. split; [exact HP |].
  destruct (Matrix4_perspective_planes (PI / 2) 1 1 3 P 0 0 1 HP) as (H1 & H2 & _);
    try (unfold EPSILON; lra).
  split; assumption.
Defined.

(** When [orthographic] returns a matrix, the matrix is affine and maps the
    corner (left, bottom, -near) to (-1, -1, -1) and the corner
    (right, top, -far) to (1, 1, 1); it returns one only when the three
    extents are not zero. *)
Theorem Matrix4_orthographic_box (left right bottom top near far : R) (P : Matrix4) :
  Matrix4_orthographic left right bottom top near far = Some P ->
  Matrix4_is_affine P /\
  Matrix4_transform_point P (mkVector3 left bottom (- near)) = mkVector3 (-1) (-1) (-1) /\
  Matrix4_transform_point P (mkVector3 right top (- far)) = mkVector3 1 1 1 /\
  right <> left /\ top <> bottom /\ far <> near.
Proof.
  intros HP. unfold Matrix4_orthographic in HP.
  apply bind_Some in HP as (o00 & H00 & HP).
  apply bind_Some in HP as (o11 & H11 & HP).
  apply bind_Some in HP as (o22 & H22 & HP).
  apply bind_Some in HP as (o03 & H03 & HP).
  apply bind_Some in HP as (o13 & H13 & HP).
  apply bind_Some in HP as (o23 & H23 & HP). injection HP as <-.
  unfold py_div in *.
  destruct (Req_dec_T (right - left) 0) as [| Hrl]; [discriminate |].
  destruct (Req_dec_T (top - bottom) 0) as [| Htb]; [discriminate |].
  destruct (Req_dec_T (far - near) 0) as [| Hfn]; [discriminate |].
  injection H00 as <-. injection H11 as <-. injection H22 as <-.
  injection H03 as <-. injection H13 as <-. injection H23 as <-.
  assert (Haff : Matrix4_is_affine
            (mkMatrix4 (2 / (right - left)) 0 0 (- (right + left) / (right - left))
                       0 (2 / (top - bottom)) 0 (- (top + bottom) / (top - bottom))
                       0 0 (-2 / (far - near)) (- (far + near) / (far - near))
                       0 0 0 1)).
  { unfold Matrix4_is_affine; simpl; auto. }
  split; [exact Haff |].
  rewrite !Matrix4_transform_point_affine by exact Haff.
  repeat split; try (apply Vector3_eq; simpl; field; assumption);
    intros Heq; lra.
Qed.

Lemma Matrix4_orthographic_box_witness :
  exists P, Matrix4_orthographic (-1) 1 (-1) 1 1 3 = Some P /\
    Matrix4_is_affine P /\
    Matrix4_transform_point P (mkVector3 (-1) (-1) (- 1)) = mkVector3 (-1) (-1) (-1) /\
    Matrix4_transform_point P (mkVector3 1 1 (- 3)) = mkVector3 1 1 1 /\
    1 <> -1 /\ 1 <> -1 /\ 3 <> 1.
Proof.
  assert (H : exists P, Matrix4_orthographic (-1) 1 (-1) 1 1 3 = Some P).
  { unfold Matrix4_orthographic. rewrite !py_div_nonzero by lra. simpl. eauto. }
  destruct H as [P HP]. exists P. split; [exact HP |].
  exact (Matrix4_orthographic_box _ _ _ _ _ _ P HP).
Defined.

(** ** WireframeRenderer: the depth buffer only goes down *)

Lemma depth_lt_spec (d : R) (cell : DepthCell) :
  depth_lt d cell = true <-> depth_cell_lt (Finite d) cell.
Proof.
  destruct cell as [x |]; simpl; [| tauto]. unfold Rltb.
  destruct (Rlt_dec d x); split; intros; try discriminate; try reflexivity; tauto.
Qed.

Lemma depth_cell_lt_trans a b c :
  depth_cell_lt a b -> depth_cell_lt b c -> depth_cell_lt a c.
Proof. destruct a, b, c; simpl; try tauto; lra. Qed.

Lemma same_frame_refl r : well_shaped r -> same_frame r r.
Proof. intros H. repeat split; auto; apply H. Qed.

Lemma same_frame_trans r1 r2 r3 :
  same_frame r1 r2 -> same_frame r2 r3 -> same_frame r1 r3.
Proof.
  intros (_ & W1 & H1 & D1 & C1) (S2 & W2 & H2 & D2 & C2).
  split; [exact S2 |]. repeat split; congruence.
Qed.

(** One depth-tested write of [ch], [k] at depth [dep] on the pixel (x, y). *)
Lemma tested_write r x y ch k dep :
  well_shaped r -> r_depth_testing r = true ->
  let r' :=
    if in_bounds r x y then
      if negb (r_depth_testing r)
         || match grid_get (r_depth_buffer r) y x with
            | Some stored => depth_lt dep stored
            | None => false
            end
      then
        mkRenderer (r_width r) (r_height r)
          (grid_set (r_char_buffer r) y x ch)
          (grid_set (r_depth_buffer r) y x (Finite dep))
          (grid_set (r_color_buffer r) y x k)
          (r_camera r) (r_depth_testing r)
      else r
    else r in
  same_frame r r' /\
  forall px py, in_bounds r px py = true ->
    pixel r' px py = pixel r px py \/
    ((px, py) = (x, y) /\ pixel r' px py = Some (ch, Finite dep, k) /\
     pixel_lowered_to r r' px py dep).
Proof.
  intros Hs Hdt. cbv zeta.
  destruct (in_bounds r x y) eqn:Hxy; [| split; [apply same_frame_refl, Hs | auto]].
  rewrite Hdt. simpl.
  destruct (grid_get (r_depth_buffer r) y x) as [stored |] eqn:Hst;
    [| split; [apply same_frame_refl, Hs | auto]].
  destruct (depth_lt dep stored) eqn:Hlt;
    [| split; [apply same_frame_refl, Hs | auto]].
  pose proof Hs as (Hc & Hd & Hk).
  apply in_bounds_spec in Hxy.
  split.
  - split; [| simpl; auto].
    split; [| split]; simpl; apply grid_set_shaped; assumption.
  - intros px py Hin. apply in_bounds_spec in Hin.
    destruct (decide ((x, y) = (px, py))) as [[= <- <-] | Hne].
    + right. split; [reflexivity |].
      unfold pixel, pixel_lowered_to; simpl.
      rewrite (grid_get_set_eq _ _ _ _ _ _ Hc), (grid_get_set_eq _ _ _ _ _ _ Hd),
        (grid_get_set_eq _ _ _ _ _ _ Hk) by lia.
      split; [reflexivity |]. exists stored. split; [exact Hst |].
      split; [reflexivity |]. apply depth_lt_spec, Hlt.
    + left. unfold pixel; simpl.
      rewrite !grid_get_set_ne by (try lia; exact Hne). reflexivity.
Qed.

Lemma in_bounds_frame r r' x y :
  same_frame r r' -> in_bounds r' x y = in_bounds r x y.
Proof. intros (_ & W & H & _). unfold in_bounds. rewrite W, H. reflexivity. Qed.

Lemma pixel_depth r x y ch d k :
  pixel r x y = Some (ch, d, k) -> grid_get (r_depth_buffer r) y x = Some d.
Proof.
  unfold pixel. intros H.
  apply bind_Some in H as (ch' & _ & H).
  apply bind_Some in H as (d' & Hd & H).
  apply bind_Some in H as (k' & _ & H). congruence.
Qed.

Lemma pixel_same_depth r r' x y :
  pixel r' x y = pixel r x y -> is_Some (pixel r x y) ->
  grid_get (r_depth_buffer r') y x = grid_get (r_depth_buffer r) y x.
Proof.
  intros Heq [[[ch d] k] Hp]. rewrite Hp in Heq.
  rewrite (pixel_depth _ _ _ _ _ _ Hp), (pixel_depth _ _ _ _ _ _ Heq). reflexivity.
Qed.

Lemma pixel_is_Some r x y :
  well_shaped r -> in_bounds r x y = true -> is_Some (pixel r x y).
Proof.
  intros (Hc & Hd & Hk) Hin. apply in_bounds_spec in Hin. unfold pixel.
  destruct (grid_get_is_Some _ _ _ y x Hc) as [ch ->]; [lia | lia |].
  destruct (grid_get_is_Some _ _ _ y x Hd) as [d ->]; [lia | lia |].
  destruct (grid_get_is_Some _ _ _ y x Hk) as [k ->]; [lia | lia |].
  simpl. eauto.
Qed.

(** The pixels of an edge's path, drawn one after the other. *)
Lemma fold_plot_lowers edge x1 y1 dx dy ms (L : list (Z * Z * Z)) :
  forall r, well_shaped r -> r_depth_testing r = true ->
    let r' := fold_left (edge_plot edge x1 y1 dx dy ms) L r in
    same_frame r r' /\
    forall px py, in_bounds r px py = true ->
      pixel r' px py = pixel r px py \/
      exists st, In (px, py, st) L /\
        pixel_lowered_to r r' px py (edge_depth_at edge ms st) /\
        exists ch, pixel r' px py =
          Some (ch, Finite (edge_depth_at edge ms st), Some (pe_color edge)).
Proof.
  induction L as [| [[x y] st] L IH]; intros r Hs Hdt; simpl.
  - split; [apply same_frame_refl, Hs | auto].
  - pose proof (tested_write r x y (Renderer_get_edge_char x y x1 y1 dx dy)
                  (Some (pe_color edge)) (edge_depth_at edge ms st) Hs Hdt) as Hw.
    cbv zeta in Hw. fold (draw_edge_pixel edge x1 y1 dx dy ms r x y st) in Hw.
    set (r1 := draw_edge_pixel edge x1 y1 dx dy ms r x y st) in *.
    destruct Hw as [Hf1 Hp1].
    pose proof Hf1 as (Hs1 & _ & _ & Hdt1 & _).
    destruct (IH r1 Hs1 ltac:(congruence)) as [Hf2 Hp2].
    split; [eapply same_frame_trans; eauto |].
    intros px py Hin.
    assert (Hin1 : in_bounds r1 px py = true) by (rewrite (in_bounds_frame r r1); auto).
    destruct (Hp2 px py Hin1) as [Heq2 | (st2 & Hst2 & Hlow2 & ch2 & Hpix2)].
    + destruct (Hp1 px py Hin) as [Heq1 | ([= <- <-] & Hpix1 & Hlow1)].
      * left. congruence.
      * right. exists st. split; [left; reflexivity |].
        assert (Hd2 : grid_get (r_depth_buffer
                        (fold_left (edge_plot edge x1 y1 dx dy ms) L r1)) py px =
                      grid_get (r_depth_buffer r1) py px).
        { apply pixel_same_depth; [exact Heq2 | rewrite Hpix1; eauto]. }
        split.
        -- destruct Hlow1 as (d0 & Hd0 & Hd1 & Hlt). exists d0.
           split; [exact Hd0 |]. split; [congruence | exact Hlt].
        -- eexists. rewrite Heq2. exact Hpix1.
    + right. exists st2. split; [right; exact Hst2 |].
      split; [| eauto].
      destruct Hlow2 as (d1 & Hd1 & Hd2 & Hlt2).
      destruct (Hp1 px py Hin) as [Heq1 | (_ & _ & (d0 & Hd0 & Hd1' & Hlt1))].
      * exists d1. split; [| split; [exact Hd2 | exact Hlt2]].
        rewrite <- Hd1. symmetry. apply pixel_same_depth; [exact Heq1 |].
        apply pixel_is_Some; assumption.
      * exists d0. split; [exact Hd0 |]. split; [exact Hd2 |].
        assert (d1 = Finite (edge_depth_at edge ms st)) as -> by congruence.
        eapply depth_cell_lt_trans; eauto.
Qed.

(** With depth testing on and buffers of the renderer's size, [_draw_edge]
    and [_draw_point] keep the size of the buffers, and each pixel is either
    left as it was or now holds a strictly smaller depth, written together
    with the colour of the edge or point that reached it. *)
Theorem depth_tested_drawing_only_lowers (r : Renderer) :
  well_shaped r -> r_depth_testing r = true ->
  (forall edge,
     same_frame r (Renderer_draw_edge r edge) /\
     forall px py, in_bounds r px py = true ->
       pixel (Renderer_draw_edge r edge) px py = pixel r px py \/
       exists st, In (px, py, st) (edge_steps edge) /\
         pixel_lowered_to r (Renderer_draw_edge r edge) px py
           (edge_depth_at edge (edge_max_steps edge) st) /\
         exists ch, pixel (Renderer_draw_edge r edge) px py =
           Some (ch, Finite (edge_depth_at edge (edge_max_steps edge) st),
                 Some (pe_color edge))) /\
  (forall pv color,
     same_frame r (Renderer_draw_point r pv color) /\
     forall px py, in_bounds r px py = true ->
       pixel (Renderer_draw_point r pv color) px py = pixel r px py \/
       ((px, py) = (py_int (pv_screen_x pv), py_int (pv_screen_y pv)) /\
        pixel (Renderer_draw_point r pv color) px py =
          Some (point_char, Finite (pv_depth pv), Some color) /\
        pixel_lowered_to r (Renderer_draw_point r pv color) px py (pv_depth pv))).
Proof.
  intros Hs Hdt. split.
  - intros edge. unfold Renderer_draw_edge. cbv zeta.
    rewrite draw_edge_loop_fold.
    apply (fold_plot_lowers edge _ _ _ _ _ _ r Hs Hdt).
  - intros pv color.
    apply (tested_write r (py_int (pv_screen_x pv)) (py_int (pv_screen_y pv))
             point_char (Some color) (pv_depth pv) Hs Hdt).
Qed.

Lemma depth_tested_drawing_only_lowers_witness :
  let r := Renderer_init 3 3 in
  (forall edge,
     same_frame r (Renderer_draw_edge r edge) /\
     forall px py, in_bounds r px py = true ->
       pixel (Renderer_draw_edge r edge) px py = pixel r px py \/
       exists st, In (px, py, st) (edge_steps edge) /\
         pixel_lowered_to r (Renderer_draw_edge r edge) px py
           (edge_depth_at edge (edge_max_steps edge) st) /\
         exists ch, pixel (Renderer_draw_edge r edge) px py =
           Some (ch, Finite (edge_depth_at edge (edge_max_steps edge) st),
                 Some (pe_color edge))) /\
  (forall pv color,
     same_frame r (Renderer_draw_point r pv color) /\
     forall px py, in_bounds r px py = true ->
       pixel (Renderer_draw_point r pv color) px py = pixel r px py \/
       ((px, py) = (py_int (pv_screen_x pv), py_int (pv_screen_y pv)) /\
        pixel (Renderer_draw_point r pv color) px py =
          Some (point_char, Finite (pv_depth pv), Some color) /\
        pixel_lowered_to r (Renderer_draw_point r pv color) px py (pv_depth pv))).
Proof.
  apply (depth_tested_drawing_only_lowers (Renderer_init 3 3)).
  - apply Renderer_clear_shaped.
  - reflexivity.
Defined.

(** ** Mesh *)

Lemma Vertex_copy_id (v : Vertex) : Vertex_copy v = v.
Proof.
  destruct v as [p n uv c]. unfold Vertex_copy; simpl.
  rewrite Vector3_copy_id. destruct n as [n |]; simpl; [rewrite Vector3_copy_id |];
    reflexivity.
Qed.

Lemma Vertex_copy_map (l : list Vertex) : Vertex_copy <$> l = l.
Proof.
  induction l as [| v l IH]; [reflexivity |].
  rewrite fmap_cons, IH, Vertex_copy_id. reflexivity.
Qed.

Lemma py_list_get_Some {A : Type} (l : list A) (i : Z) :
  is_Some (py_list_get l i) <->
  (- Z.of_nat (length l) <= i < Z.of_nat (length l))%Z.
Proof.
  unfold py_list_get. cbv zeta.
  destruct (Z.leb_spec 0 i) as [Hi | Hi].
  - rewrite lookup_lt_is_Some. lia.
  - destruct (Z.leb_spec (- Z.of_nat (length l)) i) as [Hn | Hn].
    + rewrite lookup_lt_is_Some. lia.
    + split; [intros [x Hx]; discriminate | lia].
Qed.

Lemma bounds_loop_spec (rest : list Vertex) : forall bmin bmax seen,
  (forall p, In p seen -> Vector3_le bmin p /\ Vector3_le p bmax) ->
  (exists p, In p seen /\ vx p = vx bmin) -> (exists p, In p seen /\ vy p = vy bmin) ->
  (exists p, In p seen /\ vz p = vz bmin) ->
  (exists p, In p seen /\ vx p = vx bmax) -> (exists p, In p seen /\ vy p = vy bmax) ->
  (exists p, In p seen /\ vz p = vz bmax) ->
  let all := (seen ++ map vt_position rest)%list in
  let r := bounds_loop rest (bmin, bmax) in
  (forall p, In p all -> Vector3_le r.1 p /\ Vector3_le p r.2) /\
  (exists p, In p all /\ vx p = vx r.1) /\ (exists p, In p all /\ vy p = vy r.1) /\
  (exists p, In p all /\ vz p = vz r.1) /\
  (exists p, In p all /\ vx p = vx r.2) /\ (exists p, In p all /\ vy p = vy r.2) /\
  (exists p, In p all /\ vz p = vz r.2).
Proof.
  induction rest as [| v rest IH]; intros bmin bmax seen Hall H1 H2 H3 H4 H5 H6.
  - simpl. rewrite app_nil_r. repeat split; try assumption; apply Hall; assumption.
  - cbv zeta.
    replace (seen ++ map vt_position (v :: rest))%list
      with ((seen ++ [vt_position v]) ++ map vt_position rest)%list
      by (rewrite <- app_assoc; reflexivity).
    unfold bounds_loop. cbn [fold_left].
    apply (IH (Vector3_component_min bmin (vt_position v))
              (Vector3_component_max bmax (vt_position v))
              (seen ++ [vt_position v])%list).
    + intros p Hp. unfold Vector3_le, Vector3_component_min, Vector3_component_max; simpl.
      apply in_app_or in Hp as [Hp | Hp].
      * destruct (Hall p Hp) as [(? & ? & ?) (? & ? & ?)].
        destruct (py_min_cases (vx bmin) (vx (vt_position v))) as [[? ->] | [? ->]];
        destruct (py_min_cases (vy bmin) (vy (vt_position v))) as [[? ->] | [? ->]];
        destruct (py_min_cases (vz bmin) (vz (vt_position v))) as [[? ->] | [? ->]];
        destruct (py_max_cases (vx bmax) (vx (vt_position v))) as [[? ->] | [? ->]];
        destruct (py_max_cases (vy bmax) (vy (vt_position v))) as [[? ->] | [? ->]];
        destruct (py_max_cases (vz bmax) (vz (vt_position v))) as [[? ->] | [? ->]];
        repeat split; lra.
      * destruct Hp as [<- | []].
        destruct (py_min_cases (vx bmin) (vx (vt_position v))) as [[? ->] | [? ->]];
        destruct (py_min_cases (vy bmin) (vy (vt_position v))) as [[? ->] | [? ->]];
        destruct (py_min_cases (vz bmin) (vz (vt_position v))) as [[? ->] | [? ->]];
        destruct (py_max_cases (vx bmax) (vx (vt_position v))) as [[? ->] | [? ->]];
        destruct (py_max_cases (vy bmax) (vy (vt_position v))) as [[? ->] | [? ->]];
        destruct (py_max_cases (vz bmax) (vz (vt_position v))) as [[? ->] | [? ->]];
        repeat split; lra.
    + simpl. destruct (py_min_cases (vx bmin) (vx (vt_position v))) as [[? ->] | [? ->]].
      * exists (vt_position v). split; [apply in_or_app; right; left |]; reflexivity.
      * destruct H1 as (p & Hp & He). exists p. split; [apply in_or_app; left |]; assumption.
    + simpl. destruct (py_min_cases (vy bmin) (vy (vt_position v))) as [[? ->] | [? ->]].
      * exists (vt_position v). split; [apply in_or_app; right; left |]; reflexivity.
      * destruct H2 as (p & Hp & He). exists p. split; [apply in_or_app; left |]; assumption.
    + simpl. destruct (py_min_cases (vz bmin) (vz (vt_position v))) as [[? ->] | [? ->]].
      * exists (vt_position v). split; [apply in_or_app; right; left |]; reflexivity.
      * destruct H3 as (p & Hp & He). exists p. split; [apply in_or_app; left |]; assumption.
    + simpl. destruct (py_max_cases (vx bmax) (vx (vt_position v))) as [[? ->] | [? ->]].
      * exists (vt_position v). split; [apply in_or_app; right; left |]; reflexivity.
      * destruct H4 as (p & Hp & He). exists p. split; [apply in_or_app; left |]; assumption.
    + simpl. destruct (py_max_cases (vy bmax) (vy (vt_position v))) as [[? ->] | [? ->]].
      * exists (vt_position v). split; [apply in_or_app; right; left |]; reflexivity.
      * destruct H5 as (p & Hp & He). exists p. split; [apply in_or_app; left |]; assumption.
    + simpl. destruct (py_max_cases (vz bmax) (vz (vt_position v))) as [[? ->] | [? ->]].
      * exists (vt_position v). split; [apply in_or_app; right; left |]; reflexivity.
      * destruct H6 as (p & Hp & He). exists p. split; [apply in_or_app; left |]; assumption.
Qed.

Lemma Mesh_ok_dirty (m : Mesh) : mesh_bounds_dirty m = true -> Mesh_ok m.
Proof. intros H Hd. congruence. Qed.

Lemma Mesh_recompute_fields (m : Mesh) :
  mesh_vertices (Mesh_recompute_bounds m) = mesh_vertices m /\
  mesh_edges (Mesh_recompute_bounds m) = mesh_edges m /\
  mesh_faces (Mesh_recompute_bounds m) = mesh_faces m /\
  mesh_bounds_dirty (Mesh_recompute_bounds m) = false.
Proof.
  unfold Mesh_recompute_bounds.
  destruct (mesh_vertices m) as [| v0 rest]; [simpl; auto |].
  destruct (bounds_loop rest _) as [bmin bmax]. simpl; auto.
Qed.

Lemma Mesh_recompute_same_vertices (m m' : Mesh) :
  mesh_vertices m' = mesh_vertices m ->
  mesh_bounds_min (Mesh_recompute_bounds m') = mesh_bounds_min (Mesh_recompute_bounds m) /\
  mesh_bounds_max (Mesh_recompute_bounds m') = mesh_bounds_max (Mesh_recompute_bounds m).
Proof.
  intros H. unfold Mesh_recompute_bounds. rewrite H.
  destruct (mesh_vertices m) as [| v0 rest]; [simpl; auto |].
  destruct (bounds_loop rest _) as [bmin bmax]. simpl; auto.
Qed.

Lemma Mesh_ok_same (m m' : Mesh) :
  mesh_vertices m' = mesh_vertices m -> mesh_bounds_min m' = mesh_bounds_min m ->
  mesh_bounds_max m' = mesh_bounds_max m -> mesh_bounds_dirty m' = mesh_bounds_dirty m ->
  Mesh_ok m -> Mesh_ok m'.
Proof.
  intros Hv Hmin Hmax Hd Hok Hd'. rewrite Hd in Hd'. destruct (Hok Hd') as [H1 H2].
  destruct (Mesh_recompute_same_vertices m m' Hv) as [-> ->].
  rewrite Hmin, Hmax. auto.
Qed.

Lemma Mesh_add_edge_ok (m : Mesh) v1 v2 color thickness style :
  Mesh_ok m -> Mesh_ok (Mesh_add_edge m v1 v2 color thickness style).2.
Proof. apply Mesh_ok_same; reflexivity. Qed.

Lemma Mesh_add_face_ok (m m' : Mesh) idxs color idx :
  Mesh_add_face m idxs color = Some (idx, m') -> Mesh_ok m -> Mesh_ok m'.
Proof.
  unfold Mesh_add_face. cbv zeta. intros H.
  apply bind_Some in H as (normal & _ & H). injection H as _ <-.
  apply Mesh_ok_same; reflexivity.
Qed.

Lemma Mesh_get_bounds_ok (m : Mesh) : Mesh_ok m -> Mesh_ok (Mesh_get_bounds m).2.
Proof.
  intros Hok. unfold Mesh_get_bounds. cbv zeta.
  destruct (mesh_bounds_dirty m) eqn:Hd; [| exact Hok].
  cbn [snd]. intros _.
  destruct (Mesh_recompute_same_vertices m (Mesh_recompute_bounds m)
              (proj1 (Mesh_recompute_fields m))) as [-> ->].
  auto.
Qed.

Lemma Mesh_add_triangle_ok (m m' : Mesh) v0 v1 v2 color add_edges idx :
  Mesh_add_triangle m v0 v1 v2 color add_edges = Some (idx, m') ->
  Mesh_ok m -> Mesh_ok m'.
Proof.
  unfold Mesh_add_triangle. intros H Hok.
  apply bind_Some in H as ([fi m1] & Hf & H).
  pose proof (Mesh_add_face_ok _ _ _ _ _ Hf Hok) as H1.
  destruct add_edges; injection H as _ <-; [| exact H1].
  revert H1. apply Mesh_ok_same; reflexivity.
Qed.

Lemma Mesh_add_quad_ok (m m' : Mesh) v0 v1 v2 v3 color add_edges idx :
  Mesh_add_quad m v0 v1 v2 v3 color add_edges = Some (idx, m') ->
  Mesh_ok m -> Mesh_ok m'.
Proof.
  unfold Mesh_add_quad. intros H Hok.
  apply bind_Some in H as ([fi m1] & Hf & H).
  pose proof (Mesh_add_face_ok _ _ _ _ _ Hf Hok) as H1.
  destruct add_edges; injection H as _ <-; [| exact H1].
  revert H1. apply Mesh_ok_same; reflexivity.
Qed.

Lemma Mesh_step_ok (op : MeshOp) (m m' : Mesh) :
  Mesh_step op m = Some m' -> Mesh_ok m -> Mesh_ok m'.
Proof.
  destruct op; simpl; intros H Hok.
  - injection H as <-. apply Mesh_ok_dirty. reflexivity.
  - injection H as <-. apply Mesh_add_edge_ok. exact Hok.
  - apply fmap_Some in H as ([idx m1] & H & ->). eapply Mesh_add_face_ok; eauto.
  - apply fmap_Some in H as ([idx m1] & H & ->). eapply Mesh_add_triangle_ok; eauto.
  - apply fmap_Some in H as ([idx m1] & H & ->). eapply Mesh_add_quad_ok; eauto.
  - injection H as <-. apply Mesh_ok_dirty. reflexivity.
  - injection H as <-. apply Mesh_ok_dirty. reflexivity.
  - injection H as <-. apply Mesh_get_bounds_ok. exact Hok.
Qed.

Lemma Mesh_exec_ok (ops : list MeshOp) : forall m m',
  Mesh_exec ops m = Some m' -> Mesh_ok m -> Mesh_ok m'.
Proof.
  induction ops as [| op ops IH]; simpl; intros m m' H Hok.
  - injection H as <-. exact Hok.
  - apply bind_Some in H as (m1 & H1 & H). eapply IH; [exact H |].
    eapply Mesh_step_ok; eauto.
Qed.

Lemma Mesh_recompute_encloses (m : Mesh) :
  let lo := mesh_bounds_min (Mesh_recompute_bounds m) in
  let hi := mesh_bounds_max (Mesh_recompute_bounds m) in
  (mesh_vertices m = [] -> lo = Vector3_zero /\ hi = Vector3_zero) /\
  (forall v, In v (mesh_vertices m) ->
     Vector3_le lo (vt_position v) /\ Vector3_le (vt_position v) hi) /\
  (mesh_vertices m <> [] ->
     (exists v, In v (mesh_vertices m) /\ vx (vt_position v) = vx lo) /\
     (exists v, In v (mesh_vertices m) /\ vy (vt_position v) = vy lo) /\
     (exists v, In v (mesh_vertices m) /\ vz (vt_position v) = vz lo) /\
     (exists v, In v (mesh_vertices m) /\ vx (vt_position v) = vx hi) /\
     (exists v, In v (mesh_vertices m) /\ vy (vt_position v) = vy hi) /\
     (exists v, In v (mesh_vertices m) /\ vz (vt_position v) = vz hi)).
Proof.
  unfold Mesh_recompute_bounds.
  destruct (mesh_vertices m) as [| v0 rest] eqn:Hv.
  - simpl. split; [auto |]. split; [intros v [] | congruence].
  - pose proof (bounds_loop_spec rest (Vector3_copy (vt_position v0))
                  (Vector3_copy (vt_position v0)) [vt_position v0]) as H.
    rewrite Vector3_copy_id in *.
    assert (Hone : forall p, In p [vt_position v0] ->
              Vector3_le (vt_position v0) p /\ Vector3_le p (vt_position v0)).
    { intros p [<- | []]. unfold Vector3_le. lra. }
    assert (Hex : forall g : Vector3 -> R,
              exists p, In p [vt_position v0] /\ g p = g (vt_position v0)).
    { intros g. exists (vt_position v0). split; [left |]; reflexivity. }
    specialize (H Hone (Hex vx) (Hex vy) (Hex vz) (Hex vx) (Hex vy) (Hex vz)).
    cbv zeta in H.
    destruct (bounds_loop rest (vt_position v0, vt_position v0)) as [bmin bmax].
    cbn [fst snd] in H. cbn [mesh_bounds_min mesh_bounds_max].
    destruct H as (Hall & H1 & H2 & H3 & H4 & H5 & H6).
    assert (Hin : forall p, In p ([vt_position v0] ++ map vt_position rest)%list ->
              exists v, In v (v0 :: rest) /\ vt_position v = p).
    { intros p Hp. change ([vt_position v0] ++ map vt_position rest)%list
        with (map vt_position (v0 :: rest)) in Hp.
      apply in_map_iff in Hp as (v & <- & Hv'). eauto. }
    assert (Hlift : forall (g : Vector3 -> R) (x : R),
              (exists p, In p ([vt_position v0] ++ map vt_position rest)%list /\ g p = x) ->
              exists v, In v (v0 :: rest) /\ g (vt_position v) = x).
    { intros g x (p & Hp & Hg). destruct (Hin p Hp) as (v & Hv' & <-). eauto. }
    split; [discriminate |]. split.
    + intros v Hv'. apply Hall.
      change ([vt_position v0] ++ map vt_position rest)%list
        with (map vt_position (v0 :: rest)).
      apply in_map. exact Hv'.
    + intros _. repeat split; apply Hlift; assumption.
Qed.

(** After any sequence of mesh calls, [get_bounds] returns a box that is
    not stale: it is the zero box of an empty mesh, otherwise it encloses
    every vertex and each of its six faces touches one; the vertices are
    left alone and a second call returns the same box. *)
Theorem Mesh_bounds_never_stale (ops : list MeshOp) (name : string) (m : Mesh) :
  Mesh_exec ops (Mesh_init name) = Some m ->
  exists lo hi m',
    Mesh_get_bounds m = (lo, hi, m') /\
    mesh_vertices m' = mesh_vertices m /\
    Mesh_get_bounds m' = (lo, hi, m') /\
    (mesh_vertices m = [] -> lo = Vector3_zero /\ hi = Vector3_zero) /\
    (forall v, In v (mesh_vertices m) ->
       Vector3_le lo (vt_position v) /\ Vector3_le (vt_position v) hi) /\
    (mesh_vertices m <> [] ->
       (exists v, In v (mesh_vertices m) /\ vx (vt_position v) = vx lo) /\
       (exists v, In v (mesh_vertices m) /\ vy (vt_position v) = vy lo) /\
       (exists v, In v (mesh_vertices m) /\ vz (vt_position v) = vz lo) /\
       (exists v, In v (mesh_vertices m) /\ vx (vt_position v) = vx hi) /\
       (exists v, In v (mesh_vertices m) /\ vy (vt_position v) = vy hi) /\
       (exists v, In v (mesh_vertices m) /\ vz (vt_position v) = vz hi)).
Proof.
  intros Hrun.
  assert (Hok : Mesh_ok m).
  { eapply Mesh_exec_ok; [exact Hrun |]. apply Mesh_ok_dirty. reflexivity. }
  pose proof (Mesh_recompute_encloses m) as Henc. cbv zeta in Henc.
  destruct (Mesh_recompute_fields m) as (Hv & _ & _ & Hd').
  unfold Mesh_get_bounds at 1. cbv zeta. rewrite !Vector3_copy_id.
  destruct (mesh_bounds_dirty m) eqn:Hd.
  - eexists _, _, _. split; [reflexivity |]. split; [exact Hv |].
    split; [| exact Henc].
    unfold Mesh_get_bounds. cbv zeta. rewrite Hd', !Vector3_copy_id. reflexivity.
  - destruct (Hok Hd) as [Hmin Hmax].
    eexists _, _, _. split; [reflexivity |]. split; [reflexivity |].
    split; [| rewrite Hmin, Hmax; exact Henc].
    unfold Mesh_get_bounds. cbv zeta. rewrite Hd, !Vector3_copy_id. reflexivity.
Qed.

Lemma Mesh_bounds_never_stale_witness :
  let m1 := (Mesh_add_vertex (Mesh_init "m") (mkVector3 1 2 3) None None None).2 in
  let m := (Mesh_add_vertex m1 (mkVector3 (-1) 5 0) None None None).2 in
  exists lo hi m',
    Mesh_get_bounds m = (lo, hi, m') /\
    mesh_vertices m' = mesh_vertices m /\
    Mesh_get_bounds m' = (lo, hi, m') /\
    (mesh_vertices m = [] -> lo = Vector3_zero /\ hi = Vector3_zero) /\
    (forall v, In v (mesh_vertices m) ->
       Vector3_le lo (vt_position v) /\ Vector3_le (vt_position v) hi) /\
    (mesh_vertices m <> [] ->
       (exists v, In v (mesh_vertices m) /\ vx (vt_position v) = vx lo) /\
       (exists v, In v (mesh_vertices m) /\ vy (vt_position v) = vy lo) /\
       (exists v, In v (mesh_vertices m) /\ vz (vt_position v) = vz lo) /\
       (exists v, In v (mesh_vertices m) /\ vx (vt_position v) = vx hi) /\
       (exists v, In v (mesh_vertices m) /\ vy (vt_position v) = vy hi) /\
       (exists v, In v (mesh_vertices m) /\ vz (vt_position v) = vz hi)).
Proof.
  apply (Mesh_bounds_never_stale
           [MAddVertex (mkVector3 1 2 3) None None None;
            MAddVertex (mkVector3 (-1) 5 0) None None None] "m").
  reflexivity.
Defined.

Lemma py_list_get_app_l {A : Type} (l1 l2 : list A) (i : Z) :
  index_in_range (length l1) i -> py_list_get (l1 ++ l2) i = py_list_get l1 i.
Proof.
  unfold index_in_range, py_list_get. cbv zeta. intros Hi.
  destruct (Z.leb_spec 0 i); [| lia].
  apply lookup_app_l. lia.
Qed.

Lemma py_list_get_app_r {A : Type} (l1 l2 : list A) (i : Z) :
  (0 <= i)%Z ->
  py_list_get (l1 ++ l2) (i + Z.of_nat (length l1)) = py_list_get l2 i.
Proof.
  unfold py_list_get. cbv zeta. intros Hi.
  destruct (Z.leb_spec 0 i); [| lia].
  destruct (Z.leb_spec 0 (i + Z.of_nat (length l1))); [| lia].
  rewrite lookup_app_r by lia. f_equal. lia.
Qed.

(** [merge] appends the other mesh's vertices and shifts its edge and face
    indices by the old vertex count. Indices that are in range without
    counting from the end stay so and name the same vertices as before; a
    negative index of the other mesh ends up naming a vertex of this mesh
    instead. The bounds cache is marked dirty. *)
Theorem Mesh_merge_indices (m other : Mesh) :
  let off := Z.of_nat (length (mesh_vertices m)) in
  let r := Mesh_merge m other in
  mesh_vertices r = mesh_vertices m ++ mesh_vertices other /\
  mesh_bounds_dirty r = true /\
  (Mesh_indices_ok m -> Mesh_indices_ok other -> Mesh_indices_ok r) /\
  (forall i, index_in_range (length (mesh_vertices m)) i ->
     py_list_get (mesh_vertices r) i = py_list_get (mesh_vertices m) i) /\
  (forall i, (0 <= i)%Z ->
     py_list_get (mesh_vertices r) (i + off) = py_list_get (mesh_vertices other) i) /\
  (forall i, (- off <= i < 0)%Z ->
     py_list_get (mesh_vertices r) (i + off) = py_list_get (mesh_vertices m) (i + off) /\
     is_Some (py_list_get (mesh_vertices m) (i + off))) /\
  (forall k, (k < length (mesh_edges m))%nat -> mesh_edges r !! k = mesh_edges m !! k) /\
  (forall k edge, mesh_edges other !! k = Some edge ->
     mesh_edges r !! (length (mesh_edges m) + k)%nat =
       Some (mkEdge (ed_v1_idx edge + off) (ed_v2_idx edge + off)
                    (ed_color edge) (ed_thickness edge) (ed_style edge))) /\
  (forall k, (k < length (mesh_faces m))%nat -> mesh_faces r !! k = mesh_faces m !! k) /\
  (forall k face, mesh_faces other !! k = Some face ->
     mesh_faces r !! (length (mesh_faces m) + k)%nat =
       Some (mkFace ((fun idx => idx + off)%Z <$> fc_vertex_indices face)
                    (fc_normal face) (fc_color face) (fc_visible face))).
Proof.
  cbv zeta. unfold Mesh_merge. cbv zeta. cbn [mesh_vertices mesh_edges mesh_faces mesh_bounds_dirty].
  rewrite Vertex_copy_map.
  split; [reflexivity |]. split; [reflexivity |]. split.
  { intros [He Hf] [He' Hf']. unfold Mesh_indices_ok. cbv zeta.
    cbn [mesh_vertices mesh_edges mesh_faces]. rewrite length_app.
    unfold index_in_range in *. split.
    - apply Forall_app. split.
      + eapply Forall_impl; [exact He |]. cbv beta. intros e [? ?]. lia.
      + apply Forall_fmap. eapply Forall_impl; [exact He' |]. cbv beta.
        intros e [? ?]. simpl. lia.
    - apply Forall_app. split.
      + eapply Forall_impl; [exact Hf |]. cbv beta. intros f Hi.
        eapply Forall_impl; [exact Hi |]. cbv beta. intros i ?. lia.
      + apply Forall_fmap. eapply Forall_impl; [exact Hf' |]. cbv beta.
        intros f Hi. simpl. apply Forall_fmap.
        eapply Forall_impl; [exact Hi |]. cbv beta. intros i ?. simpl. lia. }
  split; [intros i Hi; apply py_list_get_app_l; exact Hi |].
  split; [intros i Hi; apply py_list_get_app_r; exact Hi |].
  split.
  { intros i Hi.
    assert (Hr : index_in_range (length (mesh_vertices m))
                   (i + Z.of_nat (length (mesh_vertices m)))).
    { unfold index_in_range. lia. }
    split; [apply py_list_get_app_l; exact Hr |].
    apply py_list_get_Some. unfold index_in_range in Hr. lia. }
  split; [intros k Hk; apply lookup_app_l; exact Hk |].
  split.
  { intros k edge Hk. rewrite lookup_app_r by lia.
    replace (length (mesh_edges m) + k - length (mesh_edges m))%nat with k by lia.
    rewrite list_lookup_fmap, Hk. reflexivity. }
  split; [intros k Hk; apply lookup_app_l; exact Hk |].
  intros k face Hk. rewrite lookup_app_r by lia.
  replace (length (mesh_faces m) + k - length (mesh_faces m))%nat with k by lia.
  rewrite list_lookup_fmap, Hk. simpl.
  destruct (fc_normal face) as [nrm |]; simpl; [rewrite Vector3_copy_id |]; reflexivity.
Qed.

Lemma Mesh_merge_indices_witness :
  let m := (Mesh_add_vertex (Mesh_init "a") (mkVector3 1 2 3) None None None).2 in
  let other := (Mesh_add_edge
                  (Mesh_add_vertex (Mesh_init "b") (mkVector3 4 5 6) None None None).2
                  0 (-1) None 1 "solid").2 in
  py_list_get (mesh_vertices (Mesh_merge m other)) (0 + 1) =
    py_list_get (mesh_vertices other) 0 /\
  (py_list_get (mesh_vertices (Mesh_merge m other)) (-1 + 1) =
     py_list_get (mesh_vertices m) (-1 + 1) /\
   is_Some (py_list_get (mesh_vertices m) (-1 + 1))).
Proof.
  intros m other.
  destruct (Mesh_merge_indices m other) as (_ & _ & _ & _ & Hpos & Hneg & _).
  split; [apply (Hpos 0%Z); lia | apply (Hneg (-1)%Z); simpl; lia].
Defined.

Lemma Face_calculate_normal_spec (v0 v1 v2 : Z) (rest : list Z) (vertices : list Vertex) :
  let n := Z.of_nat (length vertices) in
  (Face_calculate_normal (v0 :: v1 :: v2 :: rest) vertices = None <->
     ~ ((- n <= v0 < n) /\ (- n <= v1 < n) /\ (- n <= v2 < n))%Z) /\
  (forall normal, Face_calculate_normal (v0 :: v1 :: v2 :: rest) vertices = Some normal ->
     exists p0 p1 p2,
       vt_position <$> py_list_get vertices v0 = Some p0 /\
       vt_position <$> py_list_get vertices v1 = Some p1 /\
       vt_position <$> py_list_get vertices v2 = Some p2 /\
       normal = Vector3_normalized (Vector3_cross (Vector3_sub p1 p0) (Vector3_sub p2 p0))).
Proof.
  cbv zeta. unfold Face_calculate_normal.
  pose proof (py_list_get_Some vertices v0) as H0.
  pose proof (py_list_get_Some vertices v1) as H1.
  pose proof (py_list_get_Some vertices v2) as H2.
  destruct (py_list_get vertices v0) as [a0 |]; simpl.
  2:{ split; [| discriminate]. split; [| reflexivity]. intros _ (Ha & _).
      apply H0 in Ha. destruct Ha as [? Ha]. discriminate. }
  destruct (py_list_get vertices v1) as [a1 |]; simpl.
  2:{ split; [| discriminate]. split; [| reflexivity]. intros _ (_ & Ha & _).
      apply H1 in Ha. destruct Ha as [? Ha]. discriminate. }
  destruct (py_list_get vertices v2) as [a2 |]; simpl.
  2:{ split; [| discriminate]. split; [| reflexivity]. intros _ (_ & _ & Ha).
      apply H2 in Ha. destruct Ha as [? Ha]. discriminate. }
  split.
  - split; [discriminate |]. intros Hn. exfalso. apply Hn.
    repeat split; first [apply H0 | apply H1 | apply H2]; eauto.
  - intros normal H. injection H as <-. eexists _, _, _. repeat split.
Qed.

Lemma normalized_cross_normal (e1 e2 : Vector3) :
  let normal := Vector3_normalized (Vector3_cross e1 e2) in
  Vector3_dot normal e1 = 0 /\ Vector3_dot normal e2 = 0 /\
  (Vector3_magnitude normal = 1 \/ normal = Vector3_zero).
Proof.
  cbv zeta.
  assert (Hc1 : Vector3_dot (Vector3_cross e1 e2) e1 = 0)
    by (unfold Vector3_dot, Vector3_cross; simpl; ring).
  assert (Hc2 : Vector3_dot (Vector3_cross e1 e2) e2 = 0)
    by (unfold Vector3_dot, Vector3_cross; simpl; ring).
  set (c := Vector3_cross e1 e2) in *. clearbody c.
  assert (Hzero : forall e, Vector3_dot Vector3_zero e = 0)
    by (intros e; unfold Vector3_dot, Vector3_zero; simpl; ring).
  destruct (Vector3_normalized_magnitude c) as [[Hm H1] | [Hm H0]].
  - destruct (Vector3_normalized_cases c) as [Hz | [Hpos Hs]].
    + rewrite Hz. split; [apply Hzero |]. split; [apply Hzero |]. right. reflexivity.
    + split; [| split; [| left; exact H1]].
      * rewrite Hs. unfold Vector3_dot, Vector3_scale in *; cbn [vx vy vz] in *.
        transitivity (/ Vector3_magnitude c * (vx c * vx e1 + vy c * vy e1 + vz c * vz e1));
          [ring |].
        rewrite Hc1. ring.
      * rewrite Hs. unfold Vector3_dot, Vector3_scale in *; cbn [vx vy vz] in *.
        transitivity (/ Vector3_magnitude c * (vx c * vx e2 + vy c * vy e2 + vz c * vz e2));
          [ring |].
        rewrite Hc2. ring.
  - rewrite H0. split; [apply Hzero |]. split; [apply Hzero |]. right. reflexivity.
Qed.

(** [add_triangle] and [add_quad] raise exactly when one of the first three
    indices is outside [-n, n) for a mesh of n vertices; the fourth index
    of a quad is never checked. On success [add_triangle] returns the old
    face count, leaves the vertices and the bounds cache alone, appends the
    three edges when asked to, and appends one visible face whose normal
    is orthogonal to two sides of the triangle and is of length one, or is
    the zero vector. *)
Theorem Mesh_add_triangle_spec (m : Mesh) (v0 v1 v2 v3 : Z)
    (color : option Color) (add_edges : bool) :
  let n := Z.of_nat (length (mesh_vertices m)) in
  let valid := ((- n <= v0 < n) /\ (- n <= v1 < n) /\ (- n <= v2 < n))%Z in
  (Mesh_add_triangle m v0 v1 v2 color add_edges = None <-> ~ valid) /\
  (Mesh_add_quad m v0 v1 v2 v3 color add_edges = None <-> ~ valid) /\
  (forall idx m', Mesh_add_triangle m v0 v1 v2 color add_edges = Some (idx, m') ->
     idx = Z.of_nat (length (mesh_faces m)) /\
     mesh_vertices m' = mesh_vertices m /\
     mesh_bounds_dirty m' = mesh_bounds_dirty m /\
     mesh_edges m' =
       mesh_edges m ++
         (if add_edges
          then [mkEdge v0 v1 color 1 "solid"; mkEdge v1 v2 color 1 "solid";
                mkEdge v2 v0 color 1 "solid"]
          else []) /\
     exists p0 p1 p2 normal,
       vt_position <$> py_list_get (mesh_vertices m) v0 = Some p0 /\
       vt_position <$> py_list_get (mesh_vertices m) v1 = Some p1 /\
       vt_position <$> py_list_get (mesh_vertices m) v2 = Some p2 /\
       mesh_faces m' = mesh_faces m ++ [mkFace [v0; v1; v2] (Some normal) color true] /\
       Vector3_dot normal (Vector3_sub p1 p0) = 0 /\
       Vector3_dot normal (Vector3_sub p2 p0) = 0 /\
       (Vector3_magnitude normal = 1 \/ normal = Vector3_zero)).
Proof.
  cbv zeta.
  destruct (Face_calculate_normal_spec v0 v1 v2 [] (mesh_vertices m)) as [Hnone Hsome].
  destruct (Face_calculate_normal_spec v0 v1 v2 [v3] (mesh_vertices m)) as [Hnone4 _].
  cbv zeta in Hnone, Hnone4.
  split; [| split].
  - rewrite <- Hnone. unfold Mesh_add_triangle, Mesh_add_face. cbv zeta.
    destruct (Face_calculate_normal [v0; v1; v2] (mesh_vertices m)); simpl.
    + destruct add_edges; split; discriminate.
    + split; reflexivity.
  - rewrite <- Hnone4. unfold Mesh_add_quad, Mesh_add_face. cbv zeta.
    destruct (Face_calculate_normal [v0; v1; v2; v3] (mesh_vertices m)); simpl.
    + destruct add_edges; split; discriminate.
    + split; reflexivity.
  - intros idx m' H. unfold Mesh_add_triangle, Mesh_add_face in H. cbv zeta in H.
    destruct (Face_calculate_normal [v0; v1; v2] (mesh_vertices m)) as [normal |] eqn:Hn;
      [| discriminate].
    destruct (Hsome normal eq_refl) as (p0 & p1 & p2 & Hp0 & Hp1 & Hp2 & Heq).
    destruct (normalized_cross_normal (Vector3_sub p1 p0) (Vector3_sub p2 p0))
      as (Hd1 & Hd2 & Hmag).
    cbv zeta in Hd1, Hd2, Hmag. rewrite <- Heq in Hd1, Hd2, Hmag.
    simpl in H. destruct add_edges; injection H as <- <-; simpl.
    + split; [reflexivity |]. split; [reflexivity |]. split; [reflexivity |].
      split; [rewrite <- !app_assoc; reflexivity |].
      exists p0, p1, p2, normal. repeat split; assumption.
    + split; [reflexivity |]. split; [reflexivity |]. split; [reflexivity |].
      split; [rewrite app_nil_r; reflexivity |].
      exists p0, p1, p2, normal. repeat split; assumption.
Qed.

Lemma Mesh_add_triangle_spec_witness :
  Mesh_add_quad (Mesh_init "m") 0 1 2 3 None true = None.
Proof.
  apply (proj2 (proj1 (proj2 (Mesh_add_triangle_spec (Mesh_init "m") 0 1 2 3 None true)))).
  simpl. lia.
Defined.
